(** * Longhorn manager: node controller and data store

    A shallow embedding of the node reconciler ([NodeController.syncNode]
    and the functions it calls) and of the parts of the data store
    ([datastore/longhorn.go]) it relies on, followed by the properties of
    the reconciler that the design document states.

    Conventions of the embedding:
    - a Go [map[string]V] is a [gmap string V]; where the code tests a map
      against [nil] the map is an [option (gmap string V)], [None] being
      the nil map;
    - a Go function returning [(T, error)] returns a [result T];
    - the reconciler mutates one node object and talks to the API server,
      the event recorder, the work queue and the disk handlers: this is a
      state and error monad [M] over [State];
    - [range] over a Go map visits the keys in an unspecified order: the
      order is [range_order], about which only the permutation law is
      known. *)

From Stdlib Require Import ZArith Ascii String.
From stdpp Require Import base tactics option list gmap fin_maps fin_sets strings pretty.

#[local] Set Warnings "-clear-no-such-hyp".

Open Scope string_scope.
Open Scope list_scope.
Open Scope Z_scope.

(** ** Errors *)

(** The [metav1.StatusReason] values the code distinguishes. *)
Inductive StatusReason :=
| StatusReasonNotFound
| StatusReasonConflict
| StatusReasonAlreadyExists
| StatusReasonUnknown.

(** Go [error] values: an API status error, a plain message
    ([fmt.Errorf], [errors.New]), or an error wrapped by
    [errors.Wrapf]. *)
Inductive error :=
| StatusError (reason : StatusReason) (msg : string)
| ErrorString (msg : string)
| WithMessage (cause : error) (msg : string).

(** [errors.Cause]: the innermost error of a chain of wrappers. *)
Fixpoint errors_Cause (e : error) : error :=
  match e with
  | WithMessage c _ => errors_Cause c
  | _ => e
  end.

(** [apierrors.IsConflict] and [apierrors.IsNotFound] look at the reason
    of a status error; they do not unwrap. *)
Definition apierrors_IsConflict (e : option error) : bool :=
  match e with
  | Some (StatusError StatusReasonConflict _) => true
  | _ => false
  end.

Definition apierrors_IsNotFound (e : error) : bool :=
  match e with
  | StatusError StatusReasonNotFound _ => true
  | _ => false
  end.

(** Modelled from the spec: [datastore.ErrorIsNotFound] is declared in a
    file of the data store that is not part of the sources at hand; the
    design distinguishes not-found structurally. *)
Definition ErrorIsNotFound (e : error) : bool := apierrors_IsNotFound e.

Inductive result (A : Type) :=
| Ok (a : A)
| Err (e : error).
Arguments Ok {A} a.
Arguments Err {A} e.

(** The [error] half of a Go result pair. *)
Definition result_err {A} (r : result A) : option error :=
  match r with Ok _ => None | Err e => Some e end.

(** [errors.Wrapf(err, ...)] is [nil] on a [nil] error. *)
Definition errors_Wrapf (e : option error) (msg : string) : option error :=
  match e with
  | None => None
  | Some c => Some (WithMessage c msg)
  end.

(** ** Integers and strings of the Go runtime *)

Definition wrap64 (z : Z) : Z := (z + 2 ^ 63) `mod` 2 ^ 64 - 2 ^ 63.

Definition int64_add (a b : Z) : Z := wrap64 (a + b).

Definition digit_value (a : ascii) : option Z :=
  let n := Z.of_nat (nat_of_ascii a) in
  if (48 <=? n) && (n <=? 57) then Some (n - 48) else None.

Fixpoint parse_digits (acc : Z) (s : string) : option Z :=
  match s with
  | EmptyString => Some acc
  | String a r =>
      match digit_value a with
      | Some d => parse_digits (acc * 10 + d) r
      | None => None
      end
  end.

Definition parse_magnitude (s : string) : option Z :=
  match s with
  | EmptyString => None
  | _ => parse_digits 0 s
  end.

(** [strconv.ParseInt(s, 10, 64)]. *)
Definition strconv_ParseInt (s : string) : result Z :=
  let signed :=
    match s with
    | String "-"%char r => (fun z => - z) <$> parse_magnitude r
    | String "+"%char r => parse_magnitude r
    | _ => parse_magnitude s
    end in
  match signed with
  | None => Err (ErrorString "strconv.ParseInt: invalid syntax")
  | Some z =>
      if (- 2 ^ 63 <=? z) && (z <? 2 ^ 63) then Ok z
      else Err (ErrorString "strconv.ParseInt: value out of range")
  end.

(** [strconv.ParseBool]. *)
Definition strconv_ParseBool (s : string) : result bool :=
  if bool_decide (s ∈ ["1"; "t"; "T"; "TRUE"; "true"; "True"]) then Ok true
  else if bool_decide (s ∈ ["0"; "f"; "F"; "FALSE"; "false"; "False"]) then Ok false
  else Err (ErrorString "strconv.ParseBool: invalid syntax").

(** The operands of a [fmt.Sprintf] call. *)
Inductive FmtArg :=
| FStr (s : string)
| FInt (z : Z)
| FErr (e : error)
| FStrs (l : list string).

(** ** Conditions *)

Inductive ConditionStatus :=
| ConditionStatusTrue
| ConditionStatusFalse
| ConditionStatusUnknown.

Global Instance ConditionStatus_eq_dec : EqDecision ConditionStatus.
Proof. solve_decision. Defined.

Record Condition := mkCondition {
  cond_Type : string;
  cond_Status : ConditionStatus;
  cond_Reason : string;
  cond_Message : string;
  cond_LastTransitionTime : string;
}.

Global Instance Condition_eq_dec : EqDecision Condition.
Proof. solve_decision. Defined.

Definition NodeConditionTypeReady : string := "Ready".
Definition NodeConditionTypeSchedulable : string := "Schedulable".
Definition NodeConditionTypeMountPropagation : string := "MountPropagation".
Definition DiskConditionTypeReady : string := "Ready".
Definition DiskConditionTypeSchedulable : string := "Schedulable".

Definition NodeConditionReasonManagerPodDown : string := "ManagerPodDown".
Definition NodeConditionReasonManagerPodMissing : string := "ManagerPodMissing".
Definition NodeConditionReasonKubernetesNodeGone : string := "KubernetesNodeGone".
Definition NodeConditionReasonKubernetesNodeNotReady : string := "KubernetesNodeNotReady".
Definition NodeConditionReasonKubernetesNodePressure : string := "KubernetesNodePressure".
Definition NodeConditionReasonUnknownNodeConditionTrue : string := "UnknownNodeConditionTrue".
Definition NodeConditionReasonNoMountPropagationSupport : string := "NoMountPropagationSupport".
Definition NodeConditionReasonKubernetesNodeCordoned : string := "KubernetesNodeCordoned".
Definition DiskConditionReasonDiskPressure : string := "DiskPressure".
Definition DiskConditionReasonDiskFilesystemChanged : string := "DiskFilesystemChanged".
Definition DiskConditionReasonNoDiskInfo : string := "NoDiskInfo".

Definition EventTypeNormal : string := "Normal".
Definition EventTypeWarning : string := "Warning".
Definition EventReasonDelete : string := "Delete".

Record Event := mkEvent {
  ev_Type : string;
  ev_Reason : string;
  ev_Message : string;
}.

(** Modelled from the spec: [types.GetCondition] is not part of the
    sources at hand. A condition is a named, tri-valued facet; a type
    without an entry reads as [Unknown]. *)
Definition GetCondition (conditions : option (gmap string Condition))
    (conditionType : string) : Condition :=
  match conditions ≫= (.!! conditionType) with
  | Some c => c
  | None => mkCondition conditionType ConditionStatusUnknown "" "" ""
  end.

(** Modelled from the spec: [types.SetCondition] is not part of the
    sources at hand. It stores status, reason and message under the
    condition type and stamps [LastTransitionTime] when the status
    changes; a nil map is replaced by a fresh one. *)
Definition SetCondition (now : string) (originConditions : option (gmap string Condition))
    (conditionType : string) (conditionValue : ConditionStatus)
    (reason message : string) : option (gmap string Condition) :=
  let conditions := default ∅ originConditions in
  let old := GetCondition originConditions conditionType in
  let stamp :=
    if decide (cond_Status old = conditionValue) then cond_LastTransitionTime old
    else now in
  Some (<[conditionType := mkCondition conditionType conditionValue reason message stamp]>
          conditions).

(** ** Settings *)

Inductive SettingType :=
| SettingTypeString
| SettingTypeInt
| SettingTypeBool.

Record SettingDefinition := mkSettingDefinition {
  sd_Type : SettingType;
  sd_Required : bool;
  sd_ReadOnly : bool;
  sd_Default : string;
}.

(** [longhorn.Setting]: the object name and the value it carries. *)
Record Setting := mkSetting {
  setting_Name : string;
  setting_Value : string;
}.

Definition SettingNameStorageMinimalAvailablePercentage : string :=
  "storage-minimal-available-percentage".
Definition SettingNameDisableSchedulingOnCordonedNode : string :=
  "disable-scheduling-on-cordoned-node".
Definition SettingNameDefaultInstanceManagerImage : string :=
  "default-instance-manager-image".

(** ** Objects *)

Record DiskSpec := mkDiskSpec {
  disk_Path : string;
  disk_AllowScheduling : bool;
  disk_StorageReserved : Z;
  disk_Tags : list string;
}.

Record DiskStatus := mkDiskStatus {
  dstat_Conditions : option (gmap string Condition);
  dstat_StorageAvailable : Z;
  dstat_StorageScheduled : Z;
  dstat_StorageMaximum : Z;
  dstat_ScheduledReplica : option (gmap string Z);
  dstat_DiskUUID : string;
}.

Global Instance DiskStatus_eq_dec : EqDecision DiskStatus.
Proof. solve_decision. Defined.

(** The zero value [&types.DiskStatus{}]. *)
Definition DiskStatus_zero : DiskStatus := mkDiskStatus None 0 0 0 None "".

Record NodeSpec := mkNodeSpec {
  nspec_Name : string;
  nspec_Disks : gmap string DiskSpec;
  nspec_AllowScheduling : bool;
  nspec_Tags : list string;
}.

Record NodeStatus := mkNodeStatus {
  nstat_Conditions : option (gmap string Condition);
  nstat_DiskStatus : option (gmap string DiskStatus);
  nstat_Region : string;
  nstat_Zone : string;
}.

Global Instance NodeStatus_eq_dec : EqDecision NodeStatus.
Proof. solve_decision. Defined.

(** [longhorn.Node]: the object metadata the code reads, the declared
    spec and the observed status. *)
Record Node := mkNode {
  node_Name : string;
  node_Namespace : string;
  node_UID : string;
  node_ResourceVersion : string;
  node_DeletionTimestamp : option string;
  node_Finalizers : list string;
  node_Spec : NodeSpec;
  node_Status : NodeStatus;
}.

Definition Node_with_Status (n : Node) (st : NodeStatus) : Node :=
  mkNode (node_Name n) (node_Namespace n) (node_UID n) (node_ResourceVersion n)
    (node_DeletionTimestamp n) (node_Finalizers n) (node_Spec n) st.

Definition Node_with_Finalizers (n : Node) (fs : list string) : Node :=
  mkNode (node_Name n) (node_Namespace n) (node_UID n) (node_ResourceVersion n)
    (node_DeletionTimestamp n) fs (node_Spec n) (node_Status n).

Definition NodeStatus_with_Conditions (st : NodeStatus)
    (c : option (gmap string Condition)) : NodeStatus :=
  mkNodeStatus c (nstat_DiskStatus st) (nstat_Region st) (nstat_Zone st).

Definition NodeStatus_with_DiskStatus (st : NodeStatus)
    (d : option (gmap string DiskStatus)) : NodeStatus :=
  mkNodeStatus (nstat_Conditions st) d (nstat_Region st) (nstat_Zone st).

Definition NodeStatus_with_RegionZone (st : NodeStatus) (rz : string * string) : NodeStatus :=
  mkNodeStatus (nstat_Conditions st) (nstat_DiskStatus st) rz.1 rz.2.

Definition DiskStatus_with_Conditions (d : DiskStatus)
    (c : option (gmap string Condition)) : DiskStatus :=
  mkDiskStatus c (dstat_StorageAvailable d) (dstat_StorageScheduled d)
    (dstat_StorageMaximum d) (dstat_ScheduledReplica d) (dstat_DiskUUID d).

Definition DiskStatus_with_DiskUUID (d : DiskStatus) (u : string) : DiskStatus :=
  mkDiskStatus (dstat_Conditions d) (dstat_StorageAvailable d) (dstat_StorageScheduled d)
    (dstat_StorageMaximum d) (dstat_ScheduledReplica d) u.

Definition DiskStatus_with_Storage (d : DiskStatus) (maximum available : Z) : DiskStatus :=
  mkDiskStatus (dstat_Conditions d) available (dstat_StorageScheduled d)
    maximum (dstat_ScheduledReplica d) (dstat_DiskUUID d).

Definition DiskStatus_with_Scheduled (d : DiskStatus) (scheduled : Z)
    (replicas : option (gmap string Z)) : DiskStatus :=
  mkDiskStatus (dstat_Conditions d) (dstat_StorageAvailable d) scheduled
    (dstat_StorageMaximum d) replicas (dstat_DiskUUID d).

(** Kubernetes pods and nodes, as far as the reconciler looks at them.
    The API server rejects a pod without containers, so the first
    container is always there. *)
Record VolumeMount := mkVolumeMount {
  vm_Name : string;
  vm_MountPropagation : option string;
}.

Record Container := mkContainer {
  ctr_Name : string;
  ctr_VolumeMounts : list VolumeMount;
}.

Record PodCondition := mkPodCondition {
  pc_Type : string;
  pc_Status : string;
}.

Record Pod := mkPod {
  pod_Name : string;
  pod_NodeName : string;
  pod_Containers : Container * list Container;
  pod_Conditions : list PodCondition;
  pod_Phase : string;
}.

Record NodeCondition := mkNodeCondition {
  kc_Type : string;
  kc_Status : string;
  kc_Reason : string;
  kc_Message : string;
}.

Record KubeNode := mkKubeNode {
  kn_Name : string;
  kn_Labels : gmap string string;
  kn_Unschedulable : bool;
  kn_Conditions : list NodeCondition;
}.

Definition v1_ConditionTrue : string := "True".
Definition v1_PodReady : string := "Ready".
Definition v1_PodRunning : string := "Running".
Definition v1_NodeReady : string := "Ready".
Definition v1_NodeOutOfDisk : string := "OutOfDisk".
Definition v1_NodeDiskPressure : string := "DiskPressure".
Definition v1_NodePIDPressure : string := "PIDPressure".
Definition v1_NodeMemoryPressure : string := "MemoryPressure".
Definition v1_NodeNetworkUnavailable : string := "NetworkUnavailable".
Definition v1_MountPropagationBidirectional : string := "Bidirectional".
Definition LonghornSystemKey : string := "longhorn-system".
Definition KubernetesTopologyLabelsVersion : string := "v1.17.0".

Record Replica := mkReplica {
  replica_Name : string;
  replica_NodeID : string;
  replica_DiskID : string;
  replica_VolumeSize : Z;
}.

(** Instance managers. [InstanceManagerType], [InstanceManagerState] and
    [InstanceState] are string types in the code. *)
Definition InstanceManagerTypeEngine : string := "engine".
Definition InstanceManagerTypeReplica : string := "replica".
Definition InstanceManagerStateRunning : string := "running".
Definition InstanceStateRunning : string := "running".
Definition InstanceStateStarting : string := "starting".
Definition InstanceStateStopped : string := "stopped".
Definition InstanceStateError : string := "error".

Record OwnerReference := mkOwnerReference {
  or_APIVersion : string;
  or_Kind : string;
  or_Name : string;
  or_UID : string;
  or_BlockOwnerDeletion : option bool;
}.

Record InstanceManagerSpec := mkInstanceManagerSpec {
  imspec_Image : string;
  imspec_NodeID : string;
  imspec_Type : string;
}.

(** [InstanceManagerStatus]: [Instances] maps an instance name to the
    state of its process ([instance.Status.State]). *)
Record InstanceManagerStatus := mkInstanceManagerStatus {
  imstat_CurrentState : string;
  imstat_Instances : gmap string string;
}.

Record InstanceManager := mkInstanceManager {
  im_Name : string;
  im_Labels : gmap string string;
  im_OwnerReferences : list OwnerReference;
  im_Finalizers : list string;
  im_DeletionTimestamp : option string;
  im_Spec : InstanceManagerSpec;
  im_Status : InstanceManagerStatus;
}.

Global Instance OwnerReference_eq_dec : EqDecision OwnerReference.
Proof. solve_decision. Defined.

Global Instance InstanceManagerSpec_eq_dec : EqDecision InstanceManagerSpec.
Proof. solve_decision. Defined.

Global Instance InstanceManagerStatus_eq_dec : EqDecision InstanceManagerStatus.
Proof. solve_decision. Defined.

Global Instance InstanceManager_eq_dec : EqDecision InstanceManager.
Proof. solve_decision. Defined.

Definition InstanceManager_with_Finalizers (im : InstanceManager) (fs : list string)
    : InstanceManager :=
  mkInstanceManager (im_Name im) (im_Labels im) (im_OwnerReferences im) fs
    (im_DeletionTimestamp im) (im_Spec im) (im_Status im).

Definition InstanceManager_with_DeletionTimestamp (im : InstanceManager) (t : option string)
    : InstanceManager :=
  mkInstanceManager (im_Name im) (im_Labels im) (im_OwnerReferences im) (im_Finalizers im)
    t (im_Spec im) (im_Status im).

(** Disk probe and disk tag file (design sections 4.A and 4.B). *)
Record DiskInfo := mkDiskInfo {
  di_Fsid : string;
  di_StorageMaximum : Z;
  di_StorageAvailable : Z;
}.

Record DiskConfig := mkDiskConfig {
  dc_DiskUUID : string;
}.

(** The group, version and kinds of the custom resources. *)
Definition SchemeGroupVersion_Group : string := "longhorn.io".
Definition SchemeGroupVersion_String : string := "longhorn.io/v1beta1".
Definition LonghornKindNode : string := "Node".
Definition longhornFinalizerKey : string := SchemeGroupVersion_Group.
Definition VerificationRetryCounts : nat := 20.

(** Label keys and values of instance managers. *)
Definition GetLonghornLabelKey (name : string) : string := "longhorn.io/" +:+ name.
Definition LonghornLabelNode : string := "node".
Definition LonghornLabelInstanceManagerType : string := "instance-manager-type".
Definition LonghornLabelInstanceManagerImage : string := "instance-manager-image".
Definition LonghornLabelComponent : string := "component".
Definition LonghornLabelInstanceManager : string := "instance-manager".

(** ** What lies outside the sources at hand

    Library functions and tables of the [types] package on which no
    property below depends except through the stated laws. *)
Class Externals := {
  (** [fmt.Sprintf]. *)
  Sprintf : string → list FmtArg → string;
  (** The order in which a [range] statement, identified by its site,
      visits the keys of a map. *)
  range_order : string → list string → list string;
  range_order_perm : ∀ site l, range_order site l ≡ₚ l;
  (** [types.SettingDefinitions]. *)
  SettingDefinitions : gmap string SettingDefinition;
  (** [types.ErrorIsNotFound], for the errors of the disk tag store. *)
  types_ErrorIsNotFound : error → bool;
  (** [types.GetInstanceManagerName]. *)
  GetInstanceManagerName : string → result string;
  (** The fingerprint of an image that goes into the image label. *)
  GetInstanceManagerImageChecksumName : string → string;
  (** [types.GetRegionAndZone]. *)
  GetRegionAndZone : gmap string string → bool → string * string;
}.

(** Modelled from the spec: [types.GetInstanceManagerLabels] is not part
    of the sources at hand. The labels encode component, type, node and
    image; node and image are left out when empty, which is how
    [ListInstanceManagersByNode] selects by node and type alone. *)
Definition GetInstanceManagerLabels `{Externals} (node instanceManagerImage managerType : string)
    : gmap string string :=
  let labels : gmap string string :=
    <[GetLonghornLabelKey LonghornLabelInstanceManagerType := managerType]>
      {[GetLonghornLabelKey LonghornLabelComponent := LonghornLabelInstanceManager]} in
  let labels :=
    if decide (node = "") then labels
    else <[GetLonghornLabelKey LonghornLabelNode := node]> labels in
  if decide (instanceManagerImage = "") then labels
  else <[GetLonghornLabelKey LonghornLabelInstanceManagerImage :=
           GetInstanceManagerImageChecksumName instanceManagerImage]> labels.

(** A [MatchLabels] selector matches the objects that carry each of its
    labels. *)
Definition selector_matches (sel labels : gmap string string) : bool :=
  bool_decide (map_Forall (λ k v, labels !! k = Some v) sel).

(** ** The state of a reconcile and the data store *)

(** The write requests that reach the API server. *)
Inductive ApiCall :=
| CallUpdateNodeStatus (n : Node)
| CallUpdateNode (n : Node)
| CallCreateInstanceManager (im : InstanceManager)
| CallDeleteInstanceManager (name : string).

(** [DataStore]: the informer caches the reconciler reads (each lister
    answers with an object or an error) and the outcome of the requests
    sent to the API server. The cache of instance managers is the store
    itself, see [State]. *)
Record DataStore := mkDataStore {
  ds_namespace : string;
  ds_sLister : string → result Setting;
  ds_nLister : string → result Node;
  ds_ListManagerPods : result (list Pod);
  ds_GetKubernetesNode : string → result KubeNode;
  (** the replicas carrying the node label, or the error of building
      the selector or of listing *)
  ds_rLister : string → result (list Replica);
  (** the error, if any, of listing instance managers by a selector *)
  ds_imLister_fault : gmap string string → option error;
  (** the error, if any, with which the API server answers a request *)
  ds_api_fault : ApiCall → option error;
  ds_SkipListerCheck : bool;
}.

Section Model.
Context `{Externals} {FS : Type}.

(** [State]: everything a reconcile reads and writes. [st_node] is the
    local [node] of [syncNode], the deep copy that [GetNode] returned;
    [st_ims] holds the instance managers of the API server by name;
    [st_fs] is whatever the disk handlers keep (the tag files);
    [st_calls] lists the requests sent so far, the latest first. *)
Record State := mkState {
  st_node : Node;
  st_events : list Event;
  st_queue : list string;
  st_ims : gmap string InstanceManager;
  st_fs : FS;
  st_calls : list ApiCall;
  st_now : string;
}.

Definition State_with_node (s : State) (n : Node) : State :=
  mkState n (st_events s) (st_queue s) (st_ims s) (st_fs s) (st_calls s) (st_now s).

Definition State_with_events (s : State) (e : list Event) : State :=
  mkState (st_node s) e (st_queue s) (st_ims s) (st_fs s) (st_calls s) (st_now s).

Definition State_with_queue (s : State) (q : list string) : State :=
  mkState (st_node s) (st_events s) q (st_ims s) (st_fs s) (st_calls s) (st_now s).

Definition State_with_ims (s : State) (i : gmap string InstanceManager) : State :=
  mkState (st_node s) (st_events s) (st_queue s) i (st_fs s) (st_calls s) (st_now s).

Definition State_with_fs (s : State) (f : FS) : State :=
  mkState (st_node s) (st_events s) (st_queue s) (st_ims s) f (st_calls s) (st_now s).

Definition State_with_calls (s : State) (c : list ApiCall) : State :=
  mkState (st_node s) (st_events s) (st_queue s) (st_ims s) (st_fs s) c (st_now s).

(** The monad of the reconciler: state passing, and an error ends the
    computation with the state reached so far. *)
Definition M (A : Type) : Type := State → State * result A.

Definition ret {A} (a : A) : M A := λ s, (s, Ok a).

Definition bind {A B} (m : M A) (f : A → M B) : M B :=
  λ s, match m s with
       | (s', Ok a) => f a s'
       | (s', Err e) => (s', Err e)
       end.

Definition fail {A} (e : error) : M A := λ s, (s, Err e).

Definition lift {A} (r : result A) : M A := λ s, (s, r).

Definition get : M State := λ s, (s, Ok s).

Definition modify (f : State → State) : M unit := λ s, (f s, Ok tt).

(** Run a computation and hand its error to the caller ([err := f()]
    followed by code that looks at [err]). *)
Definition try {A} (m : M A) : M (result A) := λ s, let '(s', r) := m s in (s', Ok r).

Definition exec {A} (m : M A) (s : State) : State := (m s).1.

Definition outcome {A} (m : M A) (s : State) : result A := (m s).2.

End Model.

Arguments State : clear implicits.
Arguments M : clear implicits.

Declare Scope go_scope.
Delimit Scope go_scope with go.
Notation "x <- m ;; k" := (bind m (λ x, k))
  (at level 100, m at next level, right associativity) : go_scope.
Notation "m ;; k" := (bind m (λ _, k))
  (at level 100, right associativity) : go_scope.
Open Scope go_scope.

Section Runtime.
Context `{Externals} {FS : Type}.
Implicit Types s : State FS.

(** [for _, x := range l { f x }] where [f] may return an error. *)
Fixpoint forM_ {A} (l : list A) (f : A → M FS unit) : M FS unit :=
  match l with
  | [] => ret tt
  | x :: l' => f x ;; forM_ l' f
  end.

(** The keys and the values of a map in the order of a [range]. *)
Definition range_keys {V} (site : string) (m : gmap string V) : list string :=
  range_order site (map_to_list m).*1.

Definition range_values {V} (site : string) (m : gmap string V) : list V :=
  omap (λ k, m !! k) (range_keys site m).

Definition get_node : M FS Node := λ s, (s, Ok (st_node s)).

Definition modify_status (f : NodeStatus → NodeStatus) : M FS unit :=
  modify (λ s, State_with_node s (Node_with_Status (st_node s) (f (node_Status (st_node s))))).

Definition record_event (e : Event) : M FS unit :=
  modify (λ s, State_with_events s (e :: st_events s)).

Definition send (c : ApiCall) : M FS unit :=
  modify (λ s, State_with_calls s (c :: st_calls s)).

(** Modelled from the spec: [types.SetConditionAndRecord] is not part of
    the sources at hand. It emits an event carrying the reason and the
    message of the condition unless neither status nor message changes,
    then sets the condition. *)
Definition SetConditionAndRecord (conditions : option (gmap string Condition))
    (conditionType : string) (conditionValue : ConditionStatus)
    (reason message eventtype : string) : M FS (option (gmap string Condition)) :=
  let condition := GetCondition conditions conditionType in
  (if decide (cond_Status condition = conditionValue ∧ cond_Message condition = message)
   then ret tt
   else record_event (mkEvent eventtype reason message)) ;;
  s <- get ;;
  ret (SetCondition (st_now s) conditions conditionType conditionValue reason message).

End Runtime.

(** ** The data store ([datastore/longhorn.go]) *)

Section DataStoreModel.
Context `{Externals} {FS : Type}.
Implicit Types s : DataStore.

Definition getSettingRO s (name : string) : result Setting := ds_sLister s name.

(** [GetSetting], with the setting pointer and the error it returns kept
    as a pair; [DeepCopy] is the identity on values. *)
Definition GetSetting s (sName : string) : option Setting * option error :=
  match SettingDefinitions !! sName with
  | None => (None, Some (ErrorString (Sprintf "setting %v is not supported" [FStr sName])))
  | Some definition =>
      match getSettingRO s sName with
      | Err err =>
          if negb (ErrorIsNotFound err) then (None, Some err)
          else (Some (mkSetting sName (sd_Default definition)), None)
      | Ok resultRO => (Some resultRO, None)
      end
  end.

(** A caller of [GetSetting] reads the setting after the check of the
    error; on a nil setting this read would be a nil dereference, which
    [GetSetting] never causes (see the theorem on [GetSetting]). *)
Definition setting_of_pair (r : option Setting * option error) : result Setting :=
  match r with
  | (_, Some err) => Err err
  | (Some setting, None) => Ok setting
  | (None, None) => Err (ErrorString "invalid memory address or nil pointer dereference")
  end.

Definition GetSettingValueExisted s (sName : string) : result string :=
  match setting_of_pair (GetSetting s sName) with
  | Err err => Err err
  | Ok setting =>
      if decide (setting_Value setting = "")
      then Err (ErrorString (Sprintf "setting %v is empty" [FStr sName]))
      else Ok (setting_Value setting)
  end.

Definition GetSettingAsInt s (settingName : string) : result Z :=
  match SettingDefinitions !! settingName with
  | None => Err (ErrorString (Sprintf "setting %v is not supported" [FStr settingName]))
  | Some definition =>
      match setting_of_pair (GetSetting s settingName) with
      | Err err => Err err
      | Ok settings =>
          let value := setting_Value settings in
          match sd_Type definition with
          | SettingTypeInt => strconv_ParseInt value
          | _ => Err (ErrorString
                   (Sprintf "The %v setting value couldn't change to integer, value is %v "
                      [FStr settingName; FStr value]))
          end
      end
  end.

Definition GetSettingAsBool s (settingName : string) : result bool :=
  match SettingDefinitions !! settingName with
  | None => Err (ErrorString (Sprintf "setting %v is not supported" [FStr settingName]))
  | Some definition =>
      match setting_of_pair (GetSetting s settingName) with
      | Err err => Err err
      | Ok settings =>
          let value := setting_Value settings in
          match sd_Type definition with
          | SettingTypeBool => strconv_ParseBool value
          | _ => Err (ErrorString
                   (Sprintf "The %v setting value couldn't be converted to bool, value is %v "
                      [FStr settingName; FStr value]))
          end
      end
  end.

Definition GetNode s (name : string) : result Node := ds_nLister s name.

(** [UpdateNodeStatus]: the request goes to the API server; the check of
    the resource version that follows only logs. *)
Definition UpdateNodeStatus s (node : Node) : M FS unit :=
  send (CallUpdateNodeStatus node) ;;
  match ds_api_fault s (CallUpdateNodeStatus node) with
  | Some err => fail err
  | None => ret tt
  end.

(** [RemoveFinalizerForNode], applied to the node under reconciliation. *)
Definition RemoveFinalizerForNode s : M FS unit :=
  obj <- get_node ;;
  if negb (bool_decide (longhornFinalizerKey ∈ node_Finalizers obj)) then ret tt
  else
    let obj' := Node_with_Finalizers obj
                  (filter (λ f, f ≠ longhornFinalizerKey) (node_Finalizers obj)) in
    modify (λ st, State_with_node st obj') ;;
    send (CallUpdateNode obj') ;;
    match ds_api_fault s (CallUpdateNode obj') with
    | Some err =>
        if bool_decide (node_DeletionTimestamp obj' ≠ None) then ret tt
        else fail (WithMessage err
                     (Sprintf "unable to remove finalizer for node %v" [FStr (node_Name obj')]))
    | None => ret tt
    end.

Definition ListReplicasByNode s (name : string) : result (gmap string (list Replica)) :=
  match ds_rLister s name with
  | Err err => Err err
  | Ok replicaList =>
      Ok (foldl (λ (replicaDiskMap : gmap string (list Replica)) replica,
                   <[replica_DiskID replica :=
                       (default [] (replicaDiskMap !! replica_DiskID replica)
                          ++ [replica])%list]>
                     replicaDiskMap)
            ∅ replicaList)
  end.

Definition GetOwnerReferencesForNode (node : Node) : list OwnerReference :=
  [mkOwnerReference SchemeGroupVersion_String LonghornKindNode (node_Name node)
     (node_UID node) (Some true)].

Definition getInstanceManagerRO (name : string) : M FS InstanceManager :=
  st <- get ;;
  match st_ims st !! name with
  | Some im => ret im
  | None => fail (StatusError StatusReasonNotFound name)
  end.

(** [verifyCreation]: up to [VerificationRetryCounts] reads of the cache,
    until the object is there or the error is not a not-found. *)
Fixpoint verifyCreation_loop (i : nat) (name : string)
    (last : option (result InstanceManager)) : M FS (option (result InstanceManager)) :=
  match i with
  | O => ret last
  | S i' =>
      r <- try (getInstanceManagerRO name) ;;
      match r with
      | Ok _ => ret (Some r)
      | Err err =>
          if negb (ErrorIsNotFound err) then ret (Some r)
          else verifyCreation_loop i' name (Some r)
      end
  end.

Definition verifyCreation (name kind : string) : M FS InstanceManager :=
  r <- verifyCreation_loop VerificationRetryCounts name None ;;
  match r with
  | Some (Err err) =>
      fail (ErrorString (Sprintf "Unable to verify the existance of newly created %s %s: %v"
                           [FStr kind; FStr name; FErr err]))
  | Some (Ok im) => ret im
  | None =>
      fail (ErrorString
              "BUG: datastore: verifyCreation returned wrong type for instance manager")
  end.

(** [CreateInstanceManager]. [util.AddFinalizer] appends the finalizer
    unless the object carries it already. The API server refuses a name
    that is taken. *)
Definition CreateInstanceManager s (im : InstanceManager) : M FS InstanceManager :=
  let im :=
    if bool_decide (longhornFinalizerKey ∈ im_Finalizers im) then im
    else InstanceManager_with_Finalizers im (im_Finalizers im ++ [longhornFinalizerKey])%list in
  send (CallCreateInstanceManager im) ;;
  match ds_api_fault s (CallCreateInstanceManager im) with
  | Some err => fail err
  | None =>
      st <- get ;;
      match st_ims st !! im_Name im with
      | Some _ => fail (StatusError StatusReasonAlreadyExists (im_Name im))
      | None =>
          modify (λ st, State_with_ims st (<[im_Name im := im]> (st_ims st))) ;;
          if ds_SkipListerCheck s then ret im
          else verifyCreation (im_Name im) "instance manager"
      end
  end.

(** [DeleteInstanceManager]: a delete request. The API server removes an
    object without finalizers and marks one with finalizers as being
    deleted. *)
Definition DeleteInstanceManager s (name : string) : M FS unit :=
  send (CallDeleteInstanceManager name) ;;
  match ds_api_fault s (CallDeleteInstanceManager name) with
  | Some err => fail err
  | None =>
      st <- get ;;
      match st_ims st !! name with
      | None => fail (StatusError StatusReasonNotFound name)
      | Some im =>
          match im_Finalizers im with
          | [] => modify (λ st, State_with_ims st (delete name (st_ims st)))
          | _ =>
              let t := match im_DeletionTimestamp im with
                       | Some t => Some t
                       | None => Some (st_now st)
                       end in
              modify (λ st, State_with_ims st
                              (<[name := InstanceManager_with_DeletionTimestamp im t]>
                                 (st_ims st)))
          end
      end
  end.

Definition ListInstanceManagersBySelector s (node instanceManagerImage managerType : string)
    : M FS (gmap string InstanceManager) :=
  let selector := GetInstanceManagerLabels node instanceManagerImage managerType in
  match ds_imLister_fault s selector with
  | Some err => fail err
  | None =>
      st <- get ;;
      let listRO :=
        filter (λ im, selector_matches selector (im_Labels im) = true)
          (range_values "imLister.List" (st_ims st)) in
      ret (foldl (λ (itemMap : gmap string InstanceManager) itemRO,
                    <[im_Name itemRO := itemRO]> itemMap) ∅ listRO)
  end.

Definition ListInstanceManagersByNode s (node imType : string)
    : M FS (gmap string InstanceManager) :=
  ListInstanceManagersBySelector s node "" imType.

End DataStoreModel.

(** ** The scheduling predicate (design section 4.C) *)

Record DiskSchedulingInfo := mkDiskSchedulingInfo {
  dsi_StorageAvailable : Z;
  dsi_StorageMaximum : Z;
  dsi_StorageReserved : Z;
  dsi_StorageScheduled : Z;
}.

(** Modelled from the spec: the [scheduler] package is not part of the
    sources at hand. [GetDiskSchedulingInfo] projects a disk into
    maximum, available, reserved and scheduled storage. *)
Definition GetDiskSchedulingInfo (disk : DiskSpec) (diskStatus : DiskStatus)
    : result DiskSchedulingInfo :=
  Ok (mkDiskSchedulingInfo (dstat_StorageAvailable diskStatus)
        (dstat_StorageMaximum diskStatus) (disk_StorageReserved disk)
        (dstat_StorageScheduled diskStatus)).

(** Modelled from the spec: [IsSchedulableToDisk] is not part of the
    sources at hand. It holds iff
    [available - required_size >= max(reserved, maximum * percentage / 100)],
    the percentage being the setting [StorageMinimalAvailablePercentage];
    the division is that of Go integers. *)
Definition IsSchedulableToDisk (minimal_available_percentage : Z)
    (required_size required_reserved : Z) (info : DiskSchedulingInfo) : bool :=
  bool_decide
    (Z.max (dsi_StorageReserved info)
       (Z.quot (dsi_StorageMaximum info * minimal_available_percentage) 100)
     ≤ dsi_StorageAvailable info - required_size).

(** ** The node controller *)

Section NodeControllerModel.
Context `{Externals} {FS : Type}.

(** [NodeController]: its identity, the data store and the handlers of
    the disk probe, the version check and the disk tag store. The disk
    handlers see the state [FS] they keep; [generateDiskConfig] changes
    it. *)
Record NodeController := mkNodeController {
  nc_namespace : string;
  nc_controllerID : string;
  nc_ds : DataStore;
  nc_getDiskInfoHandler : string → FS → result DiskInfo;
  nc_topologyLabelsChecker : string → result bool;
  nc_getDiskConfig : string → FS → result DiskConfig;
  nc_generateDiskConfig : string → FS → FS * result DiskConfig;
}.

Implicit Types nc : NodeController.

Fixpoint foldM {A B} (f : B → A → M FS B) (l : list A) (b : B) : M FS B :=
  match l with
  | [] => ret b
  | x :: l' => b' <- f b x ;; foldM f l' b'
  end.

(** [node.Status.DiskStatus] of the node under reconciliation. *)
Definition diskStatusMap_of (node : Node) : gmap string DiskStatus :=
  default ∅ (nstat_DiskStatus (node_Status node)).

(** [diskStatusMap[id]], a pointer in the code: reads go through
    [diskStatusMap_lookup], writes to the object it points at through
    [diskStatusMap_alter]. Every id the code uses has an entry. *)
Definition diskStatusMap_lookup (id : string) : M FS DiskStatus :=
  node <- get_node ;;
  ret (default DiskStatus_zero (diskStatusMap_of node !! id)).

Definition diskStatusMap_alter (id : string) (f : DiskStatus → DiskStatus) : M FS unit :=
  modify_status (λ st, NodeStatus_with_DiskStatus st (alter f id <$> nstat_DiskStatus st)).

(** [diskStatusMap[id].Conditions = types.SetConditionAndRecord(
    diskStatusMap[id].Conditions, ...)]. *)
Definition setDiskCondition (id conditionType : string) (conditionValue : ConditionStatus)
    (reason message eventtype : string) : M FS unit :=
  diskStatus <- diskStatusMap_lookup id ;;
  conditions <- SetConditionAndRecord (dstat_Conditions diskStatus) conditionType
                  conditionValue reason message eventtype ;;
  diskStatusMap_alter id (λ d, DiskStatus_with_Conditions d conditions).

(** [getDiskInfoMap]: one probe per disk of the spec. *)
Definition getDiskInfoMap nc (node : Node) (fs : FS) : gmap string (result DiskInfo) :=
  (λ disk, nc_getDiskInfoHandler nc (disk_Path disk) fs) <$> nspec_Disks (node_Spec node).

Definition isFSIDDuplicatedWithExistingReadyDisk (name : string) (disks : list string)
    (diskStatusMap : gmap string DiskStatus) : bool :=
  if decide (1 < length disks)%nat then
    existsb (λ otherName,
               let diskReady :=
                 GetCondition
                   (dstat_Conditions (default DiskStatus_zero (diskStatusMap !! otherName)))
                   DiskConditionTypeReady in
               bool_decide (otherName ≠ name)
               && bool_decide (cond_Status diskReady = ConditionStatusTrue))
      disks
  else false.

(** Lines 707-722: one disk of the spec gets its status entry. *)
Definition syncDiskStatus_init (m : gmap string DiskStatus) (id : string)
    : gmap string DiskStatus :=
  let diskStatus := default DiskStatus_zero (m !! id) in
  <[id := mkDiskStatus (Some (default ∅ (dstat_Conditions diskStatus))) 0
            (dstat_StorageScheduled diskStatus) 0
            (Some (default ∅ (dstat_ScheduledReplica diskStatus)))
            (dstat_DiskUUID diskStatus)]> m.

(** Lines 723-727: a status entry without a disk in the spec goes. *)
Definition syncDiskStatus_prune (disks : gmap string DiskSpec) (m : gmap string DiskStatus)
    (id : string) : gmap string DiskStatus :=
  if decide (disks !! id = None) then delete id m else m.

Definition syncDiskStatus_keys (node : Node) : NodeStatus → NodeStatus :=
  λ st,
    let disks := nspec_Disks (node_Spec node) in
    let m0 := default ∅ (nstat_DiskStatus st) in
    let m1 := foldl syncDiskStatus_init m0 (range_keys "syncDiskStatus.spec" disks) in
    let m2 := foldl (syncDiskStatus_prune disks) m1 (range_keys "syncDiskStatus.status" m1) in
    NodeStatus_with_DiskStatus st (Some m2).

Definition DiskSpec_zero : DiskSpec := mkDiskSpec "" false 0 [].
Definition DiskInfo_zero : DiskInfo := mkDiskInfo "" 0 0.

Definition disk_of (node : Node) (id : string) : DiskSpec :=
  default DiskSpec_zero (nspec_Disks (node_Spec node) !! id).

(** Lines 734-747: a failed probe makes the disk not ready, the other
    disks are grouped by the filesystem id of their probe. *)
Definition syncDiskStatus_group (node : Node) (diskInfoMap : gmap string (result DiskInfo))
    (fsid2Disks : gmap string (list string)) (id : string)
    : M FS (gmap string (list string)) :=
  match diskInfoMap !! id with
  | Some (Err err) =>
      setDiskCondition id DiskConditionTypeReady ConditionStatusFalse
        DiskConditionReasonNoDiskInfo
        (Sprintf "Disk %v(%v) on node %v is not ready: Get disk information error: %v"
           [FStr id; FStr (disk_Path (disk_of node id)); FStr (node_Name node); FErr err])
        EventTypeWarning ;;
      ret fsid2Disks
  | Some (Ok entry) =>
      ret (<[di_Fsid entry := (default [] (fsid2Disks !! di_Fsid entry) ++ [id])%list]>
             fsid2Disks)
  | None => ret fsid2Disks
  end.

(** Lines 815-823: the disk is ready when the recorded UUID is the one
    on the disk. *)
Definition syncDiskStatus_ready_final (node : Node)
    (diskInfoMap : gmap string (result DiskInfo)) (id diskUUID : string) : M FS unit :=
  diskStatus <- diskStatusMap_lookup id ;;
  if decide (dstat_DiskUUID diskStatus = diskUUID) then
    let entry := match diskInfoMap !! id with
                 | Some (Ok entry) => entry
                 | _ => DiskInfo_zero
                 end in
    diskStatusMap_alter id
      (λ d, DiskStatus_with_Storage d (di_StorageMaximum entry) (di_StorageAvailable entry)) ;;
    setDiskCondition id DiskConditionTypeReady ConditionStatusTrue ""
      (Sprintf "Disk %v(%v) on node %v is ready"
         [FStr id; FStr (disk_Path (disk_of node id)); FStr (node_Name node)])
      EventTypeNormal
  else ret tt.

(** Lines 768-813, with [diskUUID] read from the tag file or empty. *)
Definition syncDiskStatus_ready_uuid nc (node : Node)
    (diskInfoMap : gmap string (result DiskInfo)) (fsid : string) (disks : list string)
    (id diskUUID : string) : M FS unit :=
  let disk := disk_of node id in
  diskStatus <- diskStatusMap_lookup id ;;
  if decide (dstat_DiskUUID diskStatus = "") then
    cur <- get_node ;;
    if isFSIDDuplicatedWithExistingReadyDisk id disks (diskStatusMap_of cur) then
      setDiskCondition id DiskConditionTypeReady ConditionStatusFalse
        DiskConditionReasonDiskFilesystemChanged
        (Sprintf "Disk %v(%v) on node %v is not ready: disk has same file system ID %v as other disks %+v"
           [FStr id; FStr (disk_Path disk); FStr (node_Name node); FStr fsid; FStrs disks])
        EventTypeWarning
    else if decide (diskUUID = "") then
      st <- get ;;
      let '(fs', r) := nc_generateDiskConfig nc (disk_Path disk) (st_fs st) in
      modify (λ st, State_with_fs st fs') ;;
      match r with
      | Err err =>
          setDiskCondition id DiskConditionTypeReady ConditionStatusFalse
            DiskConditionReasonNoDiskInfo
            (Sprintf "Disk %v(%v) on node %v is not ready: failed to generate disk config: error: %v"
               [FStr id; FStr (disk_Path disk); FStr (node_Name node); FErr err])
            EventTypeWarning
      | Ok diskConfig =>
          diskStatusMap_alter id (λ d, DiskStatus_with_DiskUUID d (dc_DiskUUID diskConfig)) ;;
          syncDiskStatus_ready_final node diskInfoMap id (dc_DiskUUID diskConfig)
      end
    else
      diskStatusMap_alter id (λ d, DiskStatus_with_DiskUUID d diskUUID) ;;
      syncDiskStatus_ready_final node diskInfoMap id diskUUID
  else
    (if decide (diskUUID = "") then
       setDiskCondition id DiskConditionTypeReady ConditionStatusFalse
         DiskConditionReasonDiskFilesystemChanged
         (Sprintf "Disk %v(%v) on node %v is not ready: cannot find disk config file, maybe due to a mount error"
            [FStr id; FStr (disk_Path disk); FStr (node_Name node)])
         EventTypeWarning
     else if decide (dstat_DiskUUID diskStatus ≠ diskUUID) then
       setDiskCondition id DiskConditionTypeReady ConditionStatusFalse
         DiskConditionReasonDiskFilesystemChanged
         (Sprintf "Disk %v(%v) on node %v is not ready: record diskUUID doesn't match the one on the disk "
            [FStr id; FStr (disk_Path disk); FStr (node_Name node)])
         EventTypeWarning
     else ret tt) ;;
    syncDiskStatus_ready_final node diskInfoMap id diskUUID.

(** Lines 750-824: the body of the loop over the disks of one
    filesystem id. *)
Definition syncDiskStatus_ready nc (node : Node)
    (diskInfoMap : gmap string (result DiskInfo)) (fsid : string) (disks : list string)
    (id : string) : M FS unit :=
  let disk := disk_of node id in
  st <- get ;;
  match nc_getDiskConfig nc (disk_Path disk) (st_fs st) with
  | Err err =>
      if negb (types_ErrorIsNotFound err) then
        setDiskCondition id DiskConditionTypeReady ConditionStatusFalse
          DiskConditionReasonNoDiskInfo
          (Sprintf "Disk %v(%v) on node %v is not ready: failed to get disk config: error: %v"
             [FStr id; FStr (disk_Path disk); FStr (node_Name node); FErr err])
          EventTypeWarning
      else syncDiskStatus_ready_uuid nc node diskInfoMap fsid disks id ""
  | Ok diskConfig =>
      syncDiskStatus_ready_uuid nc node diskInfoMap fsid disks id (dc_DiskUUID diskConfig)
  end.

(** Lines 838-872: scheduled storage and the [Schedulable] condition of
    one disk. Removing the id from [replicaDiskMap] only feeds the log
    line that follows the loop. *)
Definition syncDiskStatus_schedulable (node : Node)
    (replicaDiskMap : gmap string (list Replica)) (minimalAvailablePercentage : Z)
    (id : string) : M FS unit :=
  let disk := disk_of node id in
  let replicas := default [] (replicaDiskMap !! id) in
  let scheduledReplica : gmap string Z :=
    foldl (λ m replica, <[replica_Name replica := replica_VolumeSize replica]> m) ∅ replicas in
  let storageScheduled :=
    foldl (λ acc replica, int64_add acc (replica_VolumeSize replica)) 0 replicas in
  diskStatusMap_alter id
    (λ d, DiskStatus_with_Scheduled d storageScheduled (Some scheduledReplica)) ;;
  diskStatus <- diskStatusMap_lookup id ;;
  info <- lift (GetDiskSchedulingInfo disk diskStatus) ;;
  if negb (IsSchedulableToDisk minimalAvailablePercentage 0 0 info) then
    setDiskCondition id DiskConditionTypeSchedulable ConditionStatusFalse
      DiskConditionReasonDiskPressure
      (Sprintf "the disk %v(%v) on the node %v has %v available, but requires reserved %v, minimal %v%s to schedule more replicas"
         [FStr id; FStr (disk_Path disk); FStr (node_Name node);
          FInt (dstat_StorageAvailable diskStatus); FInt (disk_StorageReserved disk);
          FInt minimalAvailablePercentage; FStr "%"])
      EventTypeWarning
  else
    setDiskCondition id DiskConditionTypeSchedulable ConditionStatusTrue ""
      (Sprintf "Disk %v(%v) on node %v is schedulable"
         [FStr id; FStr (disk_Path disk); FStr (node_Name node)])
      EventTypeNormal.

(** The part of [syncDiskStatus] that sets the [Ready] conditions
    (lines 729-826). *)
Definition syncDiskStatus_readiness nc : M FS unit :=
  node <- get_node ;;
  st <- get ;;
  let diskInfoMap := getDiskInfoMap nc node (st_fs st) in
  fsid2Disks <- foldM (syncDiskStatus_group node diskInfoMap)
                  (range_keys "syncDiskStatus.diskInfoMap" diskInfoMap) ∅ ;;
  forM_ (range_keys "syncDiskStatus.fsid2Disks" fsid2Disks)
    (λ fsid,
       let disks := default [] (fsid2Disks !! fsid) in
       forM_ disks (syncDiskStatus_ready nc node diskInfoMap fsid disks)).

(** The part of [syncDiskStatus] that sets the [Schedulable] conditions
    (lines 828-872). *)
Definition syncDiskStatus_schedulability nc (node : Node) : M FS unit :=
  replicaDiskMap <- lift (ListReplicasByNode (nc_ds nc) (node_Name node)) ;;
  minimalAvailablePercentage <-
    lift (GetSettingAsInt (nc_ds nc) SettingNameStorageMinimalAvailablePercentage) ;;
  forM_ (range_keys "syncDiskStatus.schedulable" (nspec_Disks (node_Spec node)))
    (syncDiskStatus_schedulable node replicaDiskMap minimalAvailablePercentage).

Definition syncDiskStatus nc : M FS unit :=
  node <- get_node ;;
  modify_status (syncDiskStatus_keys node) ;;
  syncDiskStatus_readiness nc ;;
  syncDiskStatus_schedulability nc node.

Definition setNodeCondition (conditionType : string) (conditionValue : ConditionStatus)
    (reason message eventtype : string) : M FS unit :=
  node <- get_node ;;
  conditions <- SetConditionAndRecord (nstat_Conditions (node_Status node)) conditionType
                  conditionValue reason message eventtype ;;
  modify_status (λ st, NodeStatus_with_Conditions st conditions).

(** [syncNodeStatus]: the mount propagation of the manager pod; the
    condition is set without an event. *)
Definition syncNodeStatus (pod : Pod) : M FS unit :=
  match find (λ mount, bool_decide (vm_Name mount = LonghornSystemKey))
          (ctr_VolumeMounts (pod_Containers pod).1) with
  | None => ret tt
  | Some mount =>
      let mountPropagationStr := default "nil" (vm_MountPropagation mount) in
      st <- get ;;
      if bool_decide (vm_MountPropagation mount ≠ Some v1_MountPropagationBidirectional) then
        modify_status (λ ns, NodeStatus_with_Conditions ns
          (SetCondition (st_now st) (nstat_Conditions ns) NodeConditionTypeMountPropagation
             ConditionStatusFalse NodeConditionReasonNoMountPropagationSupport
             (Sprintf "The MountPropagation value %s is not detected from pod %s, node %s"
                [FStr mountPropagationStr; FStr (pod_Name pod); FStr (pod_NodeName pod)])))
      else
        modify_status (λ ns, NodeStatus_with_Conditions ns
          (SetCondition (st_now st) (nstat_Conditions ns) NodeConditionTypeMountPropagation
             ConditionStatusTrue "" ""))
  end.

Definition createInstanceManager nc (node : Node) (imName image imType : string)
    : M FS InstanceManager :=
  let instanceManager :=
    mkInstanceManager imName (GetInstanceManagerLabels (node_Name node) image imType)
      (GetOwnerReferencesForNode node) [] None
      (mkInstanceManagerSpec image (node_Name node) imType)
      (mkInstanceManagerStatus "" ∅) in
  CreateInstanceManager (nc_ds nc) instanceManager.

(** The value of the local [cleanupRequired] of [syncInstanceManagers]
    for an instance manager of the listing (lines 947-962). *)
Definition cleanupRequired (defaultInstanceManagerImage : string) (im : InstanceManager)
    : bool :=
  if decide (imspec_Image (im_Spec im) = defaultInstanceManagerImage) then false
  else if decide (imstat_CurrentState (im_Status im) = InstanceManagerStateRunning
                  ∧ im_DeletionTimestamp im = None) then
    bool_decide (map_Forall
                   (λ _ state, ¬ (state = InstanceStateRunning ∨ state = InstanceStateStarting))
                   (imstat_Instances (im_Status im)))
  else true.

(** Lines 942-969: the body of the loop over the instance managers of
    one type; the result is [defaultInstanceManagerCreated]. *)
Definition syncInstanceManagers_one nc (defaultInstanceManagerImage : string)
    (defaultInstanceManagerCreated : bool) (im : InstanceManager) : M FS bool :=
  let label := default "" (im_Labels im !! GetLonghornLabelKey LonghornLabelNode) in
  if decide (label ≠ imspec_NodeID (im_Spec im)) then
    fail (ErrorString
            (Sprintf "BUG: Instance manager %v NodeID %v is not consistent with the label %v=%v"
               [FStr (im_Name im); FStr (imspec_NodeID (im_Spec im));
                FStr (GetLonghornLabelKey LonghornLabelNode); FStr label]))
  else
    (if cleanupRequired defaultInstanceManagerImage im
     then DeleteInstanceManager (nc_ds nc) (im_Name im)
     else ret tt) ;;
    ret (if decide (imspec_Image (im_Spec im) = defaultInstanceManagerImage) then true
         else defaultInstanceManagerCreated).

(** Lines 936-981: the body of the loop over the types. *)
Definition syncInstanceManagers_type nc (node : Node) (defaultInstanceManagerImage : string)
    (imType : string) : M FS unit :=
  imMap <- ListInstanceManagersByNode (nc_ds nc) (node_Name node) imType ;;
  defaultInstanceManagerCreated <-
    foldM (syncInstanceManagers_one nc defaultInstanceManagerImage)
      (range_values "syncInstanceManagers.imMap" imMap) false ;;
  if negb defaultInstanceManagerCreated then
    imName <- lift (GetInstanceManagerName imType) ;;
    createInstanceManager nc node imName defaultInstanceManagerImage imType ;;
    ret tt
  else ret tt.

(** Lines 918-934: the types needed on the node, after the replica
    managers of a node without disks are told to go. *)
Definition syncInstanceManagers_types nc (node : Node) : M FS (list string) :=
  if decide (size (nspec_Disks (node_Spec node)) = 0%nat) then
    rmMap <- ListInstanceManagersByNode (nc_ds nc) (node_Name node)
               InstanceManagerTypeReplica ;;
    forM_ (range_values "syncInstanceManagers.rmMap" rmMap)
      (λ rm, DeleteInstanceManager (nc_ds nc) (im_Name rm)) ;;
    ret [InstanceManagerTypeEngine]
  else ret [InstanceManagerTypeEngine; InstanceManagerTypeReplica].

Definition syncInstanceManagers nc : M FS unit :=
  node <- get_node ;;
  defaultInstanceManagerImage <-
    lift (GetSettingValueExisted (nc_ds nc) SettingNameDefaultInstanceManagerImage) ;;
  imTypes <- syncInstanceManagers_types nc node ;;
  forM_ imTypes (syncInstanceManagers_type nc node defaultInstanceManagerImage).

(** [cache.SplitMetaNamespaceKey] and [controller.KeyFunc]. *)
Fixpoint split_slash (s : string) : list string :=
  match s with
  | EmptyString => [EmptyString]
  | String a r =>
      if Ascii.eqb a "/"%char then EmptyString :: split_slash r
      else match split_slash r with
           | h :: t => String a h :: t
           | [] => [String a EmptyString]
           end
  end.

Definition SplitMetaNamespaceKey (key : string) : result (string * string) :=
  match split_slash key with
  | [name] => Ok ("", name)
  | [namespace; name] => Ok (namespace, name)
  | _ => Err (ErrorString (Sprintf "unexpected key format: %q" [FStr key]))
  end.

Definition KeyFunc (node : Node) : string :=
  if decide (node_Namespace node = "") then node_Name node
  else node_Namespace node +:+ "/" +:+ node_Name node.

(** [enqueueNode]: the key of a node object is always defined. *)
Definition enqueueNode (node : Node) : M FS unit :=
  modify (λ st, State_with_queue st (st_queue st ++ [KeyFunc node])%list).

(** Lines 456-492: the [Ready] condition from the manager pod. *)
Definition syncNode_managerPod (managerPods : list Pod) : M FS unit :=
  node <- get_node ;;
  match find (λ pod, bool_decide (pod_NodeName pod = node_Name node)) managerPods with
  | Some pod =>
      match find (λ podCondition, bool_decide (pc_Type podCondition = v1_PodReady))
              (pod_Conditions pod) with
      | Some podCondition =>
          if bool_decide (pc_Status podCondition = v1_ConditionTrue)
             && bool_decide (pod_Phase pod = v1_PodRunning) then
            setNodeCondition NodeConditionTypeReady ConditionStatusTrue ""
              (Sprintf "Node %v is ready" [FStr (node_Name node)]) EventTypeNormal
          else
            setNodeCondition NodeConditionTypeReady ConditionStatusFalse
              NodeConditionReasonManagerPodDown
              (Sprintf "Node %v is down: the manager pod %v is not running"
                 [FStr (node_Name node); FStr (pod_Name pod)])
              EventTypeWarning
      | None => ret tt
      end
  | None =>
      setNodeCondition NodeConditionTypeReady ConditionStatusFalse
        NodeConditionReasonManagerPodMissing
        (Sprintf "manager pod missing: node %v has no manager pod running on it"
           [FStr (node_Name node)])
        EventTypeWarning
  end.

(** Lines 509-540: one condition of the Kubernetes node. *)
Definition syncNode_kubeCondition (node : Node) (con : NodeCondition) : M FS unit :=
  if bool_decide (kc_Type con = v1_NodeReady) then
    if bool_decide (kc_Status con ≠ v1_ConditionTrue) then
      setNodeCondition NodeConditionTypeReady ConditionStatusFalse
        NodeConditionReasonKubernetesNodeNotReady
        (Sprintf "Kubernetes node %v not ready: %v" [FStr (node_Name node); FStr (kc_Reason con)])
        EventTypeWarning
    else ret tt
  else if bool_decide (kc_Type con ∈ [v1_NodeOutOfDisk; v1_NodeDiskPressure; v1_NodePIDPressure;
                                      v1_NodeMemoryPressure; v1_NodeNetworkUnavailable]) then
    if bool_decide (kc_Status con = v1_ConditionTrue) then
      setNodeCondition NodeConditionTypeReady ConditionStatusFalse
        NodeConditionReasonKubernetesNodePressure
        (Sprintf "Kubernetes node %v has pressure: %v, %v"
           [FStr (node_Name node); FStr (kc_Reason con); FStr (kc_Message con)])
        EventTypeWarning
    else ret tt
  else
    if bool_decide (kc_Status con = v1_ConditionTrue) then
      record_event (mkEvent EventTypeWarning NodeConditionReasonUnknownNodeConditionTrue
        (Sprintf "Unknown condition true of kubernetes node %v: condition type is %v, reason is %v, message is %v"
           [FStr (node_Name node); FStr (kc_Type con); FStr (kc_Reason con);
            FStr (kc_Message con)]))
    else ret tt.

(** Lines 495-580: the conditions, region and zone from the Kubernetes
    node. *)
Definition syncNode_kubeNode nc (name : string) : M FS unit :=
  node <- get_node ;;
  match ds_GetKubernetesNode (nc_ds nc) name with
  | Err err =>
      if apierrors_IsNotFound err then
        setNodeCondition NodeConditionTypeReady ConditionStatusFalse
          NodeConditionReasonKubernetesNodeGone
          (Sprintf "Kubernetes node missing: node %v has been removed from the cluster and there is no manager pod running on it"
             [FStr (node_Name node)])
          EventTypeWarning
      else fail err
  | Ok kubeNode =>
      forM_ (kn_Conditions kubeNode) (syncNode_kubeCondition node) ;;
      DisableSchedulingOnCordonedNode <-
        lift (GetSettingAsBool (nc_ds nc) SettingNameDisableSchedulingOnCordonedNode) ;;
      (if DisableSchedulingOnCordonedNode && kn_Unschedulable kubeNode then
         setNodeCondition NodeConditionTypeSchedulable ConditionStatusFalse
           NodeConditionReasonKubernetesNodeCordoned
           (Sprintf "Node %v is cordoned" [FStr (node_Name node)]) EventTypeNormal
       else
         setNodeCondition NodeConditionTypeSchedulable ConditionStatusTrue "" ""
           EventTypeNormal) ;;
      isUsingTopologyLabels <-
        lift (nc_topologyLabelsChecker nc KubernetesTopologyLabelsVersion) ;;
      modify_status (λ st, NodeStatus_with_RegionZone st
                             (GetRegionAndZone (kn_Labels kubeNode) isUsingTopologyLabels))
  end.

(** Lines 586-603: the work of the owning controller. *)
Definition syncNode_owner nc (managerPods : list Pod) : M FS unit :=
  node <- get_node ;;
  syncDiskStatus nc ;;
  forM_ managerPods
    (λ pod, if bool_decide (pod_NodeName pod = node_Name node) then syncNodeStatus pod
            else ret tt) ;;
  syncInstanceManagers nc.

(** Lines 455-603: what [syncNode] does between the registration of the
    deferred writeback and its return. *)
Definition syncNode_reconcile nc (name : string) : M FS unit :=
  managerPods <- lift (ds_ListManagerPods (nc_ds nc)) ;;
  syncNode_managerPod managerPods ;;
  syncNode_kubeNode nc name ;;
  node <- get_node ;;
  if decide (nc_controllerID nc ≠ node_Name node) then ret tt
  else syncNode_owner nc managerPods.

(** Lines 442-453: the deferred writeback. It sees the error [err] of
    the reconcile and yields the error that [syncNode] goes on with. *)
Definition syncNode_writeback nc (existingNode : Node) (err : option error)
    : State FS → State FS * option error :=
  λ st,
    let node := st_node st in
    let '(st, err) :=
      if bool_decide (err = None)
         && negb (bool_decide (node_Status existingNode = node_Status node))
      then let '(st', r) := UpdateNodeStatus (nc_ds nc) node st in (st', result_err r)
      else (st, err) in
    if apierrors_IsConflict (errors_Cause <$> err)
    then (exec (enqueueNode node) st, None)
    else (st, err).

(** [syncNode] before the first deferred function wraps its error. *)
Definition syncNode_inner nc (key : string) : State FS → State FS * option error :=
  λ st,
    match SplitMetaNamespaceKey key with
    | Err err => (st, Some err)
    | Ok (namespace, name) =>
        if decide (namespace ≠ nc_namespace nc) then (st, None)
        else
          match GetNode (nc_ds nc) name with
          | Err err => if ErrorIsNotFound err then (st, None) else (st, Some err)
          | Ok node =>
              let st := State_with_node st node in
              if bool_decide (node_DeletionTimestamp node ≠ None) then
                let '(st', r) :=
                  (record_event (mkEvent EventTypeWarning EventReasonDelete
                                   (Sprintf "Deleting node %v" [FStr (node_Name node)])) ;;
                   RemoveFinalizerForNode (nc_ds nc)) st in
                (st', result_err r)
              else
                let existingNode := node in
                let '(st', r) := syncNode_reconcile nc name st in
                syncNode_writeback nc existingNode (result_err r) st'
          end
    end.

Definition syncNode nc (key : string) : State FS → State FS * option error :=
  λ st,
    let '(st', err) := syncNode_inner nc key st in
    (st', errors_Wrapf err (Sprintf "fail to sync node for %v" [FStr key])).

End NodeControllerModel.

(** * Vocabulary of the properties *)

Section Vocabulary.
Context `{Externals} {FS : Type}.

(** A state predicate that a computation keeps, whatever its outcome. *)
Definition stable {A} (I : State FS → Prop) (m : M FS A) : Prop :=
  ∀ s, I s → I (exec m s).

(** A computation that never returns an error. *)
Definition total {A} (m : M FS A) : Prop :=
  ∀ s, ∃ a, outcome m s = Ok a.

(** The status entry of a disk in a state. *)
Definition entry (id : string) (s : State FS) : option DiskStatus :=
  diskStatusMap_of (st_node s) !! id.

(** The status entry of disk [id] exists and satisfies [P]. *)
Definition entry_sat (id : string) (P : DiskStatus → Prop) (s : State FS) : Prop :=
  ∃ d, entry id s = Some d ∧ P d.

(** The [Ready] and [Schedulable] conditions of a disk status. *)
Definition disk_ready (d : DiskStatus) : Condition :=
  GetCondition (dstat_Conditions d) DiskConditionTypeReady.

Definition disk_schedulable (d : DiskStatus) : Condition :=
  GetCondition (dstat_Conditions d) DiskConditionTypeSchedulable.

(** The parts of a state that the disk sync leaves alone: the node
    apart from its disk statuses, the queue, the instance managers, the
    requests sent and the clock. *)
Definition node_meta (n : Node) :=
  (node_Name n, node_Namespace n, node_UID n, node_ResourceVersion n,
   node_DeletionTimestamp n, node_Finalizers n, node_Spec n).

Definition status_rest (n : Node) :=
  (nstat_Conditions (node_Status n), nstat_Region (node_Status n),
   nstat_Zone (node_Status n)).

Definition world_rest (s : State FS) :=
  (st_queue s, st_ims s, st_calls s, st_now s).

(** [disk_step T s s']: from [s] to [s'] only the status entries of the
    disks in [T], the events and the state of the disk handlers
    changed, and no entry came or went. *)
Record disk_step (T : string → Prop) (s s' : State FS) : Prop := mk_disk_step {
  dstep_meta : node_meta (st_node s') = node_meta (st_node s);
  dstep_status : status_rest (st_node s') = status_rest (st_node s);
  dstep_world : world_rest s' = world_rest s;
  dstep_some : is_Some (nstat_DiskStatus (node_Status (st_node s))) →
               is_Some (nstat_DiskStatus (node_Status (st_node s')));
  dstep_dom : dom (diskStatusMap_of (st_node s')) = dom (diskStatusMap_of (st_node s));
  dstep_entry : ∀ y, ¬ T y → entry y s' = entry y s;
}.

(** Neither the condition map nor the replica map of a disk status is
    nil. *)
Definition nonnil (d : DiskStatus) : Prop :=
  is_Some (dstat_Conditions d) ∧ is_Some (dstat_ScheduledReplica d).

Definition nonnil_inv (s : State FS) : Prop :=
  map_Forall (λ _ d, nonnil d) (diskStatusMap_of (st_node s)).

(** The status entry that the first loop of [syncDiskStatus] leaves for
    a disk of the spec. *)
Definition init_entry (d : DiskStatus) : DiskStatus :=
  mkDiskStatus (Some (default ∅ (dstat_Conditions d))) 0 (dstat_StorageScheduled d) 0
    (Some (default ∅ (dstat_ScheduledReplica d))) (dstat_DiskUUID d).

(** [I] is kept by the operations through which the loops that set
    the [Ready] conditions act on the entry of disk [id]. *)
Record ready_ops_stable (I : State FS → Prop) (id : string) : Prop := mk_ready_ops_stable {
  ros_cond : ∀ v reason message eventtype,
    stable I (setDiskCondition id DiskConditionTypeReady v reason message eventtype);
  ros_storage : ∀ maximum available,
    stable I (diskStatusMap_alter id (λ d, DiskStatus_with_Storage d maximum available));
  ros_uuid : ∀ u,
    stable I (diskStatusMap_alter id (λ d, DiskStatus_with_DiskUUID d u));
  ros_fs : ∀ fs, stable I (modify (λ st, State_with_fs st fs));
}.

(** [I] is kept by the operations through which the loop that sets the
    [Schedulable] conditions acts on the entry of disk [id]. *)
Record sched_ops_stable (I : State FS → Prop) (id : string) : Prop := mk_sched_ops_stable {
  sos_cond : ∀ v reason message eventtype,
    stable I (setDiskCondition id DiskConditionTypeSchedulable v reason message eventtype);
  sos_scheduled : ∀ scheduled replicas,
    stable I (diskStatusMap_alter id
                (λ d, DiskStatus_with_Scheduled d scheduled (Some replicas)));
}.

(** The filesystem id under which the probe of a disk succeeded. *)
Definition fsid_of (diskInfoMap : gmap string (result DiskInfo)) (id : string)
    : option string :=
  match diskInfoMap !! id with
  | Some (Ok entry) => Some (di_Fsid entry)
  | _ => None
  end.

(** What one round of the grouping loop does to [fsid2Disks]. *)
Definition group_pure (diskInfoMap : gmap string (result DiskInfo))
    (fsid2Disks : gmap string (list string)) (id : string) : gmap string (list string) :=
  match diskInfoMap !! id with
  | Some (Ok entry) =>
      <[di_Fsid entry := default [] (fsid2Disks !! di_Fsid entry) ++ [id]]> fsid2Disks
  | _ => fsid2Disks
  end.

(** The tag file of a disk is missing, or carries another UUID than
    [u]. *)
Definition config_differs (r : result DiskConfig) (u : string) : Prop :=
  match r with
  | Ok diskConfig => dc_DiskUUID diskConfig ≠ u
  | Err err => types_ErrorIsNotFound err = true
  end.

(** The states of the tag store in which the sync of the disks of [node]
    can find it when it reads the tag file of disk [id], starting from
    [fs0]: until then a tag file is generated for other disks of the
    spec only. *)
Inductive tags_reached (nc : @NodeController FS) (node : Node) (id : string) (fs0 : FS)
    : FS → Prop :=
| tags_reached_start : tags_reached nc node id fs0 fs0
| tags_reached_generate fs x :
    tags_reached nc node id fs0 fs →
    x ≠ id →
    is_Some (nspec_Disks (node_Spec node) !! x) →
    tags_reached nc node id fs0
      (nc_generateDiskConfig nc (disk_Path (disk_of node x)) fs).1.

(** A status that records the UUID [u] and has the storage counters at
    the zero assigned at the start of a pass; and such a status whose
    [Ready] condition says that the filesystem changed. *)
Definition recorded_idle (u : string) (d : DiskStatus) : Prop :=
  dstat_DiskUUID d = u ∧ dstat_StorageMaximum d = 0 ∧ dstat_StorageAvailable d = 0.

Definition filesystem_changed (u : string) (d : DiskStatus) : Prop :=
  recorded_idle u d
  ∧ cond_Status (disk_ready d) = ConditionStatusFalse
  ∧ cond_Reason (disk_ready d) = DiskConditionReasonDiskFilesystemChanged.

(** The [Schedulable] condition of a disk status agrees with the
    scheduling predicate for a required size of 0: true with an empty
    reason when the available storage covers the reserve and the
    minimal percentage of the maximum, false with the reason
    [DiskPressure] otherwise. *)
Definition schedulable_verdict (percentage : Z) (disk : DiskSpec) (d : DiskStatus) : Prop :=
  let fits :=
    Z.max (disk_StorageReserved disk) (Z.quot (dstat_StorageMaximum d * percentage) 100)
    ≤ dstat_StorageAvailable d - 0 in
  (fits → cond_Status (disk_schedulable d) = ConditionStatusTrue
          ∧ cond_Reason (disk_schedulable d) = "")
  ∧ (¬ fits → cond_Status (disk_schedulable d) = ConditionStatusFalse
              ∧ cond_Reason (disk_schedulable d) = DiskConditionReasonDiskPressure).

Definition GiB : Z := 2 ^ 30.

(** The disk is ready; the status of the disk records no UUID. *)
Definition ready_true (d : DiskStatus) : Prop :=
  cond_Status (disk_ready d) = ConditionStatusTrue.

Definition unassigned (id : string) (s : State FS) : Prop :=
  dstat_DiskUUID (default DiskStatus_zero (entry id s)) = "".

(** The invariant of the loop over the disks of one filesystem id:
    with [s0] the state at the start and [done] the disks handled so
    far, the other disks of the group that had no UUID still have none,
    and at most one of the handled disks that had no UUID is ready. *)
Definition collision_inv (s0 : State FS) (group done : list string) (s : State FS) : Prop :=
  (∀ z, z ∈ group → z ∉ done → unassigned z s0 → unassigned z s)
  ∧ (∀ a b, a ∈ done → b ∈ done → unassigned a s0 → unassigned b s0 →
            entry_sat a ready_true s → entry_sat b ready_true s → a = b).

(** The disk is not ready because its filesystem id collides, and it
    still records no UUID. *)
Definition collided (d : DiskStatus) : Prop :=
  cond_Status (disk_ready d) = ConditionStatusFalse
  ∧ cond_Reason (disk_ready d) = DiskConditionReasonDiskFilesystemChanged
  ∧ dstat_DiskUUID d = "".

(** *** Instance managers *)

(** The instance manager carries the labels by which
    [ListInstanceManagersByNode] selects the managers of a type on a
    node. *)
Definition of_type (node imType : string) (im : InstanceManager) : Prop :=
  selector_matches (GetInstanceManagerLabels node "" imType) (im_Labels im) = true.

Global Instance of_type_dec node imType im : Decision (of_type node imType im).
Proof. unfold of_type. apply _. Defined.

(** The API server keeps every object under its name. *)
Definition store_wf (ims : gmap string InstanceManager) : Prop :=
  ∀ k im, ims !! k = Some im → im_Name im = k.

Global Instance store_wf_dec (ims : gmap string InstanceManager) : Decision (store_wf ims).
Proof.
  unfold store_wf. refine (map_Forall_dec (λ k im, im_Name im = k) ims).
  intros k im. simpl. apply _.
Defined.

(** The managers of a type on a node, by name. *)
Definition listing (node imType : string) (ims : gmap string InstanceManager)
    : gmap string InstanceManager :=
  filter (λ kv, of_type node imType kv.2) ims.

Definition has_live_instance (im : InstanceManager) : Prop :=
  ∃ name state,
    imstat_Instances (im_Status im) !! name = Some state
    ∧ (state = InstanceStateRunning ∨ state = InstanceStateStarting).

(** The object is being deleted and held by a finalizer. *)
Definition marked_deleted (im : InstanceManager) : Prop :=
  im_DeletionTimestamp im ≠ None ∧ im_Finalizers im ≠ [].

(** What the sync of instance managers leaves alone. *)
Definition im_rest (s : State FS) :=
  (st_node s, st_events s, st_queue s, st_fs s, st_now s).

(** From [m] to [m'] only entries of managers of type [imType] on
    [node] changed. *)
Definition store_rel (node imType : string) (m m' : gmap string InstanceManager) : Prop :=
  ∀ k, m' !! k = m !! k
       ∨ ((∀ im, m !! k = Some im → of_type node imType im)
          ∧ (∀ im, m' !! k = Some im → of_type node imType im)).

(** The requests sent since [s0] all satisfy [Pc]. *)
Definition calls_sat (Pc : ApiCall → Prop) (s0 s : State FS) : Prop :=
  ∃ new, st_calls s = new ++ st_calls s0 ∧ Forall Pc new.

(** The invariant of one phase of the sync of instance managers, from
    the state [s0] at its start: only the store and the requests
    change, the store keeps every object under its name, only entries
    of the type of the phase change, and the requests satisfy [Pc]. *)
Record phase_inv (node imType : string) (Pc : ApiCall → Prop) (s0 s : State FS)
    : Prop := mk_phase_inv {
  pi_rest : im_rest s = im_rest s0;
  pi_wf : store_wf (st_ims s);
  pi_rel : store_rel node imType (st_ims s0) (st_ims s);
  pi_calls : calls_sat Pc s0 s;
}.

(** What a delete request leaves at the name it is sent for. *)
Definition deleted_entry (now : string) (im : InstanceManager) : option InstanceManager :=
  match im_Finalizers im with
  | [] => None
  | _ => Some (InstanceManager_with_DeletionTimestamp im
                 (match im_DeletionTimestamp im with
                  | Some t => Some t
                  | None => Some now
                  end))
  end.

(** The instance manager that [createInstanceManager] asks for, with the
    finalizer that [CreateInstanceManager] adds. *)
Definition created_manager (node : Node) (imName image imType : string) : InstanceManager :=
  mkInstanceManager imName (GetInstanceManagerLabels (node_Name node) image imType)
    (GetOwnerReferencesForNode node) [longhornFinalizerKey] None
    (mkInstanceManagerSpec image (node_Name node) imType)
    (mkInstanceManagerStatus "" ∅).

(** The requests of the phase of type [imType], over the listing [L]
    of its start: a delete for a listed manager that needs cleaning up,
    or the creation of the default manager when none is listed. *)
Definition type_phase_call (node : Node) (image imType : string)
    (L : gmap string InstanceManager) (c : ApiCall) : Prop :=
  match c with
  | CallDeleteInstanceManager name =>
      ∃ im, L !! name = Some im ∧ cleanupRequired image im = true
  | CallCreateInstanceManager im =>
      (∀ k im', L !! k = Some im' → imspec_Image (im_Spec im') ≠ image)
      ∧ ∃ imName, GetInstanceManagerName imType = Ok imName
                  ∧ im = created_manager node imName image imType
  | _ => False
  end.

(** The requests of the cleanup on a node without disks: deletes of the
    listed replica managers. *)
Definition eager_phase_call (L : gmap string InstanceManager) (c : ApiCall) : Prop :=
  match c with
  | CallDeleteInstanceManager name => is_Some (L !! name)
  | _ => False
  end.

(** A request sent after [s0]. *)
Definition sent (c : ApiCall) (s0 s : State FS) : Prop :=
  ∃ new, st_calls s = new ++ st_calls s0 ∧ c ∈ new.

(** A default-image manager of the type is in the store. *)
Definition has_default (node image imType : string) (s : State FS) : Prop :=
  ∃ k im, st_ims s !! k = Some im ∧ of_type node imType im
          ∧ imspec_Image (im_Spec im) = image.

(** The entry of a manager that was asked to go is gone, or is being
    deleted and held by a finalizer. *)
Definition going (name : string) (s : State FS) : Prop :=
  ∀ im, st_ims s !! name = Some im → marked_deleted im.

(** No manager of the type appears that was not listed. *)
Definition none_new (node imType : string) (L : gmap string InstanceManager)
    (s : State FS) : Prop :=
  ∀ k im, st_ims s !! k = Some im → of_type node imType im → is_Some (L !! k).

(** The node has no disk. *)
Definition no_disks (node : Node) : Prop :=
  size (nspec_Disks (node_Spec node)) = 0%nat.

(** The types of instance manager a node needs: an engine manager, and
    a replica manager when it has a disk. *)
Definition needed (node : Node) (imType : string) : Prop :=
  imType = InstanceManagerTypeEngine
  ∨ (imType = InstanceManagerTypeReplica ∧ ¬ no_disks node).

(** A running manager that is not being deleted and has an instance. *)
Definition in_use (im : InstanceManager) : Prop :=
  imstat_CurrentState (im_Status im) = InstanceManagerStateRunning
  ∧ im_DeletionTimestamp im = None
  ∧ has_live_instance im.

(** The requests of a sync of instance managers over the store [m]:
    a delete for a replica manager of a node without disks or for a
    manager of a needed type that needs cleaning up, or the creation of
    the default manager of a needed type that has none. *)
Definition sync_call (node : Node) (image : string) (m : gmap string InstanceManager)
    (c : ApiCall) : Prop :=
  match c with
  | CallDeleteInstanceManager name =>
      ∃ im, m !! name = Some im
        ∧ ((no_disks node ∧ of_type (node_Name node) InstanceManagerTypeReplica im)
           ∨ (∃ imType, needed node imType ∧ of_type (node_Name node) imType im
                        ∧ cleanupRequired image im = true))
  | CallCreateInstanceManager im =>
      ∃ imType imName,
        needed node imType
        ∧ (∀ k im', m !! k = Some im' → of_type (node_Name node) imType im' →
                    imspec_Image (im_Spec im') ≠ image)
        ∧ GetInstanceManagerName imType = Ok imName
        ∧ im = created_manager node imName image imType
  | _ => False
  end.

(** The invariant of the cleanup on a node without disks, from the state
    [s] at its start. *)
Definition eager_inv (node : Node) (s s' : State FS) : Prop :=
  phase_inv (node_Name node) InstanceManagerTypeReplica
    (eager_phase_call (listing (node_Name node) InstanceManagerTypeReplica (st_ims s))) s s'
  ∧ none_new (node_Name node) InstanceManagerTypeReplica
      (listing (node_Name node) InstanceManagerTypeReplica (st_ims s)) s'.

(** The managers with the image [image] in [s'] were in the store [m]
    as they are. *)
Definition defaults_from (image : string) (m : gmap string InstanceManager)
    (s' : State FS) : Prop :=
  ∀ k im, st_ims s' !! k = Some im → imspec_Image (im_Spec im) = image → m !! k = Some im.

(** The default manager of the type [imType] that a sync creates when
    the store [m] has none. *)
Definition created_default (node : Node) (image imType : string)
    (m : gmap string InstanceManager) (k : string) (im : InstanceManager) : Prop :=
  (∀ k' im', m !! k' = Some im' → of_type (node_Name node) imType im' →
             imspec_Image (im_Spec im') ≠ image)
  ∧ GetInstanceManagerName imType = Ok k
  ∧ im = created_manager node k image imType.

(** At most one manager of the type with the image is in the store. *)
Definition at_most_one_default (node image imType : string)
    (m : gmap string InstanceManager) : Prop :=
  ∀ k1 im1 k2 im2,
    m !! k1 = Some im1 → of_type node imType im1 → imspec_Image (im_Spec im1) = image →
    m !! k2 = Some im2 → of_type node imType im2 → imspec_Image (im_Spec im2) = image →
    k1 = k2.

(** A request that updates the status of a node. *)
Definition is_CallUpdateNodeStatus (c : ApiCall) : bool :=
  match c with CallUpdateNodeStatus _ => true | _ => false end.

(** *** The reconcile of a node *)

(** The entry of a condition type in the conditions of a node. *)
Definition condition_of (n : Node) (t : string) : option Condition :=
  nstat_Conditions (node_Status n) ≫= (.!! t).

(** Lines 455-580: the sections of the reconcile that every controller
    runs, before the check of the owner. *)
Definition syncNode_shared (nc : @NodeController FS) (name : string) : M FS unit :=
  managerPods <- lift (ds_ListManagerPods (nc_ds nc)) ;;
  syncNode_managerPod managerPods ;;
  syncNode_kubeNode nc name.

(** From [s] to [s'] only the events, the conditions [Ready] and
    [Schedulable] of the node, its region and its zone changed. *)
Record shared_frame (s s' : State FS) : Prop := mk_shared_frame {
  sf_meta : node_meta (st_node s') = node_meta (st_node s);
  sf_disks : nstat_DiskStatus (node_Status (st_node s'))
             = nstat_DiskStatus (node_Status (st_node s));
  sf_conditions : ∀ t, t ≠ NodeConditionTypeReady → t ≠ NodeConditionTypeSchedulable →
                       condition_of (st_node s') t = condition_of (st_node s) t;
  sf_world : (st_queue s', st_ims s', st_calls s', st_fs s', st_now s')
             = (st_queue s, st_ims s, st_calls s, st_fs s, st_now s);
}.

(** What no section of the reconcile changes: the metadata and the spec
    of the node, the work queue, and the status updates sent. *)
Definition reconcile_rest (s : State FS) :=
  (node_meta (st_node s), st_queue s, filter is_CallUpdateNodeStatus (st_calls s)).

(** What the sections after the sync of the disks leave alone. *)
Definition disk_rest (s : State FS) :=
  (node_meta (st_node s), nstat_DiskStatus (node_Status (st_node s))).

(** [key] names a node of the namespace of the controller that is in
    the cache and is not being deleted. *)
Definition reconciles (nc : @NodeController FS) (key name : string) (node : Node) : Prop :=
  SplitMetaNamespaceKey key = Ok (nc_namespace nc, name)
  ∧ GetNode (nc_ds nc) name = Ok node
  ∧ node_DeletionTimestamp node = None.

(** The status of the node is not the one of the snapshot. *)
Definition status_changed (existingNode : Node) (s : State FS) : bool :=
  negb (bool_decide (node_Status existingNode = node_Status (st_node s))).

End Vocabulary.
(** * More of the data store, of the controller and of the engine client *)

(** ** Strings of the Go runtime *)

(** [strings.Split(s, sep)] for a separator [sep] of one byte: the
    pieces between the separators, one piece for a string without
    separator, the empty string included. *)
Fixpoint strings_Split (s : string) (sep : ascii) : list string :=
  match s with
  | EmptyString => [EmptyString]
  | String a r =>
      if Ascii.eqb a sep then EmptyString :: strings_Split r sep
      else match strings_Split r sep with
           | h :: t => String a h :: t
           | [] => [String a EmptyString]
           end
  end.

(** What is left of [s] behind [prefix], when [s] starts with it. *)
Fixpoint strip_prefix (prefix s : string) : option string :=
  match prefix, s with
  | EmptyString, _ => Some s
  | String a p, String b r => if Ascii.eqb a b then strip_prefix p r else None
  | String _ _, EmptyString => None
  end.

(** [strings.HasPrefix] and [strings.TrimPrefix]. *)
Definition strings_HasPrefix (s prefix : string) : bool :=
  bool_decide (is_Some (strip_prefix prefix s)).

Definition strings_TrimPrefix (s prefix : string) : string :=
  default s (strip_prefix prefix s).

(** [strconv.Itoa]: the decimal digits, after a minus sign for a
    negative number. *)
Definition strconv_Itoa (i : Z) : string := pretty i.

(** ** The data store *)

(** The [List] side of the informer caches: each lister answers with the
    objects of the namespace or with an error. *)
Record Volume := mkVolume {
  volume_Name : string;
  volume_Standby : bool;
  volume_State : string;
}.

Record Engine := mkEngine {
  engine_Name : string;
  engine_NodeID : string;
}.

(** The fields of a replica that [ReplicaAddressToReplicaName] reads:
    the name, [Status.IP] and [Status.Port]. *)
Record ReplicaInstance := mkReplicaInstance {
  ri_Name : string;
  ri_IP : string;
  ri_Port : Z;
}.

Record Listers := mkListers {
  ls_ds : DataStore;
  ls_sLister_List : result (list Setting);
  ls_nLister_List : result (list Node);
  ls_vLister_List : result (list Volume);
}.

Section MoreDataStore.
Context `{Externals} {FS : Type}.
Implicit Types s : DataStore.

(** [ListSettings] (lines 171-201): the listed settings that have a
    definition, then a setting with the default value for each
    definition that is still missing. *)
Definition ListSettings (ls : Listers) : result (gmap string Setting) :=
  match ls_sLister_List ls with
  | Err err => Err err
  | Ok list =>
      let itemMap : gmap string Setting :=
        foldl (λ itemMap itemRO,
                 let settingField := setting_Name itemRO in
                 if decide (is_Some (SettingDefinitions !! settingField))
                 then <[settingField := itemRO]> itemMap
                 else itemMap) ∅ list in
      Ok (foldl (λ (itemMap : gmap string Setting) sName,
                   match SettingDefinitions !! sName with
                   | Some definition =>
                       if decide (is_Some (itemMap !! sName)) then itemMap
                       else <[sName := mkSetting sName (sd_Default definition)]> itemMap
                   | None => itemMap
                   end)
            itemMap (range_keys "ListSettings.SettingDefinitions" SettingDefinitions))
  end.

(** [ListNodes] (lines 958-971). *)
Definition ListNodes (ls : Listers) : result (gmap string Node) :=
  match ls_nLister_List ls with
  | Err err => Err err
  | Ok nodeList =>
      Ok (foldl (λ (itemMap : gmap string Node) node, <[node_Name node := node]> itemMap)
            ∅ nodeList)
  end.

(** [ListStandbyVolumesRO] (lines 399-413). *)
Definition ListStandbyVolumesRO (ls : Listers) : result (gmap string Volume) :=
  match ls_vLister_List ls with
  | Err err => Err err
  | Ok list =>
      Ok (foldl (λ (itemMap : gmap string Volume) itemRO,
                   if volume_Standby itemRO then <[volume_Name itemRO := itemRO]> itemMap
                   else itemMap) ∅ list)
  end.

(** [resourceVersionAtLeast] (lines 1425-1441). *)
Definition resourceVersionAtLeast (curr min : string) : bool :=
  if decide (curr = "" ∨ min = "") then true
  else
    match strconv_ParseInt curr with
    | Err _ => false
    | Ok currVersion =>
        match strconv_ParseInt min with
        | Err _ => false
        | Ok minVersion => bool_decide (minVersion ≤ currVersion)
        end
    end.

(** [ReplicaAddressToReplicaName] (lines 717-730). *)
Definition ReplicaAddressToReplicaName (address : string) (rs : list ReplicaInstance)
    : string :=
  let addressComponents := strings_Split (strings_TrimPrefix address "tcp://") ":"%char in
  match addressComponents with
  | [ip; port] =>
      match find (λ r, bool_decide (ip = ri_IP r)
                       && bool_decide (port = strconv_Itoa (ri_Port r))) rs with
      | Some r => ri_Name r
      | None => address
      end
  | _ => address
  end.

(** [IsNodeDownOrDeleted] (lines 1014-1032). *)
Definition IsNodeDownOrDeleted s (name : string) : result bool :=
  if decide (name = "") then
    Err (ErrorString "no node name provided to check node down or deleted")
  else
    match ds_nLister s name with
    | Err err => if apierrors_IsNotFound err then Ok true else Err err
    | Ok node =>
        let cond := GetCondition (nstat_Conditions (node_Status node))
                      NodeConditionTypeReady in
        if bool_decide (cond_Status cond = ConditionStatusFalse)
           && (bool_decide (cond_Reason cond = NodeConditionReasonKubernetesNodeGone)
               || bool_decide (cond_Reason cond = NodeConditionReasonKubernetesNodeNotReady))
        then Ok true
        else Ok false
    end.

(** [CheckInstanceManagerType] (lines 1226-1241). *)
Definition CheckInstanceManagerType (im : InstanceManager) : result string :=
  let imTypeLabelkey := GetLonghornLabelKey LonghornLabelInstanceManagerType in
  match im_Labels im !! imTypeLabelkey with
  | None =>
      Err (ErrorString (Sprintf "no label %v in instance manager %v"
                          [FStr imTypeLabelkey; FStr (im_Name im)]))
  | Some imType =>
      if decide (imType = InstanceManagerTypeEngine) then Ok InstanceManagerTypeEngine
      else if decide (imType = InstanceManagerTypeReplica) then Ok InstanceManagerTypeReplica
      else Err (ErrorString (Sprintf "unknown type %v for instance manager %v"
                               [FStr imType; FStr (im_Name im)]))
  end.

(** The argument of [GetInstanceManagerByInstance]: an engine, a replica
    or a value of another type. *)
Inductive InstanceObj :=
| ObjEngine (engine : Engine)
| ObjReplica (replica : Replica)
| ObjOther.

(** The type switch of [GetInstanceManagerByInstance] (lines 1275-1288):
    the name, the node and the manager type of the instance, nothing for
    a value of another type. *)
Definition instance_fields (obj : InstanceObj) : option (string * string * string) :=
  match obj with
  | ObjEngine engine =>
      Some (engine_Name engine, engine_NodeID engine, InstanceManagerTypeEngine)
  | ObjReplica replica =>
      Some (replica_Name replica, replica_NodeID replica, InstanceManagerTypeReplica)
  | ObjOther => None
  end.

(** [GetInstanceManagerByInstance] (lines 1264-1304). The loop over a
    map of one element returns that element. *)
Definition GetInstanceManagerByInstance s (obj : InstanceObj) : M FS InstanceManager :=
  image <- lift (GetSettingValueExisted s SettingNameDefaultInstanceManagerImage) ;;
  match instance_fields obj with
  | None => fail (ErrorString (Sprintf "unknown type for GetInstanceManagerByInstance, %+v" []))
  | Some (name, nodeID, imType) =>
      if decide (nodeID = "") then
        fail (ErrorString
                (Sprintf "invalid request for GetInstanceManagerByInstance: no NodeID specified for instance %v"
                   [FStr name]))
      else
        imMap <- ListInstanceManagersBySelector s nodeID image imType ;;
        match (if decide (size imMap = 1%nat)
               then head (range_values "GetInstanceManagerByInstance.imMap" imMap)
               else None) with
        | Some im => ret im
        | None =>
            fail (ErrorString
                    (Sprintf "can not find the only available instance manager for instance %v, node %v, instance manager image %v, type %v"
                       [FStr name; FStr nodeID; FStr image; FStr imType]))
        end
  end.

End MoreDataStore.

(** ** The event handlers of the node controller *)

Section MoreController.
Context `{Externals} {FS : Type}.
Implicit Types s : DataStore.

(** [enqueueSetting] (lines 616-626): every node of the list is
    enqueued; an error of the list goes to [utilruntime.HandleError],
    which logs it. *)
Definition enqueueSetting (ls : Listers) (setting : Setting) : M FS unit :=
  match ListNodes ls with
  | Err err => ret tt
  | Ok nodeList => forM_ (range_values "enqueueSetting.nodeList" nodeList) enqueueNode
  end.

(** [enqueueReplica] (lines 628-639). *)
Definition enqueueReplica s (replica : Replica) : M FS unit :=
  match GetNode s (replica_NodeID replica) with
  | Err err => ret tt
  | Ok node => enqueueNode node
  end.

(** [enqueueManagerPod] (lines 641-650). *)
Definition enqueueManagerPod (ls : Listers) (pod : Pod) : M FS unit :=
  match ListNodes ls with
  | Err err => ret tt
  | Ok nodeList => forM_ (range_values "enqueueManagerPod.nodeList" nodeList) enqueueNode
  end.

(** [enqueueKubernetesNode] (lines 652-664): a Kubernetes node without
    Longhorn node is skipped in silence, another error is logged. *)
Definition enqueueKubernetesNode s (n : KubeNode) : M FS unit :=
  match GetNode s (kn_Name n) with
  | Err err => if apierrors_IsNotFound err then ret tt else ret tt
  | Ok node => enqueueNode node
  end.

End MoreController.

(** ** Vocabulary of the properties of the data store *)

Section MoreVocabulary.
Context `{Externals} {FS : Type}.

(** The byte [a] occurs in [s]. *)
Fixpoint has_byte (a : ascii) (s : string) : bool :=
  match s with
  | EmptyString => false
  | String b r => Ascii.eqb a b || has_byte a r
  end.

(** The object that a cache filled from the list [l] holds under a name:
    the last one listed with it. *)
Definition cached (l : list Setting) (sName : string) : option Setting :=
  last (filter (λ x, setting_Name x = sName) l).

(** The [Get] side of the cache of settings answers as its [List] side
    does: with the object under the name, or with a not-found error. *)
Definition settings_coherent (ls : Listers) (l : list Setting) : Prop :=
  ∀ sName,
    match cached l sName with
    | Some x => ds_sLister (ls_ds ls) sName = Ok x
    | None => ∃ err, ds_sLister (ls_ds ls) sName = Err err ∧ ErrorIsNotFound err = true
    end.

(** The instance managers of a store that carry the labels of a node,
    an image and a type. *)
Definition selection (node image imType : string) (ims : gmap string InstanceManager)
    : gmap string InstanceManager :=
  filter (λ kv, selector_matches (GetInstanceManagerLabels node image imType)
                  (im_Labels kv.2) = true) ims.

(** The [Ready] and [Schedulable] conditions of a node. *)
Definition node_ready (n : Node) : Condition :=
  GetCondition (nstat_Conditions (node_Status n)) NodeConditionTypeReady.

Definition node_schedulable (n : Node) : Condition :=
  GetCondition (nstat_Conditions (node_Status n)) NodeConditionTypeSchedulable.

(** A condition of the Kubernetes node that does not stand in the way of
    a ready node: of type [Ready] it is true, of one of the pressure
    types it is not true. *)
Definition kube_condition_fine (con : NodeCondition) : Prop :=
  (kc_Type con = v1_NodeReady → kc_Status con = v1_ConditionTrue)
  ∧ (kc_Type con ∈ [v1_NodeOutOfDisk; v1_NodeDiskPressure; v1_NodePIDPressure;
                    v1_NodeMemoryPressure; v1_NodeNetworkUnavailable] →
     kc_Status con ≠ v1_ConditionTrue).

Global Instance kube_condition_fine_dec con : Decision (kube_condition_fine con).
Proof. unfold kube_condition_fine. apply _. Defined.

(** The manager pod of the node named [name]: the first pod of the list
    on that node. *)
Definition manager_pod_of (managerPods : list Pod) (name : string) : option Pod :=
  find (λ pod, bool_decide (pod_NodeName pod = name)) managerPods.

(** The [Ready] condition of a pod. *)
Definition pod_ready_condition (pod : Pod) : option PodCondition :=
  find (λ podCondition, bool_decide (pc_Type podCondition = v1_PodReady))
    (pod_Conditions pod).

(** The replicas of a list that are on a disk, and the sum of the sizes
    of a list of replicas. *)
Definition replicas_on (replicaList : list Replica) (id : string) : list Replica :=
  filter (λ r, replica_DiskID r = id) replicaList.

Definition total_size (replicas : list Replica) : Z :=
  foldr Z.add 0 (replica_VolumeSize <$> replicas).

(** A disk status that accounts for [replicas]: the scheduled storage is
    the sum of their sizes in 64-bit arithmetic, and the replica map
    sends each name to the size of the last replica of that name. *)
Definition scheduled_as (replicas : list Replica) (d : DiskStatus) : Prop :=
  dstat_StorageScheduled d = wrap64 (total_size replicas)
  ∧ ∃ m, dstat_ScheduledReplica d = Some m
         ∧ ∀ name, m !! name
                   = replica_VolumeSize
                       <$> last (filter (λ r, replica_Name r = name) replicas).

(** A disk status after a failed probe: not ready for want of disk
    information, without storage, with the UUID [u]. *)
Definition probe_failed (u : string) (d : DiskStatus) : Prop :=
  cond_Status (disk_ready d) = ConditionStatusFalse
  ∧ cond_Reason (disk_ready d) = DiskConditionReasonNoDiskInfo
  ∧ dstat_StorageMaximum d = 0
  ∧ dstat_StorageAvailable d = 0
  ∧ dstat_DiskUUID d = u.

(** A disk status of a disk in use: ready, with the UUID [u] and the
    storage that the probe [info] reported. *)
Definition in_service (u : string) (info : DiskInfo) (d : DiskStatus) : Prop :=
  cond_Status (disk_ready d) = ConditionStatusTrue
  ∧ cond_Reason (disk_ready d) = ""
  ∧ dstat_DiskUUID d = u
  ∧ dstat_StorageMaximum d = di_StorageMaximum info
  ∧ dstat_StorageAvailable d = di_StorageAvailable info.

(** A string that [strconv.ParseInt] reads as a 64-bit integer. *)
Definition parses (v : string) : Prop := ∃ z, strconv_ParseInt v = Ok z.

End MoreVocabulary.


(** * Fixtures: a concrete cluster for the examples *)

Module Fixture.

(** A formatter that keeps the format, an iteration order that follows
    the list of keys, and the definitions of the three settings the
    reconciler reads. *)
Definition SettingDefinitions0 : gmap string SettingDefinition :=
  {[ SettingNameStorageMinimalAvailablePercentage :=
       mkSettingDefinition SettingTypeInt true false "25";
     SettingNameDisableSchedulingOnCordonedNode :=
       mkSettingDefinition SettingTypeBool true false "true";
     SettingNameDefaultInstanceManagerImage :=
       mkSettingDefinition SettingTypeString true true "longhornio/longhorn-instance-manager:v1" ]}.

Definition types_ErrorIsNotFound0 (e : error) : bool :=
  match e with
  | ErrorString "cannot find disk config file" => true
  | _ => false
  end.

Definition GetInstanceManagerName0 (imType : string) : result string :=
  if decide (imType = InstanceManagerTypeEngine) then Ok "instance-manager-e-new"
  else if decide (imType = InstanceManagerTypeReplica) then Ok "instance-manager-r-new"
  else Err (ErrorString "cannot generate name for unknown instance manager type").

Definition GetRegionAndZone0 (labels : gmap string string) (isUsingTopologyLabels : bool)
    : string * string :=
  if isUsingTopologyLabels then
    (default "" (labels !! "topology.kubernetes.io/region"),
     default "" (labels !! "topology.kubernetes.io/zone"))
  else
    (default "" (labels !! "failure-domain.beta.kubernetes.io/region"),
     default "" (labels !! "failure-domain.beta.kubernetes.io/zone")).

#[export] Instance externals0 : Externals := {|
  Sprintf := λ format _, format;
  range_order := λ _ l, l;
  range_order_perm := λ _ l, Permutation_refl l;
  SettingDefinitions := SettingDefinitions0;
  types_ErrorIsNotFound := types_ErrorIsNotFound0;
  GetInstanceManagerName := GetInstanceManagerName0;
  GetInstanceManagerImageChecksumName := λ image, "imc-" +:+ image;
  GetRegionAndZone := GetRegionAndZone0;
|}.

(** A data store whose caches hold one setting, the minimal available
    percentage at 20, and whose API server accepts every request. *)
Definition notFound (name : string) : error := StatusError StatusReasonNotFound name.

Definition settings0 (name : string) : result Setting :=
  if decide (name = SettingNameStorageMinimalAvailablePercentage)
  then Ok (mkSetting name "20")
  else Err (notFound name).

Definition datastore0 : DataStore := {|
  ds_namespace := "longhorn-system";
  ds_sLister := settings0;
  ds_nLister := λ name, Err (notFound name);
  ds_ListManagerPods := Ok [];
  ds_GetKubernetesNode := λ name, Err (notFound name);
  ds_rLister := λ _, Ok [];
  ds_imLister_fault := λ _, None;
  ds_api_fault := λ _, None;
  ds_SkipListerCheck := false;
|}.

(** Two mount points on one filesystem, each with its tag file; the
    handlers keep no state. *)
Definition probe0 (path : string) (fs : unit) : result DiskInfo :=
  if decide (path = "/mnt/a") then Ok (mkDiskInfo "fsid-1" (100 * GiB) (5 * GiB))
  else if decide (path = "/mnt/b") then Ok (mkDiskInfo "fsid-1" (100 * GiB) (50 * GiB))
  else Err (ErrorString "no such file or directory").

Definition tags0 (path : string) (fs : unit) : result DiskConfig :=
  if decide (path = "/mnt/a") then Ok (mkDiskConfig "uuid-a")
  else if decide (path = "/mnt/b") then Ok (mkDiskConfig "uuid-b")
  else Err (ErrorString "cannot find disk config file").

Definition generate0 (path : string) (fs : unit) : unit * result DiskConfig :=
  (fs, Ok (mkDiskConfig ("uuid-new-" +:+ path))).

Definition controller0 : @NodeController unit := {|
  nc_namespace := "longhorn-system";
  nc_controllerID := "node-1";
  nc_ds := datastore0;
  nc_getDiskInfoHandler := probe0;
  nc_topologyLabelsChecker := λ _, Ok true;
  nc_getDiskConfig := tags0;
  nc_generateDiskConfig := generate0;
|}.

Definition disk_a : DiskSpec := mkDiskSpec "/mnt/a" true (10 * GiB) [].
Definition disk_b : DiskSpec := mkDiskSpec "/mnt/b" true 0 [].

Definition recorded (u : string) : DiskStatus :=
  mkDiskStatus (Some ∅) 0 0 0 (Some ∅) u.

Definition node0 (disks : gmap string DiskSpec) (status : option (gmap string DiskStatus))
    : Node :=
  mkNode "node-1" "longhorn-system" "uid-1" "1" None [longhornFinalizerKey]
    (mkNodeSpec "node-1" disks true [])
    (mkNodeStatus None status "" "").

Definition state0 (node : Node) (ims : gmap string InstanceManager) : State unit :=
  mkState node [] [] ims tt [] "2020-01-01T00:00:00Z".

(** [d1] and [d2] on one filesystem, both with the UUID of their tag
    file on record. *)
Definition state_both_recorded : State unit :=
  state0 (node0 {[ "d1" := disk_a; "d2" := disk_b ]}
            (Some {[ "d1" := recorded "uuid-a"; "d2" := recorded "uuid-b" ]})) ∅.

(** [d1] with a UUID on record that is not the one of its tag file. *)
Definition state_swapped : State unit :=
  state0 (node0 {[ "d1" := disk_a ]} (Some {[ "d1" := recorded "uuid-old" ]})) ∅.

(** [d1] and [d2] on one filesystem, first seen. *)
Definition state_first_seen : State unit :=
  state0 (node0 {[ "d1" := disk_a; "d2" := disk_b ]} None) ∅.

(** Instance managers of the node: an engine manager of an old image
    that is running, has a running engine and is being deleted; two
    engine managers of the default image; a replica manager of the
    default image, held by the finalizer of the data store. *)
Definition image_v1 : string := "longhornio/longhorn-instance-manager:v1".
Definition image_v0 : string := "longhornio/longhorn-instance-manager:v0".

Definition manager (name image imType : string) (deleted : option string)
    (state : string) (instances : gmap string string) : InstanceManager :=
  mkInstanceManager name (GetInstanceManagerLabels "node-1" image imType) []
    [longhornFinalizerKey] deleted
    (mkInstanceManagerSpec image "node-1" imType)
    (mkInstanceManagerStatus state instances).

Definition im_old : InstanceManager :=
  manager "im-e-old" image_v0 InstanceManagerTypeEngine (Some "2019-12-31T23:00:00Z")
    InstanceManagerStateRunning {[ "vol-1-e-0" := InstanceStateRunning ]}.

Definition im_busy : InstanceManager :=
  manager "im-e-busy" image_v0 InstanceManagerTypeEngine None
    InstanceManagerStateRunning {[ "vol-2-e-0" := InstanceStateStarting ]}.

Definition im_e1 : InstanceManager :=
  manager "im-e-1" image_v1 InstanceManagerTypeEngine None InstanceManagerStateRunning ∅.

Definition im_e2 : InstanceManager :=
  manager "im-e-2" image_v1 InstanceManagerTypeEngine None InstanceManagerStateRunning ∅.

Definition im_r : InstanceManager :=
  manager "im-r-1" image_v1 InstanceManagerTypeReplica None InstanceManagerStateRunning
    {[ "vol-1-r-0" := InstanceStateRunning ]}.

(** A node with a disk and the old engine managers. *)
Definition state_old_engine : State unit :=
  state0 (node0 {[ "d1" := disk_a ]} None)
    {[ "im-e-old" := im_old; "im-e-busy" := im_busy ]}.

(** A node without disks, two default engine managers and a replica
    manager. *)
Definition state_no_disks : State unit :=
  state0 (node0 ∅ None) {[ "im-e-1" := im_e1; "im-e-2" := im_e2; "im-r-1" := im_r ]}.

(** A cluster that knows the node: the cache answers with [node] under
    its name, and the API server answers with [fault]. *)
Definition datastore_of (node : Node) (fault : ApiCall → option error) : DataStore := {|
  ds_namespace := "longhorn-system";
  ds_sLister := settings0;
  ds_nLister := λ name, if decide (name = node_Name node) then Ok node
                        else Err (notFound name);
  ds_ListManagerPods := Ok [];
  ds_GetKubernetesNode := λ name, Err (notFound name);
  ds_rLister := λ _, Ok [];
  ds_imLister_fault := λ _, None;
  ds_api_fault := fault;
  ds_SkipListerCheck := false;
|}.

Definition controller_of (controllerID : string) (ds : DataStore) : @NodeController unit := {|
  nc_namespace := "longhorn-system";
  nc_controllerID := controllerID;
  nc_ds := ds;
  nc_getDiskInfoHandler := probe0;
  nc_topologyLabelsChecker := λ _, Ok true;
  nc_getDiskConfig := tags0;
  nc_generateDiskConfig := generate0;
|}.

(** The API server refuses the update of a status with a conflict. *)
Definition conflict_on_status (c : ApiCall) : option error :=
  match c with
  | CallUpdateNodeStatus node => Some (StatusError StatusReasonConflict (node_Name node))
  | _ => None
  end.

(** [node-1] with the disk [d1] in its spec and a stale entry [d9] in
    its status. *)
Definition node_stale : Node :=
  node0 {[ "d1" := disk_a ]} (Some {[ "d9" := recorded "uuid-9" ]}).

Definition key1 : string := "longhorn-system/node-1".

(** The state a worker starts from: the node under reconciliation is set
    by [syncNode]. *)
Definition state_idle : State unit :=
  state0 (node0 ∅ None) {[ "im-e-old" := im_old ]}.

(** The controller of [node-1], the same in front of an API server that
    answers status updates with a conflict, and the controller of
    another node. *)
Definition controller_owner : @NodeController unit :=
  controller_of "node-1" (datastore_of node_stale (λ _, None)).

Definition controller_conflict : @NodeController unit :=
  controller_of "node-1" (datastore_of node_stale conflict_on_status).

Definition controller_other : @NodeController unit :=
  controller_of "node-2" (datastore_of node_stale (λ _, None)).

(** Replicas of [node-1]: two on [d1], one on [d2]. *)
Definition replicas1 : list Replica :=
  [mkReplica "vol-1-r-0" "node-1" "d1" (2 * GiB);
   mkReplica "vol-2-r-0" "node-1" "d2" GiB;
   mkReplica "vol-3-r-0" "node-1" "d1" (3 * GiB)].

Definition datastore_replicas : DataStore := {|
  ds_namespace := "longhorn-system";
  ds_sLister := settings0;
  ds_nLister := λ name, Err (notFound name);
  ds_ListManagerPods := Ok [];
  ds_GetKubernetesNode := λ name, Err (notFound name);
  ds_rLister := λ name, if decide (name = "node-1") then Ok replicas1 else Ok [];
  ds_imLister_fault := λ _, None;
  ds_api_fault := λ _, None;
  ds_SkipListerCheck := false;
|}.

(** The [List] side of the caches of [datastore0]: the one setting, two
    nodes and two volumes. *)
Definition setting_minimal : Setting :=
  mkSetting SettingNameStorageMinimalAvailablePercentage "20".

Definition node_named (name : string) : Node :=
  mkNode name "longhorn-system" ("uid-" +:+ name) "1" None [longhornFinalizerKey]
    (mkNodeSpec name ∅ true []) (mkNodeStatus None None "" "").

Definition listers0 : Listers := {|
  ls_ds := datastore0;
  ls_sLister_List := Ok [setting_minimal];
  ls_nLister_List := Ok [node_named "node-1"; node_named "node-2"];
  ls_vLister_List := Ok [mkVolume "vol-1" false "attached"; mkVolume "vol-2" true "detached"];
|}.

(** The running replicas of a volume, by address. *)
Definition replica_instances : list ReplicaInstance :=
  [mkReplicaInstance "vol-1-r-0" "10.42.0.7" 10000;
   mkReplicaInstance "vol-1-r-1" "10.42.1.9" 10000;
   mkReplicaInstance "vol-1-r-2" "10.42.1.9" 10015].

(** An engine of [node-1] and the managers of the default image. *)
Definition engine1 : Engine := mkEngine "vol-1-e-0" "node-1".

Definition state_managers : State unit :=
  state0 (node0 ∅ None) {[ "im-e-1" := im_e1; "im-r-1" := im_r ]}.

(** [node-1] while it is being deleted, in front of an API server that
    refuses every update of a node. *)
Definition node_deleting : Node :=
  mkNode "node-1" "longhorn-system" "uid-1" "7" (Some "2020-01-01T00:00:00Z")
    ["kubernetes.io/pv-protection"; longhornFinalizerKey]
    (mkNodeSpec "node-1" ∅ true []) (mkNodeStatus None None "" "").

Definition refuse_node_update (c : ApiCall) : option error :=
  match c with
  | CallUpdateNode node => Some (ErrorString "StorageError: invalid object, Code: 4")
  | _ => None
  end.

Definition controller_deleting : @NodeController unit :=
  controller_of "node-1" (datastore_of node_deleting refuse_node_update).

(** A cluster whose manager pod of [node-1] is ready and running and
    whose Kubernetes node [node-1] is ready, without pressure, and
    cordoned or not. *)
Definition manager_pod1 : Pod :=
  mkPod "longhorn-manager-abcde" "node-1"
    (mkContainer "longhorn-manager" [mkVolumeMount LonghornSystemKey
                                       (Some v1_MountPropagationBidirectional)], [])
    [mkPodCondition "Initialized" "True"; mkPodCondition v1_PodReady "True"]
    v1_PodRunning.

Definition kube_node1 (unschedulable : bool) : KubeNode :=
  mkKubeNode "node-1"
    {[ "topology.kubernetes.io/region" := "eu"; "topology.kubernetes.io/zone" := "eu-1" ]}
    unschedulable
    [mkNodeCondition v1_NodeMemoryPressure "False" "KubeletHasSufficientMemory" "";
     mkNodeCondition v1_NodeReady "True" "KubeletReady" ""].

Definition datastore_kube (unschedulable : bool) : DataStore := {|
  ds_namespace := "longhorn-system";
  ds_sLister := settings0;
  ds_nLister := λ name, if decide (name = "node-1") then Ok (node0 ∅ None)
                        else Err (notFound name);
  ds_ListManagerPods := Ok [manager_pod1];
  ds_GetKubernetesNode := λ name, if decide (name = "node-1")
                                  then Ok (kube_node1 unschedulable)
                                  else Err (notFound name);
  ds_rLister := λ _, Ok [];
  ds_imLister_fault := λ _, None;
  ds_api_fault := λ _, None;
  ds_SkipListerCheck := false;
|}.

Definition controller_kube (unschedulable : bool) : @NodeController unit :=
  controller_of "node-2" (datastore_kube unschedulable).

(** The controller of [node-1] in front of the replicas, and a disk
    whose mount point is gone. *)
Definition controller_replicas : @NodeController unit :=
  controller_of "node-1" datastore_replicas.

Definition disk_c : DiskSpec := mkDiskSpec "/mnt/c" true 0 [].

(** A tag store that reads its files. Its state maps a mount point to
    the UUID in the tag file of the mount point; generating a tag file
    writes a fresh UUID under the mount point. *)
Abbreviation Files := (gmap string string).

Definition tags_read (path : string) (fs : Files) : result DiskConfig :=
  match fs !! path with
  | Some u => Ok (mkDiskConfig u)
  | None => Err (ErrorString "cannot find disk config file")
  end.

Definition tags_write (path : string) (fs : Files) : Files * result DiskConfig :=
  (<[path := "uuid-new-" +:+ path]> fs, Ok (mkDiskConfig ("uuid-new-" +:+ path))).

Definition controller_files : @NodeController Files := {|
  nc_namespace := "longhorn-system";
  nc_controllerID := "node-1";
  nc_ds := datastore0;
  nc_getDiskInfoHandler := λ path _, probe0 path tt;
  nc_topologyLabelsChecker := λ _, Ok true;
  nc_getDiskConfig := tags_read;
  nc_generateDiskConfig := tags_write;
|}.

Definition state_files (node : Node) (fs : Files) : State Files :=
  mkState node [] [] ∅ fs [] "2020-01-01T00:00:00Z".

(** [d1] with the UUID [u] on record beside [d2], first seen and without
    tag file, on a store whose tag file of [d1] carries [uuid-a]. *)
Definition state_files_pair (u : string) : State Files :=
  state_files (node0 {[ "d1" := disk_a; "d2" := disk_b ]} (Some {[ "d1" := recorded u ]}))
    {[ "/mnt/a" := "uuid-a" ]}.

(** [d3], whose mount point is gone, with a UUID on record. *)
Definition state_files_unplugged : State Files :=
  state_files (node0 {[ "d3" := disk_c ]} (Some {[ "d3" := recorded "uuid-c" ]})) ∅.

(** [d1], first seen, beside the unplugged [d3], on a given store. *)
Definition state_files_new (fs : Files) : State Files :=
  state_files (node0 {[ "d1" := disk_a; "d3" := disk_c ]} None) fs.

End Fixture.

(** * Properties *)

(** ** The data store: settings *)

Section SettingProperties.
Context `{Externals}.

(** C10. For a setting name with a definition, [GetSetting] never
    returns a nil setting with a nil error: a setting found in the cache
    is returned, a setting absent from the cache (not-found) is replaced
    by a fresh one carrying the default of the definition, and an error
    is returned only when the cache fails with an error that is not a
    not-found. A name without a definition gets an error. Hence
    [GetSettingValueExisted] on a defined setting that was never created
    yields the default value when that is not empty. *)
Theorem GetSetting_defined (s : DataStore) (sName : string) :
  (∀ definition,
     SettingDefinitions !! sName = Some definition →
     GetSetting s sName ≠ (None, None)
     ∧ (∀ setting, getSettingRO s sName = Ok setting →
          GetSetting s sName = (Some setting, None))
     ∧ (∀ err, getSettingRO s sName = Err err → ErrorIsNotFound err = true →
          GetSetting s sName = (Some (mkSetting sName (sd_Default definition)), None)
          ∧ (sd_Default definition ≠ "" →
             GetSettingValueExisted s sName = Ok (sd_Default definition)))
     ∧ (∀ err, (GetSetting s sName).2 = Some err →
          getSettingRO s sName = Err err ∧ ErrorIsNotFound err = false))
  ∧ (SettingDefinitions !! sName = None →
     ∃ err, GetSetting s sName = (None, Some err)).
Proof.
  split.
  - intros definition Hdef. unfold GetSettingValueExisted, GetSetting. rewrite Hdef.
    destruct (getSettingRO s sName) as [setting|err] eqn:Hget.
    + repeat split; intros; simpl in *; simplify_eq; done.
    + destruct (ErrorIsNotFound err) eqn:Hnf; simpl;
        repeat split; intros; simpl in *; simplify_eq; try done;
        try congruence; case_decide; congruence.
  - intros Hdef. unfold GetSetting. rewrite Hdef. eauto.
Qed.

End SettingProperties.

(** ** The monad of the reconciler *)

Section MonadProperties.
Context `{Externals} {FS : Type}.
Implicit Types s : State FS.
Implicit Types I : State FS → Prop.

Lemma run_eta {A} (m : M FS A) s : m s = (exec m s, outcome m s).
Proof. unfold exec, outcome. by destruct (m s). Qed.

Lemma bind_run {A B} (m : M FS A) (k : A → M FS B) s :
  bind m k s = match outcome m s with
               | Ok a => k a (exec m s)
               | Err e => (exec m s, Err e)
               end.
Proof. unfold bind, exec, outcome. by destruct (m s) as [s' [a|e]]. Qed.

Lemma exec_bind {A B} (m : M FS A) (k : A → M FS B) s :
  exec (bind m k) s = match outcome m s with
                      | Ok a => exec (k a) (exec m s)
                      | Err _ => exec m s
                      end.
Proof. unfold exec at 1. rewrite bind_run. by destruct (outcome m s). Qed.

Lemma outcome_bind {A B} (m : M FS A) (k : A → M FS B) s :
  outcome (bind m k) s = match outcome m s with
                         | Ok a => outcome (k a) (exec m s)
                         | Err e => Err e
                         end.
Proof. unfold outcome at 1. rewrite bind_run. by destruct (outcome m s). Qed.

Lemma total_run (m : M FS unit) s : total m → m s = (exec m s, Ok tt).
Proof. intros Hm. rewrite (run_eta m s). destruct (Hm s) as [[] ->]. done. Qed.

Lemma bind_total_run {B} (m : M FS unit) (k : unit → M FS B) s :
  total m → bind m k s = k tt (exec m s).
Proof. intros Hm. unfold bind. by rewrite (total_run m s Hm). Qed.

Lemma bind_ret {A B} (a : A) (k : A → M FS B) s : bind (ret a) k s = k a s.
Proof. reflexivity. Qed.

Lemma bind_get {B} (k : State FS → M FS B) s : bind get k s = k s s.
Proof. reflexivity. Qed.

Lemma bind_get_node {B} (k : Node → M FS B) s : bind get_node k s = k (st_node s) s.
Proof. reflexivity. Qed.

Lemma bind_modify {B} (f : State FS → State FS) (k : unit → M FS B) s :
  bind (modify f) k s = k tt (f s).
Proof. reflexivity. Qed.

Lemma bind_lift_Ok {A B} (a : A) (k : A → M FS B) s : bind (lift (Ok a)) k s = k a s.
Proof. reflexivity. Qed.

Lemma bind_lift_Err {A B} (e : error) (k : A → M FS B) s :
  bind (lift (Err e)) k s = (s, Err e).
Proof. reflexivity. Qed.

Lemma bind_diskStatusMap_lookup {B} (id : string) (k : DiskStatus → M FS B) s :
  bind (diskStatusMap_lookup id) k s = k (default DiskStatus_zero (entry id s)) s.
Proof. reflexivity. Qed.

Lemma bind_outcome_Ok {A B} (m : M FS A) (k : A → M FS B) (a : A) s :
  outcome m s = Ok a → bind m k s = k a (exec m s).
Proof. intros Hm. by rewrite bind_run, Hm. Qed.

(** *** Invariants *)

Lemma stable_ret {A} I (a : A) : stable I (ret a).
Proof. by intros s. Qed.

Lemma stable_fail {A} I e : stable I (fail e : M FS A).
Proof. by intros s. Qed.

Lemma stable_lift {A} I (r : result A) : stable I (lift r).
Proof. by intros s. Qed.

Lemma stable_get I : stable I (get : M FS _).
Proof. by intros s. Qed.

Lemma stable_get_node I : stable I (get_node : M FS _).
Proof. by intros s. Qed.

Lemma stable_diskStatusMap_lookup I id : stable I (diskStatusMap_lookup id : M FS _).
Proof. by intros s. Qed.

Lemma stable_modify I (f : State FS → State FS) :
  (∀ s, I s → I (f s)) → stable I (modify f).
Proof. intros Hf s. apply Hf. Qed.

Lemma stable_bind {A B} I (m : M FS A) (k : A → M FS B) :
  stable I m → (∀ a, stable I (k a)) → stable I (bind m k).
Proof.
  intros Hm Hk s Hs. rewrite exec_bind. specialize (Hm s Hs).
  destruct (outcome m s); [by apply Hk | done].
Qed.

Lemma stable_try {A} I (m : M FS A) : stable I m → stable I (try m).
Proof. intros Hm s Hs. specialize (Hm s Hs). unfold exec, try in *. by destruct (m s). Qed.

Lemma stable_forM_ {A} I (l : list A) (f : A → M FS unit) :
  (∀ x, x ∈ l → stable I (f x)) → stable I (forM_ l f).
Proof.
  induction l as [|x l IH]; intros Hf; simpl; [apply stable_ret|].
  apply stable_bind; [apply Hf; left | intros _; apply IH].
  intros y Hy. apply Hf. by right.
Qed.

Lemma stable_foldM {A B} I (f : B → A → M FS B) (l : list A) (b : B) :
  (∀ b x, x ∈ l → stable I (f b x)) → stable I (foldM f l b).
Proof.
  revert b. induction l as [|x l IH]; intros b Hf; simpl; [apply stable_ret|].
  apply stable_bind; [apply Hf; left | intros b'; apply IH].
  intros b'' y Hy. apply Hf. by right.
Qed.

Lemma stable_if {A} I (c : bool) (m1 m2 : M FS A) :
  stable I m1 → stable I m2 → stable I (if c then m1 else m2).
Proof. by destruct c. Qed.

Lemma stable_decide {A} I (P : Prop) `{Decision P} (m1 m2 : M FS A) :
  stable I m1 → stable I m2 → stable I (if decide P then m1 else m2).
Proof. by destruct (decide P). Qed.

(** *** Computations without errors *)

Lemma total_ret {A} (a : A) : total (ret a : M FS A).
Proof. intros s. by exists a. Qed.

Lemma total_get : total (get : M FS _).
Proof. intros s. by exists s. Qed.

Lemma total_get_node : total (get_node : M FS _).
Proof. intros s. by eexists. Qed.

Lemma total_diskStatusMap_lookup id : total (diskStatusMap_lookup id : M FS _).
Proof. intros s. by eexists. Qed.

Lemma total_lift_Ok {A} (a : A) : total (lift (Ok a) : M FS A).
Proof. intros s. by exists a. Qed.

Lemma total_modify (f : State FS → State FS) : total (modify f).
Proof. intros s. by exists tt. Qed.

Lemma total_bind {A B} (m : M FS A) (k : A → M FS B) :
  total m → (∀ a, total (k a)) → total (bind m k).
Proof.
  intros Hm Hk s. rewrite outcome_bind. destruct (Hm s) as [a ->]. apply Hk.
Qed.

Lemma total_forM_ {A} (l : list A) (f : A → M FS unit) :
  (∀ x, x ∈ l → total (f x)) → total (forM_ l f).
Proof.
  induction l as [|x l IH]; intros Hf; simpl; [apply total_ret|].
  apply total_bind; [apply Hf; left | intros _; apply IH].
  intros y Hy. apply Hf. by right.
Qed.

Lemma total_foldM {A B} (f : B → A → M FS B) (l : list A) (b : B) :
  (∀ b x, x ∈ l → total (f b x)) → total (foldM f l b).
Proof.
  revert b. induction l as [|x l IH]; intros b Hf; simpl; [apply total_ret|].
  apply total_bind; [apply Hf; left | intros b'; apply IH].
  intros b'' y Hy. apply Hf. by right.
Qed.

Lemma total_if {A} (c : bool) (m1 m2 : M FS A) :
  total m1 → total m2 → total (if c then m1 else m2).
Proof. by destruct c. Qed.

Lemma total_decide {A} (P : Prop) `{Decision P} (m1 m2 : M FS A) :
  total m1 → total m2 → total (if decide P then m1 else m2).
Proof. by destruct (decide P). Qed.

Lemma forM__app {A} (l1 l2 : list A) (f : A → M FS unit) s :
  forM_ (l1 ++ l2) f s = bind (forM_ l1 f) (λ _, forM_ l2 f) s.
Proof.
  revert s. induction l1 as [|x l1 IH]; intros s; simpl; [done|].
  rewrite !bind_run, outcome_bind, exec_bind.
  destruct (outcome (f x) s) as [[]|e]; [|done].
  rewrite IH. by rewrite bind_run.
Qed.

(** A loop whose body keeps [I] and establishes [V x] for the element
    [x] it handles, without undoing [V y] for another element. *)
Lemma forM__establish {A} `{EqDecision A} (I : State FS → Prop)
    (V : A → State FS → Prop) (l : list A) (f : A → M FS unit) s :
  (∀ x, x ∈ l → total (f x)) →
  (∀ x, x ∈ l → stable I (f x)) →
  (∀ x s, x ∈ l → I s → V x (exec (f x) s)) →
  (∀ x y, x ∈ l → y ∈ l → x ≠ y → stable (λ s, I s ∧ V y s) (f x)) →
  I s →
  ∀ y, y ∈ l → V y (exec (forM_ l f) s).
Proof.
  intros Htot Hst Hest Hkeep Hs y Hy.
  apply list_elem_of_split in Hy as (l1 & l2 & ->).
  assert (Hin : ∀ x, x ∈ l1 ∨ x = y ∨ x ∈ l2 → x ∈ l1 ++ y :: l2) by set_solver.
  unfold exec. rewrite forM__app, bind_total_run by (apply total_forM_; auto).
  simpl. rewrite bind_total_run by auto.
  assert (Hs1 : I (exec (forM_ l1 f) s)) by (apply stable_forM_; auto).
  assert (Hkeep' : stable (λ s, I s ∧ V y s) (forM_ l2 f)).
  { apply stable_forM_. intros x Hx. destruct (decide (x = y)) as [->|Hne].
    - intros s0 [Hi _]. split; [apply Hst | apply Hest]; auto.
    - apply Hkeep; auto. }
  apply Hkeep'. split; [apply Hst | apply Hest]; auto.
Qed.

(** A loop that returned without error established [V x] for each of
    its elements, when no body undoes it. *)
Lemma forM__establish_ok {A} `{EqDecision A} (I : State FS → Prop) (V : A → State FS → Prop)
    (l : list A) (f : A → M FS unit) s :
  (∀ x, x ∈ l → stable I (f x)) →
  (∀ x s, x ∈ l → I s → outcome (f x) s = Ok tt → V x (exec (f x) s)) →
  (∀ x y, x ∈ l → y ∈ l → stable (λ s, I s ∧ V y s) (f x)) →
  I s → outcome (forM_ l f) s = Ok tt →
  ∀ y, y ∈ l → V y (exec (forM_ l f) s).
Proof.
  intros Hst Hest Hkeep.
  assert (Hgen : ∀ l', (∀ x, x ∈ l' → x ∈ l) → ∀ s, I s → outcome (forM_ l' f) s = Ok tt →
            ∀ y, y ∈ l' → V y (exec (forM_ l' f) s)).
  { induction l' as [|x l' IH]; intros Hsub s0 Hs0 Hok y Hy; [by apply elem_of_nil in Hy|].
    simpl in *. rewrite outcome_bind in Hok. rewrite exec_bind.
    destruct (outcome (f x) s0) as [[]|e] eqn:Hfx; [|done].
    assert (Hx : x ∈ l) by (apply Hsub; left).
    assert (Hs1 : I (exec (f x) s0)) by (by apply Hst).
    destruct (decide (y ∈ l')) as [Hyl|Hyl].
    - apply IH; auto. intros z Hz. apply Hsub. by right.
    - apply elem_of_cons in Hy as [->|Hy]; [|done].
      assert (Hrest : stable (λ s, I s ∧ V x s) (forM_ l' f)).
      { apply stable_forM_. intros z Hz. apply Hkeep; [|done]. apply Hsub. by right. }
      apply Hrest. split; [done|]. by apply Hest. }
  intros Hs Hok y Hy. by apply Hgen.
Qed.

(** A loop whose invariant speaks of the elements handled so far. *)
Lemma forM__prefix {A} (J : list A → State FS → Prop) (l : list A)
    (f : A → M FS unit) s :
  (∀ x, x ∈ l → total (f x)) →
  (∀ pre x post s, l = pre ++ x :: post → J pre s → J (pre ++ [x]) (exec (f x) s)) →
  J [] s → J l (exec (forM_ l f) s).
Proof.
  intros Htot Hstep.
  assert (Hgen : ∀ rest pre s, l = pre ++ rest → J pre s → J l (exec (forM_ rest f) s)).
  { induction rest as [|x rest IH]; intros pre s0 Hl Hs0; simpl.
    - rewrite app_nil_r in Hl. by subst.
    - unfold exec. rewrite bind_total_run.
      2:{ apply Htot. rewrite Hl. apply elem_of_app. right. left. }
      apply (IH (pre ++ [x])).
      + by rewrite <- app_assoc.
      + by apply (Hstep pre x rest). }
  intros Hs. by apply (Hgen l []).
Qed.

End MonadProperties.

(** ** Disk sync *)

Section DiskProperties.
Context `{Externals} {FS : Type}.
Implicit Types s : State FS.
Implicit Types nc : @NodeController FS.
Implicit Types I : State FS → Prop.

Lemma range_keys_elem {V} (site : string) (m : gmap string V) (k : string) :
  k ∈ range_keys site m ↔ is_Some (m !! k).
Proof.
  unfold range_keys. rewrite (range_order_perm site). rewrite list_elem_of_fmap. split.
  - intros [[k' v] [-> Hkv]]. apply elem_of_map_to_list in Hkv. eauto.
  - intros [v Hv]. exists (k, v). split; [done|]. by apply elem_of_map_to_list.
Qed.

Lemma range_keys_NoDup {V} (site : string) (m : gmap string V) :
  NoDup (range_keys site m).
Proof.
  unfold range_keys. rewrite (range_order_perm site). apply NoDup_fst_map_to_list.
Qed.

(** *** The frame of the steps on disk statuses *)

Lemma disk_step_refl T s : disk_step T s s.
Proof. by split. Qed.

Lemma disk_step_trans T s1 s2 s3 :
  disk_step T s1 s2 → disk_step T s2 s3 → disk_step T s1 s3.
Proof.
  intros [? ? ? ? ? He1] [? ? ? ? ? He2]. split; try (etrans; eassumption); auto.
  intros y Hy. rewrite He2 by done. auto.
Qed.

Lemma disk_step_mono (T T' : string → Prop) s s' :
  (∀ y, T y → T' y) → disk_step T s s' → disk_step T' s s'.
Proof. intros HT []. split; auto. Qed.

Lemma disk_step_events T s0 s ev :
  disk_step T s0 s → disk_step T s0 (State_with_events s ev).
Proof. by intros []. Qed.

Lemma disk_step_fs T s0 s fs :
  disk_step T s0 s → disk_step T s0 (State_with_fs s fs).
Proof. by intros []. Qed.

Lemma entry_alter id f s :
  entry id (exec (diskStatusMap_alter id f) s) = f <$> entry id s.
Proof.
  unfold entry, diskStatusMap_of, exec; simpl.
  destruct (nstat_DiskStatus (node_Status (st_node s))) as [m|]; simpl.
  - by rewrite lookup_alter_eq.
  - by rewrite lookup_empty.
Qed.

Lemma entry_alter_ne id y f s :
  id ≠ y → entry y (exec (diskStatusMap_alter id f) s) = entry y s.
Proof.
  intros Hne. unfold entry, diskStatusMap_of, exec; simpl.
  destruct (nstat_DiskStatus (node_Status (st_node s))) as [m|]; simpl; [|done].
  by rewrite lookup_alter_ne.
Qed.

Lemma stable_disk_step_alter (T : string → Prop) s0 id f :
  T id → stable (disk_step T s0) (diskStatusMap_alter id f).
Proof.
  intros HT s Hs. eapply disk_step_trans; [exact Hs|]. split; try done.
  - unfold exec; simpl. intros [m ->]. by eexists.
  - unfold diskStatusMap_of, exec; simpl.
    destruct (nstat_DiskStatus (node_Status (st_node s))); simpl; [|done].
    apply dom_alter_L.
  - intros y Hy. apply entry_alter_ne. by intros ->.
Qed.

Lemma SetConditionAndRecord_run conditions ty v reason message eventtype s :
  ∃ ev, SetConditionAndRecord conditions ty v reason message eventtype s
        = (State_with_events s ev,
           Ok (SetCondition (st_now s) conditions ty v reason message)).
Proof.
  unfold SetConditionAndRecord. case_decide.
  - exists (st_events s). by destruct s.
  - eexists. reflexivity.
Qed.

Lemma setDiskCondition_run id ty v reason message eventtype s :
  ∃ ev, setDiskCondition id ty v reason message eventtype s
        = (exec (diskStatusMap_alter id
                   (λ d, DiskStatus_with_Conditions d
                           (SetCondition (st_now s)
                              (dstat_Conditions (default DiskStatus_zero (entry id s)))
                              ty v reason message)))
                (State_with_events s ev),
           Ok tt).
Proof.
  unfold setDiskCondition. rewrite bind_diskStatusMap_lookup.
  destruct (SetConditionAndRecord_run
              (dstat_Conditions (default DiskStatus_zero (entry id s)))
              ty v reason message eventtype s) as [ev Hev].
  exists ev. unfold bind. rewrite Hev. reflexivity.
Qed.

Lemma total_setDiskCondition id ty v reason message eventtype :
  total (setDiskCondition id ty v reason message eventtype : M FS unit).
Proof.
  intros s. destruct (setDiskCondition_run id ty v reason message eventtype s) as [ev Hev].
  exists tt. unfold outcome. by rewrite Hev.
Qed.

Lemma total_diskStatusMap_alter id f : total (diskStatusMap_alter id f : M FS unit).
Proof. intros s. by exists tt. Qed.

Lemma stable_disk_step_setDiskCondition (T : string → Prop) s0 id ty v reason message
    eventtype :
  T id → stable (disk_step T s0) (setDiskCondition id ty v reason message eventtype).
Proof.
  intros HT s Hs.
  destruct (setDiskCondition_run id ty v reason message eventtype s) as [ev Hev].
  unfold exec at 1. rewrite Hev. simpl.
  apply stable_disk_step_alter; [done|]. by apply disk_step_events.
Qed.

(** What [setDiskCondition] does to the entry of its disk and to the
    other entries. *)
Lemma entry_setDiskCondition id ty v reason message eventtype s :
  entry id (exec (setDiskCondition id ty v reason message eventtype) s)
  = (λ d, DiskStatus_with_Conditions d
            (SetCondition (st_now s) (dstat_Conditions d) ty v reason message))
      <$> entry id s.
Proof.
  destruct (setDiskCondition_run id ty v reason message eventtype s) as [ev Hev].
  unfold exec at 1. rewrite Hev. simpl. rewrite entry_alter.
  change (entry id (State_with_events s ev)) with (entry id s).
  by destruct (entry id s).
Qed.

Lemma entry_setDiskCondition_ne id y ty v reason message eventtype s :
  id ≠ y → entry y (exec (setDiskCondition id ty v reason message eventtype) s) = entry y s.
Proof.
  intros Hne.
  destruct (setDiskCondition_run id ty v reason message eventtype s) as [ev Hev].
  unfold exec at 1. rewrite Hev. simpl. by rewrite entry_alter_ne.
Qed.

Lemma st_fs_setDiskCondition id ty v reason message eventtype s :
  st_fs (exec (setDiskCondition id ty v reason message eventtype) s) = st_fs s.
Proof.
  destruct (setDiskCondition_run id ty v reason message eventtype s) as [ev Hev].
  unfold exec at 1. by rewrite Hev.
Qed.

Lemma st_now_setDiskCondition id ty v reason message eventtype s :
  st_now (exec (setDiskCondition id ty v reason message eventtype) s) = st_now s.
Proof.
  destruct (setDiskCondition_run id ty v reason message eventtype s) as [ev Hev].
  unfold exec at 1. by rewrite Hev.
Qed.

(** *** The status map follows the spec (lines 704-727) *)

Lemma syncDiskStatus_init_eq (m : gmap string DiskStatus) (id : string) :
  syncDiskStatus_init m id = <[id := init_entry (default DiskStatus_zero (m !! id))]> m.
Proof. reflexivity. Qed.

Lemma foldl_init_lookup (l : list string) (m0 : gmap string DiskStatus) (id : string) :
  foldl syncDiskStatus_init m0 l !! id
  = if decide (id ∈ l) then Some (init_entry (default DiskStatus_zero (m0 !! id)))
    else m0 !! id.
Proof.
  revert m0. induction l as [|x l IH]; intros m0; simpl; [done|].
  rewrite IH, syncDiskStatus_init_eq.
  destruct (decide (x = id)) as [->|Hne].
  - rewrite lookup_insert_eq. simpl.
    rewrite (decide_True (P := id ∈ id :: l)) by left.
    by case_decide.
  - rewrite lookup_insert_ne by done.
    destruct (decide (id ∈ l)).
    + by rewrite decide_True by (by right).
    + rewrite decide_False; [done|]. intros [->|?]%elem_of_cons; done.
Qed.

Lemma foldl_prune_lookup (disks : gmap string DiskSpec) (l : list string)
    (m1 : gmap string DiskStatus) (id : string) :
  foldl (syncDiskStatus_prune disks) m1 l !! id
  = if decide (id ∈ l ∧ disks !! id = None) then None else m1 !! id.
Proof.
  revert m1. induction l as [|x l IH]; intros m1; simpl.
  - done.
  - rewrite IH. unfold syncDiskStatus_prune.
    destruct (decide (x = id)) as [->|Hne];
      repeat case_decide; rewrite ?lookup_delete_eq, ?lookup_delete_ne by done;
      try done; exfalso; rewrite ?elem_of_cons in *; naive_solver.
Qed.

Lemma syncDiskStatus_keys_lookup (node : Node) (st : NodeStatus) (id : string) :
  diskStatusMap_of (Node_with_Status node (syncDiskStatus_keys node st)) !! id
  = (λ _, init_entry (default DiskStatus_zero (default ∅ (nstat_DiskStatus st) !! id)))
      <$> nspec_Disks (node_Spec node) !! id.
Proof.
  unfold syncDiskStatus_keys, diskStatusMap_of. simpl.
  rewrite foldl_prune_lookup, foldl_init_lookup.
  set (disks := nspec_Disks (node_Spec node)).
  set (m0 := default ∅ (nstat_DiskStatus st)).
  destruct (disks !! id) as [disk|] eqn:Hd; simpl.
  - rewrite decide_False by (intros [_ ?]; done).
    rewrite decide_True; [done|]. apply range_keys_elem. by rewrite Hd.
  - rewrite (decide_False (P := id ∈ range_keys _ disks)).
    2:{ rewrite range_keys_elem, Hd. by intros []. }
    case_decide as Hc; [done|].
    destruct (m0 !! id) as [d|] eqn:Hm; [|done].
    exfalso. apply Hc. split; [|done]. apply range_keys_elem.
    rewrite foldl_init_lookup. rewrite decide_False.
    + by rewrite Hm.
    + rewrite range_keys_elem. fold disks. rewrite Hd. by intros [].
Qed.

Lemma nonnil_init_entry d : nonnil (init_entry d).
Proof. split; by eexists. Qed.

(** *** Invariants of the loops of [syncDiskStatus]

    The loops act through four operations on the entry of the disk at
    hand, and through the disk handlers; an invariant kept by these is
    kept by the loops. *)

Section Loops.
Variable I : State FS → Prop.
Variable id : string.

Lemma stable_ready_final_ops node diskInfoMap diskUUID :
  (∀ v reason message eventtype,
     stable I (setDiskCondition id DiskConditionTypeReady v reason message eventtype)) →
  (∀ maximum available,
     stable I (diskStatusMap_alter id (λ d, DiskStatus_with_Storage d maximum available))) →
  stable I (syncDiskStatus_ready_final node diskInfoMap id diskUUID).
Proof.
  intros Hcond Hstorage. unfold syncDiskStatus_ready_final.
  apply stable_bind; [apply stable_diskStatusMap_lookup|]. intros d.
  apply stable_decide; [|apply stable_ret].
  apply stable_bind; [apply Hstorage | intros _; apply Hcond].
Qed.

Lemma stable_group_ops node diskInfoMap fsid2Disks :
  (∀ v reason message eventtype,
     stable I (setDiskCondition id DiskConditionTypeReady v reason message eventtype)) →
  stable I (syncDiskStatus_group node diskInfoMap fsid2Disks id).
Proof.
  intros Hcond. unfold syncDiskStatus_group.
  destruct (diskInfoMap !! id) as [[entry|err]|].
  - apply stable_ret.
  - apply stable_bind; [apply Hcond | intros _; apply stable_ret].
  - apply stable_ret.
Qed.

Section Ready.
Hypothesis Hops : ready_ops_stable I id.

Lemma stable_ready_final node diskInfoMap diskUUID :
  stable I (syncDiskStatus_ready_final node diskInfoMap id diskUUID).
Proof. destruct Hops. by apply stable_ready_final_ops. Qed.

Lemma stable_ready_uuid nc node diskInfoMap fsid disks diskUUID :
  stable I (syncDiskStatus_ready_uuid nc node diskInfoMap fsid disks id diskUUID).
Proof.
  destruct Hops as [Hcond Hstorage Huuid Hfs]. unfold syncDiskStatus_ready_uuid.
  apply stable_bind; [apply stable_diskStatusMap_lookup|]. intros d.
  apply stable_decide.
  - apply stable_bind; [apply stable_get_node|]. intros cur.
    apply stable_if; [apply Hcond|]. apply stable_decide.
    + apply stable_bind; [apply stable_get|]. intros st.
      destruct (nc_generateDiskConfig nc _ (st_fs st)) as [fs' [cfg|err]].
      * apply stable_bind; [apply Hfs|]. intros _.
        apply stable_bind; [apply Huuid | intros _; apply stable_ready_final].
      * apply stable_bind; [apply Hfs | intros _; apply Hcond].
    + apply stable_bind; [apply Huuid | intros _; apply stable_ready_final].
  - apply stable_bind; [|intros _; apply stable_ready_final].
    repeat apply stable_decide; try apply Hcond. apply stable_ret.
Qed.

Lemma stable_ready nc node diskInfoMap fsid disks :
  stable I (syncDiskStatus_ready nc node diskInfoMap fsid disks id).
Proof.
  unfold syncDiskStatus_ready. intros s Hs. unfold exec. rewrite bind_get.
  destruct (nc_getDiskConfig nc _ (st_fs s)) as [cfg|err].
  - by apply stable_ready_uuid.
  - destruct (negb (types_ErrorIsNotFound err));
      [by apply Hops | by apply stable_ready_uuid].
Qed.

Lemma stable_group node diskInfoMap fsid2Disks :
  stable I (syncDiskStatus_group node diskInfoMap fsid2Disks id).
Proof. destruct Hops. by apply stable_group_ops. Qed.

End Ready.

Lemma stable_schedulable node replicaDiskMap minimalAvailablePercentage :
  sched_ops_stable I id →
  stable I (syncDiskStatus_schedulable node replicaDiskMap minimalAvailablePercentage id).
Proof.
  intros [Hcond Hscheduled]. unfold syncDiskStatus_schedulable.
  apply stable_bind; [apply Hscheduled|]. intros _.
  apply stable_bind; [apply stable_diskStatusMap_lookup|]. intros d.
  apply stable_bind; [apply stable_lift|]. intros info.
  apply stable_if; apply Hcond.
Qed.

End Loops.

Lemma total_ready_final node diskInfoMap id diskUUID :
  total (syncDiskStatus_ready_final node diskInfoMap id diskUUID : M FS unit).
Proof.
  unfold syncDiskStatus_ready_final.
  apply total_bind; [apply total_diskStatusMap_lookup|]. intros d.
  apply total_decide; [|apply total_ret].
  apply total_bind; [apply total_diskStatusMap_alter|]. intros _.
  apply total_setDiskCondition.
Qed.

Lemma total_ready_uuid nc node diskInfoMap fsid disks id diskUUID :
  total (syncDiskStatus_ready_uuid nc node diskInfoMap fsid disks id diskUUID).
Proof.
  unfold syncDiskStatus_ready_uuid.
  apply total_bind; [apply total_diskStatusMap_lookup|]. intros d.
  apply total_decide.
  - apply total_bind; [apply total_get_node|]. intros cur.
    apply total_if; [apply total_setDiskCondition|]. apply total_decide.
    + apply total_bind; [apply total_get|]. intros st.
      destruct (nc_generateDiskConfig nc _ (st_fs st)) as [fs' [cfg|err]].
      * apply total_bind; [apply total_modify|]. intros _.
        apply total_bind; [apply total_diskStatusMap_alter|]. intros _.
        apply total_ready_final.
      * apply total_bind; [apply total_modify|]. intros _. apply total_setDiskCondition.
    + apply total_bind; [apply total_diskStatusMap_alter|]. intros _.
      apply total_ready_final.
  - apply total_bind; [|intros _; apply total_ready_final].
    repeat apply total_decide; try apply total_setDiskCondition. apply total_ret.
Qed.

Lemma total_ready nc node diskInfoMap fsid disks id :
  total (syncDiskStatus_ready nc node diskInfoMap fsid disks id).
Proof.
  unfold syncDiskStatus_ready. intros s. unfold outcome. rewrite bind_get.
  destruct (nc_getDiskConfig nc _ (st_fs s)) as [cfg|err].
  - apply total_ready_uuid.
  - destruct (negb (types_ErrorIsNotFound err));
      [apply total_setDiskCondition | apply total_ready_uuid].
Qed.

Lemma total_group node diskInfoMap fsid2Disks id :
  total (syncDiskStatus_group node diskInfoMap fsid2Disks id : M FS _).
Proof.
  unfold syncDiskStatus_group. destruct (diskInfoMap !! id) as [[entry|err]|].
  - apply total_ret.
  - apply total_bind; [apply total_setDiskCondition | intros _; apply total_ret].
  - apply total_ret.
Qed.

Lemma total_schedulable node replicaDiskMap minimalAvailablePercentage id :
  total (syncDiskStatus_schedulable node replicaDiskMap minimalAvailablePercentage id
         : M FS unit).
Proof.
  unfold syncDiskStatus_schedulable.
  apply total_bind; [apply total_diskStatusMap_alter|]. intros _.
  apply total_bind; [apply total_diskStatusMap_lookup|]. intros d.
  apply total_bind; [apply total_lift_Ok|]. intros info.
  apply total_if; apply total_setDiskCondition.
Qed.

(** An invariant kept by the bodies of the loops is kept by the loops. *)
Lemma stable_readiness_bodies I nc :
  (∀ node diskInfoMap g id, stable I (syncDiskStatus_group node diskInfoMap g id)) →
  (∀ node diskInfoMap fsid disks id,
     stable I (syncDiskStatus_ready nc node diskInfoMap fsid disks id)) →
  stable I (syncDiskStatus_readiness nc).
Proof.
  intros Hg Hr. unfold syncDiskStatus_readiness.
  apply stable_bind; [apply stable_get_node|]. intros node.
  apply stable_bind; [apply stable_get|]. intros st.
  apply stable_bind.
  - apply stable_foldM. intros g id _. apply Hg.
  - intros g. apply stable_forM_. intros fsid _. apply stable_forM_. intros id _.
    apply Hr.
Qed.

Lemma stable_readiness I nc :
  (∀ id, ready_ops_stable I id) → stable I (syncDiskStatus_readiness nc).
Proof.
  intros HI. apply stable_readiness_bodies; intros.
  - by apply stable_group.
  - by apply stable_ready.
Qed.

Lemma total_readiness nc : total (syncDiskStatus_readiness nc).
Proof.
  unfold syncDiskStatus_readiness.
  apply total_bind; [apply total_get_node|]. intros node.
  apply total_bind; [apply total_get|]. intros st.
  apply total_bind.
  - apply total_foldM. intros g id _. apply total_group.
  - intros g. apply total_forM_. intros fsid _. apply total_forM_. intros id _.
    apply total_ready.
Qed.

Lemma stable_schedulability I nc node :
  (∀ id, sched_ops_stable I id) → stable I (syncDiskStatus_schedulability nc node).
Proof.
  intros HI. unfold syncDiskStatus_schedulability.
  apply stable_bind; [apply stable_lift|]. intros replicaDiskMap.
  apply stable_bind; [apply stable_lift|]. intros pct.
  apply stable_forM_. intros id _. by apply stable_schedulable.
Qed.

(** The state in which [syncDiskStatus] leaves its first two loops. *)
Lemma syncDiskStatus_run nc s :
  syncDiskStatus nc s
  = (syncDiskStatus_readiness nc ;; syncDiskStatus_schedulability nc (st_node s))
      (exec (modify_status (syncDiskStatus_keys (st_node s))) s).
Proof. reflexivity. Qed.

Lemma stable_syncDiskStatus_rest I nc node :
  (∀ id, ready_ops_stable I id) → (∀ id, sched_ops_stable I id) →
  stable I (syncDiskStatus_readiness nc ;; syncDiskStatus_schedulability nc node).
Proof.
  intros Hr Hs. apply stable_bind; [by apply stable_readiness|].
  intros _. by apply stable_schedulability.
Qed.

Lemma entry_keys s id :
  entry id (exec (modify_status (syncDiskStatus_keys (st_node s))) s)
  = (λ _, init_entry (default DiskStatus_zero (entry id s)))
      <$> nspec_Disks (node_Spec (st_node s)) !! id.
Proof.
  unfold entry, exec; simpl.
  apply (syncDiskStatus_keys_lookup (st_node s) (node_Status (st_node s)) id).
Qed.

Lemma ready_ops_stable_disk_step (T : string → Prop) s0 id :
  T id → ready_ops_stable (disk_step T s0) id.
Proof.
  intros HT. split; intros.
  - by apply stable_disk_step_setDiskCondition.
  - by apply stable_disk_step_alter.
  - by apply stable_disk_step_alter.
  - intros s Hs. by apply disk_step_fs.
Qed.

Lemma sched_ops_stable_disk_step (T : string → Prop) s0 id :
  T id → sched_ops_stable (disk_step T s0) id.
Proof.
  intros HT. split; intros.
  - by apply stable_disk_step_setDiskCondition.
  - by apply stable_disk_step_alter.
Qed.

Lemma stable_nonnil_alter id f :
  (∀ d, nonnil d → nonnil (f d)) →
  stable nonnil_inv (diskStatusMap_alter id f : M FS unit).
Proof.
  intros Hf s Hs k d Hk. change (entry k (exec (diskStatusMap_alter id f) s) = Some d) in Hk.
  destruct (decide (id = k)) as [->|Hne].
  - rewrite entry_alter in Hk. destruct (entry k s) as [d2|] eqn:Hd2; [|done].
    injection Hk as <-. apply Hf. by apply (Hs k).
  - rewrite entry_alter_ne in Hk by done. by apply (Hs k).
Qed.

Lemma stable_nonnil_setDiskCondition id ty v reason message eventtype :
  stable nonnil_inv (setDiskCondition id ty v reason message eventtype : M FS unit).
Proof.
  intros s Hs k d Hk.
  change (entry k (exec (setDiskCondition id ty v reason message eventtype) s) = Some d)
    in Hk.
  destruct (decide (id = k)) as [->|Hne].
  - rewrite entry_setDiskCondition in Hk.
    destruct (entry k s) as [d2|] eqn:Hd2; [|done]. injection Hk as <-.
    destruct (Hs k d2 Hd2) as [_ ?]. split; [by eexists | done].
  - rewrite entry_setDiskCondition_ne in Hk by done. by apply (Hs k).
Qed.

Lemma ready_ops_stable_nonnil id : ready_ops_stable (nonnil_inv : State FS → Prop) id.
Proof.
  split; intros.
  - apply stable_nonnil_setDiskCondition.
  - apply stable_nonnil_alter. by intros d [].
  - apply stable_nonnil_alter. by intros d [].
  - by intros s Hs.
Qed.

Lemma sched_ops_stable_nonnil id : sched_ops_stable (nonnil_inv : State FS → Prop) id.
Proof.
  split; intros.
  - apply stable_nonnil_setDiskCondition.
  - apply stable_nonnil_alter. intros d []. split; [done | by eexists].
Qed.

(** After [syncDiskStatus], whatever its outcome, the status map is not
    nil, has the keys of the spec, and none of its entries has a nil
    map; the rest of the node, the instance managers and the requests
    are as before. *)
Lemma syncDiskStatus_post nc s :
  let s' := exec (syncDiskStatus nc) s in
  node_meta (st_node s') = node_meta (st_node s)
  ∧ status_rest (st_node s') = status_rest (st_node s)
  ∧ world_rest s' = world_rest s
  ∧ (∃ m', nstat_DiskStatus (node_Status (st_node s')) = Some m'
           ∧ dom m' = dom (nspec_Disks (node_Spec (st_node s)))
           ∧ map_Forall (λ _ d, nonnil d) m').
Proof.
  intros s'. unfold s', exec. rewrite syncDiskStatus_run.
  set (s1 := exec (modify_status (syncDiskStatus_keys (st_node s))) s).
  set (rest := bind (syncDiskStatus_readiness nc)
                 (λ _, syncDiskStatus_schedulability nc (st_node s))).
  change ((rest s1).1) with (exec rest s1).
  assert (Hstep : disk_step (λ _, True) s1 (exec rest s1)).
  { apply stable_syncDiskStatus_rest; [| |apply disk_step_refl].
    - intros id. by apply ready_ops_stable_disk_step.
    - intros id. by apply sched_ops_stable_disk_step. }
  assert (Hnn : nonnil_inv (exec rest s1)).
  { apply stable_syncDiskStatus_rest;
      [apply ready_ops_stable_nonnil | apply sched_ops_stable_nonnil |].
    intros k d Hk. change (entry k s1 = Some d) in Hk. unfold s1 in Hk.
    rewrite entry_keys in Hk.
    destruct (nspec_Disks (node_Spec (st_node s)) !! k); [|done].
    injection Hk as <-. apply nonnil_init_entry. }
  destruct Hstep as [Hmeta Hrest Hworld Hsome Hdom _].
  repeat split; try done.
  destruct Hsome as [m' Hm']; [by eexists|]. exists m'. split; [done|].
  unfold nonnil_inv, diskStatusMap_of in Hnn, Hdom. rewrite Hm' in Hnn, Hdom.
  simpl in Hnn, Hdom. split; [|done]. rewrite Hdom.
  apply set_eq. intros k. rewrite !elem_of_dom.
  change (is_Some (entry k s1) ↔ is_Some (nspec_Disks (node_Spec (st_node s)) !! k)).
  unfold s1. rewrite entry_keys. by rewrite fmap_is_Some.
Qed.

End DiskProperties.

(** *** The entry of one disk *)

Section DiskEntryProperties.
Context `{Externals} {FS : Type}.
Implicit Types s : State FS.
Implicit Types nc : @NodeController FS.
Implicit Types P : DiskStatus → Prop.

Lemma entry_sat_impl id P (Q : DiskStatus → Prop) s :
  (∀ d, P d → Q d) → entry_sat id P s → entry_sat id Q s.
Proof. intros HPQ (d & Hd & HP). exists d. auto. Qed.

Lemma GetCondition_SetCondition now c ty v reason message :
  let c' := GetCondition (SetCondition now c ty v reason message) ty in
  cond_Status c' = v ∧ cond_Reason c' = reason ∧ cond_Message c' = message.
Proof.
  unfold GetCondition, SetCondition. simpl. by rewrite lookup_insert_eq.
Qed.

Lemma GetCondition_SetCondition_ne now c ty ty' v reason message :
  ty ≠ ty' →
  GetCondition (SetCondition now c ty v reason message) ty' = GetCondition c ty'.
Proof.
  intros Hne. unfold GetCondition, SetCondition. simpl.
  rewrite lookup_insert_ne by done. destruct c as [m|]; simpl; [done|].
  by rewrite lookup_empty.
Qed.

Lemma stable_entry_sat_alter id0 P id f :
  (id = id0 → ∀ d, P d → P (f d)) →
  stable (entry_sat id0 P) (diskStatusMap_alter id f : M FS unit).
Proof.
  intros Hf s (d & Hd & HP). unfold entry_sat.
  destruct (decide (id = id0)) as [->|Hne].
  - rewrite entry_alter, Hd. simpl. eauto.
  - rewrite entry_alter_ne by done. eauto.
Qed.

Lemma stable_entry_sat_setDiskCondition id0 P id ty v reason message eventtype :
  (id = id0 → ∀ d now,
     P d → P (DiskStatus_with_Conditions d
                (SetCondition now (dstat_Conditions d) ty v reason message))) →
  stable (entry_sat id0 P)
    (setDiskCondition id ty v reason message eventtype : M FS unit).
Proof.
  intros Hf s (d & Hd & HP). unfold entry_sat.
  destruct (decide (id = id0)) as [->|Hne].
  - rewrite entry_setDiskCondition, Hd. simpl. eauto.
  - rewrite entry_setDiskCondition_ne by done. eauto.
Qed.

Lemma stable_entry_sat_fs id0 P fs :
  stable (entry_sat id0 P) (modify (λ st : State FS, State_with_fs st fs)).
Proof. by intros s Hs. Qed.

Lemma ready_ops_stable_other id0 P id :
  id ≠ id0 → ready_ops_stable (entry_sat id0 P : State FS → Prop) id.
Proof.
  intros Hne. split; intros.
  - by apply stable_entry_sat_setDiskCondition.
  - by apply stable_entry_sat_alter.
  - by apply stable_entry_sat_alter.
  - apply stable_entry_sat_fs.
Qed.

Lemma sched_ops_stable_other id0 P id :
  id ≠ id0 → sched_ops_stable (entry_sat id0 P : State FS → Prop) id.
Proof.
  intros Hne. split; intros.
  - by apply stable_entry_sat_setDiskCondition.
  - by apply stable_entry_sat_alter.
Qed.

Lemma ready_ops_stable_same_trivial id0 id :
  ready_ops_stable (entry_sat id0 (λ _, True) : State FS → Prop) id.
Proof.
  split; intros.
  - by apply stable_entry_sat_setDiskCondition.
  - by apply stable_entry_sat_alter.
  - by apply stable_entry_sat_alter.
  - apply stable_entry_sat_fs.
Qed.

(** A property of a status that does not look at the [Schedulable]
    condition nor at the scheduled storage survives the last loop. *)
Lemma sched_ops_stable_same id0 P id :
  (∀ d now v reason message,
     P d → P (DiskStatus_with_Conditions d
                (SetCondition now (dstat_Conditions d) DiskConditionTypeSchedulable
                   v reason message))) →
  (∀ d scheduled replicas, P d → P (DiskStatus_with_Scheduled d scheduled replicas)) →
  sched_ops_stable (entry_sat id0 P : State FS → Prop) id.
Proof.
  intros Hc Hs. split; intros.
  - apply stable_entry_sat_setDiskCondition. auto.
  - apply stable_entry_sat_alter. auto.
Qed.

(** *** The two branches of the loop body, as equations *)

Lemma ready_uuid_recorded nc node diskInfoMap fsid disks id diskUUID s :
  dstat_DiskUUID (default DiskStatus_zero (entry id s)) ≠ "" →
  syncDiskStatus_ready_uuid nc node diskInfoMap fsid disks id diskUUID s
  = ((if decide (diskUUID = "") then
        setDiskCondition id DiskConditionTypeReady ConditionStatusFalse
          DiskConditionReasonDiskFilesystemChanged
          (Sprintf "Disk %v(%v) on node %v is not ready: cannot find disk config file, maybe due to a mount error"
             [FStr id; FStr (disk_Path (disk_of node id)); FStr (node_Name node)])
          EventTypeWarning
      else if decide (dstat_DiskUUID (default DiskStatus_zero (entry id s)) ≠ diskUUID) then
        setDiskCondition id DiskConditionTypeReady ConditionStatusFalse
          DiskConditionReasonDiskFilesystemChanged
          (Sprintf "Disk %v(%v) on node %v is not ready: record diskUUID doesn't match the one on the disk "
             [FStr id; FStr (disk_Path (disk_of node id)); FStr (node_Name node)])
          EventTypeWarning
      else ret tt) ;;
     syncDiskStatus_ready_final node diskInfoMap id diskUUID) s.
Proof.
  intros Hu. unfold syncDiskStatus_ready_uuid. rewrite bind_diskStatusMap_lookup.
  by rewrite decide_False.
Qed.

Lemma ready_final_differs node diskInfoMap id diskUUID s :
  dstat_DiskUUID (default DiskStatus_zero (entry id s)) ≠ diskUUID →
  syncDiskStatus_ready_final node diskInfoMap id diskUUID s = (s, Ok tt).
Proof.
  intros Hu. unfold syncDiskStatus_ready_final. rewrite bind_diskStatusMap_lookup.
  by rewrite decide_False.
Qed.

(** A disk with a recorded UUID keeps it through the loop body. *)
Lemma stable_ready_recorded P nc node diskInfoMap fsid disks id :
  (∀ d, P d → dstat_DiskUUID d ≠ "") →
  (∀ d c, P d → P (DiskStatus_with_Conditions d c)) →
  (∀ d maximum available, P d → P (DiskStatus_with_Storage d maximum available)) →
  stable (entry_sat id P) (syncDiskStatus_ready nc node diskInfoMap fsid disks id).
Proof.
  intros HPu HPc HPs.
  assert (Hcond : ∀ v reason message eventtype,
            stable (entry_sat id P)
              (setDiskCondition id DiskConditionTypeReady v reason message eventtype
               : M FS unit)).
  { intros. apply stable_entry_sat_setDiskCondition. auto. }
  assert (Huuid : ∀ diskUUID,
            stable (entry_sat id P)
              (syncDiskStatus_ready_uuid nc node diskInfoMap fsid disks id diskUUID)).
  { intros diskUUID s Hs. pose proof Hs as (d & Hd & HP). unfold exec.
    rewrite ready_uuid_recorded by (rewrite Hd; by apply HPu).
    refine (stable_bind (entry_sat id P) _ _ _ _ s Hs).
    - repeat apply stable_decide; try apply Hcond. apply stable_ret.
    - intros _. apply stable_ready_final_ops; [done|].
      intros. apply stable_entry_sat_alter. auto. }
  intros s Hs. unfold syncDiskStatus_ready, exec. rewrite bind_get.
  destruct (nc_getDiskConfig nc _ (st_fs s)) as [cfg|err].
  - by apply Huuid.
  - destruct (negb (types_ErrorIsNotFound err)); [by apply Hcond | by apply Huuid].
Qed.

(** *** The groups of disks by filesystem id *)

Lemma foldM_group_outcome node diskInfoMap (l : list string) g s :
  outcome (foldM (syncDiskStatus_group node diskInfoMap) l g) s
  = Ok (foldl (group_pure diskInfoMap) g l).
Proof.
  revert g s. induction l as [|id l IH]; intros g s; simpl; [done|].
  rewrite outcome_bind. unfold syncDiskStatus_group at 1 2, group_pure at 2.
  destruct (diskInfoMap !! id) as [[entry|err]|]; simpl; try apply IH.
  rewrite outcome_bind.
  destruct (total_setDiskCondition id DiskConditionTypeReady ConditionStatusFalse
              DiskConditionReasonNoDiskInfo
              (Sprintf "Disk %v(%v) on node %v is not ready: Get disk information error: %v"
                 [FStr id; FStr (disk_Path (disk_of node id)); FStr (node_Name node);
                  FErr err])
              EventTypeWarning s) as [[] ->].
  simpl. apply IH.
Qed.

Lemma group_pure_lookup diskInfoMap (l : list string) g fsid :
  default [] (foldl (group_pure diskInfoMap) g l !! fsid)
  = default [] (g !! fsid) ++ filter (λ id, fsid_of diskInfoMap id = Some fsid) l.
Proof.
  revert g. induction l as [|id l IH]; intros g; simpl.
  - by rewrite app_nil_r.
  - rewrite IH, filter_cons. unfold group_pure.
    assert (Hf : fsid_of diskInfoMap id
                 = match diskInfoMap !! id with
                   | Some (Ok entry) => Some (di_Fsid entry)
                   | _ => None
                   end) by done.
    rewrite Hf. clear Hf.
    destruct (diskInfoMap !! id) as [[entry|err]|] eqn:Hid; simpl; try done.
    destruct (decide (di_Fsid entry = fsid)) as [->|Hne].
    + rewrite lookup_insert_eq. simpl. rewrite decide_True by done.
      by rewrite <- app_assoc.
    + rewrite lookup_insert_ne by done. by rewrite decide_False by congruence.
Qed.

(** The disks of a group are those whose probe reported its id, each
    once. *)
Lemma group_elem diskInfoMap site fsid id :
  id ∈ default [] (foldl (group_pure diskInfoMap) ∅ (range_keys site diskInfoMap) !! fsid)
  ↔ fsid_of diskInfoMap id = Some fsid.
Proof.
  rewrite group_pure_lookup, lookup_empty. simpl. rewrite list_elem_of_filter.
  rewrite range_keys_elem. split; [by intros []|]. intros Hf. split; [done|].
  unfold fsid_of in Hf. destruct (diskInfoMap !! id); [by eexists | done].
Qed.

Lemma group_NoDup diskInfoMap site fsid :
  NoDup (default [] (foldl (group_pure diskInfoMap) ∅ (range_keys site diskInfoMap) !! fsid)).
Proof.
  rewrite group_pure_lookup, lookup_empty. simpl.
  apply NoDup_filter, range_keys_NoDup.
Qed.

(** [syncDiskStatus_readiness] as the loops over the groups, run in the
    state the grouping leaves. *)
Lemma readiness_run nc s :
  let node := st_node s in
  let diskInfoMap := getDiskInfoMap nc node (st_fs s) in
  let keys := range_keys "syncDiskStatus.diskInfoMap" diskInfoMap in
  let g := foldl (group_pure diskInfoMap) ∅ keys in
  syncDiskStatus_readiness nc s
  = forM_ (range_keys "syncDiskStatus.fsid2Disks" g)
      (λ fsid, forM_ (default [] (g !! fsid))
                 (syncDiskStatus_ready nc node diskInfoMap fsid (default [] (g !! fsid))))
      (exec (foldM (syncDiskStatus_group node diskInfoMap) keys ∅) s).
Proof.
  intros node diskInfoMap keys g. unfold syncDiskStatus_readiness.
  rewrite bind_get_node, bind_get.
  by rewrite (bind_outcome_Ok _ _ g) by apply foldM_group_outcome.
Qed.

Lemma exec_readiness nc s :
  let node := st_node s in
  let diskInfoMap := getDiskInfoMap nc node (st_fs s) in
  let keys := range_keys "syncDiskStatus.diskInfoMap" diskInfoMap in
  let g := foldl (group_pure diskInfoMap) ∅ keys in
  exec (syncDiskStatus_readiness nc) s
  = exec (forM_ (range_keys "syncDiskStatus.fsid2Disks" g)
            (λ fsid, forM_ (default [] (g !! fsid))
                       (syncDiskStatus_ready nc node diskInfoMap fsid
                          (default [] (g !! fsid)))))
      (exec (foldM (syncDiskStatus_group node diskInfoMap) keys ∅) s).
Proof. intros. unfold exec at 1. by rewrite readiness_run. Qed.

(** *** A recorded UUID is never replaced *)

Lemma filesystem_changed_idle u d : filesystem_changed u d → recorded_idle u d.
Proof. by intros []. Qed.

Lemma filesystem_changed_set u d now message :
  recorded_idle u d →
  filesystem_changed u
    (DiskStatus_with_Conditions d
       (SetCondition now (dstat_Conditions d) DiskConditionTypeReady ConditionStatusFalse
          DiskConditionReasonDiskFilesystemChanged message)).
Proof.
  intros Hd. split; [exact Hd|]. unfold disk_ready. simpl.
  destruct (GetCondition_SetCondition now (dstat_Conditions d) DiskConditionTypeReady
              ConditionStatusFalse DiskConditionReasonDiskFilesystemChanged message)
    as (? & ? & _).
  done.
Qed.

(** The loop body on a disk whose recorded UUID is not the one of the
    tag file. *)
Lemma ready_differs nc node diskInfoMap fsid disks id u s :
  u ≠ "" →
  config_differs (nc_getDiskConfig nc (disk_Path (disk_of node id)) (st_fs s)) u →
  entry_sat id (recorded_idle u) s →
  entry_sat id (filesystem_changed u)
    (exec (syncDiskStatus_ready nc node diskInfoMap fsid disks id) s).
Proof.
  intros Hu Hcfg (d & Hd & Hidle).
  assert (Hd' : dstat_DiskUUID (default DiskStatus_zero (entry id s)) = u).
  { rewrite Hd. apply Hidle. }
  assert (Huuid : ∀ diskUUID, diskUUID ≠ u →
            entry_sat id (filesystem_changed u)
              (exec (syncDiskStatus_ready_uuid nc node diskInfoMap fsid disks id diskUUID) s)).
  { intros diskUUID Hne. unfold exec.
    rewrite ready_uuid_recorded by (by rewrite Hd').
    rewrite Hd'. rewrite (decide_True (P := u ≠ diskUUID)) by done.
    destruct (decide (diskUUID = "")).
    - rewrite bind_total_run by apply total_setDiskCondition.
      rewrite ready_final_differs.
      + simpl. unfold entry_sat. rewrite entry_setDiskCondition, Hd. simpl.
        eexists. split; [done|]. by apply filesystem_changed_set.
      + rewrite entry_setDiskCondition, Hd. simpl. destruct Hidle as [-> _]. done.
    - rewrite bind_total_run by apply total_setDiskCondition.
      rewrite ready_final_differs.
      + simpl. unfold entry_sat. rewrite entry_setDiskCondition, Hd. simpl.
        eexists. split; [done|]. by apply filesystem_changed_set.
      + rewrite entry_setDiskCondition, Hd. simpl. destruct Hidle as [-> _]. done. }
  unfold syncDiskStatus_ready, exec. rewrite bind_get.
  destruct (nc_getDiskConfig nc _ (st_fs s)) as [cfg|err]; simpl in Hcfg.
  - by apply Huuid.
  - rewrite Hcfg. simpl. by apply Huuid.
Qed.

Section Recorded.
Variable nc : @NodeController FS.
Variable id u : string.
Hypothesis Hu : u ≠ "".

Lemma stable_uuid_ready node diskInfoMap fsid disks x :
  stable (entry_sat id (λ d, dstat_DiskUUID d = u))
    (syncDiskStatus_ready nc node diskInfoMap fsid disks x).
Proof.
  destruct (decide (x = id)) as [->|Hne].
  - apply stable_ready_recorded; [by intros d -> | done | done].
  - apply stable_ready. by apply ready_ops_stable_other.
Qed.

Lemma stable_uuid_group node diskInfoMap g x :
  stable (entry_sat id (λ d, dstat_DiskUUID d = u))
    (syncDiskStatus_group node diskInfoMap g x : M FS _).
Proof.
  apply stable_group_ops. intros. apply stable_entry_sat_setDiskCondition. auto.
Qed.

Lemma sched_ops_stable_uuid x :
  sched_ops_stable (entry_sat id (λ d, dstat_DiskUUID d = u) : State FS → Prop) x.
Proof. apply sched_ops_stable_same; auto. Qed.

End Recorded.

Lemma node_Spec_keys s :
  node_Spec (st_node (exec (modify_status (syncDiskStatus_keys (st_node s))) s))
  = node_Spec (st_node s).
Proof. reflexivity. Qed.

(** *** The [Schedulable] condition *)

Lemma schedulable_establishes node replicaDiskMap percentage id s :
  entry_sat id (λ _, True) s →
  entry_sat id (schedulable_verdict percentage (disk_of node id))
    (exec (syncDiskStatus_schedulable node replicaDiskMap percentage id) s).
Proof.
  intros (d & Hd & _). unfold syncDiskStatus_schedulable, exec.
  rewrite bind_total_run by apply total_diskStatusMap_alter.
  match goal with
  | |- context [diskStatusMap_alter id ?f] => set (s1 := exec (diskStatusMap_alter id f) s)
  end.
  assert (Hd1 : entry id s1 = Some (DiskStatus_with_Scheduled d
            (foldl (λ acc replica, int64_add acc (replica_VolumeSize replica)) 0
               (default [] (replicaDiskMap !! id)))
            (Some (foldl (λ m replica, <[replica_Name replica := replica_VolumeSize replica]> m)
                     ∅ (default [] (replicaDiskMap !! id)))))).
  { unfold s1. by rewrite entry_alter, Hd. }
  rewrite bind_diskStatusMap_lookup, Hd1. unfold GetDiskSchedulingInfo.
  rewrite bind_lift_Ok.
  unfold IsSchedulableToDisk, entry_sat. simpl.
  case_bool_decide as Hfits; simpl.
  - change ((setDiskCondition id DiskConditionTypeSchedulable ConditionStatusTrue ""
               (Sprintf "Disk %v(%v) on node %v is schedulable"
                  [FStr id; FStr (disk_Path (disk_of node id)); FStr (node_Name node)])
               EventTypeNormal s1).1)
      with (exec (setDiskCondition id DiskConditionTypeSchedulable ConditionStatusTrue ""
               (Sprintf "Disk %v(%v) on node %v is schedulable"
                  [FStr id; FStr (disk_Path (disk_of node id)); FStr (node_Name node)])
               EventTypeNormal) s1).
    rewrite entry_setDiskCondition, Hd1. simpl. eexists. split; [done|].
    unfold schedulable_verdict, disk_schedulable. simpl.
    split; [intros _ | done].
    match goal with
    | |- context [SetCondition ?now ?c ?ty ?v ?r ?m] =>
        destruct (GetCondition_SetCondition now c ty v r m) as (? & ? & _)
    end. done.
  - match goal with
    | |- context [setDiskCondition id ?ty ?v ?r ?m ?e s1] =>
        change ((setDiskCondition id ty v r m e s1).1)
          with (exec (setDiskCondition id ty v r m e) s1)
    end.
    rewrite entry_setDiskCondition, Hd1. simpl. eexists. split; [done|].
    unfold schedulable_verdict, disk_schedulable. simpl.
    split; [done | intros _].
    match goal with
    | |- context [SetCondition ?now ?c ?ty ?v ?r ?m] =>
        destruct (GetCondition_SetCondition now c ty v r m) as (? & ? & _)
    end. done.
Qed.

(** C4. When [syncDiskStatus] returns without error, the [Schedulable]
    condition of every disk of the spec is that of the scheduling
    predicate with a required size of 0 and the percentage of the
    setting [StorageMinimalAvailablePercentage]: false with the reason
    [DiskPressure] exactly when
    [StorageAvailable - 0 >= max (StorageReserved, StorageMaximum * percentage / 100)]
    fails, true otherwise. A disk of 100 GiB with 5 GiB available and
    10 GiB reserved fails the predicate at 20 percent. *)
Theorem syncDiskStatus_Schedulable nc s :
  (outcome (syncDiskStatus nc) s = Ok tt →
   ∃ percentage,
     GetSettingAsInt (nc_ds nc) SettingNameStorageMinimalAvailablePercentage = Ok percentage
     ∧ ∀ id disk,
         nspec_Disks (node_Spec (st_node s)) !! id = Some disk →
         entry_sat id (schedulable_verdict percentage disk) (exec (syncDiskStatus nc) s))
  ∧ IsSchedulableToDisk 20 0 0
      (mkDiskSchedulingInfo (5 * GiB) (100 * GiB) (10 * GiB) 0) = false.
Proof.
  split; [|done].
  unfold outcome, exec. rewrite syncDiskStatus_run.
  set (s1 := exec (modify_status (syncDiskStatus_keys (st_node s))) s).
  rewrite bind_total_run by apply total_readiness.
  set (s2 := exec (syncDiskStatus_readiness nc) s1).
  unfold syncDiskStatus_schedulability.
  destruct (ListReplicasByNode (nc_ds nc) (node_Name (st_node s))) as [replicaDiskMap|err];
    [rewrite bind_lift_Ok | by rewrite bind_lift_Err].
  destruct (GetSettingAsInt (nc_ds nc) SettingNameStorageMinimalAvailablePercentage)
    as [percentage|err]; [rewrite bind_lift_Ok | by rewrite bind_lift_Err].
  intros _. exists percentage. split; [done|]. intros id disk Hdisk.
  set (l := range_keys "syncDiskStatus.schedulable" (nspec_Disks (node_Spec (st_node s)))).
  assert (Hl : ∀ x, x ∈ l → entry_sat x (λ _, True) s2).
  { intros x Hx. apply range_keys_elem in Hx as [dx Hdx].
    apply stable_readiness.
    - intros y. apply ready_ops_stable_same_trivial.
    - unfold s1. exists (init_entry (default DiskStatus_zero (entry x s))).
      split; [|done]. by rewrite entry_keys, Hdx. }
  assert (Hdisk_of : disk_of (st_node s) id = disk) by (unfold disk_of; by rewrite Hdisk).
  rewrite <- Hdisk_of.
  refine (forM__establish (λ s0, ∀ x, x ∈ l → entry_sat x (λ _, True) s0)
            (λ x s0, entry_sat x (schedulable_verdict percentage (disk_of (st_node s) x)) s0)
            l _ s2 _ _ _ _ Hl id _).
  - intros x _. apply total_schedulable.
  - intros x _ s0 Hs0 y Hy. apply stable_schedulable; [|by apply Hs0].
    apply sched_ops_stable_same; done.
  - intros x s0 Hx Hs0. apply schedulable_establishes. by apply Hs0.
  - intros x y _ _ Hne s0 [Hs0 Hy]. split.
    + intros z Hz. apply stable_schedulable; [|by apply Hs0].
      apply sched_ops_stable_same; done.
    + apply stable_schedulable; [|done]. by apply sched_ops_stable_other.
  - apply range_keys_elem. by rewrite Hdisk.
Qed.

End DiskEntryProperties.

(** *** Disks that share a filesystem id *)

Section CollisionProperties.
Context `{Externals} {FS : Type}.
Implicit Types s : State FS.
Implicit Types nc : @NodeController FS.

(** The loop body leaves the entries of the other disks alone. *)
Lemma entry_ready_ne nc node diskInfoMap fsid disks id y s :
  id ≠ y →
  entry y (exec (syncDiskStatus_ready nc node diskInfoMap fsid disks id) s) = entry y s.
Proof.
  intros Hne.
  assert (Hstep : disk_step (λ z, z = id) s
                    (exec (syncDiskStatus_ready nc node diskInfoMap fsid disks id) s)).
  { apply stable_ready; [|apply disk_step_refl]. by apply ready_ops_stable_disk_step. }
  apply Hstep. congruence.
Qed.

Lemma entry_group_ne node diskInfoMap g id y s :
  id ≠ y →
  entry y (exec (syncDiskStatus_group node diskInfoMap g id) s) = entry y s.
Proof.
  intros Hne.
  assert (Hstep : disk_step (λ z, z = id) s
                    (exec (syncDiskStatus_group node diskInfoMap g id) s)).
  { apply stable_group; [|apply disk_step_refl]. by apply ready_ops_stable_disk_step. }
  apply Hstep. congruence.
Qed.

Lemma not_ready_after_false id reason message eventtype s :
  ¬ entry_sat id ready_true
      (exec (setDiskCondition id DiskConditionTypeReady ConditionStatusFalse
               reason message eventtype) s).
Proof.
  intros (d & Hd & Hready). rewrite entry_setDiskCondition in Hd.
  destruct (entry id s) as [d0|]; [|done]. injection Hd as <-.
  unfold ready_true, disk_ready in Hready. simpl in Hready.
  destruct (GetCondition_SetCondition (st_now s) (dstat_Conditions d0)
              DiskConditionTypeReady ConditionStatusFalse reason message) as (Hst & _).
  congruence.
Qed.

Lemma isFSIDDuplicated_false id disks s :
  id ∈ disks →
  isFSIDDuplicatedWithExistingReadyDisk id disks (diskStatusMap_of (st_node s)) = false →
  ∀ other, other ∈ disks → other ≠ id → ¬ entry_sat other ready_true s.
Proof.
  intros Hid Hdup other Hother Hne (d & Hd & Hready).
  unfold isFSIDDuplicatedWithExistingReadyDisk in Hdup. case_decide as Hlen.
  - assert (Hex : existsb
              (λ otherName,
                 bool_decide (otherName ≠ id)
                 && bool_decide
                      (cond_Status
                         (GetCondition
                            (dstat_Conditions
                               (default DiskStatus_zero
                                  (diskStatusMap_of (st_node s) !! otherName)))
                            DiskConditionTypeReady) = ConditionStatusTrue)) disks = true).
    { apply existsb_exists. exists other. split; [by apply list_elem_of_In|].
      unfold entry in Hd. rewrite Hd. simpl.
      rewrite bool_decide_true by done. by rewrite bool_decide_true by done. }
    congruence.
  - apply Hlen. destruct disks as [|a [|b disks]]; simpl; try lia.
    + by apply elem_of_nil in Hid.
    + apply list_elem_of_singleton in Hid, Hother. congruence.
Qed.

(** A disk without a recorded UUID that the loop body makes ready had
    no ready disk beside it in its group. *)
Lemma ready_unassigned_alone nc node diskInfoMap fsid disks id s :
  id ∈ disks →
  unassigned id s →
  entry_sat id ready_true (exec (syncDiskStatus_ready nc node diskInfoMap fsid disks id) s) →
  ∀ other, other ∈ disks → other ≠ id → ¬ entry_sat other ready_true s.
Proof.
  intros Hid Hun Hready.
  assert (Huuid : ∀ diskUUID,
            entry_sat id ready_true
              (exec (syncDiskStatus_ready_uuid nc node diskInfoMap fsid disks id diskUUID) s) →
            ∀ other, other ∈ disks → other ≠ id → ¬ entry_sat other ready_true s).
  { intros diskUUID. unfold syncDiskStatus_ready_uuid, exec.
    rewrite bind_diskStatusMap_lookup. rewrite decide_True by exact Hun.
    rewrite bind_get_node.
    destruct (isFSIDDuplicatedWithExistingReadyDisk id disks (diskStatusMap_of (st_node s)))
      eqn:Hdup.
    - intros Hr. by apply not_ready_after_false in Hr.
    - intros _. by apply isFSIDDuplicated_false. }
  revert Hready. unfold syncDiskStatus_ready, exec. rewrite bind_get.
  destruct (nc_getDiskConfig nc _ (st_fs s)) as [cfg|err]; [apply Huuid|].
  destruct (negb (types_ErrorIsNotFound err)); [|apply Huuid].
  intros Hr. by apply not_ready_after_false in Hr.
Qed.

(** The loop body on one disk of the group advances the invariant. *)
Lemma collision_inv_step nc node diskInfoMap fsid s0 group pre x post s :
  NoDup group →
  group = pre ++ x :: post →
  collision_inv s0 group pre s →
  collision_inv s0 group (pre ++ [x])
    (exec (syncDiskStatus_ready nc node diskInfoMap fsid group x) s).
Proof.
  intros Hnd Hgroup [Hun Hone].
  assert (Hx : x ∈ group) by (rewrite Hgroup; set_solver).
  assert (Hxpre : x ∉ pre).
  { rewrite Hgroup in Hnd. apply NoDup_app in Hnd as (_ & Hnd & _).
    intros Hin. apply (Hnd x Hin). left. }
  assert (Hpre : ∀ a, a ∈ pre → a ∈ group ∧ a ≠ x).
  { intros a Ha. split; [rewrite Hgroup; set_solver | congruence]. }
  assert (Hsat : ∀ a, a ≠ x →
            entry_sat a ready_true
              (exec (syncDiskStatus_ready nc node diskInfoMap fsid group x) s)
            ↔ entry_sat a ready_true s).
  { intros a Ha. unfold entry_sat. by rewrite entry_ready_ne. }
  split.
  - intros z Hz Hzdone Hz0. unfold unassigned.
    rewrite entry_ready_ne by (intros ->; apply Hzdone; set_solver).
    apply Hun; [done | set_solver | done].
  - intros a b Ha Hb Ha0 Hb0 Hra Hrb.
    apply elem_of_app in Ha as [Ha| ->%list_elem_of_singleton];
      apply elem_of_app in Hb as [Hb| ->%list_elem_of_singleton]; try done.
    + destruct (Hpre a Ha), (Hpre b Hb). apply Hone; try done; by apply Hsat.
    + exfalso. destruct (Hpre a Ha) as [Hag Hax].
      refine (ready_unassigned_alone nc node diskInfoMap fsid group x s Hx _ Hrb a Hag Hax _).
      * by apply Hun.
      * by apply Hsat.
    + exfalso. destruct (Hpre b Hb) as [Hbg Hbx].
      refine (ready_unassigned_alone nc node diskInfoMap fsid group x s Hx _ Hra b Hbg Hbx _).
      * by apply Hun.
      * by apply Hsat.
Qed.

(** The loop bodies of the disks outside the group keep the invariant. *)
Lemma collision_inv_other nc node diskInfoMap fsid disks s0 group done x :
  x ∉ group → (∀ a, a ∈ done → a ∈ group) →
  stable (collision_inv s0 group done)
    (syncDiskStatus_ready nc node diskInfoMap fsid disks x).
Proof.
  intros Hx Hdone s [Hun Hone]. split.
  - intros z Hz Hzdone Hz0. unfold unassigned.
    rewrite entry_ready_ne by (intros ->; done). by apply Hun.
  - intros a b Ha Hb Ha0 Hb0 Hra Hrb. unfold entry_sat in Hra, Hrb.
    rewrite entry_ready_ne in Hra by (intros ->; apply Hx; auto).
    rewrite entry_ready_ne in Hrb by (intros ->; apply Hx; auto).
    by apply Hone.
Qed.

(** An operation that does not change what [φ] sees of a status
    entry. *)
Lemma stable_view_alter {B} (φ : DiskStatus → B) a v id f :
  (id = a → ∀ d, φ (f d) = φ d) →
  stable (λ s : State FS, φ <$> entry a s = v) (diskStatusMap_alter id f).
Proof.
  intros Hf s Hs. destruct (decide (id = a)) as [->|Hne].
  - rewrite entry_alter. rewrite <- Hs. destruct (entry a s); simpl; [|done].
    by rewrite Hf.
  - by rewrite entry_alter_ne.
Qed.

Lemma stable_view_setDiskCondition {B} (φ : DiskStatus → B) a v id ty val reason message
    eventtype :
  (id = a → ∀ d c, φ (DiskStatus_with_Conditions d
                        (SetCondition c (dstat_Conditions d) ty val reason message)) = φ d) →
  stable (λ s : State FS, φ <$> entry a s = v)
    (setDiskCondition id ty val reason message eventtype).
Proof.
  intros Hf s Hs. destruct (decide (id = a)) as [->|Hne].
  - rewrite entry_setDiskCondition. rewrite <- Hs. destruct (entry a s); simpl; [|done].
    by rewrite Hf.
  - by rewrite entry_setDiskCondition_ne.
Qed.

Lemma disk_ready_schedulability nc node a s :
  disk_ready <$> entry a (exec (syncDiskStatus_schedulability nc node) s)
  = disk_ready <$> entry a s.
Proof.
  apply (stable_schedulability (λ s0, disk_ready <$> entry a s0 = disk_ready <$> entry a s));
    [|done].
  intros id. split; intros.
  - apply stable_view_setDiskCondition. intros _ d c. unfold disk_ready. simpl.
    by rewrite GetCondition_SetCondition_ne.
  - by apply stable_view_alter.
Qed.

Lemma ready_true_schedulability nc node a s :
  entry_sat a ready_true (exec (syncDiskStatus_schedulability nc node) s) →
  entry_sat a ready_true s.
Proof.
  intros (d & Hd & Hr). pose proof (disk_ready_schedulability nc node a s) as Hv.
  rewrite Hd in Hv. simpl in Hv. destruct (entry a s) as [d0|] eqn:Hd0; [|done].
  exists d0. split; [done|]. injection Hv as Hv. unfold ready_true. by rewrite <- Hv.
Qed.

Lemma stable_unassigned_group node diskInfoMap g a id :
  stable (unassigned a) (syncDiskStatus_group node diskInfoMap g id : M FS _).
Proof.
  apply stable_group_ops. intros v reason message eventtype s Hs.
  unfold unassigned in *.
  assert (Hv : dstat_DiskUUID
               <$> entry a (exec (setDiskCondition id DiskConditionTypeReady v reason
                                    message eventtype) s)
               = dstat_DiskUUID <$> entry a s).
  { by apply (stable_view_setDiskCondition dstat_DiskUUID a). }
  destruct (entry a (exec _ s)), (entry a s); simpl in *; congruence.
Qed.

Lemma isFSIDDuplicated_true id disks other s :
  id ∈ disks → other ∈ disks → other ≠ id → entry_sat other ready_true s →
  isFSIDDuplicatedWithExistingReadyDisk id disks (diskStatusMap_of (st_node s)) = true.
Proof.
  intros Hid Hother Hne Hready.
  destruct (isFSIDDuplicatedWithExistingReadyDisk id disks (diskStatusMap_of (st_node s)))
    eqn:Hdup; [done|].
  exfalso. by apply (isFSIDDuplicated_false id disks s Hid Hdup other).
Qed.

(** The loop body on a disk without a recorded UUID, beside a ready
    disk of its group. *)
Lemma ready_collides nc node diskInfoMap fsid disks id other s :
  unassigned id s → entry_sat id (λ _, True) s →
  id ∈ disks → other ∈ disks → other ≠ id → entry_sat other ready_true s →
  (∀ err, nc_getDiskConfig nc (disk_Path (disk_of node id)) (st_fs s) = Err err →
          types_ErrorIsNotFound err = true) →
  entry_sat id collided (exec (syncDiskStatus_ready nc node diskInfoMap fsid disks id) s).
Proof.
  intros Hun (d & Hd & _) Hid Hother Hne Hready Hcfg.
  assert (Huuid : ∀ diskUUID,
            entry_sat id collided
              (exec (syncDiskStatus_ready_uuid nc node diskInfoMap fsid disks id diskUUID) s)).
  { intros diskUUID. unfold syncDiskStatus_ready_uuid, exec.
    rewrite bind_diskStatusMap_lookup. rewrite decide_True by exact Hun.
    rewrite bind_get_node. rewrite (isFSIDDuplicated_true id disks other s) by done.
    match goal with
    | |- context [setDiskCondition id ?ty ?v ?r ?m ?e s] =>
        change ((setDiskCondition id ty v r m e s).1)
          with (exec (setDiskCondition id ty v r m e) s)
    end.
    unfold entry_sat. rewrite entry_setDiskCondition, Hd. simpl. eexists. split; [done|].
    unfold collided, disk_ready. simpl.
    match goal with
    | |- context [SetCondition ?now ?c ?ty ?v ?r ?m] =>
        destruct (GetCondition_SetCondition now c ty v r m) as (? & ? & _)
    end.
    repeat split; try done. unfold unassigned in Hun. by rewrite Hd in Hun. }
  unfold syncDiskStatus_ready, exec. rewrite bind_get.
  destruct (nc_getDiskConfig nc _ (st_fs s)) as [cfg|err] eqn:Hget; [apply Huuid|].
  rewrite (Hcfg err) by done. apply Huuid.
Qed.

(** C3, as the code has it. Among the disks whose probe reported one
    filesystem id and whose status recorded no UUID at the start of
    [syncDiskStatus], at most one ends ready. In the loop over a group,
    a disk that still records no UUID, whose tag file is read or found
    missing, and beside which another disk of the group is ready,
    becomes not ready for the reason [DiskFilesystemChanged] and keeps
    recording no UUID. *)
Theorem syncDiskStatus_collision nc s :
  (∀ fsid a b,
     fsid_of (getDiskInfoMap nc (st_node s) (st_fs s)) a = Some fsid →
     fsid_of (getDiskInfoMap nc (st_node s) (st_fs s)) b = Some fsid →
     unassigned a s → unassigned b s →
     entry_sat a ready_true (exec (syncDiskStatus nc) s) →
     entry_sat b ready_true (exec (syncDiskStatus nc) s) →
     a = b)
  ∧ (∀ node diskInfoMap fsid disks id other s0,
       unassigned id s0 → entry_sat id (λ _, True) s0 →
       id ∈ disks → other ∈ disks → other ≠ id → entry_sat other ready_true s0 →
       (∀ err, nc_getDiskConfig nc (disk_Path (disk_of node id)) (st_fs s0) = Err err →
               types_ErrorIsNotFound err = true) →
       entry_sat id collided
         (exec (syncDiskStatus_ready nc node diskInfoMap fsid disks id) s0)).
Proof.
  split; [|intros; by eapply ready_collides].
  intros fsid a b Hfa Hfb Ha Hb.
  unfold exec. rewrite syncDiskStatus_run.
  set (s1 := exec (modify_status (syncDiskStatus_keys (st_node s))) s).
  rewrite bind_total_run by apply total_readiness.
  intros Hra%ready_true_schedulability Hrb%ready_true_schedulability.
  revert Hra Hrb. rewrite exec_readiness.
  change (getDiskInfoMap nc (st_node s1) (st_fs s1))
    with (getDiskInfoMap nc (st_node s) (st_fs s)).
  set (diskInfoMap := getDiskInfoMap nc (st_node s) (st_fs s)) in *.
  set (keys := range_keys "syncDiskStatus.diskInfoMap" diskInfoMap).
  set (g := foldl (group_pure diskInfoMap) ∅ keys).
  set (s2 := exec (foldM (syncDiskStatus_group (st_node s1) diskInfoMap) keys ∅) s1).
  set (group := default [] (g !! fsid)).
  assert (Hin : ∀ x, x ∈ group ↔ fsid_of diskInfoMap x = Some fsid).
  { intros x. apply group_elem. }
  assert (Hkeys : ∀ x, is_Some (fsid_of diskInfoMap x) → unassigned x s → unassigned x s2).
  { intros x Hx Hxs. apply stable_foldM; [intros; apply stable_unassigned_group|].
    unfold unassigned, s1. rewrite entry_keys.
    destruct (nspec_Disks (node_Spec (st_node s)) !! x) as [disk|] eqn:Hdisk; [done|].
    exfalso. unfold fsid_of, diskInfoMap, getDiskInfoMap in Hx.
    rewrite lookup_fmap, Hdisk in Hx. by destruct Hx. }
  set (L := range_keys "syncDiskStatus.fsid2Disks" g).
  assert (HL : fsid ∈ L).
  { apply range_keys_elem. apply Hin in Hfa. unfold group in Hfa.
    destruct (g !! fsid); [by eexists | by apply elem_of_nil in Hfa]. }
  assert (Hinv : collision_inv s2 group (if decide (fsid ∈ L) then group else [])
                   (exec (forM_ L
                            (λ fsid0, forM_ (default [] (g !! fsid0))
                               (syncDiskStatus_ready nc (st_node s1) diskInfoMap fsid0
                                  (default [] (g !! fsid0)))))
                      s2)).
  { refine (forM__prefix
              (λ (pre : list string) (s0 : State FS),
                 collision_inv s2 group (if decide (fsid ∈ pre) then group else []) s0)
              L _ s2 _ _ _).
    - intros x _. apply total_forM_. intros y _. apply total_ready.
    - intros pre x post s0 HLeq Hs0.
      destruct (decide (x = fsid)) as [->|Hne].
      + assert (Hnpre : fsid ∉ pre).
        { pose proof (range_keys_NoDup "syncDiskStatus.fsid2Disks" g) as Hnd.
          fold L in Hnd. rewrite HLeq in Hnd. apply NoDup_app in Hnd as (_ & Hnd & _).
          intros Hp. apply (Hnd fsid Hp). left. }
        rewrite decide_False in Hs0 by done.
        rewrite decide_True by (apply elem_of_app; right; left).
        fold group.
        refine (forM__prefix (collision_inv s2 group) group _ s0 _ _ Hs0).
        * intros y _. apply total_ready.
        * intros pre' y post' s3 Hgeq Hs3.
          apply (collision_inv_step nc (st_node s1) diskInfoMap fsid s2 group pre' y post');
            [apply group_NoDup | done | done].
      + assert (Hdec : (if decide (fsid ∈ pre ++ [x]) then group else [])
                       = (if decide (fsid ∈ pre) then group else [])).
        { repeat case_decide; try done; exfalso; set_solver. }
        rewrite Hdec. apply stable_forM_; [|done]. intros y Hy.
        apply collision_inv_other.
        * intros Hyg. apply Hin in Hyg. apply group_elem in Hy. congruence.
        * intros z. destruct (decide (fsid ∈ pre)); [tauto|]. by intros ?%elem_of_nil.
    - rewrite decide_False by apply not_elem_of_nil. split; [done|].
      by intros ? ? ?%elem_of_nil. }
  rewrite decide_True in Hinv by done. destruct Hinv as [_ Hone].
  intros Hra Hrb. apply Hone; try done.
  - by apply Hin.
  - by apply Hin.
  - apply Hkeys; [by eexists | done].
  - apply Hkeys; [by eexists | done].
Qed.

End CollisionProperties.

(** *** The tag store during the sync *)

Section TagStoreProperties.
Context `{Externals} {FS : Type}.
Implicit Types s : State FS.
Implicit Types nc : @NodeController FS.

Lemma stable_fs_setDiskCondition (c : FS) id ty v reason message eventtype :
  stable (λ s, st_fs s = c) (setDiskCondition id ty v reason message eventtype).
Proof. intros s Hs. by rewrite st_fs_setDiskCondition. Qed.

Lemma stable_fs_alter (c : FS) id f :
  stable (λ s, st_fs s = c) (diskStatusMap_alter id f : M FS unit).
Proof. by intros s Hs. Qed.

Lemma stable_fs_ready_final (c : FS) node diskInfoMap id diskUUID :
  stable (λ s, st_fs s = c) (syncDiskStatus_ready_final node diskInfoMap id diskUUID).
Proof.
  apply stable_ready_final_ops; intros.
  - apply stable_fs_setDiskCondition.
  - apply stable_fs_alter.
Qed.

Lemma stable_fs_group (c : FS) node diskInfoMap g x :
  stable (λ s, st_fs s = c) (syncDiskStatus_group node diskInfoMap g x : M FS _).
Proof. apply stable_group_ops. intros. apply stable_fs_setDiskCondition. Qed.

(** The loop body leaves the tag store alone, unless it generates the
    tag file of a disk without UUID on record. *)
Lemma st_fs_ready_uuid nc node diskInfoMap fsid disks x diskUUID s :
  st_fs (exec (syncDiskStatus_ready_uuid nc node diskInfoMap fsid disks x diskUUID) s)
  = st_fs s
  ∨ (dstat_DiskUUID (default DiskStatus_zero (entry x s)) = ""
     ∧ st_fs (exec (syncDiskStatus_ready_uuid nc node diskInfoMap fsid disks x diskUUID) s)
       = (nc_generateDiskConfig nc (disk_Path (disk_of node x)) (st_fs s)).1).
Proof.
  unfold syncDiskStatus_ready_uuid, exec. rewrite bind_diskStatusMap_lookup.
  destruct (decide (dstat_DiskUUID (default DiskStatus_zero (entry x s)) = ""))
    as [Hnone|Hsome].
  - rewrite bind_get_node.
    destruct (isFSIDDuplicatedWithExistingReadyDisk x disks (diskStatusMap_of (st_node s))).
    { left. by apply (stable_fs_setDiskCondition (st_fs s)). }
    destruct (decide (diskUUID = "")) as [->|Hne].
    + right. split; [done|]. rewrite bind_get.
      destruct (nc_generateDiskConfig nc (disk_Path (disk_of node x)) (st_fs s))
        as [fs' r]. rewrite bind_modify. simpl.
      destruct r as [diskConfig|err].
      * apply (stable_bind (λ s0, st_fs s0 = fs')); [apply stable_fs_alter | | done].
        intros _. apply stable_fs_ready_final.
      * by apply (stable_fs_setDiskCondition fs').
    + left. apply (stable_bind (λ s0, st_fs s0 = st_fs s)); [apply stable_fs_alter | | done].
      intros _. apply stable_fs_ready_final.
  - left. apply (stable_bind (λ s0, st_fs s0 = st_fs s)); [ | | done].
    + repeat apply stable_decide; try apply stable_fs_setDiskCondition. apply stable_ret.
    + intros _. apply stable_fs_ready_final.
Qed.

Lemma st_fs_ready nc node diskInfoMap fsid disks x s :
  st_fs (exec (syncDiskStatus_ready nc node diskInfoMap fsid disks x) s) = st_fs s
  ∨ (dstat_DiskUUID (default DiskStatus_zero (entry x s)) = ""
     ∧ st_fs (exec (syncDiskStatus_ready nc node diskInfoMap fsid disks x) s)
       = (nc_generateDiskConfig nc (disk_Path (disk_of node x)) (st_fs s)).1).
Proof.
  unfold syncDiskStatus_ready, exec. rewrite bind_get.
  destruct (nc_getDiskConfig nc _ (st_fs s)) as [cfg|err].
  - apply st_fs_ready_uuid.
  - destruct (negb (types_ErrorIsNotFound err)).
    + left. by apply (stable_fs_setDiskCondition (st_fs s)).
    + apply st_fs_ready_uuid.
Qed.

(** The loop body on another disk of the spec keeps the entry of disk
    [id] and leaves the tag store in a state that the sync can reach. *)
Lemma stable_reached_ready nc node0 id fs0 node diskInfoMap fsid disks x
    (Q : DiskStatus → Prop) :
  x ≠ id →
  is_Some (nspec_Disks (node_Spec node0) !! x) →
  disk_of node x = disk_of node0 x →
  stable (λ s, entry_sat id Q s ∧ tags_reached nc node0 id fs0 (st_fs s))
    (syncDiskStatus_ready nc node diskInfoMap fsid disks x).
Proof.
  intros Hne Hx Hdisk s [HQ Hreach]. split.
  - unfold entry_sat. by rewrite entry_ready_ne.
  - destruct (st_fs_ready nc node diskInfoMap fsid disks x s) as [-> | [_ ->]]; [done|].
    rewrite Hdisk. by apply tags_reached_generate.
Qed.

(** The loop body on a disk with a UUID on record keeps the UUID and
    the tag store. *)
Lemma stable_reached_recorded nc node0 id fs0 node diskInfoMap fsid disks u :
  u ≠ "" →
  stable (λ s, entry_sat id (λ d, dstat_DiskUUID d = u) s
               ∧ tags_reached nc node0 id fs0 (st_fs s))
    (syncDiskStatus_ready nc node diskInfoMap fsid disks id).
Proof.
  intros Hu s [Hrec Hreach]. split.
  - by apply stable_uuid_ready.
  - destruct (st_fs_ready nc node diskInfoMap fsid disks id s) as [-> | [Hnone _]];
      [done|].
    destruct Hrec as (d & Hd & Hdu). rewrite Hd in Hnone. simpl in Hnone. congruence.
Qed.

(** The disks of the groups are disks of the spec. *)
Lemma group_elem_spec nc node fs site fsid x :
  x ∈ default []
        (foldl (group_pure (getDiskInfoMap nc node fs)) ∅
           (range_keys site (getDiskInfoMap nc node fs)) !! fsid) →
  is_Some (nspec_Disks (node_Spec node) !! x).
Proof.
  intros Hx. apply group_elem in Hx. unfold fsid_of, getDiskInfoMap in Hx.
  rewrite lookup_fmap in Hx. by destruct (nspec_Disks (node_Spec node) !! x).
Qed.

(** *** A disk whose probe fails *)

Lemma probe_failed_set u d now message :
  recorded_idle u d →
  probe_failed u
    (DiskStatus_with_Conditions d
       (SetCondition now (dstat_Conditions d) DiskConditionTypeReady ConditionStatusFalse
          DiskConditionReasonNoDiskInfo message)).
Proof.
  intros (Hu & Hmax & Hav). unfold probe_failed, disk_ready. simpl.
  destruct (GetCondition_SetCondition now (dstat_Conditions d) DiskConditionTypeReady
              ConditionStatusFalse DiskConditionReasonNoDiskInfo message) as (? & ? & _).
  done.
Qed.

Lemma probe_failed_idle u d : probe_failed u d → recorded_idle u d.
Proof. intros (_ & _ & Hmax & Hav & Hu). by split. Qed.

Lemma stable_probe_failed_group node diskInfoMap g x id u :
  (∀ info, diskInfoMap !! id ≠ Some (Ok info)) →
  stable (entry_sat id (probe_failed u))
    (syncDiskStatus_group node diskInfoMap g x : M FS _).
Proof.
  intros Hid. unfold syncDiskStatus_group.
  destruct (diskInfoMap !! x) as [[info|err]|] eqn:Hx; try apply stable_ret.
  apply stable_bind; [|intros _; apply stable_ret].
  apply stable_entry_sat_setDiskCondition. intros _ d now Hd.
  by apply probe_failed_set, probe_failed_idle.
Qed.

Lemma group_probe_failed node diskInfoMap id u err (l : list string) g s :
  diskInfoMap !! id = Some (Err err) →
  id ∈ l →
  entry_sat id (recorded_idle u) s →
  entry_sat id (probe_failed u)
    (exec (foldM (syncDiskStatus_group node diskInfoMap) l g) s).
Proof.
  intros Herr. revert g s. induction l as [|x l IH]; intros g s Hin Hidle.
  { by apply elem_of_nil in Hin. }
  simpl. rewrite exec_bind.
  destruct (total_group node diskInfoMap g x s) as [g' ->].
  destruct (decide (x = id)) as [->|Hne].
  - apply stable_foldM.
    { intros g0 y _. apply stable_probe_failed_group. intros info. by rewrite Herr. }
    destruct Hidle as (d & Hd & Hidle).
    unfold syncDiskStatus_group, exec. rewrite Herr.
    rewrite bind_total_run by apply total_setDiskCondition. simpl.
    unfold entry_sat. rewrite entry_setDiskCondition, Hd. simpl.
    eexists. split; [done|]. by apply probe_failed_set.
  - apply IH.
    + apply elem_of_cons in Hin as [Hin|Hin]; [congruence | done].
    + unfold entry_sat. by rewrite entry_group_ne.
Qed.

(** The last loop looks neither at the [Ready] condition nor at the
    UUID and the storage of a disk. *)
Lemma stable_ready_view_schedulability (Q : DiskStatus → Prop) nc node id :
  (∀ d d', disk_ready d' = disk_ready d → dstat_DiskUUID d' = dstat_DiskUUID d →
           dstat_StorageMaximum d' = dstat_StorageMaximum d →
           dstat_StorageAvailable d' = dstat_StorageAvailable d → Q d → Q d') →
  stable (entry_sat id Q) (syncDiskStatus_schedulability nc node).
Proof.
  intros HQ. apply stable_schedulability. intros x. apply sched_ops_stable_same.
  - intros d now v reason message Hd. apply (HQ d); try done.
    unfold disk_ready. simpl. by rewrite GetCondition_SetCondition_ne.
  - intros d scheduled replicas Hd. by apply (HQ d).
Qed.

Lemma probe_failed_sync nc s id disk err :
  nspec_Disks (node_Spec (st_node s)) !! id = Some disk →
  nc_getDiskInfoHandler nc (disk_Path disk) (st_fs s) = Err err →
  entry_sat id (probe_failed (dstat_DiskUUID (default DiskStatus_zero (entry id s))))
    (exec (syncDiskStatus nc) s).
Proof.
  intros Hdisk Hprobe.
  set (u := dstat_DiskUUID (default DiskStatus_zero (entry id s))).
  unfold exec. rewrite syncDiskStatus_run.
  set (s1 := exec (modify_status (syncDiskStatus_keys (st_node s))) s).
  assert (Hidle1 : entry_sat id (recorded_idle u) s1).
  { exists (init_entry (default DiskStatus_zero (entry id s))).
    split; [|done]. unfold s1. by rewrite entry_keys, Hdisk. }
  rewrite bind_total_run by apply total_readiness.
  apply (stable_ready_view_schedulability (probe_failed u)).
  { intros d d' Hr Hu Hmax Hav. unfold probe_failed. by rewrite Hr, Hu, Hmax, Hav. }
  rewrite exec_readiness.
  set (node1 := st_node s1).
  set (diskInfoMap := getDiskInfoMap nc node1 (st_fs s1)).
  set (keys := range_keys "syncDiskStatus.diskInfoMap" diskInfoMap).
  set (g := foldl (group_pure diskInfoMap) ∅ keys).
  assert (Hinfo : diskInfoMap !! id = Some (Err err)).
  { unfold diskInfoMap, getDiskInfoMap. rewrite lookup_fmap.
    change (nspec_Disks (node_Spec node1)) with (nspec_Disks (node_Spec (st_node s))).
    rewrite Hdisk. simpl. change (st_fs s1) with (st_fs s). by rewrite Hprobe. }
  set (s2 := exec (foldM (syncDiskStatus_group node1 diskInfoMap) keys ∅) s1).
  assert (Hfailed2 : entry_sat id (probe_failed u) s2).
  { apply (group_probe_failed node1 diskInfoMap id u err); [done | | done].
    apply range_keys_elem. by rewrite Hinfo. }
  apply stable_forM_; [|exact Hfailed2].
  intros fsid _. apply stable_forM_. intros x Hx.
  apply group_elem in Hx. apply stable_ready. apply ready_ops_stable_other.
  intros ->. unfold fsid_of in Hx. by rewrite Hinfo in Hx.
Qed.

(** *** A recorded UUID is never replaced *)

(** C2, as the code has it. A disk of the spec whose status records a
    non-empty [DiskUUID] at the start of [syncDiskStatus] has the same
    [DiskUUID] at its end, whatever the outcome. If the probe of the
    disk succeeds and the tag file, when the sync reads it, is missing
    or carries another UUID, the disk ends with [Ready] false for the
    reason [DiskFilesystemChanged] and with [StorageMaximum] and
    [StorageAvailable] at the zero assigned at the start of the pass.
    If the probe of the disk fails, the tag file is not read: the disk
    ends with [Ready] false for the reason [NoDiskInfo], with the same
    zeros. *)
Theorem syncDiskStatus_DiskUUID_kept nc s id u :
  u ≠ "" →
  is_Some (nspec_Disks (node_Spec (st_node s)) !! id) →
  entry_sat id (λ d, dstat_DiskUUID d = u) s →
  let s' := exec (syncDiskStatus nc) s in
  let path := disk_Path (disk_of (st_node s) id) in
  entry_sat id (λ d, dstat_DiskUUID d = u) s'
  ∧ ((∃ info, nc_getDiskInfoHandler nc path (st_fs s) = Ok info) →
     (∀ fs, tags_reached nc (st_node s) id (st_fs s) fs →
            config_differs (nc_getDiskConfig nc path fs) u) →
     entry_sat id (filesystem_changed u) s')
  ∧ ((∃ err, nc_getDiskInfoHandler nc path (st_fs s) = Err err) →
     entry_sat id (probe_failed u) s').
Proof.
  intros Hu [disk Hdisk] (d & Hd & Hdu) s' path.
  assert (Hpath0 : path = disk_Path disk).
  { unfold path, disk_of. by rewrite Hdisk. }
  split; [|split].
  - unfold s', exec. rewrite syncDiskStatus_run.
    set (s1 := exec (modify_status (syncDiskStatus_keys (st_node s))) s).
    assert (Hd1 : entry id s1 = Some (init_entry d)).
    { unfold s1. by rewrite entry_keys, Hdisk, Hd. }
    apply (stable_bind (entry_sat id (λ d, dstat_DiskUUID d = u))).
    + apply stable_readiness_bodies; intros.
      * by apply stable_uuid_group.
      * by apply stable_uuid_ready.
    + intros _. apply stable_schedulability. intros x. by apply sched_ops_stable_uuid.
    + exists (init_entry d). by split.
  - intros [info Hinfo] Hcfg.
    unfold s', exec. rewrite syncDiskStatus_run.
    set (s1 := exec (modify_status (syncDiskStatus_keys (st_node s))) s).
    assert (Hd1 : entry id s1 = Some (init_entry d)).
    { unfold s1. by rewrite entry_keys, Hdisk, Hd. }
    assert (Hidle1 : entry_sat id (recorded_idle u) s1).
    { exists (init_entry d). by split. }
    rewrite bind_total_run by apply total_readiness.
    apply (stable_ready_view_schedulability (filesystem_changed u)).
    { intros d0 d' Hr Hu' Hmax Hav. unfold filesystem_changed, recorded_idle.
      by rewrite Hr, Hu', Hmax, Hav. }
    rewrite exec_readiness.
    set (node1 := st_node s1).
    set (diskInfoMap := getDiskInfoMap nc node1 (st_fs s1)).
    set (keys := range_keys "syncDiskStatus.diskInfoMap" diskInfoMap).
    set (g := foldl (group_pure diskInfoMap) ∅ keys).
    assert (Hdisk_of : ∀ x, disk_of node1 x = disk_of (st_node s) x) by done.
    assert (Hfsid : fsid_of diskInfoMap id = Some (di_Fsid info)).
    { unfold fsid_of, diskInfoMap, getDiskInfoMap. rewrite lookup_fmap.
      change (nspec_Disks (node_Spec node1)) with (nspec_Disks (node_Spec (st_node s))).
      rewrite Hdisk. simpl. change (st_fs s1) with (st_fs s).
      rewrite <- Hpath0. by rewrite Hinfo. }
    assert (Hin : id ∈ default [] (g !! di_Fsid info)) by (by apply group_elem).
    assert (Hspec : ∀ fsid x, x ∈ default [] (g !! fsid) →
              is_Some (nspec_Disks (node_Spec (st_node s)) !! x)).
    { intros fsid x Hx. by apply (group_elem_spec nc node1 (st_fs s1)) in Hx. }
    set (I := λ s0 : State FS,
                entry_sat id (recorded_idle u) s0
                ∧ tags_reached nc (st_node s) id (st_fs s) (st_fs s0)).
    set (s2 := exec (foldM (syncDiskStatus_group node1 diskInfoMap) keys ∅) s1).
    assert (HI2 : I s2).
    { split.
      - apply stable_foldM; [|done]. intros g0 x _. apply stable_group_ops. intros.
        apply stable_entry_sat_setDiskCondition. intros -> d0 now [? [? ?]]. done.
      - assert (Hfs : st_fs s2 = st_fs s).
        { apply (stable_foldM (λ s0, st_fs s0 = st_fs s)); [|done].
          intros g0 x _. apply stable_fs_group. }
        rewrite Hfs. constructor. }
    assert (Hestablish : ∀ fsid disks s0,
              I s0 →
              entry_sat id (filesystem_changed u)
                (exec (syncDiskStatus_ready nc node1 diskInfoMap fsid disks id) s0)).
    { intros fsid disks s0 [Hidle Hreach]. apply ready_differs; [done | | done].
      rewrite Hdisk_of. by apply Hcfg. }
    assert (HbodyI : ∀ fsid disks x,
              is_Some (nspec_Disks (node_Spec (st_node s)) !! x) →
              stable I (syncDiskStatus_ready nc node1 diskInfoMap fsid disks x)).
    { intros fsid disks x Hx. destruct (decide (x = id)) as [->|Hne].
      - intros s0 HI0. split.
        + eapply entry_sat_impl; [apply filesystem_changed_idle|]. by apply Hestablish.
        + destruct HI0 as [Hidle Hreach].
          assert (Hrec : entry_sat id (λ d, dstat_DiskUUID d = u) s0).
          { eapply entry_sat_impl; [|exact Hidle]. by intros d0 [? _]. }
          by apply (stable_reached_recorded nc (st_node s) id (st_fs s) node1 diskInfoMap
                      fsid disks u Hu s0 (conj Hrec Hreach)).
      - by apply stable_reached_ready. }
    assert (HbodyV : ∀ (c : Prop) fsid disks x,
              is_Some (nspec_Disks (node_Spec (st_node s)) !! x) →
              stable (λ s0, I s0 ∧ (c → entry_sat id (filesystem_changed u) s0))
                (syncDiskStatus_ready nc node1 diskInfoMap fsid disks x)).
    { intros c fsid disks x Hx s0 [HI0 Hc]. split; [by apply HbodyI|].
      intros Hcc. destruct (decide (x = id)) as [->|Hne].
      - by apply Hestablish.
      - unfold entry_sat. rewrite entry_ready_ne by done. by apply Hc. }
    refine (forM__establish I
              (λ fsid s0, fsid = di_Fsid info → entry_sat id (filesystem_changed u) s0)
              _ _ s2 _ _ _ _ HI2 (di_Fsid info) _ eq_refl).
    + intros fsid _. apply total_forM_. intros x _. apply total_ready.
    + intros fsid _. apply stable_forM_. intros x Hx. apply HbodyI. by apply (Hspec fsid).
    + intros fsid s0 _ Hs0 ->.
      refine (forM__establish I
                (λ x s0, x = id → entry_sat id (filesystem_changed u) s0)
                _ _ s0 _ _ _ _ Hs0 id Hin eq_refl).
      * intros x _. apply total_ready.
      * intros x Hx. apply HbodyI. by apply (Hspec (di_Fsid info)).
      * intros x s3 _ Hs3 ->. by apply Hestablish.
      * intros x y Hx _ _. apply HbodyV. by apply (Hspec (di_Fsid info)).
    + intros x y _ _ _. apply stable_forM_. intros z Hz. apply HbodyV.
      by apply (Hspec x).
    + apply range_keys_elem. destruct (g !! di_Fsid info); [by eexists|].
      by apply elem_of_nil in Hin.
  - intros [err Herr]. rewrite Hpath0 in Herr.
    pose proof (probe_failed_sync nc s id disk err Hdisk Herr) as Hfailed.
    rewrite Hd in Hfailed. simpl in Hfailed. by rewrite Hdu in Hfailed.
Qed.

End TagStoreProperties.

(** ** Instance managers *)

Section InstanceManagerProperties.
Context `{Externals} {FS : Type}.
Implicit Types s : State FS.
Implicit Types nc : @NodeController FS.
Implicit Types ds : DataStore.
Implicit Types m : gmap string InstanceManager.

(** *** Labels *)

Lemma selector_matches_spec (sel labels : gmap string string) :
  selector_matches sel labels = true ↔ ∀ k v, sel !! k = Some v → labels !! k = Some v.
Proof. unfold selector_matches. by rewrite bool_decide_eq_true. Qed.

Lemma GetInstanceManagerLabels_type node image imType :
  GetInstanceManagerLabels node image imType
    !! GetLonghornLabelKey LonghornLabelInstanceManagerType = Some imType.
Proof.
  unfold GetInstanceManagerLabels.
  repeat case_decide; rewrite ?lookup_insert_ne by done; by rewrite lookup_insert_eq.
Qed.

Lemma GetInstanceManagerLabels_image_sub node image imType :
  ∀ k v, GetInstanceManagerLabels node "" imType !! k = Some v →
         GetInstanceManagerLabels node image imType !! k = Some v.
Proof.
  intros k v. unfold GetInstanceManagerLabels.
  rewrite (decide_True (P := "" = "")) by done.
  destruct (decide (image = "")); [done|].
  destruct (decide (k = GetLonghornLabelKey LonghornLabelInstanceManagerImage)) as [->|Hne].
  - case_decide; rewrite ?lookup_insert_ne by done; rewrite ?lookup_singleton_ne by done;
      done.
  - by rewrite (lookup_insert_ne _ (GetLonghornLabelKey LonghornLabelInstanceManagerImage)).
Qed.

Lemma of_type_inj node imType1 imType2 im :
  of_type node imType1 im → of_type node imType2 im → imType1 = imType2.
Proof.
  unfold of_type. rewrite !selector_matches_spec. intros H1 H2.
  specialize (H1 _ _ (GetInstanceManagerLabels_type node "" imType1)).
  specialize (H2 _ _ (GetInstanceManagerLabels_type node "" imType2)).
  congruence.
Qed.

Lemma of_type_created node imName image imType :
  of_type (node_Name node) imType (created_manager node imName image imType).
Proof.
  unfold of_type. apply selector_matches_spec. apply GetInstanceManagerLabels_image_sub.
Qed.

Lemma of_type_labels node imType im im' :
  im_Labels im' = im_Labels im → of_type node imType im → of_type node imType im'.
Proof. unfold of_type. by intros ->. Qed.

(** *** The listing *)

Lemma range_values_elem {V} (site : string) (mv : gmap string V) (v : V) :
  v ∈ range_values site mv ↔ ∃ k, mv !! k = Some v.
Proof.
  unfold range_values. rewrite list_elem_of_omap. split.
  - intros (k & _ & Hk). eauto.
  - intros (k & Hk). exists k. split; [|done]. apply range_keys_elem. by eexists.
Qed.

Lemma foldl_insert_by_name (l : list InstanceManager) m0 k im :
  foldl (λ (itemMap : gmap string InstanceManager) itemRO,
           <[im_Name itemRO := itemRO]> itemMap) m0 l !! k = Some im →
  (im ∈ l ∧ im_Name im = k) ∨ m0 !! k = Some im.
Proof.
  revert m0. induction l as [|x l IH]; intros m0 Hk; simpl in *; [by right|].
  apply IH in Hk as [[Hin Hname]|Hk].
  - left. split; [by right | done].
  - destruct (decide (im_Name x = k)) as [<-|Hne].
    + rewrite lookup_insert_eq in Hk. injection Hk as <-. left. split; [left | done].
    + rewrite lookup_insert_ne in Hk by done. by right.
Qed.

Lemma foldl_insert_by_name_other (l : list InstanceManager) m0 k :
  (∀ y, y ∈ l → im_Name y ≠ k) →
  foldl (λ (itemMap : gmap string InstanceManager) itemRO,
           <[im_Name itemRO := itemRO]> itemMap) m0 l !! k = m0 !! k.
Proof.
  revert m0. induction l as [|x l IH]; intros m0 Hl; simpl; [done|].
  rewrite IH by (intros y Hy; apply Hl; by right).
  apply lookup_insert_ne, Hl. left.
Qed.

Lemma foldl_insert_by_name_elem (l : list InstanceManager) m0 im :
  (∀ im1 im2, im1 ∈ l → im2 ∈ l → im_Name im1 = im_Name im2 → im1 = im2) →
  im ∈ l →
  foldl (λ (itemMap : gmap string InstanceManager) itemRO,
           <[im_Name itemRO := itemRO]> itemMap) m0 l !! im_Name im = Some im.
Proof.
  revert m0. induction l as [|x l IH]; intros m0 Huniq Hin; simpl.
  - by apply elem_of_nil in Hin.
  - destruct (decide (im ∈ l)) as [Hl|Hl].
    + apply IH; [|done]. intros im1 im2 H1 H2. apply Huniq; by right.
    + apply elem_of_cons in Hin as [->|Hin]; [|done].
      rewrite foldl_insert_by_name_other; [by rewrite lookup_insert_eq|].
      intros y Hy Heq. apply Hl.
      assert (y = x) as <- by (apply Huniq; [by right | left | done]). done.
Qed.

(** Over a store that keeps every object under its name, the listing by
    node and type is the filter of the store. *)
Lemma ListInstanceManagersByNode_run ds node imType s :
  store_wf (st_ims s) →
  ListInstanceManagersByNode ds node imType s
  = match ds_imLister_fault ds (GetInstanceManagerLabels node "" imType) with
    | Some err => (s, Err err)
    | None => (s, Ok (listing node imType (st_ims s)))
    end.
Proof.
  intros Hwf. unfold ListInstanceManagersByNode, ListInstanceManagersBySelector.
  destruct (ds_imLister_fault ds _) as [err|]; [done|].
  rewrite bind_get. unfold ret. f_equal. f_equal.
  set (sel := GetInstanceManagerLabels node "" imType).
  set (l := filter (λ im, selector_matches sel (im_Labels im) = true)
              (range_values "imLister.List" (st_ims s))).
  assert (Hl : ∀ im, im ∈ l ↔ (∃ k, st_ims s !! k = Some im) ∧ of_type node imType im).
  { intros im. unfold l. rewrite list_elem_of_filter, range_values_elem. tauto. }
  assert (Huniq : ∀ im1 im2, im1 ∈ l → im2 ∈ l → im_Name im1 = im_Name im2 → im1 = im2).
  { intros im1 im2 [[k1 H1] _]%Hl [[k2 H2] _]%Hl Heq.
    rewrite (Hwf _ _ H1), (Hwf _ _ H2) in Heq. subst. congruence. }
  apply map_eq. intros k. apply option_eq. intros im. unfold listing.
  rewrite map_lookup_filter_Some. simpl. split.
  - intros [[[[k' Hk'] Hty]%Hl Hname]|Hk]%foldl_insert_by_name;
      [|by rewrite lookup_empty in Hk].
    rewrite (Hwf _ _ Hk') in Hname. subst. done.
  - intros [Hk Hty]. rewrite <- (Hwf _ _ Hk).
    apply foldl_insert_by_name_elem; [done|]. apply Hl. eauto.
Qed.

Lemma listing_lookup node imType m k im :
  listing node imType m !! k = Some im ↔ m !! k = Some im ∧ of_type node imType im.
Proof. unfold listing. by rewrite map_lookup_filter_Some. Qed.

(** *** Requests to the API server *)

Lemma DeleteInstanceManager_run ds name s :
  let s1 := State_with_calls s (CallDeleteInstanceManager name :: st_calls s) in
  DeleteInstanceManager ds name s
  = match ds_api_fault ds (CallDeleteInstanceManager name) with
    | Some err => (s1, Err err)
    | None =>
        match st_ims s !! name with
        | None => (s1, Err (StatusError StatusReasonNotFound name))
        | Some im =>
            (State_with_ims s1
               (match deleted_entry (st_now s) im with
                | None => delete name (st_ims s)
                | Some im' => <[name := im']> (st_ims s)
                end), Ok tt)
        end
    end.
Proof.
  intros s1. unfold DeleteInstanceManager, send. rewrite bind_modify. fold s1.
  destruct (ds_api_fault ds _) as [err|]; [done|]. rewrite bind_get.
  change (st_ims s1) with (st_ims s).
  destruct (st_ims s !! name) as [im|]; [|done].
  unfold deleted_entry. by destruct (im_Finalizers im).
Qed.

Lemma getInstanceManagerRO_found name im s :
  st_ims s !! name = Some im → getInstanceManagerRO name s = (s, Ok im).
Proof. intros Him. unfold getInstanceManagerRO. rewrite bind_get. by rewrite Him. Qed.

Lemma verifyCreation_found name kind im s :
  st_ims s !! name = Some im → verifyCreation name kind s = (s, Ok im).
Proof.
  intros Him. unfold verifyCreation, VerificationRetryCounts. simpl.
  unfold bind at 1 2, try. by rewrite (getInstanceManagerRO_found name im s Him).
Qed.

Lemma CreateInstanceManager_run ds im0 s :
  let im := if bool_decide (longhornFinalizerKey ∈ im_Finalizers im0) then im0
            else InstanceManager_with_Finalizers im0
                   (im_Finalizers im0 ++ [longhornFinalizerKey]) in
  let s1 := State_with_calls s (CallCreateInstanceManager im :: st_calls s) in
  CreateInstanceManager ds im0 s
  = match ds_api_fault ds (CallCreateInstanceManager im) with
    | Some err => (s1, Err err)
    | None =>
        match st_ims s !! im_Name im with
        | Some _ => (s1, Err (StatusError StatusReasonAlreadyExists (im_Name im)))
        | None => (State_with_ims s1 (<[im_Name im := im]> (st_ims s)), Ok im)
        end
    end.
Proof.
  intros im s1. unfold CreateInstanceManager. fold im. unfold send.
  rewrite bind_modify. fold s1.
  destruct (ds_api_fault ds _) as [err|]; [done|]. rewrite bind_get.
  change (st_ims s1) with (st_ims s).
  destruct (st_ims s !! im_Name im) as [old|]; [done|].
  rewrite bind_modify. destruct (ds_SkipListerCheck ds); [done|].
  apply verifyCreation_found. simpl. by rewrite lookup_insert_eq.
Qed.

(** *** The invariant of a phase *)

Lemma calls_sat_refl (Pc : ApiCall → Prop) s : calls_sat Pc s s.
Proof. exists []. by split. Qed.

Lemma calls_sat_send (Pc : ApiCall → Prop) s0 s c :
  Pc c → calls_sat Pc s0 s → calls_sat Pc s0 (State_with_calls s (c :: st_calls s)).
Proof.
  intros Hc (new & Hnew & Hall). exists (c :: new). split.
  - simpl. by rewrite Hnew.
  - by constructor.
Qed.

Lemma store_rel_refl node imType m : store_rel node imType m m.
Proof. intros k. by left. Qed.

Lemma store_rel_update node imType m0 m name (o : option InstanceManager) :
  store_rel node imType m0 m →
  (∀ im, m0 !! name = Some im → of_type node imType im) →
  (∀ im, m !! name = Some im → of_type node imType im) →
  (∀ im, o = Some im → of_type node imType im) →
  ∀ m', (∀ k, k ≠ name → m' !! k = m !! k) → m' !! name = o →
        store_rel node imType m0 m'.
Proof.
  intros Hrel H0 Hm Ho m' Hother Hname k.
  destruct (decide (k = name)) as [->|Hne].
  - right. split; [done|]. intros im Him. apply Ho. congruence.
  - rewrite (Hother k Hne). apply Hrel.
Qed.

Lemma store_rel_entry node imType m0 m name :
  store_rel node imType m0 m →
  (∀ im, m0 !! name = Some im → of_type node imType im) →
  ∀ im, m !! name = Some im → of_type node imType im.
Proof.
  intros Hrel H0 im Him. destruct (Hrel name) as [Heq|[_ Hty]]; [|by apply Hty].
  apply H0. congruence.
Qed.

Lemma phase_inv_refl node imType (Pc : ApiCall → Prop) s :
  store_wf (st_ims s) → phase_inv node imType Pc s s.
Proof.
  intros Hwf. split; [done | done | apply store_rel_refl | apply calls_sat_refl].
Qed.

Lemma stable_phase_inv_Delete node imType (Pc : ApiCall → Prop) s0 ds name :
  (∀ im, st_ims s0 !! name = Some im → of_type node imType im) →
  Pc (CallDeleteInstanceManager name) →
  stable (phase_inv node imType Pc s0) (DeleteInstanceManager ds name).
Proof.
  intros Hty Hc s [Hrest Hwf Hrel Hcalls]. unfold exec.
  rewrite DeleteInstanceManager_run.
  assert (Hs1 : phase_inv node imType Pc s0
                  (State_with_calls s (CallDeleteInstanceManager name :: st_calls s))).
  { split; [done | done | done | by apply calls_sat_send]. }
  destruct (ds_api_fault ds _) as [err|]; [done|].
  destruct (st_ims s !! name) as [im|] eqn:Him; [|done]. simpl.
  assert (Hcur : ∀ im', st_ims s !! name = Some im' → of_type node imType im').
  { by apply (store_rel_entry node imType (st_ims s0)). }
  destruct Hs1 as [Hrest1 _ _ Hcalls1]. split; try done; simpl.
  - intros k im' Hk. unfold deleted_entry in Hk. destruct (im_Finalizers im).
    + destruct (decide (k = name)) as [->|Hne].
      * by rewrite lookup_delete_eq in Hk.
      * rewrite lookup_delete_ne in Hk by done. by apply Hwf.
    + destruct (decide (k = name)) as [->|Hne].
      * rewrite lookup_insert_eq in Hk. injection Hk as <-. simpl. by apply Hwf.
      * rewrite lookup_insert_ne in Hk by done. by apply Hwf.
  - apply (store_rel_update node imType (st_ims s0) (st_ims s) name
             (deleted_entry (st_now s) im)); try done.
    + intros im'. unfold deleted_entry. destruct (im_Finalizers im); [done|].
      intros [= <-]. apply (of_type_labels node imType im); [done | by apply Hcur].
    + intros k Hne. destruct (deleted_entry (st_now s) im).
      * by rewrite lookup_insert_ne.
      * by rewrite lookup_delete_ne.
    + destruct (deleted_entry (st_now s) im).
      * by rewrite lookup_insert_eq.
      * by rewrite lookup_delete_eq.
Qed.

Lemma stable_phase_inv_Create node imType (Pc : ApiCall → Prop) s0 ds im0 :
  of_type node imType im0 →
  Pc (CallCreateInstanceManager
        (if bool_decide (longhornFinalizerKey ∈ im_Finalizers im0) then im0
         else InstanceManager_with_Finalizers im0
                (im_Finalizers im0 ++ [longhornFinalizerKey]))) →
  stable (phase_inv node imType Pc s0) (CreateInstanceManager ds im0).
Proof.
  intros Hty Hc s [Hrest Hwf Hrel Hcalls]. unfold exec.
  rewrite CreateInstanceManager_run.
  set (im := if bool_decide (longhornFinalizerKey ∈ im_Finalizers im0) then im0
             else InstanceManager_with_Finalizers im0
                    (im_Finalizers im0 ++ [longhornFinalizerKey])) in *.
  assert (Him : im_Name im = im_Name im0 ∧ im_Labels im = im_Labels im0).
  { unfold im. by case_bool_decide. }
  destruct Him as [Hname Hlabels].
  assert (Hs1 : phase_inv node imType Pc s0
                  (State_with_calls s (CallCreateInstanceManager im :: st_calls s))).
  { split; [done | done | done |]. by apply calls_sat_send. }
  destruct (ds_api_fault ds _) as [err|]; [done|].
  destruct (st_ims s !! im_Name im) as [old|] eqn:Hold; [done|]. simpl.
  destruct Hs1 as [Hrest1 _ _ Hcalls1]. split; try done; simpl.
  - intros k im' Hk. destruct (decide (k = im_Name im)) as [->|Hne].
    + rewrite lookup_insert_eq in Hk. by injection Hk as <-.
    + rewrite lookup_insert_ne in Hk by done. by apply Hwf.
  - assert (Htyim : of_type node imType im) by (by apply (of_type_labels node imType im0)).
    apply (store_rel_update node imType (st_ims s0) (st_ims s) (im_Name im) (Some im));
      try done.
    + intros im' Him'. destruct (Hrel (im_Name im)) as [Heq|[Hty0 _]]; [|by apply Hty0].
      congruence.
    + intros im' Him'. congruence.
    + by intros im' [= <-].
    + intros k Hne. by rewrite lookup_insert_ne.
    + by rewrite lookup_insert_eq.
Qed.

(** An entry that no request is sent for stays. *)
Lemma stable_keep_Delete ds name k im :
  name ≠ k →
  stable (λ s : State FS, st_ims s !! k = Some im) (DeleteInstanceManager ds name).
Proof.
  intros Hne s Hs. unfold exec. rewrite DeleteInstanceManager_run.
  destruct (ds_api_fault ds _) as [err|]; [done|].
  destruct (st_ims s !! name) as [im'|]; [|done]. simpl.
  destruct (deleted_entry (st_now s) im').
  - by rewrite lookup_insert_ne.
  - by rewrite lookup_delete_ne.
Qed.

Lemma stable_keep_Create ds im0 k im :
  stable (λ s : State FS, st_ims s !! k = Some im) (CreateInstanceManager ds im0).
Proof.
  intros s Hs. unfold exec. rewrite CreateInstanceManager_run.
  destruct (ds_api_fault ds _) as [err|]; [done|].
  match goal with
  | |- context [st_ims s !! im_Name ?x] =>
      destruct (st_ims s !! im_Name x) as [old|] eqn:Hold; [done|]; simpl;
      destruct (decide (im_Name x = k)) as [Heq|Hne]
  end.
  - congruence.
  - by rewrite lookup_insert_ne.
Qed.

(** *** The phase of one type *)

Lemma cleanupRequired_spec image im :
  cleanupRequired image im = true
  ↔ imspec_Image (im_Spec im) ≠ image
    ∧ (imstat_CurrentState (im_Status im) ≠ InstanceManagerStateRunning
       ∨ im_DeletionTimestamp im ≠ None
       ∨ ¬ has_live_instance im).
Proof.
  unfold cleanupRequired, has_live_instance.
  destruct (decide (imspec_Image (im_Spec im) = image)) as [Himg|Himg].
  { split; [done | by intros []]. }
  destruct (decide (imstat_CurrentState (im_Status im) = InstanceManagerStateRunning
                    ∧ im_DeletionTimestamp im = None)) as [[Hst Hts]|Hno].
  - rewrite bool_decide_eq_true. split.
    + intros Hall. split; [done|]. right. right. intros (name & state & Hname & Hlive).
      by apply (Hall name state Hname).
    + intros [_ [?|[?|Hnl]]]; [done | done |]. intros name state Hname Hlive.
      apply Hnl. eauto.
  - split; [|done]. intros _. split; [done|].
    destruct (decide (imstat_CurrentState (im_Status im) = InstanceManagerStateRunning));
      [|by left].
    right. left. intros Hts. apply Hno. done.
Qed.

Lemma foldM_one_flag nc image (l : list InstanceManager) (b b' : bool) s :
  outcome (foldM (syncInstanceManagers_one nc image) l b) s = Ok b' →
  b' = true ↔ (b = true ∨ ∃ im, im ∈ l ∧ imspec_Image (im_Spec im) = image).
Proof.
  revert b s. induction l as [|x l IH]; intros b s; simpl.
  - intros [= ->]. split; [by left|]. intros [?|(im & []%elem_of_nil & _)]. done.
  - rewrite outcome_bind.
    destruct (outcome (syncInstanceManagers_one nc image b x) s) as [b1|e] eqn:Hx; [|done].
    intros Hrest. apply IH in Hrest. rewrite Hrest. clear Hrest IH.
    assert (Hb1 : b1 = if decide (imspec_Image (im_Spec x) = image) then true else b).
    { unfold syncInstanceManagers_one in Hx. case_decide; [done|].
      rewrite outcome_bind in Hx.
      destruct (outcome _ s) in Hx; [|done]. simpl in Hx. by injection Hx as <-. }
    rewrite Hb1. split.
    + intros [Hd|(im & Him & Himg)].
      * case_decide; [|by left]. right. exists x. split; [left | done].
      * right. exists im. split; [by right | done].
    + intros [->|(im & [->|Him]%elem_of_cons & Himg)].
      * left. by case_decide.
      * left. by rewrite decide_True.
      * right. eauto.
Qed.

End InstanceManagerProperties.
(** ** The phases of the sync of instance managers *)

Section Phases.
Context `{Externals} {FS : Type}.
Implicit Types s : State FS.
Implicit Types nc : @NodeController FS.
Implicit Types ds : DataStore.

(** *** Requests are only added *)

Lemma sent_grow c s0 s s' :
  sent c s0 s → (∃ new, st_calls s' = new ++ st_calls s) → sent c s0 s'.
Proof.
  intros (new & Hnew & Hc) (new' & Hnew'). exists (new' ++ new). split.
  - by rewrite Hnew', Hnew, app_assoc.
  - apply elem_of_app. by right.
Qed.

Lemma sent_calls_sat (Pc : ApiCall → Prop) c s0 s : calls_sat Pc s0 s → sent c s0 s → Pc c.
Proof.
  intros (new & Hnew & Hall) (new' & Hnew' & Hc).
  assert (new' = new) as ->.
  { apply (app_inv_tail (st_calls s0)). congruence. }
  rewrite Forall_forall in Hall. by apply Hall.
Qed.

Lemma calls_Delete ds name s :
  st_calls (exec (DeleteInstanceManager ds name) s)
  = CallDeleteInstanceManager name :: st_calls s.
Proof.
  unfold exec. rewrite DeleteInstanceManager_run.
  destruct (ds_api_fault ds _); [done|]. by destruct (st_ims s !! name).
Qed.

Lemma stable_sent_Delete c s0 ds name :
  stable (sent c s0) (DeleteInstanceManager ds name).
Proof.
  intros s Hs. apply (sent_grow c s0 s); [done|].
  exists [CallDeleteInstanceManager name]. by rewrite calls_Delete.
Qed.

Lemma sent_Delete ds name s0 s :
  (∃ new, st_calls s = new ++ st_calls s0) →
  sent (CallDeleteInstanceManager name) s0 (exec (DeleteInstanceManager ds name) s).
Proof.
  intros (new & Hnew). exists (CallDeleteInstanceManager name :: new).
  rewrite calls_Delete, Hnew. split; [done | by left].
Qed.

(** *** A listed manager *)

Lemma listed_name node imType m k im :
  store_wf m → listing node imType m !! k = Some im →
  im_Name im = k ∧ m !! k = Some im ∧ of_type node imType im.
Proof.
  intros Hwf [Hk Hty]%listing_lookup. split; [by apply Hwf | done].
Qed.

(** *** The creation of the default manager *)

Lemma createInstanceManager_run nc node imName image imType s :
  let im := created_manager node imName image imType in
  let s1 := State_with_calls s (CallCreateInstanceManager im :: st_calls s) in
  createInstanceManager nc node imName image imType s
  = match ds_api_fault (nc_ds nc) (CallCreateInstanceManager im) with
    | Some err => (s1, Err err)
    | None =>
        match st_ims s !! imName with
        | Some _ => (s1, Err (StatusError StatusReasonAlreadyExists imName))
        | None => (State_with_ims s1 (<[imName := im]> (st_ims s)), Ok im)
        end
    end.
Proof.
  intros im s1. unfold createInstanceManager. by rewrite CreateInstanceManager_run.
Qed.

Lemma stable_phase_inv_createInstanceManager node0 imType (Pc : ApiCall → Prop) s0
    nc node imName image :
  of_type node0 imType (created_manager node imName image imType) →
  Pc (CallCreateInstanceManager (created_manager node imName image imType)) →
  stable (phase_inv node0 imType Pc s0)
         (createInstanceManager nc node imName image imType).
Proof.
  intros Hty Hc. unfold createInstanceManager.
  apply stable_phase_inv_Create; [|done].
  by apply (of_type_labels node0 imType (created_manager node imName image imType)).
Qed.

Lemma stable_keep_createInstanceManager nc node imName image imType k im :
  stable (λ s : State FS, st_ims s !! k = Some im)
         (createInstanceManager nc node imName image imType).
Proof. apply stable_keep_Create. Qed.

(** *** The loop over the managers of one type *)

Lemma stable_phase_inv_one nc node image imType s0 b k im :
  store_wf (st_ims s0) →
  listing (node_Name node) imType (st_ims s0) !! k = Some im →
  stable (phase_inv (node_Name node) imType
            (type_phase_call node image imType
               (listing (node_Name node) imType (st_ims s0))) s0)
         (syncInstanceManagers_one nc image b im).
Proof.
  intros Hwf Hk. destruct (listed_name _ _ _ _ _ Hwf Hk) as (Hname & Hs0 & Hty).
  unfold syncInstanceManagers_one. case_decide; [apply stable_fail|].
  apply stable_bind; [|intros; apply stable_ret].
  destruct (cleanupRequired image im) eqn:Hc; [|apply stable_ret].
  apply stable_phase_inv_Delete.
  - intros im' Him'. rewrite Hname in Him'. congruence.
  - simpl. exists im. by rewrite Hname.
Qed.

Lemma stable_keep_one nc image b x k0 im0 :
  cleanupRequired image im0 = false →
  (im_Name x = k0 → x = im0) →
  stable (λ s : State FS, st_ims s !! k0 = Some im0)
         (syncInstanceManagers_one nc image b x).
Proof.
  intros Hc Hx. unfold syncInstanceManagers_one. case_decide; [apply stable_fail|].
  apply stable_bind; [|intros; apply stable_ret].
  destruct (cleanupRequired image x) eqn:Hcx; [|apply stable_ret].
  apply stable_keep_Delete. intros Heq. apply Hx in Heq. congruence.
Qed.

(** *** The phase of one type, step by step *)

Lemma syncInstanceManagers_type_run nc node image imType s :
  store_wf (st_ims s) →
  let loop := foldM (syncInstanceManagers_one nc image)
                (range_values "syncInstanceManagers.imMap"
                   (listing (node_Name node) imType (st_ims s))) false in
  syncInstanceManagers_type nc node image imType s
  = match ds_imLister_fault (nc_ds nc)
            (GetInstanceManagerLabels (node_Name node) "" imType) with
    | Some err => (s, Err err)
    | None =>
        match outcome loop s with
        | Err e => (exec loop s, Err e)
        | Ok true => (exec loop s, Ok tt)
        | Ok false =>
            match GetInstanceManagerName imType with
            | Err e => (exec loop s, Err e)
            | Ok imName =>
                let r := createInstanceManager nc node imName image imType (exec loop s) in
                (r.1, match r.2 with Ok _ => Ok tt | Err e => Err e end)
            end
        end
    end.
Proof.
  intros Hwf loop. unfold syncInstanceManagers_type.
  rewrite bind_run. unfold outcome at 1, exec at 1 2.
  rewrite (ListInstanceManagersByNode_run _ _ _ _ Hwf).
  destruct (ds_imLister_fault _ _) as [err|]; [done|]. simpl.
  rewrite bind_run. fold loop.
  destruct (outcome loop s) as [[|]|e]; [done | | done]. simpl.
  rewrite bind_run. unfold outcome at 1, exec at 1 2, lift.
  destruct (GetInstanceManagerName imType) as [imName|e]; [|done]. simpl.
  rewrite bind_run. unfold outcome, exec.
  by destruct (createInstanceManager nc node imName image imType (loop s).1)
    as [s2 [a|e]].
Qed.

Lemma deleted_entry_Spec now im im' :
  deleted_entry now im = Some im' → im_Spec im' = im_Spec im.
Proof.
  unfold deleted_entry. destruct (im_Finalizers im); [done|]. by intros [= <-].
Qed.

(** A delete request for a manager of another image brings no manager
    of the image. *)
Lemma stable_defaults_Delete ds name image (m : gmap string InstanceManager) :
  (∀ x, m !! name = Some x → imspec_Image (im_Spec x) ≠ image) →
  stable (defaults_from image m : State FS → Prop) (DeleteInstanceManager ds name).
Proof.
  intros Hn s Hs. unfold exec. rewrite DeleteInstanceManager_run.
  destruct (ds_api_fault ds _) as [err|]; [done|].
  destruct (st_ims s !! name) as [im|] eqn:Him; [|done]. simpl. intros k im'. simpl.
  destruct (decide (k = name)) as [->|Hne].
  - destruct (deleted_entry (st_now s) im) as [im1|] eqn:Hd.
    + rewrite lookup_insert_eq. intros [= <-] Himg.
      rewrite (deleted_entry_Spec _ _ _ Hd) in Himg.
      destruct (Hn im); [|done]. by apply Hs.
    + by rewrite lookup_delete_eq.
  - destruct (deleted_entry (st_now s) im) as [im1|] eqn:Hd.
    + rewrite lookup_insert_ne by done. apply Hs.
    + rewrite lookup_delete_ne by done. apply Hs.
Qed.

Section TypePhase.
Context nc (node : Node) (image imType : string) (s : State FS).
Hypothesis Hwf : store_wf (st_ims s).

Local Abbreviation L := (listing (node_Name node) imType (st_ims s)).
Local Abbreviation loop :=
  (foldM (syncInstanceManagers_one nc image)
     (range_values "syncInstanceManagers.imMap" L) false).
Local Abbreviation Pc := (type_phase_call node image imType L).

Lemma loop_phase_inv : phase_inv (node_Name node) imType Pc s (exec loop s).
Proof.
  apply (stable_foldM (phase_inv (node_Name node) imType Pc s)).
  - intros b x [k Hk]%range_values_elem. by apply (stable_phase_inv_one _ _ _ _ _ _ k).
  - by apply phase_inv_refl.
Qed.

Lemma loop_keep k0 im0 :
  st_ims s !! k0 = Some im0 → cleanupRequired image im0 = false →
  st_ims (exec loop s) !! k0 = Some im0.
Proof.
  intros Hk0 Hc.
  apply (stable_foldM (λ s' : State FS, st_ims s' !! k0 = Some im0)); [|done].
  intros b x [k Hk]%range_values_elem. apply stable_keep_one; [done|].
  destruct (listed_name _ _ _ _ _ Hwf Hk) as (Hname & Hs0 & _).
  intros Heq. congruence.
Qed.

Lemma loop_flag b :
  outcome loop s = Ok b →
  b = true ↔ ∃ k im, L !! k = Some im ∧ imspec_Image (im_Spec im) = image.
Proof.
  intros Hb. rewrite (foldM_one_flag _ _ _ _ _ _ Hb). split.
  - intros [?|(im & [k Hk]%range_values_elem & Himg)]; [done | eauto].
  - intros (k & im & Hk & Himg). right. exists im. split; [|done].
    apply range_values_elem. eauto.
Qed.

(** The phase changes only the store and the requests, only at managers
    of its type, and sends only requests of the phase. *)
Lemma type_phase_inv :
  phase_inv (node_Name node) imType Pc s
    (exec (syncInstanceManagers_type nc node image imType) s).
Proof.
  unfold exec. rewrite (syncInstanceManagers_type_run _ _ _ _ _ Hwf).
  destruct (ds_imLister_fault _ _) as [err|]; [by apply phase_inv_refl|].
  pose proof loop_phase_inv as Hloop.
  destruct (outcome loop s) as [[|]|e] eqn:Hout; [done | | done].
  destruct (GetInstanceManagerName imType) as [imName|e] eqn:Hname; [|done]. simpl.
  apply (stable_phase_inv_createInstanceManager (node_Name node) imType Pc s
           nc node imName image); [apply of_type_created | | done].
  simpl. split; [|eauto].
  intros k im Hk Himg. apply loop_flag in Hout.
  assert (false = true); [|done]. apply Hout. eauto.
Qed.

(** A manager that needs no cleanup stays as it is. *)
Lemma type_phase_keep k0 im0 :
  st_ims s !! k0 = Some im0 → cleanupRequired image im0 = false →
  st_ims (exec (syncInstanceManagers_type nc node image imType) s) !! k0 = Some im0.
Proof.
  intros Hk0 Hc. unfold exec. rewrite (syncInstanceManagers_type_run _ _ _ _ _ Hwf).
  destruct (ds_imLister_fault _ _) as [err|]; [done|].
  pose proof (loop_keep k0 im0 Hk0 Hc) as Hloop.
  destruct (outcome loop s) as [[|]|e] eqn:Hout; [done | | done].
  destruct (GetInstanceManagerName imType) as [imName|e] eqn:Hname; [|done]. simpl.
  by apply (stable_keep_createInstanceManager nc node imName image imType k0 im0).
Qed.

(** A phase that returns without error leaves a default manager. *)
Lemma type_phase_default :
  outcome (syncInstanceManagers_type nc node image imType) s = Ok tt →
  has_default (node_Name node) image imType
    (exec (syncInstanceManagers_type nc node image imType) s).
Proof.
  unfold exec, outcome. rewrite (syncInstanceManagers_type_run _ _ _ _ _ Hwf).
  destruct (ds_imLister_fault _ _) as [err|]; [done|].
  destruct (outcome loop s) as [[|]|e] eqn:Hout; [ | | done].
  - intros _. simpl. apply loop_flag in Hout.
    destruct Hout as [(k & im & Hk & Himg) _]; [done|].
    destruct (listed_name _ _ _ _ _ Hwf Hk) as (Hname & Hs0 & Hty).
    exists k, im. split; [|done]. apply loop_keep; [done|].
    unfold cleanupRequired. by rewrite decide_True.
  - destruct (GetInstanceManagerName imType) as [imName|e] eqn:Hname; [|done]. simpl.
    rewrite createInstanceManager_run.
    destruct (ds_api_fault _ _) as [err|]; [done|].
    destruct (st_ims (exec loop s) !! imName) as [old|]; [done|]. simpl. intros _.
    exists imName, (created_manager node imName image imType).
    split; [simpl; by rewrite lookup_insert_eq|]. split; [apply of_type_created | done].
Qed.

(** When no default manager is listed, a phase that returns without
    error has asked for one. *)
Lemma type_phase_create :
  outcome (syncInstanceManagers_type nc node image imType) s = Ok tt →
  (∀ k im, L !! k = Some im → imspec_Image (im_Spec im) ≠ image) →
  ∃ imName, GetInstanceManagerName imType = Ok imName
    ∧ sent (CallCreateInstanceManager (created_manager node imName image imType)) s
        (exec (syncInstanceManagers_type nc node image imType) s).
Proof.
  unfold exec, outcome. rewrite (syncInstanceManagers_type_run _ _ _ _ _ Hwf).
   intros Hok Hnone.
  destruct (ds_imLister_fault _ _) as [err|]; [done|].
  pose proof loop_phase_inv as [_ _ _ (new & Hnew & _)].
  destruct (outcome loop s) as [[|]|e] eqn:Hout; [ | | done].
  - apply loop_flag in Hout. destruct Hout as [(k & im & Hk & Himg) _]; [done|].
    by destruct (Hnone k im).
  - destruct (GetInstanceManagerName imType) as [imName|e] eqn:Hname; [|done].
    exists imName. split; [done|]. simpl in *.
    rewrite createInstanceManager_run in *.
    destruct (ds_api_fault _ _) as [err|]; [done|].
    destruct (st_ims (exec loop s) !! imName) as [old|]; [done|]. simpl.
    eexists (_ :: new). split; [by rewrite Hnew | by left].
Qed.

(** The managers with the default image after the loop were there
    before it. *)
Lemma loop_defaults : defaults_from image (st_ims s) (exec loop s).
Proof.
  apply (stable_foldM (defaults_from image (st_ims s) : State FS → Prop)).
  - intros b x [k Hk]%range_values_elem.
    destruct (listed_name _ _ _ _ _ Hwf Hk) as (Hname & Hs0 & _).
    unfold syncInstanceManagers_one. case_decide; [apply stable_fail|].
    apply stable_bind; [|intros; apply stable_ret].
    destruct (cleanupRequired image x) eqn:Hc; [|apply stable_ret].
    apply stable_defaults_Delete. intros x' Hx'. rewrite Hname in Hx'.
    assert (x' = x) as -> by congruence.
    by apply cleanupRequired_spec in Hc as [Himg _].
  - by intros k im Hk _.
Qed.

(** The managers with the default image after the phase were there
    before it, but for the one the phase created when none was
    listed. *)
Lemma type_phase_defaults k im :
  st_ims (exec (syncInstanceManagers_type nc node image imType) s) !! k = Some im →
  imspec_Image (im_Spec im) = image →
  st_ims s !! k = Some im ∨ created_default node image imType (st_ims s) k im.
Proof.
  unfold exec. rewrite (syncInstanceManagers_type_run _ _ _ _ _ Hwf).
  destruct (ds_imLister_fault _ _) as [err|]; [by left|].
  pose proof loop_defaults as Hloop.
  destruct (outcome loop s) as [[|]|e] eqn:Hout; [by left; apply Hloop | | by left; apply Hloop].
  destruct (GetInstanceManagerName imType) as [imName|e] eqn:Hname;
    [|by left; apply Hloop].
  simpl. rewrite createInstanceManager_run.
  destruct (ds_api_fault _ _) as [err|]; [by left; apply Hloop|].
  destruct (st_ims (exec loop s) !! imName) as [old|]; [by left; apply Hloop|]. simpl.
  destruct (decide (k = imName)) as [->|Hne].
  - rewrite lookup_insert_eq. intros [= <-] _. right. split; [|done].
    intros k' im' Hk' Hty Himg. apply loop_flag in Hout.
    assert (false = true); [|done]. apply Hout. exists k', im'. split; [|done].
    by apply listing_lookup.
  - rewrite lookup_insert_ne by done. intros Hk Himg. left. by apply Hloop.
Qed.

End TypePhase.

(** *** The cleanup of the replica managers of a node without disks *)

Lemma marked_deleted_entry now im im' :
  deleted_entry now im = Some im' → marked_deleted im'.
Proof.
  unfold deleted_entry, marked_deleted.
  destruct (im_Finalizers im) as [|f fs] eqn:Hf; [done|]. intros [= <-]. simpl.
  rewrite Hf. split; [by destruct (im_DeletionTimestamp im) | done].
Qed.

Lemma deleted_entry_labels now im im' :
  deleted_entry now im = Some im' → im_Labels im' = im_Labels im.
Proof.
  unfold deleted_entry. destruct (im_Finalizers im); [done|]. by intros [= <-].
Qed.

Lemma going_Delete ds name s :
  outcome (DeleteInstanceManager ds name) s = Ok tt →
  going name (exec (DeleteInstanceManager ds name) s).
Proof.
  unfold outcome, exec. rewrite DeleteInstanceManager_run.
  destruct (ds_api_fault ds _) as [err|]; [done|].
  destruct (st_ims s !! name) as [im|] eqn:Him; [|done]. simpl. intros _ im'. simpl.
  destruct (deleted_entry (st_now s) im) as [im1|] eqn:Hd.
  - rewrite lookup_insert_eq. intros [= <-]. by apply (marked_deleted_entry (st_now s) im).
  - by rewrite lookup_delete_eq.
Qed.

Lemma stable_going_Delete ds name k :
  stable (going k : State FS → Prop) (DeleteInstanceManager ds name).
Proof.
  intros s Hs. unfold exec. rewrite DeleteInstanceManager_run.
  destruct (ds_api_fault ds _) as [err|]; [done|].
  destruct (st_ims s !! name) as [im|] eqn:Him; [|done]. simpl. intros im'. simpl.
  destruct (decide (name = k)) as [->|Hne].
  - destruct (deleted_entry (st_now s) im) as [im1|] eqn:Hd.
    + rewrite lookup_insert_eq. intros [= <-]. by apply (marked_deleted_entry (st_now s) im).
    + by rewrite lookup_delete_eq.
  - destruct (deleted_entry (st_now s) im) as [im1|] eqn:Hd.
    + rewrite lookup_insert_ne by done. apply Hs.
    + rewrite lookup_delete_ne by done. apply Hs.
Qed.

Lemma stable_none_new_Delete ds name node imType L :
  stable (none_new node imType L : State FS → Prop) (DeleteInstanceManager ds name).
Proof.
  intros s Hs. unfold exec. rewrite DeleteInstanceManager_run.
  destruct (ds_api_fault ds _) as [err|]; [done|].
  destruct (st_ims s !! name) as [im|] eqn:Him; [|done]. simpl. intros k im'. simpl.
  destruct (decide (k = name)) as [->|Hne].
  - destruct (deleted_entry (st_now s) im) as [im1|] eqn:Hd.
    + rewrite lookup_insert_eq. intros [= <-] Hty. apply (Hs name im Him).
      apply (of_type_labels node imType im1); [|done].
      symmetry. by apply (deleted_entry_labels (st_now s)).
    + by rewrite lookup_delete_eq.
  - destruct (deleted_entry (st_now s) im) as [im1|] eqn:Hd.
    + rewrite lookup_insert_ne by done. apply Hs.
    + rewrite lookup_delete_ne by done. apply Hs.
Qed.

Section EagerPhase.
Context nc (node : Node) (s : State FS).
Hypothesis Hwf : store_wf (st_ims s).

Local Abbreviation L :=
  (listing (node_Name node) InstanceManagerTypeReplica (st_ims s)).
Local Abbreviation loop :=
  (forM_ (range_values "syncInstanceManagers.rmMap" L)
     (λ rm, DeleteInstanceManager (nc_ds nc) (im_Name rm)) : M FS unit).
Local Abbreviation I := (eager_inv node s).

Lemma stable_eager_body rm :
  rm ∈ range_values "syncInstanceManagers.rmMap" L →
  stable I (DeleteInstanceManager (nc_ds nc) (im_Name rm)).
Proof.
  intros [k Hk]%range_values_elem.
  destruct (listed_name _ _ _ _ _ Hwf Hk) as (Hname & Hs0 & Hty).
  intros s' [Hinv Hnew]. split.
  - apply stable_phase_inv_Delete; [| |done].
    + intros im' Him'. rewrite Hname in Him'. congruence.
    + simpl. rewrite Hname. by rewrite Hk.
  - by apply stable_none_new_Delete.
Qed.

Lemma eager_start : I s.
Proof.
  split; [by apply phase_inv_refl|]. intros k im Hk Hty. exists im.
  by apply listing_lookup.
Qed.

Lemma eager_loop_inv : I (exec loop s).
Proof.
  apply (stable_forM_ I); [apply stable_eager_body | apply eager_start].
Qed.

(** A cleanup that returns without error has sent a delete request for
    every listed replica manager, and each of them is gone or held by a
    finalizer. *)
Lemma eager_loop_all :
  outcome loop s = Ok tt →
  ∀ k im, L !! k = Some im →
    sent (CallDeleteInstanceManager k) s (exec loop s) ∧ going k (exec loop s).
Proof.
  intros Hok k im Hk.
  destruct (listed_name _ _ _ _ _ Hwf Hk) as (Hname & Hs0 & Hty).
  rewrite <- Hname.
  apply (forM__establish_ok I
           (λ rm s', sent (CallDeleteInstanceManager (im_Name rm)) s s'
                     ∧ going (im_Name rm) s')
           (range_values "syncInstanceManagers.rmMap" L)
           (λ rm, DeleteInstanceManager (nc_ds nc) (im_Name rm)) s).
  - apply stable_eager_body.
  - intros x s' Hx [[_ _ _ (new & Hnew & _)] _] Hout.
    split; [apply sent_Delete; eauto | by apply going_Delete].
  - intros x y Hx Hy s' [HI [Hsent Hgoing]]. split; [by apply stable_eager_body|].
    split; [by apply stable_sent_Delete | by apply stable_going_Delete].
  - apply eager_start.
  - done.
  - apply range_values_elem. eauto.
Qed.

End EagerPhase.

End Phases.
(** ** The sync of instance managers as a sequence of phases *)

Section SyncPhases.
Context `{Externals} {FS : Type}.
Implicit Types s : State FS.
Implicit Types nc : @NodeController FS.
Implicit Types m : gmap string InstanceManager.

Lemma calls_sat_impl (P Q : ApiCall → Prop) s0 s :
  (∀ c, P c → Q c) → calls_sat P s0 s → calls_sat Q s0 s.
Proof.
  intros HPQ (new & Hnew & Hall). exists new. split; [done|].
  by apply (Forall_impl P).
Qed.

Lemma calls_sat_trans (P : ApiCall → Prop) s0 s1 s2 :
  calls_sat P s0 s1 → calls_sat P s1 s2 → calls_sat P s0 s2.
Proof.
  intros (new1 & Hnew1 & Hall1) (new2 & Hnew2 & Hall2). exists (new2 ++ new1). split.
  - by rewrite Hnew2, Hnew1, app_assoc.
  - by apply Forall_app.
Qed.

Lemma calls_sat_grow (P : ApiCall → Prop) s0 s :
  calls_sat P s0 s → ∃ new, st_calls s = new ++ st_calls s0.
Proof. intros (new & Hnew & _). eauto. Qed.

Lemma sent_from c s0 s1 s2 :
  (∃ new, st_calls s1 = new ++ st_calls s0) → sent c s1 s2 → sent c s0 s2.
Proof.
  intros (new1 & Hnew1) (new2 & Hnew2 & Hc). exists (new2 ++ new1). split.
  - by rewrite Hnew2, Hnew1, app_assoc.
  - apply elem_of_app. by left.
Qed.

Lemma Engine_ne_Replica : InstanceManagerTypeEngine ≠ InstanceManagerTypeReplica.
Proof. done. Qed.

(** The managers of another type are out of reach of a phase. *)
Lemma listing_frame node imType imType' m0 m1 :
  store_rel node imType m0 m1 → imType ≠ imType' →
  listing node imType' m1 = listing node imType' m0.
Proof.
  intros Hrel Hne. apply map_eq. intros k. apply option_eq. intros im.
  rewrite !listing_lookup. destruct (Hrel k) as [Heq|[H0 H1]].
  - by rewrite Heq.
  - split; intros [Hk Hty]; destruct Hne.
    + by apply (of_type_inj node imType imType' im); [apply H1|].
    + by apply (of_type_inj node imType imType' im); [apply H0|].
Qed.

Lemma store_rel_keep node imType m0 m1 k im :
  store_rel node imType m0 m1 → m0 !! k = Some im → ¬ of_type node imType im →
  m1 !! k = Some im.
Proof.
  intros Hrel Hk Hty. destruct (Hrel k) as [Heq|[H0 _]]; [congruence|].
  destruct Hty. by apply H0.
Qed.

Lemma cleanupRequired_false image im :
  imspec_Image (im_Spec im) = image ∨ in_use im → cleanupRequired image im = false.
Proof.
  intros Hno. destruct (cleanupRequired image im) eqn:Hc; [|done].
  apply cleanupRequired_spec in Hc as [Himg Hc].
  destruct Hno as [?|(Hst & Hts & Hlive)]; [done|].
  by destruct Hc as [?|[?|?]].
Qed.

Lemma type_call_sync_call node image imType m c :
  needed node imType →
  type_phase_call node image imType (listing (node_Name node) imType m) c →
  sync_call node image m c.
Proof.
  intros Hneed. destruct c as [| |im|name]; simpl; try done.
  - intros [Hnone (imName & Hname & ->)]. exists imType, imName.
    split; [done|]. split; [|done]. intros k im' Hk Hty.
    apply (Hnone k). by apply listing_lookup.
  - intros (im & [Hk Hty]%listing_lookup & Hc). exists im. split; [done|].
    right. by exists imType.
Qed.

Lemma eager_call_sync_call node image m c :
  no_disks node →
  eager_phase_call (listing (node_Name node) InstanceManagerTypeReplica m) c →
  sync_call node image m c.
Proof.
  intros Hno. destruct c as [| |im|name]; simpl; try done.
  intros [im [Hk Hty]%listing_lookup]. exists im. split; [done|]. by left.
Qed.

(** *** A sequence of phases of distinct types *)

Section Sequence.
Context nc (node : Node) (image : string).

Local Abbreviation phase := (syncInstanceManagers_type nc node image).

Lemma exec_phases imType (ts : list string) s :
  exec (forM_ (imType :: ts) phase) s
  = match outcome (phase imType) s with
    | Ok _ => exec (forM_ ts phase) (exec (phase imType) s)
    | Err _ => exec (phase imType) s
    end.
Proof. simpl. by rewrite exec_bind. Qed.

Lemma outcome_phases imType (ts : list string) s :
  outcome (forM_ (imType :: ts) phase) s = Ok tt
  ↔ outcome (phase imType) s = Ok tt ∧ outcome (forM_ ts phase) (exec (phase imType) s) = Ok tt.
Proof.
  simpl. rewrite outcome_bind. destruct (outcome (phase imType) s) as [[]|e].
  - split; [done | by intros []].
  - split; [done | by intros []].
Qed.

(** The phases keep every object under its name and leave everything
    but the store and the requests alone. *)
Lemma phases_frame (ts : list string) s :
  store_wf (st_ims s) →
  let s' := exec (forM_ ts phase) s in
  store_wf (st_ims s') ∧ im_rest s' = im_rest s
  ∧ ∃ new, st_calls s' = new ++ st_calls s.
Proof.
  revert s. induction ts as [|imType ts IH]; intros s Hwf; simpl.
  { split; [done|]. split; [done|]. by exists []. }
  change (exec _ s) with (exec (forM_ (imType :: ts) phase) s).
  rewrite exec_phases.
  destruct (type_phase_inv nc node image imType s Hwf) as [Hrest Hwf1 _ (new & Hnew & _)].
  destruct (outcome (phase imType) s); [|by eauto].
  destruct (IH _ Hwf1) as (Hwf2 & Hrest2 & new2 & Hnew2).
  split; [done|]. split; [congruence|]. exists (new2 ++ new).
  by rewrite Hnew2, Hnew, app_assoc.
Qed.

(** The managers of a type that has no phase stay as they are. *)
Lemma phases_listing (ts : list string) imType0 s :
  store_wf (st_ims s) → imType0 ∉ ts →
  listing (node_Name node) imType0 (st_ims (exec (forM_ ts phase) s))
  = listing (node_Name node) imType0 (st_ims s).
Proof.
  revert s. induction ts as [|imType ts IH]; intros s Hwf Hnotin; [done|].
  rewrite exec_phases.
  destruct (type_phase_inv nc node image imType s Hwf) as [_ Hwf1 Hrel _].
  apply not_elem_of_cons in Hnotin as [Hne Hnotin].
  assert (Hone : listing (node_Name node) imType0 (st_ims (exec (phase imType) s))
                 = listing (node_Name node) imType0 (st_ims s)).
  { by apply (listing_frame _ imType). }
  destruct (outcome (phase imType) s); [|done].
  by rewrite IH.
Qed.

(** The requests of the phases, over the store the listings agree
    with. *)
Lemma phases_calls (ts : list string) m s :
  store_wf (st_ims s) → NoDup ts →
  (∀ imType, imType ∈ ts → needed node imType) →
  (∀ imType, imType ∈ ts →
     listing (node_Name node) imType (st_ims s) = listing (node_Name node) imType m) →
  calls_sat (sync_call node image m) s (exec (forM_ ts phase) s).
Proof.
  revert s. induction ts as [|imType ts IH]; intros s Hwf Hnd Hneed Hlist.
  { apply calls_sat_refl. }
  rewrite exec_phases.
  destruct (type_phase_inv nc node image imType s Hwf) as [_ Hwf1 Hrel Hcalls].
  apply NoDup_cons in Hnd as [Hnotin Hnd].
  assert (Hhead : calls_sat (sync_call node image m) s (exec (phase imType) s)).
  { apply (calls_sat_impl _ _ _ _ (λ c, type_call_sync_call node image imType m c
                                          (Hneed imType (list_elem_of_here _ _)))).
    rewrite <- (Hlist imType) by left. done. }
  destruct (outcome (phase imType) s); [|done].
  apply (calls_sat_trans _ _ _ _ Hhead). apply IH; try done.
  - intros T HT. apply Hneed. by right.
  - intros T HT. rewrite <- (Hlist T) by (by right).
    apply (listing_frame _ imType); [done|]. intros ->. done.
Qed.

(** A manager that needs no cleanup stays as it is. *)
Lemma phases_keep (ts : list string) s k im :
  store_wf (st_ims s) → st_ims s !! k = Some im → cleanupRequired image im = false →
  st_ims (exec (forM_ ts phase) s) !! k = Some im.
Proof.
  revert s. induction ts as [|imType ts IH]; intros s Hwf Hk Hc; [done|].
  rewrite exec_phases.
  destruct (type_phase_inv nc node image imType s Hwf) as [_ Hwf1 _ _].
  pose proof (type_phase_keep nc node image imType s Hwf k im Hk Hc) as Hk1.
  destruct (outcome (phase imType) s); [|done].
  by apply IH.
Qed.

(** Phases that return without error leave a default manager of each
    of their types. *)
Lemma phases_default (ts : list string) s imType :
  store_wf (st_ims s) → outcome (forM_ ts phase) s = Ok tt → imType ∈ ts →
  has_default (node_Name node) image imType (exec (forM_ ts phase) s).
Proof.
  revert s. induction ts as [|T ts IH]; intros s Hwf Hok Hin.
  { by apply elem_of_nil in Hin. }
  apply outcome_phases in Hok as [Hok1 Hok2]. rewrite exec_phases, Hok1.
  destruct (type_phase_inv nc node image T s Hwf) as [_ Hwf1 _ _].
  destruct (decide (imType ∈ ts)) as [Hts|Hts]; [by apply IH|].
  apply elem_of_cons in Hin as [->|Hin]; [|done].
  destruct (type_phase_default nc node image T s Hwf Hok1) as (k & im & Hk & Hty & Himg).
  exists k, im. split; [|done]. apply phases_keep; [done | done |].
  apply cleanupRequired_false. by left.
Qed.

(** Phases that return without error have asked for the default
    manager of each of their types that has none. *)
Lemma phases_create (ts : list string) s imType :
  store_wf (st_ims s) → NoDup ts →
  outcome (forM_ ts phase) s = Ok tt → imType ∈ ts →
  (∀ k im, st_ims s !! k = Some im → of_type (node_Name node) imType im →
           imspec_Image (im_Spec im) ≠ image) →
  ∃ imName, GetInstanceManagerName imType = Ok imName
    ∧ sent (CallCreateInstanceManager (created_manager node imName image imType)) s
        (exec (forM_ ts phase) s).
Proof.
  revert s. induction ts as [|T ts IH]; intros s Hwf Hnd Hok Hin Hnone.
  { by apply elem_of_nil in Hin. }
  apply outcome_phases in Hok as [Hok1 Hok2]. rewrite exec_phases, Hok1.
  destruct (type_phase_inv nc node image T s Hwf) as [_ Hwf1 Hrel Hcalls].
  apply NoDup_cons in Hnd as [Hnotin Hnd].
  apply elem_of_cons in Hin as [->|Hin].
  - destruct (type_phase_create nc node image T s Hwf Hok1) as (imName & Hname & Hsent).
    { intros k im [Hk Hty]%listing_lookup. by apply (Hnone k). }
    exists imName. split; [done|].
    apply (sent_grow _ _ _ _ Hsent).
    by destruct (phases_frame ts _ Hwf1) as (_ & _ & Hgrow).
  - destruct (IH _ Hwf1 Hnd Hok2 Hin) as (imName & Hname & Hsent).
    { intros k im Hk Hty.
      assert (Hl : listing (node_Name node) imType (st_ims (exec (phase T) s)) !! k
                   = Some im) by (by apply listing_lookup).
      rewrite (listing_frame _ T imType (st_ims s)) in Hl; [|done|by intros ->].
      apply listing_lookup in Hl as [Hk0 _]. by apply (Hnone k). }
    exists imName. split; [done|].
    apply (sent_from _ s _ _ (calls_sat_grow _ _ _ Hcalls) Hsent).
Qed.

(** The managers of a type with the default image after the phases
    were there before them, but for the one created for the type. *)
Lemma phases_defaults (ts : list string) s imType k im :
  store_wf (st_ims s) → NoDup ts →
  st_ims (exec (forM_ ts phase) s) !! k = Some im →
  of_type (node_Name node) imType im → imspec_Image (im_Spec im) = image →
  st_ims s !! k = Some im
  ∨ (imType ∈ ts ∧ created_default node image imType (st_ims s) k im).
Proof.
  revert s. induction ts as [|T ts IH]; intros s Hwf Hnd Hk Hty Himg; [by left|].
  rewrite exec_phases in Hk.
  destruct (type_phase_inv nc node image T s Hwf) as [_ Hwf1 Hrel _].
  apply NoDup_cons in Hnd as [Hnotin Hnd].
  assert (Hhead : ∀ k im, st_ims (exec (phase T) s) !! k = Some im →
            of_type (node_Name node) imType im → imspec_Image (im_Spec im) = image →
            st_ims s !! k = Some im
            ∨ (imType = T ∧ created_default node image imType (st_ims s) k im)).
  { intros k' im' Hk' Hty' Himg'. destruct (decide (imType = T)) as [->|Hne].
    - destruct (type_phase_defaults nc node image T s Hwf k' im' Hk' Himg'); auto.
    - left. destruct (Hrel k') as [Heq|[_ H1]]; [congruence|].
      destruct Hne. by apply (of_type_inj (node_Name node) imType T im'); [|apply H1]. }
  destruct (outcome (phase T) s).
  - destruct (IH _ Hwf1 Hnd Hk Hty Himg) as [Hk1|[Hin (Hnone & Hname & ->)]].
    + destruct (Hhead k im Hk1 Hty Himg) as [?|[-> ?]]; [by left|].
      right. split; [left | done].
    + right. split; [by right|]. split; [|done].
      intros k' im' Hk' Hty' Himg'. apply (Hnone k' im'); [|done..].
      assert (Hl : listing (node_Name node) imType (st_ims s) !! k' = Some im')
        by (by apply listing_lookup).
      rewrite <- (listing_frame _ T imType (st_ims s) (st_ims (exec (phase T) s))) in Hl;
        [|done|by intros ->].
      by apply listing_lookup in Hl as [? _].
  - destruct (Hhead k im Hk Hty Himg) as [?|[-> ?]]; [by left|].
    right. split; [left | done].
Qed.

End Sequence.

(** *** The types of a sync *)

Lemma types_disks nc node s :
  ¬ no_disks node →
  syncInstanceManagers_types nc node s
  = (s, Ok [InstanceManagerTypeEngine; InstanceManagerTypeReplica]).
Proof. intros Hd. unfold syncInstanceManagers_types. by rewrite decide_False. Qed.

Lemma types_no_disks nc node s :
  no_disks node → store_wf (st_ims s) →
  let loop : M FS unit :=
    forM_ (range_values "syncInstanceManagers.rmMap"
             (listing (node_Name node) InstanceManagerTypeReplica (st_ims s)))
      (λ rm, DeleteInstanceManager (nc_ds nc) (im_Name rm)) in
  syncInstanceManagers_types nc node s
  = match ds_imLister_fault (nc_ds nc)
            (GetInstanceManagerLabels (node_Name node) "" InstanceManagerTypeReplica) with
    | Some err => (s, Err err)
    | None => (exec loop s,
               match outcome loop s with
               | Ok _ => Ok [InstanceManagerTypeEngine]
               | Err e => Err e
               end)
    end.
Proof.
  intros Hd Hwf loop. unfold syncInstanceManagers_types. rewrite decide_True by done.
  rewrite bind_run. unfold outcome at 1, exec at 1 2.
  rewrite (ListInstanceManagersByNode_run _ _ _ _ Hwf).
  destruct (ds_imLister_fault _ _) as [err|]; [done|]. simpl.
  rewrite bind_run. fold loop. by destruct (outcome loop s).
Qed.

(** The cleanup on a node without disks, as a phase of type replica. *)
Lemma types_phase_inv nc node s :
  no_disks node → store_wf (st_ims s) →
  let L := listing (node_Name node) InstanceManagerTypeReplica (st_ims s) in
  let s1 := exec (syncInstanceManagers_types nc node) s in
  phase_inv (node_Name node) InstanceManagerTypeReplica (eager_phase_call L) s s1
  ∧ none_new (node_Name node) InstanceManagerTypeReplica L s1.
Proof.
  intros Hd Hwf L s1. unfold s1, exec.
  rewrite (types_no_disks _ _ _ Hd Hwf).
  destruct (ds_imLister_fault _ _) as [err|]; [apply (eager_start node s Hwf)|].
  apply (eager_loop_inv nc node s Hwf).
Qed.

Lemma types_all nc node s ts :
  no_disks node → store_wf (st_ims s) →
  outcome (syncInstanceManagers_types nc node) s = Ok ts →
  let s1 := exec (syncInstanceManagers_types nc node) s in
  ts = [InstanceManagerTypeEngine]
  ∧ ∀ k im, listing (node_Name node) InstanceManagerTypeReplica (st_ims s) !! k = Some im →
      sent (CallDeleteInstanceManager k) s s1 ∧ going k s1.
Proof.
  intros Hd Hwf. unfold exec, outcome.
  rewrite (types_no_disks _ _ _ Hd Hwf).
  destruct (ds_imLister_fault _ _) as [err|]; [done|]. simpl.
  destruct (outcome _ s) as [[]|e] eqn:Hout; [|done]. intros [= <-]. split; [done|].
  by apply (eager_loop_all nc node s Hwf).
Qed.

(** *** The whole sync *)

Section Sync.
Context nc (s : State FS) (image : string).
Hypothesis Hwf : store_wf (st_ims s).
Hypothesis Himage :
  GetSettingValueExisted (nc_ds nc) SettingNameDefaultInstanceManagerImage = Ok image.

Local Abbreviation node := (st_node s).
Local Abbreviation types := (syncInstanceManagers_types nc node).
Local Abbreviation phase := (syncInstanceManagers_type nc node image).

Lemma syncInstanceManagers_run :
  syncInstanceManagers nc s
  = match outcome types s with
    | Ok ts => forM_ ts phase (exec types s)
    | Err e => (exec types s, Err e)
    end.
Proof.
  unfold syncInstanceManagers. rewrite bind_get_node, Himage, bind_lift_Ok.
  by rewrite bind_run.
Qed.

Lemma exec_syncInstanceManagers :
  exec (syncInstanceManagers nc) s
  = match outcome types s with
    | Ok ts => exec (forM_ ts phase) (exec types s)
    | Err _ => exec types s
    end.
Proof. unfold exec at 1. rewrite syncInstanceManagers_run. by destruct (outcome types s). Qed.

Lemma outcome_syncInstanceManagers :
  outcome (syncInstanceManagers nc) s
  = match outcome types s with
    | Ok ts => outcome (forM_ ts phase) (exec types s)
    | Err e => Err e
    end.
Proof. unfold outcome at 1. rewrite syncInstanceManagers_run. by destruct (outcome types s). Qed.

Lemma needed_types ts :
  outcome types s = Ok ts →
  NoDup ts ∧ (∀ imType, imType ∈ ts ↔ needed node imType)
  ∧ (no_disks node → InstanceManagerTypeReplica ∉ ts).
Proof.
  unfold outcome. destruct (decide (no_disks node)) as [Hd|Hd].
  - rewrite (types_no_disks _ _ _ Hd Hwf).
    destruct (ds_imLister_fault _ _) as [err|]; [done|]. simpl.
    destruct (outcome _ s) as [[]|e]; [|done]. intros [= <-]. split; [|split].
    + apply NoDup_singleton.
    + intros T. rewrite list_elem_of_singleton. unfold needed. naive_solver.
    + intros _ Hin%list_elem_of_singleton. done.
  - rewrite (types_disks _ _ _ Hd). intros [= <-]. split; [|split].
    + apply NoDup_cons. split; [|apply NoDup_singleton].
      intros Hin%list_elem_of_singleton. done.
    + intros T. rewrite elem_of_cons, list_elem_of_singleton. unfold needed. naive_solver.
    + done.
Qed.

(** The state after the choice of the types: on a node with disks
    nothing has happened yet. *)
Lemma types_inv :
  let s1 := exec types s in
  store_wf (st_ims s1) ∧ im_rest s1 = im_rest s
  ∧ calls_sat (sync_call node image (st_ims s)) s s1
  ∧ (∀ imType, needed node imType →
       listing (node_Name node) imType (st_ims s1) = listing (node_Name node) imType (st_ims s))
  ∧ (∀ k im, st_ims s !! k = Some im →
       ¬ (no_disks node ∧ of_type (node_Name node) InstanceManagerTypeReplica im) →
       st_ims s1 !! k = Some im).
Proof.
  simpl. destruct (decide (no_disks node)) as [Hd|Hd].
  - destruct (types_phase_inv nc node s Hd Hwf) as [[Hrest Hwf1 Hrel Hcalls] _].
    split; [done|]. split; [done|]. split; [|split].
    + apply (calls_sat_impl _ _ _ _ (λ c, eager_call_sync_call node image (st_ims s) c Hd)).
      done.
    + intros T [->|[_ ?]]; [|done].
      apply (listing_frame _ InstanceManagerTypeReplica); [done | done].
    + intros k im Hk Hnot. apply (store_rel_keep _ _ _ _ _ _ Hrel Hk). tauto.
  - unfold exec. rewrite (types_disks _ _ _ Hd). simpl.
    split; [done|]. split; [done|]. split; [apply calls_sat_refl|]. done.
Qed.

(** The sync keeps every object under its name, changes only the store
    and the requests, and sends only requests of a sync. *)
Lemma syncInstanceManagers_inv :
  let s' := exec (syncInstanceManagers nc) s in
  store_wf (st_ims s') ∧ im_rest s' = im_rest s
  ∧ calls_sat (sync_call node image (st_ims s)) s s'.
Proof.
  simpl. rewrite exec_syncInstanceManagers.
  destruct types_inv as (Hwf1 & Hrest1 & Hcalls1 & Hlist1 & _).
  destruct (outcome types s) as [ts|e] eqn:Hts; [|done].
  destruct (needed_types ts Hts) as (Hnd & Hneed & _).
  destruct (phases_frame nc node image ts _ Hwf1) as (Hwf2 & Hrest2 & _).
  split; [done|]. split; [by rewrite Hrest2|].
  apply (calls_sat_trans _ _ _ _ Hcalls1).
  apply phases_calls; try done.
  - intros T HT. by apply Hneed.
  - intros T HT. apply Hlist1. by apply Hneed.
Qed.

(** A manager that needs no cleanup, and is not a replica manager of a
    node without disks, stays as it is. *)
Lemma syncInstanceManagers_keep k im :
  st_ims s !! k = Some im →
  ¬ (no_disks node ∧ of_type (node_Name node) InstanceManagerTypeReplica im) →
  cleanupRequired image im = false →
  st_ims (exec (syncInstanceManagers nc) s) !! k = Some im.
Proof.
  intros Hk Hnot Hc. rewrite exec_syncInstanceManagers.
  destruct types_inv as (Hwf1 & _ & _ & _ & Hkeep1).
  specialize (Hkeep1 k im Hk Hnot).
  destruct (outcome types s) as [ts|e] eqn:Hts; [|done].
  by apply phases_keep.
Qed.

(** A sync that returns without error leaves a default manager of every
    needed type, and has asked for one where there was none. *)
Lemma syncInstanceManagers_default imType :
  outcome (syncInstanceManagers nc) s = Ok tt → needed node imType →
  has_default (node_Name node) image imType (exec (syncInstanceManagers nc) s)
  ∧ ((∀ k im, st_ims s !! k = Some im → of_type (node_Name node) imType im →
              imspec_Image (im_Spec im) ≠ image) →
     ∃ imName, GetInstanceManagerName imType = Ok imName
       ∧ sent (CallCreateInstanceManager (created_manager node imName image imType)) s
           (exec (syncInstanceManagers nc) s)).
Proof.
  rewrite exec_syncInstanceManagers, outcome_syncInstanceManagers.
  destruct types_inv as (Hwf1 & _ & Hcalls1 & Hlist1 & _).
  destruct (outcome types s) as [ts|e] eqn:Hts; [|done].
  destruct (needed_types ts Hts) as (Hnd & Hneed & _).
  intros Hok Hn. split.
  - apply phases_default; [done | done | by apply Hneed].
  - intros Hnone.
    destruct (phases_create nc node image ts (exec types s) imType Hwf1 Hnd Hok)
      as (imName & Hname & Hsent).
    { by apply Hneed. }
    { intros k im Hk Hty.
      assert (Hl : listing (node_Name node) imType (st_ims (exec types s)) !! k = Some im)
        by (by apply listing_lookup).
      rewrite (Hlist1 imType Hn) in Hl. apply listing_lookup in Hl as [Hk0 _].
      by apply (Hnone k). }
    exists imName. split; [done|].
    apply (sent_from _ s _ _ (calls_sat_grow _ _ _ Hcalls1) Hsent).
Qed.

(** On a node without disks, a sync that returns without error has sent
    a delete request for every replica manager, and the replica
    managers that are left are being deleted and held by a finalizer. *)
Lemma syncInstanceManagers_replicas :
  no_disks node → outcome (syncInstanceManagers nc) s = Ok tt →
  let s' := exec (syncInstanceManagers nc) s in
  (∀ k im, st_ims s !! k = Some im →
     of_type (node_Name node) InstanceManagerTypeReplica im →
     sent (CallDeleteInstanceManager k) s s')
  ∧ (∀ k im, st_ims s' !! k = Some im →
       of_type (node_Name node) InstanceManagerTypeReplica im →
       is_Some (st_ims s !! k) ∧ marked_deleted im).
Proof.
  intros Hd. rewrite exec_syncInstanceManagers, outcome_syncInstanceManagers.
  destruct types_inv as (Hwf1 & _ & _ & _ & _).
  destruct (types_phase_inv nc node s Hd Hwf) as [_ Hnew].
  destruct (outcome types s) as [ts|e] eqn:Hts; [|done].
  destruct (needed_types ts Hts) as (Hnd & Hneed & Hnotin).
  destruct (types_all nc node s ts Hd Hwf Hts) as [_ Hall].
  intros Hok. simpl. split.
  - intros k im Hk Hty.
    destruct (Hall k im) as [Hsent _]; [by apply listing_lookup|].
    apply (sent_grow _ _ _ _ Hsent).
    by destruct (phases_frame nc node image ts _ Hwf1) as (_ & _ & Hgrow).
  - intros k im Hk Hty.
    assert (Hl : listing (node_Name node) InstanceManagerTypeReplica
                   (st_ims (exec (forM_ ts phase) (exec types s))) !! k = Some im)
      by (by apply listing_lookup).
    rewrite phases_listing in Hl; [|done|by apply Hnotin].
    apply listing_lookup in Hl as [Hk1 _].
    destruct (Hnew k im Hk1 Hty) as [im0 Hl0]. split.
    + apply listing_lookup in Hl0 as [Hk0 _]. by exists im0.
    + destruct (Hall k im0 Hl0) as [_ Hgoing]. by apply Hgoing.
Qed.

(** The managers of a needed type with the default image after the sync
    were there before it, but for the one the sync created. *)
Lemma syncInstanceManagers_defaults imType k im :
  needed node imType →
  st_ims (exec (syncInstanceManagers nc) s) !! k = Some im →
  of_type (node_Name node) imType im → imspec_Image (im_Spec im) = image →
  st_ims s !! k = Some im ∨ created_default node image imType (st_ims s) k im.
Proof.
  intros Hn. rewrite exec_syncInstanceManagers.
  destruct types_inv as (Hwf1 & _ & _ & Hlist1 & _).
  assert (Hback : ∀ k im, st_ims (exec types s) !! k = Some im →
            of_type (node_Name node) imType im → st_ims s !! k = Some im).
  { intros k' im' Hk' Hty'.
    assert (Hl : listing (node_Name node) imType (st_ims (exec types s)) !! k' = Some im')
      by (by apply listing_lookup).
    rewrite (Hlist1 imType Hn) in Hl. by apply listing_lookup in Hl as [? _]. }
  destruct (outcome types s) as [ts|e] eqn:Hts; [|by left; apply Hback].
  destruct (needed_types ts Hts) as (Hnd & _ & _).
  intros Hk Hty Himg.
  destruct (phases_defaults nc node image ts _ imType k im Hwf1 Hnd Hk Hty Himg)
    as [Hk1|[_ (Hnone & Hname & ->)]]; [left; by apply Hback|].
  right. split; [|done]. intros k' im' Hk' Hty' Himg'.
  apply (Hnone k' im'); [|done..].
  assert (Hl : listing (node_Name node) imType (st_ims s) !! k' = Some im')
    by (by apply listing_lookup).
  rewrite <- (Hlist1 imType Hn) in Hl. by apply listing_lookup in Hl as [? _].
Qed.

End Sync.

(** *** What the sync of instance managers guarantees *)

(** C7 (amended). A delete request of the sync of instance managers is
    for a manager of the store that is a replica manager of a node
    without disks, or whose image is not the default image and that is
    not running, or is being deleted, or has no running or starting
    instance. A manager with the default image, and a manager that is
    running, not being deleted and has a running or starting instance,
    stays as it is and no delete request is sent for it, unless it is a
    replica manager of a node without disks. *)
Theorem syncInstanceManagers_cleanup nc s image :
  store_wf (st_ims s) →
  GetSettingValueExisted (nc_ds nc) SettingNameDefaultInstanceManagerImage = Ok image →
  let node := st_node s in
  let s' := exec (syncInstanceManagers nc) s in
  (∀ name, sent (CallDeleteInstanceManager name) s s' →
     ∃ im, st_ims s !! name = Some im
       ∧ ((no_disks node ∧ of_type (node_Name node) InstanceManagerTypeReplica im)
          ∨ (imspec_Image (im_Spec im) ≠ image
             ∧ (imstat_CurrentState (im_Status im) ≠ InstanceManagerStateRunning
                ∨ im_DeletionTimestamp im ≠ None
                ∨ ¬ has_live_instance im))))
  ∧ (∀ name im, st_ims s !! name = Some im →
       ¬ (no_disks node ∧ of_type (node_Name node) InstanceManagerTypeReplica im) →
       imspec_Image (im_Spec im) = image ∨ in_use im →
       st_ims s' !! name = Some im
       ∧ ¬ sent (CallDeleteInstanceManager name) s s').
Proof.
  intros Hwf Himage node s'.
  destruct (syncInstanceManagers_inv nc s image Hwf Himage) as (_ & _ & Hcalls).
  fold node s' in Hcalls.
  assert (Hdel : ∀ name, sent (CallDeleteInstanceManager name) s s' →
            ∃ im, st_ims s !! name = Some im
              ∧ ((no_disks node ∧ of_type (node_Name node) InstanceManagerTypeReplica im)
                 ∨ cleanupRequired image im = true)).
  { intros name Hsent. apply (sent_calls_sat _ _ _ _ Hcalls) in Hsent.
    destruct Hsent as (im & Hk & [Heager|(T & _ & _ & Hc)]); exists im; auto. }
  split.
  - intros name Hsent. destruct (Hdel name Hsent) as (im & Hk & [Heager|Hc]).
    + exists im. auto.
    + exists im. split; [done|]. right. by apply cleanupRequired_spec.
  - intros name im Hk Hnot Hkeep. apply cleanupRequired_false in Hkeep. split.
    + by apply (syncInstanceManagers_keep nc s image).
    + intros Hsent. destruct (Hdel name Hsent) as (im' & Hk' & [Heager|Hc]).
      * apply Hnot. congruence.
      * congruence.
Qed.

(** C8 (amended). After a sync of instance managers that returns without
    error, every type needed on the node (engine always, replica when
    the node has a disk) has at least one manager with the default
    image, and exactly one when the store held at most one before: the
    sync adds none where one was. When no manager of the type with the
    default image was in the store, the sync has sent a create request
    for one, named by [GetInstanceManagerName] of the type, with the
    labels of node, image and type, the node as owner and the finalizer
    of the data store. Every create request of a sync is of this
    form. *)
Theorem syncInstanceManagers_default_manager nc s image imType :
  store_wf (st_ims s) →
  GetSettingValueExisted (nc_ds nc) SettingNameDefaultInstanceManagerImage = Ok image →
  let node := st_node s in
  let s' := exec (syncInstanceManagers nc) s in
  let none_observed T :=
    ∀ k im, st_ims s !! k = Some im → of_type (node_Name node) T im →
            imspec_Image (im_Spec im) ≠ image in
  (outcome (syncInstanceManagers nc) s = Ok tt → needed node imType →
     has_default (node_Name node) image imType s'
     ∧ (none_observed imType →
        ∃ imName, GetInstanceManagerName imType = Ok imName
          ∧ sent (CallCreateInstanceManager (created_manager node imName image imType)) s s'))
  ∧ (needed node imType →
     at_most_one_default (node_Name node) image imType (st_ims s) →
     at_most_one_default (node_Name node) image imType (st_ims s'))
  ∧ (∀ im, sent (CallCreateInstanceManager im) s s' →
       ∃ T imName, needed node T ∧ none_observed T
         ∧ GetInstanceManagerName T = Ok imName
         ∧ im = created_manager node imName image T).
Proof.
  intros Hwf Himage node s' none_observed. split; [|split].
  - intros Hok Hneed.
    by apply (syncInstanceManagers_default nc s image Hwf Himage imType).
  - intros Hneed Hone k1 im1 k2 im2 Hk1 Hty1 Himg1 Hk2 Hty2 Himg2.
    destruct (syncInstanceManagers_defaults nc s image Hwf Himage imType k1 im1
                Hneed Hk1 Hty1 Himg1) as [Hold1|(Hnone1 & Hname1 & _)];
      destruct (syncInstanceManagers_defaults nc s image Hwf Himage imType k2 im2
                  Hneed Hk2 Hty2 Himg2) as [Hold2|(Hnone2 & Hname2 & _)].
    + by apply (Hone k1 im1 k2 im2).
    + by destruct (Hnone2 k1 im1).
    + by destruct (Hnone1 k2 im2).
    + congruence.
  - intros im Hsent.
    destruct (syncInstanceManagers_inv nc s image Hwf Himage) as (_ & _ & Hcalls).
    by apply (sent_calls_sat _ _ _ _ Hcalls) in Hsent.
Qed.

(** C9 (amended). On a node without disks the sync of instance managers
    creates no replica manager: every create request is for an engine
    manager. When the sync returns without error, it has sent a delete
    request for every replica manager of the node, whatever its state
    and instances, and every replica manager of the node that is still
    in the store was there before and is being deleted, held by a
    finalizer. *)
Theorem syncInstanceManagers_no_disks nc s image :
  store_wf (st_ims s) →
  GetSettingValueExisted (nc_ds nc) SettingNameDefaultInstanceManagerImage = Ok image →
  no_disks (st_node s) →
  let node := st_node s in
  let s' := exec (syncInstanceManagers nc) s in
  (∀ im, sent (CallCreateInstanceManager im) s s' →
     imspec_Type (im_Spec im) = InstanceManagerTypeEngine
     ∧ of_type (node_Name node) InstanceManagerTypeEngine im)
  ∧ (outcome (syncInstanceManagers nc) s = Ok tt →
     (∀ k im, st_ims s !! k = Some im →
        of_type (node_Name node) InstanceManagerTypeReplica im →
        sent (CallDeleteInstanceManager k) s s')
     ∧ (∀ k im, st_ims s' !! k = Some im →
          of_type (node_Name node) InstanceManagerTypeReplica im →
          is_Some (st_ims s !! k) ∧ marked_deleted im)).
Proof.
  intros Hwf Himage Hd node s'. split.
  - intros im Hsent.
    destruct (syncInstanceManagers_inv nc s image Hwf Himage) as (_ & _ & Hcalls).
    apply (sent_calls_sat _ _ _ _ Hcalls) in Hsent.
    destruct Hsent as (T & imName & [->|[_ ?]] & _ & _ & ->); [|done].
    split; [done | apply of_type_created].
  - intros Hok. by apply (syncInstanceManagers_replicas nc s image Hwf Himage).
Qed.

End SyncPhases.
(** ** The reconcile of a node *)

Section NodeProperties.
Context `{Externals} {FS : Type}.
Implicit Types s : State FS.
Implicit Types nc : @NodeController FS.
Implicit Types ds : DataStore.

Lemma node_meta_Name n n' : node_meta n' = node_meta n → node_Name n' = node_Name n.
Proof. unfold node_meta. intros Hm. by inversion Hm. Qed.

Lemma node_meta_Spec n n' : node_meta n' = node_meta n → node_Spec n' = node_Spec n.
Proof. unfold node_meta. intros Hm. by inversion Hm. Qed.

(** *** The sections every controller runs *)

Lemma shared_frame_refl s : shared_frame s s.
Proof. by split. Qed.

Lemma shared_frame_trans s0 s1 s2 :
  shared_frame s0 s1 → shared_frame s1 s2 → shared_frame s0 s2.
Proof.
  intros [Hm1 Hd1 Hc1 Hw1] [Hm2 Hd2 Hc2 Hw2]. split.
  - by rewrite Hm2.
  - by rewrite Hd2.
  - intros t Hr Hs. by rewrite Hc2, Hc1.
  - by rewrite Hw2.
Qed.

Lemma stable_shared_frame_step {A} (m : M FS A) :
  (∀ s, shared_frame s (exec m s)) → ∀ s0, stable (shared_frame s0) m.
Proof. intros Hm s0 s Hs. by apply (shared_frame_trans s0 s). Qed.

Lemma setNodeCondition_run ty v reason message eventtype s :
  ∃ ev, setNodeCondition ty v reason message eventtype s
        = (State_with_node (State_with_events s ev)
             (Node_with_Status (st_node s)
                (NodeStatus_with_Conditions (node_Status (st_node s))
                   (SetCondition (st_now s) (nstat_Conditions (node_Status (st_node s)))
                      ty v reason message))), Ok tt).
Proof.
  unfold setNodeCondition. rewrite bind_get_node.
  destruct (SetConditionAndRecord_run (nstat_Conditions (node_Status (st_node s)))
              ty v reason message eventtype s) as [ev Hrun].
  exists ev. unfold bind. by rewrite Hrun.
Qed.

Lemma condition_of_SetCondition n now ty v reason message t :
  ty ≠ t →
  condition_of
    (Node_with_Status n
       (NodeStatus_with_Conditions (node_Status n)
          (SetCondition now (nstat_Conditions (node_Status n)) ty v reason message))) t
  = condition_of n t.
Proof.
  intros Hne. unfold condition_of, SetCondition. simpl.
  rewrite lookup_insert_ne by done.
  destruct (nstat_Conditions (node_Status n)); simpl; [done | by rewrite lookup_empty].
Qed.

Lemma shared_frame_setNodeCondition ty v reason message eventtype s :
  ty = NodeConditionTypeReady ∨ ty = NodeConditionTypeSchedulable →
  shared_frame s (exec (setNodeCondition ty v reason message eventtype) s).
Proof.
  intros Hty. unfold exec.
  destruct (setNodeCondition_run ty v reason message eventtype s) as [ev ->]. simpl.
  split; simpl; try done.
  intros t Hr Hs. apply condition_of_SetCondition. by destruct Hty as [-> | ->].
Qed.

Lemma shared_frame_record_event e s : shared_frame s (exec (record_event e) s).
Proof. by split. Qed.

Lemma shared_frame_RegionZone rz s :
  shared_frame s
    (exec (modify_status (λ st, NodeStatus_with_RegionZone st rz)) s).
Proof. by split. Qed.

Lemma stable_shared_frame_setNodeCondition s0 ty v reason message eventtype :
  ty = NodeConditionTypeReady ∨ ty = NodeConditionTypeSchedulable →
  stable (shared_frame s0) (setNodeCondition ty v reason message eventtype).
Proof.
  intros Hty. apply stable_shared_frame_step. intros s.
  by apply shared_frame_setNodeCondition.
Qed.

Lemma stable_shared_frame_managerPod s0 managerPods :
  stable (shared_frame s0) (syncNode_managerPod managerPods).
Proof.
  unfold syncNode_managerPod. apply stable_bind; [apply stable_get_node|]. intros node.
  destruct (find _ managerPods) as [pod|].
  - destruct (find _ (pod_Conditions pod)) as [podCondition|]; [|apply stable_ret].
    apply stable_if; apply stable_shared_frame_setNodeCondition; by left.
  - apply stable_shared_frame_setNodeCondition. by left.
Qed.

Lemma stable_shared_frame_kubeCondition s0 node con :
  stable (shared_frame s0) (syncNode_kubeCondition node con).
Proof.
  unfold syncNode_kubeCondition.
  repeat (apply stable_if);
    try apply stable_ret;
    try (apply stable_shared_frame_setNodeCondition; by left).
  apply stable_shared_frame_step. intros s. apply shared_frame_record_event.
Qed.

Lemma stable_shared_frame_kubeNode s0 nc name :
  stable (shared_frame s0) (syncNode_kubeNode nc name).
Proof.
  unfold syncNode_kubeNode. apply stable_bind; [apply stable_get_node|]. intros node.
  destruct (ds_GetKubernetesNode (nc_ds nc) name) as [kubeNode|err].
  - apply stable_bind.
    { apply stable_forM_. intros con _. apply stable_shared_frame_kubeCondition. }
    intros _. apply stable_bind; [apply stable_lift|]. intros disable.
    apply stable_bind.
    { apply stable_if; apply stable_shared_frame_setNodeCondition; by right. }
    intros _. apply stable_bind; [apply stable_lift|]. intros labels.
    apply stable_shared_frame_step. intros s. apply shared_frame_RegionZone.
  - apply stable_if; [|apply stable_fail].
    apply stable_shared_frame_setNodeCondition. by left.
Qed.

Lemma shared_frame_shared nc name s :
  shared_frame s (exec (syncNode_shared nc name) s).
Proof.
  apply (stable_bind (shared_frame s)); [apply stable_lift | | apply shared_frame_refl].
  intros managerPods. apply stable_bind; [apply stable_shared_frame_managerPod|].
  intros _. apply stable_shared_frame_kubeNode.
Qed.

Lemma shared_frame_reconcile_rest s s' :
  shared_frame s s' → reconcile_rest s' = reconcile_rest s.
Proof.
  intros [Hm _ _ Hw]. unfold reconcile_rest. rewrite Hm.
  inversion Hw as [[Hq Hi Hc Hf Hn]]. by rewrite Hq, Hc.
Qed.

(** *** The sections of the owner *)

Lemma syncNode_reconcile_run nc name s :
  syncNode_reconcile nc name s
  = match outcome (syncNode_shared nc name) s with
    | Ok _ =>
        let s1 := exec (syncNode_shared nc name) s in
        if decide (nc_controllerID nc ≠ node_Name (st_node s1)) then (s1, Ok tt)
        else
          match ds_ListManagerPods (nc_ds nc) with
          | Ok managerPods => syncNode_owner nc managerPods s1
          | Err e => (s1, Err e)
          end
    | Err e => (exec (syncNode_shared nc name) s, Err e)
    end.
Proof.
  unfold syncNode_reconcile, syncNode_shared, outcome, exec.
  destruct (ds_ListManagerPods (nc_ds nc)) as [managerPods|e]; [|done].
  rewrite !bind_lift_Ok. rewrite (bind_run (syncNode_managerPod managerPods)).
  rewrite (bind_run (syncNode_managerPod managerPods) (λ _, syncNode_kubeNode nc name)).
  destruct (outcome (syncNode_managerPod managerPods) s) as [[]|e]; [|done].
  rewrite bind_run.
  destruct (outcome (syncNode_kubeNode nc name) _) as [[]|e] eqn:Hk.
  - rewrite (run_eta (syncNode_kubeNode nc name)), Hk. simpl.
    rewrite bind_get_node. by case_decide.
  - by rewrite (run_eta (syncNode_kubeNode nc name)), Hk.
Qed.

Lemma stable_modify_status I (f : NodeStatus → NodeStatus) :
  (∀ s, I s →
        I (State_with_node s (Node_with_Status (st_node s) (f (node_Status (st_node s)))))) →
  stable I (modify_status f : M FS unit).
Proof. intros Hf. by apply stable_modify. Qed.

Lemma stable_syncNodeStatus (I : State FS → Prop) pod :
  (∀ s c, I s →
     I (State_with_node s
          (Node_with_Status (st_node s)
             (NodeStatus_with_Conditions (node_Status (st_node s)) c)))) →
  stable I (syncNodeStatus pod).
Proof.
  intros HI. unfold syncNodeStatus. destruct (find _ _) as [mount|]; [|apply stable_ret].
  apply stable_bind; [apply stable_get|]. intros st.
  apply stable_if; apply stable_modify_status; intros s Hs; apply HI; done.
Qed.

(** The sync of instance managers changes the store and sends requests
    that are not status updates. *)
Lemma stable_DeleteInstanceManager (I : State FS → Prop) ds name :
  (∀ s ims, I s → I (State_with_ims s ims)) →
  (∀ s c, is_CallUpdateNodeStatus c = false → I s →
          I (State_with_calls s (c :: st_calls s))) →
  stable I (DeleteInstanceManager ds name).
Proof.
  intros Hims Hcalls s Hs. unfold exec. rewrite DeleteInstanceManager_run.
  assert (Hs1 : I (State_with_calls s (CallDeleteInstanceManager name :: st_calls s))).
  { by apply Hcalls. }
  destruct (ds_api_fault ds _) as [err|]; [done|].
  destruct (st_ims s !! name) as [im|]; [|done]. simpl. by apply Hims.
Qed.

Lemma stable_CreateInstanceManager (I : State FS → Prop) ds im0 :
  (∀ s ims, I s → I (State_with_ims s ims)) →
  (∀ s c, is_CallUpdateNodeStatus c = false → I s →
          I (State_with_calls s (c :: st_calls s))) →
  stable I (CreateInstanceManager ds im0).
Proof.
  intros Hims Hcalls s Hs. unfold exec. rewrite CreateInstanceManager_run.
  match goal with
  | |- context [CallCreateInstanceManager ?x] =>
      assert (Hs1 : I (State_with_calls s (CallCreateInstanceManager x :: st_calls s)))
        by (by apply Hcalls);
      destruct (ds_api_fault ds (CallCreateInstanceManager x)) as [err|]; [done|];
      destruct (st_ims s !! im_Name x) as [old|]; [done|]
  end.
  simpl. by apply Hims.
Qed.

Lemma stable_ListInstanceManagersByNode (I : State FS → Prop) ds node imType :
  stable I (ListInstanceManagersByNode ds node imType).
Proof.
  unfold ListInstanceManagersByNode, ListInstanceManagersBySelector.
  destruct (ds_imLister_fault ds _); [apply stable_fail|].
  apply stable_bind; [apply stable_get|]. intros st. apply stable_ret.
Qed.

Lemma stable_syncInstanceManagers (I : State FS → Prop) nc :
  (∀ s ims, I s → I (State_with_ims s ims)) →
  (∀ s c, is_CallUpdateNodeStatus c = false → I s →
          I (State_with_calls s (c :: st_calls s))) →
  stable I (syncInstanceManagers nc).
Proof.
  intros Hims Hcalls. unfold syncInstanceManagers.
  apply stable_bind; [apply stable_get_node|]. intros node.
  apply stable_bind; [apply stable_lift|]. intros image.
  apply stable_bind.
  { unfold syncInstanceManagers_types. apply stable_decide; [|apply stable_ret].
    apply stable_bind; [apply stable_ListInstanceManagersByNode|]. intros rmMap.
    apply stable_bind; [|intros; apply stable_ret].
    apply stable_forM_. intros rm _. by apply stable_DeleteInstanceManager. }
  intros imTypes. apply stable_forM_. intros imType _.
  unfold syncInstanceManagers_type.
  apply stable_bind; [apply stable_ListInstanceManagersByNode|]. intros imMap.
  apply stable_bind.
  { apply stable_foldM. intros b im _. unfold syncInstanceManagers_one.
    apply stable_decide; [apply stable_fail|].
    apply stable_bind; [|intros; apply stable_ret].
    apply stable_if; [by apply stable_DeleteInstanceManager | apply stable_ret]. }
  intros created. apply stable_if; [|apply stable_ret].
  apply stable_bind; [apply stable_lift|]. intros imName.
  apply stable_bind; [|intros; apply stable_ret].
  by apply stable_CreateInstanceManager.
Qed.

Lemma stable_reconcile_rest_syncDiskStatus nc r :
  stable (λ s, reconcile_rest s = r) (syncDiskStatus nc).
Proof.
  intros s Hs. destruct (syncDiskStatus_post nc s) as (Hm & _ & Hw & _).
  unfold reconcile_rest in *. rewrite Hm. unfold world_rest in Hw.
  inversion Hw as [[Hq Hi Hc Hn]]. by rewrite Hq, Hc.
Qed.

Lemma stable_reconcile_rest_owner nc managerPods r :
  stable (λ s, reconcile_rest s = r) (syncNode_owner nc managerPods).
Proof.
  unfold syncNode_owner. apply stable_bind; [apply stable_get_node|]. intros node.
  apply stable_bind; [apply stable_reconcile_rest_syncDiskStatus|]. intros _.
  apply stable_bind.
  - apply stable_forM_. intros pod _. apply stable_if; [|apply stable_ret].
    apply stable_syncNodeStatus. by intros s c Hs.
  - intros _. apply stable_syncInstanceManagers.
    + by intros s ims Hs.
    + intros s c Hc Hs. unfold reconcile_rest in *. simpl.
      rewrite filter_cons, Hc. by rewrite <- Hs.
Qed.

(** No section of the reconcile touches the metadata and the spec of the
    node, the queue, or sends a status update. *)
Lemma reconcile_rest_reconcile nc name s :
  reconcile_rest (exec (syncNode_reconcile nc name) s) = reconcile_rest s.
Proof.
  unfold exec. rewrite syncNode_reconcile_run.
  pose proof (shared_frame_reconcile_rest _ _ (shared_frame_shared nc name s)) as Hshared.
  destruct (outcome (syncNode_shared nc name) s) as [[]|e]; [|done]. simpl.
  case_decide; [done|].
  destruct (ds_ListManagerPods (nc_ds nc)) as [managerPods|e]; [|done].
  by apply (stable_reconcile_rest_owner nc managerPods (reconcile_rest s)).
Qed.

Lemma stable_disk_rest_rest nc managerPods node r :
  stable (λ s, disk_rest s = r)
    (forM_ managerPods
       (λ pod, if bool_decide (pod_NodeName pod = node_Name node) then syncNodeStatus pod
               else ret tt) ;;
     syncInstanceManagers nc).
Proof.
  apply stable_bind.
  - apply stable_forM_. intros pod _. apply stable_if; [|apply stable_ret].
    apply stable_syncNodeStatus. by intros s c Hs.
  - intros _. apply stable_syncInstanceManagers.
    + by intros s ims Hs.
    + by intros s c Hc Hs.
Qed.

(** A reconcile of the owner that returns without error leaves the
    status of the disks as the sync of the disks made it, over the spec
    the node came with. *)
Lemma reconcile_owner_disks nc name s :
  nc_controllerID nc = node_Name (st_node s) →
  outcome (syncNode_reconcile nc name) s = Ok tt →
  let s' := exec (syncNode_reconcile nc name) s in
  node_meta (st_node s') = node_meta (st_node s)
  ∧ ∃ m', nstat_DiskStatus (node_Status (st_node s')) = Some m'
      ∧ dom m' = dom (nspec_Disks (node_Spec (st_node s)))
      ∧ map_Forall (λ _ d, nonnil d) m'.
Proof.
  intros Howner. unfold exec, outcome. rewrite syncNode_reconcile_run.
  destruct (shared_frame_shared nc name s) as [Hmeta _ _ _].
  destruct (outcome (syncNode_shared nc name) s) as [[]|e]; [|done]. simpl.
  set (s1 := exec (syncNode_shared nc name) s) in *.
  assert (Hname : node_Name (st_node s1) = node_Name (st_node s)).
  { by apply node_meta_Name. }
  rewrite decide_False by (rewrite Hname; by intros []).
  destruct (ds_ListManagerPods (nc_ds nc)) as [managerPods|e]; [|done].
  intros _. unfold syncNode_owner. rewrite bind_get_node.
  change ((bind (syncDiskStatus nc) ?k s1).1) with (exec (bind (syncDiskStatus nc) k) s1).
  rewrite exec_bind.
  destruct (syncDiskStatus_post nc s1) as (Hm2 & _ & _ & m' & Hd & Hdom & Hnn).
  set (s2 := exec (syncDiskStatus nc) s1) in *.
  assert (Hrest : ∀ s3, disk_rest s3 = disk_rest s2 →
            node_meta (st_node s3) = node_meta (st_node s)
            ∧ ∃ m', nstat_DiskStatus (node_Status (st_node s3)) = Some m'
                ∧ dom m' = dom (nspec_Disks (node_Spec (st_node s)))
                ∧ map_Forall (λ _ d, nonnil d) m').
  { intros s3 Hs3. unfold disk_rest in Hs3.
    apply pair_equal_spec in Hs3 as [Hm3 Hd3].
    split; [by rewrite Hm3, Hm2|]. exists m'. split; [by rewrite Hd3|]. split; [|done].
    by rewrite Hdom, (node_meta_Spec _ _ Hmeta). }
  destruct (outcome (syncDiskStatus nc) s1) as [[]|e]; [|by apply Hrest].
  apply Hrest. by apply (stable_disk_rest_rest nc managerPods (st_node s1) (disk_rest s2)).
Qed.

(** *** The deferred writeback *)

Lemma syncNode_inner_run nc key name node st :
  reconciles nc key name node →
  syncNode_inner nc key st
  = syncNode_writeback nc node
      (result_err (outcome (syncNode_reconcile nc name) (State_with_node st node)))
      (exec (syncNode_reconcile nc name) (State_with_node st node)).
Proof.
  intros (Hkey & Hget & Hts). unfold syncNode_inner. rewrite Hkey.
  rewrite decide_False by (by intros []). rewrite Hget, Hts.
  rewrite bool_decide_eq_false_2 by (by intros []).
  by rewrite (run_eta (syncNode_reconcile nc name)).
Qed.

Lemma syncNode_writeback_run nc existingNode err s :
  let due := bool_decide (err = None) && status_changed existingNode s in
  let s1 := if due then State_with_calls s (CallUpdateNodeStatus (st_node s) :: st_calls s)
            else s in
  let err1 := if due then ds_api_fault (nc_ds nc) (CallUpdateNodeStatus (st_node s))
              else err in
  syncNode_writeback nc existingNode err s
  = if apierrors_IsConflict (errors_Cause <$> err1)
    then (State_with_queue s1 (st_queue s1 ++ [KeyFunc (st_node s)]), None)
    else (s1, err1).
Proof.
  intros due s1 err1. unfold syncNode_writeback. unfold due, s1, err1, status_changed.
  destruct (bool_decide (err = None) && _); [|done].
  unfold UpdateNodeStatus, send. rewrite bind_modify.
  by destruct (ds_api_fault (nc_ds nc) _).
Qed.

Lemma KeyFunc_meta n n' : node_meta n' = node_meta n → KeyFunc n' = KeyFunc n.
Proof. unfold node_meta, KeyFunc. intros Hm. inversion Hm as [[Hname Hns]]. by rewrite Hname, Hns. Qed.

(** *** What the reconcile guarantees *)

(** C1. After a reconcile of the owning controller whose sections
    return without error, the keys of [Status.DiskStatus] are the keys
    of [Spec.Disks]: the map is not nil, every disk of the spec has an
    entry, no other entry is left, and no entry has a nil [Conditions]
    or [ScheduledReplica] map; the spec is the one the node came
    with. *)
Theorem syncNode_disk_keys nc key name node st :
  reconciles nc key name node →
  nc_controllerID nc = node_Name node →
  outcome (syncNode_reconcile nc name) (State_with_node st node) = Ok tt →
  let st' := (syncNode nc key st).1 in
  node_Spec (st_node st') = node_Spec node
  ∧ ∃ m', nstat_DiskStatus (node_Status (st_node st')) = Some m'
      ∧ dom m' = dom (nspec_Disks (node_Spec node))
      ∧ map_Forall (λ _ d, nonnil d) m'.
Proof.
  intros Hrec Howner Hok st'.
  destruct (reconcile_owner_disks nc name (State_with_node st node) Howner Hok)
    as (Hmeta & m' & Hd & Hdom & Hnn).
  assert (Hnode : st_node st' = st_node (exec (syncNode_reconcile nc name)
                                           (State_with_node st node))).
  { unfold st', syncNode. rewrite (syncNode_inner_run nc key name node st Hrec).
    rewrite syncNode_writeback_run.
    destruct (apierrors_IsConflict _); simpl; by destruct (_ && _). }
  rewrite Hnode. split; [|by exists m'].
  by apply (node_meta_Spec _ _ Hmeta).
Qed.

(** C5. For a node that is not being deleted, the status updates sent
    by [syncNode] are one update of the node, sent when the sections of
    the reconcile returned no error and the status is not the one of the
    snapshot, and none otherwise. When the error of the write, or else
    of the sections, is a conflict, [syncNode] puts the key of the node
    on the queue again and returns nil; otherwise the queue is left
    alone and the error is returned, wrapped. *)
Theorem syncNode_writeback_conflict nc key name node st :
  reconciles nc key name node →
  let st0 := State_with_node st node in
  let st1 := exec (syncNode_reconcile nc name) st0 in
  let r := result_err (outcome (syncNode_reconcile nc name) st0) in
  let due := bool_decide (r = None) && status_changed node st1 in
  let err := if due then ds_api_fault (nc_ds nc) (CallUpdateNodeStatus (st_node st1))
             else r in
  let st' := (syncNode nc key st).1 in
  let res := (syncNode nc key st).2 in
  filter is_CallUpdateNodeStatus (st_calls st')
  = (if due then [CallUpdateNodeStatus (st_node st1)] else [])
    ++ filter is_CallUpdateNodeStatus (st_calls st)
  ∧ (if apierrors_IsConflict (errors_Cause <$> err)
     then res = None ∧ st_queue st' = st_queue st ++ [KeyFunc node]
     else res = errors_Wrapf err (Sprintf "fail to sync node for %v" [FStr key])
          ∧ st_queue st' = st_queue st).
Proof.
  intros Hrec st0 st1 r due err st' res.
  pose proof (reconcile_rest_reconcile nc name st0) as Hrest. fold st1 in Hrest.
  unfold reconcile_rest in Hrest.
  apply pair_equal_spec in Hrest as [Hrest Hcalls].
  apply pair_equal_spec in Hrest as [Hmeta Hqueue]. simpl in Hmeta, Hqueue, Hcalls.
  unfold st', res, syncNode. rewrite (syncNode_inner_run nc key name node st Hrec).
  fold st0 st1 r. rewrite syncNode_writeback_run. fold due err.
  rewrite (KeyFunc_meta _ _ Hmeta). subst err. clearbody due.
  destruct due; simpl.
  - destruct (apierrors_IsConflict _); simpl; rewrite filter_cons; simpl;
      by rewrite Hqueue, Hcalls.
  - destruct (apierrors_IsConflict _); simpl; by rewrite Hqueue, Hcalls.
Qed.

(** C6. On a node that the controller does not own, the reconcile is
    the sections every controller runs and nothing else: [syncNode]
    leaves [Status.DiskStatus], every condition but [Ready] and
    [Schedulable] (so [MountPropagation]), the instance managers, the
    state of the disk handlers, the metadata and the spec of the node as
    they were, and sends no request but the status update. *)
Theorem syncNode_not_owner nc key name node st :
  reconciles nc key name node →
  nc_controllerID nc ≠ node_Name node →
  let st0 := State_with_node st node in
  let st' := (syncNode nc key st).1 in
  syncNode_reconcile nc name st0 = syncNode_shared nc name st0
  ∧ nstat_DiskStatus (node_Status (st_node st')) = nstat_DiskStatus (node_Status node)
  ∧ (∀ t, t ≠ NodeConditionTypeReady → t ≠ NodeConditionTypeSchedulable →
          condition_of (st_node st') t = condition_of node t)
  ∧ node_meta (st_node st') = node_meta node
  ∧ st_ims st' = st_ims st
  ∧ st_fs st' = st_fs st
  ∧ filter (λ c, negb (is_CallUpdateNodeStatus c)) (st_calls st')
    = filter (λ c, negb (is_CallUpdateNodeStatus c)) (st_calls st).
Proof.
  intros Hrec Howner st0 st'.
  destruct (shared_frame_shared nc name st0) as [Hmeta Hdisks Hconds Hworld].
  assert (Hname : node_Name (st_node (exec (syncNode_shared nc name) st0))
                  = node_Name node).
  { by apply (node_meta_Name _ _ Hmeta). }
  assert (Hrun : syncNode_reconcile nc name st0 = syncNode_shared nc name st0).
  { rewrite syncNode_reconcile_run, (run_eta (syncNode_shared nc name) st0).
    destruct (outcome (syncNode_shared nc name) st0) as [[]|e]; [|done]. simpl.
    rewrite decide_True; [done|]. by rewrite Hname. }
  split; [done|].
  unfold st', syncNode. rewrite (syncNode_inner_run nc key name node st Hrec).
  fold st0. rewrite syncNode_writeback_run. unfold exec, outcome. rewrite Hrun.
  change ((syncNode_shared nc name st0).1) with (exec (syncNode_shared nc name) st0).
  set (s1 := exec (syncNode_shared nc name) st0) in *.
  assert (Hw : st_ims s1 = st_ims st ∧ st_fs s1 = st_fs st ∧ st_calls s1 = st_calls st).
  { simpl in Hworld. by inversion Hworld. }
  destruct Hw as (Hims & Hfs & Hcalls).
  destruct (apierrors_IsConflict _); simpl;
    destruct (_ && _); simpl; rewrite ?Hcalls; done.
Qed.

End NodeProperties.
(** * More properties of the data store *)

Section StoreProperties.
Context `{Externals} {FS : Type}.
Implicit Types s : DataStore.

(** ** Replicas by disk *)

Lemma replicas_by_disk_lookup (l : list Replica) diskID :
  foldl (λ (replicaDiskMap : gmap string (list Replica)) replica,
           <[replica_DiskID replica :=
               default [] (replicaDiskMap !! replica_DiskID replica) ++ [replica]]>
             replicaDiskMap) ∅ l !! diskID
  = match filter (λ r, replica_DiskID r = diskID) l with
    | [] => None
    | l' => Some l'
    end.
Proof.
  induction l as [|x l IH] using rev_ind; [simpl; by rewrite lookup_empty|].
  rewrite foldl_app, filter_app. simpl.
  destruct (decide (replica_DiskID x = diskID)) as [<-|Hne].
  - rewrite lookup_insert_eq, IH, filter_cons_True by done. rewrite filter_nil.
    by destruct (filter _ l).
  - rewrite lookup_insert_ne, IH, filter_cons_False by done.
    by rewrite filter_nil, app_nil_r.
Qed.

(** X1. When [ListReplicasByNode] returns a map, the lister returned a
    list, and the map sends each disk to the replicas of the list on
    that disk, in the order of the list; a disk without replica has no
    entry. No replica of the list is lost or listed twice. *)
Theorem ListReplicasByNode_partition s name replicaDiskMap :
  ListReplicasByNode s name = Ok replicaDiskMap →
  ∃ replicaList,
    ds_rLister s name = Ok replicaList
    ∧ (∀ diskID,
         replicaDiskMap !! diskID
         = match filter (λ r, replica_DiskID r = diskID) replicaList with
           | [] => None
           | l => Some l
           end)
    ∧ (∀ r, r ∈ replicaList ↔
            ∃ l, replicaDiskMap !! replica_DiskID r = Some l ∧ r ∈ l).
Proof.
  unfold ListReplicasByNode. destruct (ds_rLister s name) as [replicaList|err]; [|done].
  intros [= <-]. exists replicaList. split; [done|]. split.
  - intros diskID. apply replicas_by_disk_lookup.
  - intros r. rewrite replicas_by_disk_lookup. split.
    + intros Hr.
      assert (Hin : r ∈ filter (λ r', replica_DiskID r' = replica_DiskID r) replicaList).
      { by apply list_elem_of_filter. }
      destruct (filter _ replicaList) as [|y l'] eqn:Hf; [by apply elem_of_nil in Hin|].
      by exists (y :: l').
    + intros (l & Hl & Hr).
      destruct (filter _ replicaList) as [|y l'] eqn:Hf; [done|].
      injection Hl as <-. rewrite <- Hf in Hr. by apply list_elem_of_filter in Hr as [_ ?].
Qed.

(** ** Settings *)

Lemma GetSetting_absent s sName definition err :
  SettingDefinitions !! sName = Some definition →
  ds_sLister s sName = Err err → ErrorIsNotFound err = true →
  GetSetting s sName = (Some (mkSetting sName (sd_Default definition)), None).
Proof.
  intros Hdef Hget Hnf. unfold GetSetting, getSettingRO. by rewrite Hdef, Hget, Hnf.
Qed.

Lemma GetSetting_present s sName definition x :
  SettingDefinitions !! sName = Some definition →
  ds_sLister s sName = Ok x →
  GetSetting s sName = (Some x, None).
Proof. intros Hdef Hget. unfold GetSetting, getSettingRO. by rewrite Hdef, Hget. Qed.

Lemma strconv_ParseInt_range v z :
  strconv_ParseInt v = Ok z → - 2 ^ 63 ≤ z < 2 ^ 63.
Proof.
  unfold strconv_ParseInt.
  destruct (match v with
            | String "-"%char r => (λ z, - z) <$> parse_magnitude r
            | String "+"%char r => parse_magnitude r
            | _ => parse_magnitude v
            end) as [z'|]; [|done].
  destruct (- 2 ^ 63 <=? z') eqn:Hlo; [|done].
  destruct (z' <? 2 ^ 63) eqn:Hhi; [|done]. simpl. intros [= <-].
  apply Z.leb_le in Hlo. apply Z.ltb_lt in Hhi. done.
Qed.

(** X2. The typed reads of a setting. [GetSettingAsInt] returns a value
    only for a name whose definition has the type int, and the value is
    the value of the setting read as a decimal 64-bit integer;
    [GetSettingAsBool] likewise for the type bool. For a setting that
    the cache does not hold, both read the default of the definition. *)
Theorem GetSettingAs_typed s settingName :
  (∀ value, GetSettingAsInt s settingName = Ok value →
     ∃ definition setting,
       SettingDefinitions !! settingName = Some definition
       ∧ sd_Type definition = SettingTypeInt
       ∧ GetSetting s settingName = (Some setting, None)
       ∧ strconv_ParseInt (setting_Value setting) = Ok value
       ∧ - 2 ^ 63 ≤ value < 2 ^ 63)
  ∧ (∀ value, GetSettingAsBool s settingName = Ok value →
       ∃ definition setting,
         SettingDefinitions !! settingName = Some definition
         ∧ sd_Type definition = SettingTypeBool
         ∧ GetSetting s settingName = (Some setting, None)
         ∧ strconv_ParseBool (setting_Value setting) = Ok value)
  ∧ (∀ definition err,
       SettingDefinitions !! settingName = Some definition →
       ds_sLister s settingName = Err err → ErrorIsNotFound err = true →
       (sd_Type definition = SettingTypeInt →
        GetSettingAsInt s settingName = strconv_ParseInt (sd_Default definition))
       ∧ (sd_Type definition = SettingTypeBool →
          GetSettingAsBool s settingName = strconv_ParseBool (sd_Default definition))).
Proof.
  split; [|split].
  - intros value. unfold GetSettingAsInt.
    destruct (SettingDefinitions !! settingName) as [definition|] eqn:Hdef; [|done].
    destruct (GetSetting s settingName) as [[setting|] [err|]] eqn:Hget; simpl; try done.
    destruct (sd_Type definition) eqn:Hty; try done.
    destruct (strconv_ParseInt (setting_Value setting)) as [z|e] eqn:Hparse; [|done].
    intros [= <-]. exists definition, setting. repeat split; try done;
      by apply (strconv_ParseInt_range (setting_Value setting)).
  - intros value. unfold GetSettingAsBool.
    destruct (SettingDefinitions !! settingName) as [definition|] eqn:Hdef; [|done].
    destruct (GetSetting s settingName) as [[setting|] [err|]] eqn:Hget; simpl; try done.
    destruct (sd_Type definition) eqn:Hty; try done.
    destruct (strconv_ParseBool (setting_Value setting)) as [b|e] eqn:Hparse; [|done].
    intros [= <-]. by exists definition, setting.
  - intros definition err Hdef Hget Hnf.
    pose proof (GetSetting_absent s settingName definition err Hdef Hget Hnf) as Habs.
    split; intros Hty.
    + unfold GetSettingAsInt. rewrite Hdef, Habs, Hty. simpl.
      by destruct (strconv_ParseInt (sd_Default definition)).
    + unfold GetSettingAsBool. rewrite Hdef, Habs, Hty. simpl.
      by destruct (strconv_ParseBool (sd_Default definition)).
Qed.

(** *** The list of all settings *)

Lemma listed_lookup (l : list Setting) sName :
  foldl (λ (itemMap : gmap string Setting) itemRO,
           if decide (is_Some (SettingDefinitions !! setting_Name itemRO))
           then <[setting_Name itemRO := itemRO]> itemMap
           else itemMap) ∅ l !! sName
  = if decide (is_Some (SettingDefinitions !! sName)) then cached l sName else None.
Proof.
  unfold cached. induction l as [|x l IH] using rev_ind.
  { simpl. rewrite lookup_empty. by case_decide. }
  rewrite foldl_app, filter_app. simpl.
  destruct (decide (setting_Name x = sName)) as [<-|Hne].
  - rewrite filter_cons_True, filter_nil, last_snoc by done.
    case_decide; [by rewrite lookup_insert_eq | done].
  - rewrite filter_cons_False, filter_nil, app_nil_r by done.
    destruct (decide (is_Some (SettingDefinitions !! setting_Name x)));
      [rewrite lookup_insert_ne by done|]; exact IH.
Qed.

Lemma filled_lookup (keys : list string) (m0 : gmap string Setting) sName :
  foldl (λ (itemMap : gmap string Setting) k,
           match SettingDefinitions !! k with
           | Some definition =>
               if decide (is_Some (itemMap !! k)) then itemMap
               else <[k := mkSetting k (sd_Default definition)]> itemMap
           | None => itemMap
           end) m0 keys !! sName
  = match m0 !! sName with
    | Some x => Some x
    | None =>
        if decide (sName ∈ keys)
        then (λ definition, mkSetting sName (sd_Default definition))
               <$> SettingDefinitions !! sName
        else None
    end.
Proof.
  revert m0. induction keys as [|k keys IH]; intros m0; simpl.
  { destruct (m0 !! sName); [done|].
    destruct (decide (sName ∈ [])) as [Hin%elem_of_nil|]; done. }
  rewrite IH. clear IH.
  destruct (SettingDefinitions !! k) as [definition|] eqn:Hdef.
  - destruct (decide (is_Some (m0 !! k))) as [Hk|Hk].
    + destruct (m0 !! sName) eqn:Hm; [done|].
      destruct (decide (sName = k)) as [->|Hne]; [rewrite Hm in Hk; by destruct Hk|].
      destruct (decide (sName ∈ keys)) as [Hin|Hin].
      * rewrite decide_True by (by right). done.
      * rewrite decide_False; [done|]. by intros [?|?]%elem_of_cons.
    + destruct (decide (sName = k)) as [->|Hne].
      * rewrite lookup_insert_eq.
        assert (m0 !! k = None) as -> by (by apply eq_None_not_Some).
        rewrite decide_True by left. by rewrite Hdef.
      * rewrite lookup_insert_ne by done. destruct (m0 !! sName); [done|].
        destruct (decide (sName ∈ keys)) as [Hin|Hin].
        -- rewrite decide_True by (by right). done.
        -- rewrite decide_False; [done|]. by intros [?|?]%elem_of_cons.
  - destruct (m0 !! sName); [done|].
    destruct (decide (sName = k)) as [->|Hne].
    + rewrite Hdef. simpl. by repeat case_decide.
    + destruct (decide (sName ∈ keys)) as [Hin|Hin].
      * rewrite decide_True by (by right). done.
      * rewrite decide_False; [done|]. by intros [?|?]%elem_of_cons.
Qed.

Lemma ListSettings_lookup ls l m sName :
  ls_sLister_List ls = Ok l → ListSettings ls = Ok m →
  m !! sName
  = (λ definition, default (mkSetting sName (sd_Default definition)) (cached l sName))
      <$> SettingDefinitions !! sName.
Proof.
  intros Hl. unfold ListSettings. rewrite Hl. intros [= <-].
  rewrite filled_lookup, listed_lookup.
  destruct (SettingDefinitions !! sName) as [definition|] eqn:Hdef; simpl.
  - destruct (cached l sName); [done|].
    rewrite decide_True; [done|]. apply range_keys_elem. by exists definition.
  - by case_decide.
Qed.

(** X3. [ListSettings] answers for exactly the names that have a
    definition: a listed setting without definition is dropped, a
    definition without listed setting gets a setting with its default
    value, and of several listed settings of one name the last one
    stays. Where the cache answers a [Get] as it answers the [List],
    the entry of a name is what [GetSetting] returns for it. *)
Theorem ListSettings_complete ls l m :
  ls_sLister_List ls = Ok l → ListSettings ls = Ok m →
  dom m = dom SettingDefinitions
  ∧ (∀ sName definition,
       SettingDefinitions !! sName = Some definition →
       m !! sName
       = Some (default (mkSetting sName (sd_Default definition)) (cached l sName)))
  ∧ (settings_coherent ls l →
     ∀ sName, is_Some (SettingDefinitions !! sName) →
              GetSetting (ls_ds ls) sName = (m !! sName, None)).
Proof.
  intros Hl Hm. split; [|split].
  - apply set_eq. intros sName. rewrite !elem_of_dom.
    rewrite (ListSettings_lookup ls l m sName Hl Hm).
    by rewrite fmap_is_Some.
  - intros sName definition Hdef.
    by rewrite (ListSettings_lookup ls l m sName Hl Hm), Hdef.
  - intros Hco sName [definition Hdef].
    rewrite (ListSettings_lookup ls l m sName Hl Hm), Hdef. simpl.
    specialize (Hco sName). destruct (cached l sName) as [x|]; simpl.
    + by apply (GetSetting_present _ _ definition).
    + destruct Hco as (err & Hget & Hnf). by apply (GetSetting_absent _ _ _ err).
Qed.

(** ** Resource versions *)

Lemma resourceVersionAtLeast_parsed curr min c m :
  strconv_ParseInt curr = Ok c → strconv_ParseInt min = Ok m →
  resourceVersionAtLeast curr min = bool_decide (m ≤ c).
Proof.
  intros Hc Hm. unfold resourceVersionAtLeast. rewrite Hc, Hm.
  case_decide as He; [|done]. destruct He as [-> | ->]; done.
Qed.

(** X4. [resourceVersionAtLeast] compares decimal versions as numbers
    and lets an empty version pass on either side. It is transitive
    through a version that is not empty, and it holds of a version and
    itself only if the version is empty or a decimal 64-bit number:
    a version that does not parse is never at least anything but the
    empty version. *)
Theorem resourceVersionAtLeast_order :
  (∀ curr min c m,
     strconv_ParseInt curr = Ok c → strconv_ParseInt min = Ok m →
     resourceVersionAtLeast curr min = bool_decide (m ≤ c))
  ∧ (∀ v, resourceVersionAtLeast v "" = true ∧ resourceVersionAtLeast "" v = true)
  ∧ (∀ a b c, b ≠ "" →
       resourceVersionAtLeast a b = true → resourceVersionAtLeast b c = true →
       resourceVersionAtLeast a c = true)
  ∧ (∀ v, resourceVersionAtLeast v v = true ↔ v = "" ∨ parses v).
Proof.
  split; [apply resourceVersionAtLeast_parsed|]. split; [|split].
  - intros v. unfold resourceVersionAtLeast. split; rewrite decide_True; auto.
  - intros a b c Hb. unfold resourceVersionAtLeast.
    destruct (decide (a = "")) as [->|Ha]; [by rewrite decide_True by auto|].
    destruct (decide (c = "")) as [->|Hc]; [by rewrite (decide_True (P:=a = "" ∨ "" = "")) by auto|].
    rewrite !decide_False by (by intros [?|?]).
    destruct (strconv_ParseInt a) as [za|]; [|done].
    destruct (strconv_ParseInt b) as [zb|]; [|done].
    destruct (strconv_ParseInt c) as [zc|]; [|done].
    rewrite !bool_decide_eq_true. lia.
  - intros v. unfold resourceVersionAtLeast, parses. split.
    + case_decide as He; [intros _; left; by destruct He|].
      destruct (strconv_ParseInt v) as [z|] eqn:Hv; [|done]. intros _. right. by exists z.
    + intros [->|[z Hz]]; [done|]. rewrite Hz. case_decide; [done|].
      by apply bool_decide_eq_true.
Qed.

(** ** Replica addresses *)

Lemma strip_prefix_app p t : strip_prefix p (p +:+ t) = Some t.
Proof. induction p as [|a p IH]; simpl; [done|]. by rewrite Ascii.eqb_refl. Qed.

Lemma strings_Split_nonempty t sep : strings_Split t sep ≠ [].
Proof.
  destruct t as [|a r]; simpl; [done|].
  destruct (Ascii.eqb a sep); [done|]. by destruct (strings_Split r sep).
Qed.

Lemma strings_Split_no_sep t sep : has_byte sep t = false → strings_Split t sep = [t].
Proof.
  induction t as [|a r IH]; simpl; [done|].
  intros [Ha Hr]%orb_false_iff. rewrite Ascii.eqb_sym, Ha, IH by done. done.
Qed.

Lemma strings_Split_app a b sep :
  has_byte sep a = false →
  strings_Split (a +:+ String sep b) sep = a :: strings_Split b sep.
Proof.
  induction a as [|x a IH]; simpl.
  - intros _. by rewrite Ascii.eqb_refl.
  - intros [Hx Ha]%orb_false_iff. rewrite Ascii.eqb_sym, Hx, IH by done. done.
Qed.

Lemma strings_Split_one t sep b :
  strings_Split t sep = [b] → t = b ∧ has_byte sep b = false.
Proof.
  revert b. induction t as [|x r IH]; intros b; simpl.
  - by intros [= <-].
  - destruct (Ascii.eqb x sep) eqn:Hx.
    + intros [= _ Hr]. by apply strings_Split_nonempty in Hr.
    + destruct (strings_Split r sep) as [|h t] eqn:Hr; [by apply strings_Split_nonempty in Hr|].
      intros [= <- ->]. destruct (IH h eq_refl) as [-> Hh]. split; [done|].
      simpl. by rewrite Ascii.eqb_sym, Hx, Hh.
Qed.

Lemma strings_Split_two t sep a b :
  strings_Split t sep = [a; b] →
  t = a +:+ String sep b ∧ has_byte sep a = false ∧ has_byte sep b = false.
Proof.
  revert a. induction t as [|x r IH]; intros a; simpl; [done|].
  destruct (Ascii.eqb x sep) eqn:Hx.
  - intros [= <- Hr]. apply Ascii.eqb_eq in Hx as ->.
    by apply strings_Split_one in Hr as [-> Hb].
  - destruct (strings_Split r sep) as [|h t] eqn:Hr; [done|].
    intros [= <- ->]. destruct (IH h eq_refl) as (-> & Hh & Hb). split; [done|].
    simpl. by rewrite Ascii.eqb_sym, Hx, Hh.
Qed.

Lemma pretty_N_go_no_colon x t :
  has_byte ":" t = false → has_byte ":" (pretty_N_go x t) = false.
Proof.
  revert t. induction (N.lt_wf_0 x) as [x _ IH]; intros t Hs.
  assert (x = 0 ∨ 0 < x)%N as [->|?] by lia.
  - by rewrite pretty_N_go_0.
  - rewrite pretty_N_go_step by done. apply IH.
    { by apply N.div_lt. }
    simpl. rewrite Hs. unfold pretty_N_char. by repeat case_match.
Qed.

Lemma strconv_Itoa_no_colon i : has_byte ":" (strconv_Itoa i) = false.
Proof.
  unfold strconv_Itoa, pretty, pretty_Z. destruct i as [|p|p]; [done|..];
    unfold pretty, pretty_positive, pretty, pretty_N; simpl;
    by apply pretty_N_go_no_colon.
Qed.

(** X5. [ReplicaAddressToReplicaName] undoes the address of a replica:
    for an IP without colon, the address [tcp://<IP>:<port>] gives the
    name of the first replica of the list with that IP and that port,
    and the address itself when there is none. Whenever the result is
    not the address, it is the name of a replica of the list whose IP
    and port, joined by a colon, are the address behind its prefix. *)
Theorem ReplicaAddressToReplicaName_round_trip (rs : list ReplicaInstance) :
  (∀ ip port,
     has_byte ":" ip = false →
     let address := "tcp://" +:+ ip +:+ ":" +:+ strconv_Itoa port in
     ReplicaAddressToReplicaName address rs
     = match find (λ r, bool_decide (ri_IP r = ip ∧ ri_Port r = port)) rs with
       | Some r => ri_Name r
       | None => address
       end)
  ∧ (∀ address,
       ReplicaAddressToReplicaName address rs ≠ address →
       ∃ r, r ∈ rs
            ∧ ReplicaAddressToReplicaName address rs = ri_Name r
            ∧ strings_TrimPrefix address "tcp://"
              = ri_IP r +:+ ":" +:+ strconv_Itoa (ri_Port r)).
Proof.
  split.
  - intros ip port Hip address. unfold ReplicaAddressToReplicaName.
    unfold strings_TrimPrefix. subst address.
    rewrite (strip_prefix_app "tcp://"). simpl default.
    change (ip +:+ ":" +:+ strconv_Itoa port)
      with (ip +:+ String ":" (strconv_Itoa port)).
    rewrite strings_Split_app, strings_Split_no_sep
      by (done || apply strconv_Itoa_no_colon).
    assert (Hfind : ∀ l,
      find (λ r, bool_decide (ip = ri_IP r)
                 && bool_decide (strconv_Itoa port = strconv_Itoa (ri_Port r))) l
      = find (λ r, bool_decide (ri_IP r = ip ∧ ri_Port r = port)) l).
    { induction l as [|r l IH]; simpl; [done|]. rewrite IH.
      destruct (decide (ri_IP r = ip ∧ ri_Port r = port)) as [[<- <-]|Hne].
      - by rewrite !bool_decide_eq_true_2.
      - rewrite (bool_decide_eq_false_2 (_ ∧ _)) by done.
        destruct (decide (ip = ri_IP r)) as [->|Hi].
        + rewrite bool_decide_eq_true_2 by done.
          rewrite bool_decide_eq_false_2; [done|].
          intros Hp. unfold strconv_Itoa in Hp. apply (inj pretty) in Hp. auto.
        + by rewrite bool_decide_eq_false_2. }
    by rewrite Hfind.
  - intros address. unfold ReplicaAddressToReplicaName.
    destruct (strings_Split _ _) as [|ip [|port [|]]] eqn:Hsplit; try done.
    destruct (find _ rs) as [r|] eqn:Hfind; [|done]. intros _.
    apply find_some in Hfind as [Hin [Hi Hp]%andb_true_iff].
    apply bool_decide_eq_true in Hi, Hp. subst.
    exists r. split; [by apply list_elem_of_In|]. split; [done|].
    by apply strings_Split_two in Hsplit as (-> & _ & _).
Qed.

(** ** The instance manager of an instance *)

Lemma ListInstanceManagersBySelector_run s node image imType (st : State FS) :
  store_wf (st_ims st) →
  ListInstanceManagersBySelector s node image imType st
  = match ds_imLister_fault s (GetInstanceManagerLabels node image imType) with
    | Some err => (st, Err err)
    | None => (st, Ok (selection node image imType (st_ims st)))
    end.
Proof.
  intros Hwf. unfold ListInstanceManagersBySelector.
  destruct (ds_imLister_fault s _) as [err|]; [done|].
  rewrite bind_get. unfold ret. f_equal. f_equal.
  set (sel := GetInstanceManagerLabels node image imType).
  set (l := filter (λ im, selector_matches sel (im_Labels im) = true)
              (range_values "imLister.List" (st_ims st))).
  assert (Hl : ∀ im, im ∈ l ↔ (∃ k, st_ims st !! k = Some im)
                              ∧ selector_matches sel (im_Labels im) = true).
  { intros im. unfold l. rewrite list_elem_of_filter, range_values_elem. tauto. }
  assert (Huniq : ∀ im1 im2, im1 ∈ l → im2 ∈ l → im_Name im1 = im_Name im2 → im1 = im2).
  { intros im1 im2 [[k1 H1] _]%Hl [[k2 H2] _]%Hl Heq.
    rewrite (Hwf _ _ H1), (Hwf _ _ H2) in Heq. subst. congruence. }
  apply map_eq. intros k. apply option_eq. intros im. unfold selection.
  rewrite map_lookup_filter_Some. simpl. split.
  - intros [[[[k' Hk'] Hty]%Hl Hname]|Hk]%foldl_insert_by_name;
      [|by rewrite lookup_empty in Hk].
    rewrite (Hwf _ _ Hk') in Hname. subst. done.
  - intros [Hk Hty]. rewrite <- (Hwf _ _ Hk).
    apply foldl_insert_by_name_elem; [done|]. apply Hl. eauto.
Qed.

Lemma range_values_singleton {V} (site : string) (k : string) (v : V) :
  range_values site ({[k := v]} : gmap string V) = [v].
Proof.
  unfold range_values, range_keys.
  assert (Hp : range_order site (map_to_list ({[k := v]} : gmap string V)).*1 = [k]).
  { apply Permutation_singleton_r. rewrite range_order_perm.
    by rewrite map_to_list_singleton. }
  rewrite Hp. simpl. by rewrite lookup_singleton_eq.
Qed.

Lemma map_size_1 {V} (m : gmap string V) :
  size m = 1%nat → ∃ k v, m = {[k := v]}.
Proof.
  intros Hsize. destruct (map_to_list m) as [|[k v] [|? ?]] eqn:Hl.
  - apply map_to_list_empty_iff in Hl. subst. by rewrite map_size_empty in Hsize.
  - exists k, v. apply map_to_list_inj. rewrite Hl. by rewrite map_to_list_singleton.
  - rewrite <- length_map_to_list, Hl in Hsize. done.
Qed.

(** X6. Over a store that keeps every object under its name,
    [GetInstanceManagerByInstance] returns a manager exactly when the
    instance is an engine or a replica with a node, the image setting
    can be read, the lister does not fail and the store holds exactly
    one manager with the labels of that node, image and type: it
    returns that manager. It never changes the state. *)
Theorem GetInstanceManagerByInstance_only s obj (st : State FS) :
  store_wf (st_ims st) →
  exec (GetInstanceManagerByInstance s obj) st = st
  ∧ ∀ im,
      outcome (GetInstanceManagerByInstance s obj) st = Ok im
      ↔ ∃ name nodeID imType image,
          instance_fields obj = Some (name, nodeID, imType)
          ∧ nodeID ≠ ""
          ∧ GetSettingValueExisted s SettingNameDefaultInstanceManagerImage = Ok image
          ∧ ds_imLister_fault s (GetInstanceManagerLabels nodeID image imType) = None
          ∧ selection nodeID image imType (st_ims st) = {[im_Name im := im]}.
Proof.
  intros Hwf. unfold exec, outcome, GetInstanceManagerByInstance.
  destruct (GetSettingValueExisted s SettingNameDefaultInstanceManagerImage)
    as [image|err] eqn:Himage.
  2:{ rewrite bind_lift_Err. simpl. split; [done|]. intros im. split; [done|].
      by intros (? & ? & ? & ? & _ & _ & ? & _). }
  rewrite bind_lift_Ok.
  destruct (instance_fields obj) as [[[name nodeID] imType]|] eqn:Hobj.
  2:{ simpl. split; [done|]. intros im. split; [done|].
      by intros (? & ? & ? & ? & ? & _). }
  destruct (decide (nodeID = "")) as [->|Hnode].
  { simpl. split; [done|]. intros im. split; [done|].
    intros (? & ? & ? & ? & [= <- <- <-] & ? & _). done. }
  unfold bind. rewrite ListInstanceManagersBySelector_run by done.
  destruct (ds_imLister_fault s _) as [err|] eqn:Hfault.
  { simpl. split; [done|]. intros im. split; [done|].
    intros (? & ? & ? & ? & [= <- <- <-] & _ & [= <-] & Hf & _). congruence. }
  set (m := selection nodeID image imType (st_ims st)).
  assert (Hname : ∀ k v, m = {[k := v]} → im_Name v = k).
  { intros k v Hm. apply Hwf.
    assert (Hk : m !! k = Some v) by (rewrite Hm; apply lookup_singleton_eq).
    unfold m, selection in Hk. by apply map_lookup_filter_Some in Hk as [? _]. }
  destruct (decide (size m = 1%nat)) as [Hsize|Hsize].
  - destruct (map_size_1 m Hsize) as (k & v & Hm).
    rewrite Hm, range_values_singleton. simpl. split; [done|]. intros im. split.
    + intros [= <-]. exists name, nodeID, imType, image.
      by rewrite (Hname k v Hm).
    + intros (? & ? & ? & ? & [= <- <- <-] & _ & [= <-] & _ & Hsel).
      fold m in Hsel. rewrite Hm in Hsel.
      assert (Hv : ({[k := v]} : gmap string InstanceManager) !! k = Some v)
        by apply lookup_singleton_eq.
      rewrite Hsel in Hv. apply lookup_singleton_Some in Hv as [_ ->]. done.
  - simpl. split; [done|]. intros im. split; [done|].
    intros (? & ? & ? & ? & [= <- <- <-] & _ & [= <-] & _ & Hsel).
    fold m in Hsel. rewrite Hsel, map_size_singleton in Hsize. done.
Qed.

End StoreProperties.
(** * More properties of the node controller *)

Section MoreNodeProperties.
Context `{Externals} {FS : Type}.
Implicit Types s : State FS.
Implicit Types nc : @NodeController FS.
Implicit Types ds : DataStore.

(** ** A node that is being deleted *)

Lemma filter_without (x : string) (l : list string) :
  x ∉ l → filter (λ f, f ≠ x) l = l.
Proof.
  induction l as [|y l IH]; intros Hx; [done|].
  rewrite filter_cons_True by (intros ->; apply Hx; left).
  f_equal. apply IH. intros Hin. apply Hx. by right.
Qed.

(** X7. For a node of the namespace that is in the cache and is being
    deleted, [syncNode] never returns an error, not even when the API
    server refuses the update. It records the one event of the deletion,
    takes the finalizer of the data store off the node and keeps the
    other finalizers; the only request it sends is the update that
    carries the node without the finalizer, and none when the finalizer
    was gone already. It updates no status and touches neither the
    queue, the instance managers nor the disks. *)
Theorem syncNode_deleting nc key name node t s :
  SplitMetaNamespaceKey key = Ok (nc_namespace nc, name) →
  GetNode (nc_ds nc) name = Ok node →
  node_DeletionTimestamp node = Some t →
  let s' := (syncNode nc key s).1 in
  let node' := Node_with_Finalizers node
                 (filter (λ f, f ≠ longhornFinalizerKey) (node_Finalizers node)) in
  (syncNode nc key s).2 = None
  ∧ st_events s'
    = (mkEvent EventTypeWarning EventReasonDelete
         (Sprintf "Deleting node %v" [FStr (node_Name node)]) :: st_events s)
  ∧ st_node s' = node'
  ∧ (longhornFinalizerKey ∉ node_Finalizers (st_node s'))
  ∧ st_calls s'
    = (if bool_decide (longhornFinalizerKey ∈ node_Finalizers node)
       then [CallUpdateNode node'] else []) ++ st_calls s
  ∧ st_queue s' = st_queue s ∧ st_ims s' = st_ims s ∧ st_fs s' = st_fs s.
Proof.
  intros Hkey Hget Hdel s' node'.
  assert (Hfin : longhornFinalizerKey ∉ node_Finalizers node').
  { simpl. intros Hin. apply list_elem_of_filter in Hin as [Hne _]. done. }
  assert (Hrun : syncNode nc key s
    = (if bool_decide (longhornFinalizerKey ∈ node_Finalizers node)
       then State_with_calls
              (State_with_node
                 (State_with_events (State_with_node s node)
                    (mkEvent EventTypeWarning EventReasonDelete
                       (Sprintf "Deleting node %v" [FStr (node_Name node)])
                     :: st_events s))
                 node')
              (CallUpdateNode node' :: st_calls s)
       else State_with_events (State_with_node s node)
              (mkEvent EventTypeWarning EventReasonDelete
                 (Sprintf "Deleting node %v" [FStr (node_Name node)]) :: st_events s),
       None)).
  { unfold syncNode, syncNode_inner. rewrite Hkey.
    rewrite decide_False by (intros Hne; by apply Hne). rewrite Hget.
    rewrite bool_decide_eq_true_2 by (by rewrite Hdel).
    unfold record_event. rewrite bind_modify.
    unfold RemoveFinalizerForNode. rewrite bind_get_node.
    change (st_node (State_with_events (State_with_node s node) _)) with node.
    fold node'. case_bool_decide as Hin; unfold negb.
    - rewrite bind_modify. unfold send. rewrite bind_modify.
      destruct (ds_api_fault (nc_ds nc) (CallUpdateNode node')) as [err|]; [|done].
      rewrite bool_decide_eq_true_2; [done|]. simpl. by rewrite Hdel.
    - done. }
  unfold s'. rewrite Hrun. simpl.
  case_bool_decide as Hin; simpl; repeat split; try done.
  unfold node'. destruct node as [? ? ? ? ? fs ? ?]. simpl in *. f_equal.
  by rewrite filter_without.
Qed.

(** ** The conditions of the node *)

Lemma total_setNodeCondition ty v reason message eventtype :
  total (setNodeCondition ty v reason message eventtype : M FS unit).
Proof.
  intros s. destruct (setNodeCondition_run ty v reason message eventtype s) as [ev Hrun].
  exists tt. unfold outcome. by rewrite Hrun.
Qed.

Lemma GetCondition_setNodeCondition ty v reason message eventtype s :
  let c := GetCondition
             (nstat_Conditions
                (node_Status
                   (st_node (exec (setNodeCondition ty v reason message eventtype) s)))) ty in
  cond_Status c = v ∧ cond_Reason c = reason ∧ cond_Message c = message.
Proof.
  unfold exec. destruct (setNodeCondition_run ty v reason message eventtype s) as [ev ->].
  simpl. apply GetCondition_SetCondition.
Qed.

Lemma GetCondition_setNodeCondition_ne ty ty' v reason message eventtype s :
  ty ≠ ty' →
  GetCondition
    (nstat_Conditions
       (node_Status (st_node (exec (setNodeCondition ty v reason message eventtype) s)))) ty'
  = GetCondition (nstat_Conditions (node_Status (st_node s))) ty'.
Proof.
  intros Hne. unfold exec.
  destruct (setNodeCondition_run ty v reason message eventtype s) as [ev ->].
  simpl. by apply GetCondition_SetCondition_ne.
Qed.

Lemma rest_setNodeCondition ty v reason message eventtype s :
  let s' := exec (setNodeCondition ty v reason message eventtype) s in
  node_meta (st_node s') = node_meta (st_node s)
  ∧ nstat_Region (node_Status (st_node s')) = nstat_Region (node_Status (st_node s))
  ∧ nstat_Zone (node_Status (st_node s')) = nstat_Zone (node_Status (st_node s)).
Proof.
  unfold exec. by destruct (setNodeCondition_run ty v reason message eventtype s) as [ev ->].
Qed.

Lemma total_kubeCondition node con : total (syncNode_kubeCondition node con : M FS unit).
Proof.
  unfold syncNode_kubeCondition.
  repeat apply total_if; try apply total_ret; try apply total_setNodeCondition.
Qed.

(** One condition of the Kubernetes node leaves the [Ready] condition
    alone when it is fine and makes it false otherwise. *)
Lemma kubeCondition_ready node con s :
  let s' := exec (syncNode_kubeCondition node con) s in
  (kube_condition_fine con → node_ready (st_node s') = node_ready (st_node s))
  ∧ (¬ kube_condition_fine con →
     cond_Status (node_ready (st_node s')) = ConditionStatusFalse).
Proof.
  assert (Hno : v1_NodeReady ∉ [v1_NodeOutOfDisk; v1_NodeDiskPressure; v1_NodePIDPressure;
                                v1_NodeMemoryPressure; v1_NodeNetworkUnavailable]).
  { apply (bool_decide_unpack _). vm_compute. exact I. }
  unfold syncNode_kubeCondition, kube_condition_fine, node_ready.
  destruct (decide (kc_Type con = v1_NodeReady)) as [Hty|Hty].
  - rewrite (bool_decide_eq_true_2 (kc_Type con = v1_NodeReady)) by done.
    destruct (decide (kc_Status con = v1_ConditionTrue)) as [Hst|Hst].
    + rewrite bool_decide_eq_false_2 by (intros Hne; by apply Hne).
      split; [done|]. intros Hnot. destruct Hnot. split; [done|].
      rewrite Hty. intros Hin. by destruct Hno.
    + rewrite bool_decide_eq_true_2 by done. split.
      * intros [Hfine _]. destruct Hst. by apply Hfine.
      * intros _. apply GetCondition_setNodeCondition.
  - rewrite (bool_decide_eq_false_2 (kc_Type con = v1_NodeReady)) by done.
    destruct (decide (kc_Type con ∈ [v1_NodeOutOfDisk; v1_NodeDiskPressure;
                                     v1_NodePIDPressure; v1_NodeMemoryPressure;
                                     v1_NodeNetworkUnavailable])) as [Hpr|Hpr].
    + rewrite (bool_decide_eq_true_2 (kc_Type con ∈ _)) by done.
      destruct (decide (kc_Status con = v1_ConditionTrue)) as [Hst|Hst].
      * rewrite bool_decide_eq_true_2 by done. split.
        -- intros [_ Hfine]. by destruct (Hfine Hpr).
        -- intros _. apply GetCondition_setNodeCondition.
      * rewrite bool_decide_eq_false_2 by done.
        split; [done|]. intros Hnot. destruct Hnot. by split.
    + rewrite (bool_decide_eq_false_2 (kc_Type con ∈ _)) by done.
      split; [|intros Hnot; destruct Hnot; by split].
      intros _. by case_bool_decide.
Qed.

Lemma kubeConditions_ready node (conditions : list NodeCondition) s :
  let s' := exec (forM_ conditions (syncNode_kubeCondition node)) s in
  (Forall kube_condition_fine conditions → node_ready (st_node s') = node_ready (st_node s))
  ∧ (¬ Forall kube_condition_fine conditions →
     cond_Status (node_ready (st_node s')) = ConditionStatusFalse).
Proof.
  apply (forM__prefix
           (λ pre s',
              (Forall kube_condition_fine pre →
               node_ready (st_node s') = node_ready (st_node s))
              ∧ (¬ Forall kube_condition_fine pre →
                 cond_Status (node_ready (st_node s')) = ConditionStatusFalse))).
  - intros x _. apply total_kubeCondition.
  - intros pre x post s1 _ [Hfine Hnot].
    destruct (kubeCondition_ready node x s1) as [Hx Hnx]. split.
    + intros [Hpre Hx']%Forall_app. rewrite Hx; [by apply Hfine|].
      by inversion Hx'.
    + intros Hna. destruct (decide (kube_condition_fine x)) as [Hfx|Hfx].
      * rewrite (Hx Hfx). apply Hnot. intros Hpre. apply Hna.
        apply Forall_app. split; [exact Hpre|]. constructor; [exact Hfx | constructor].
      * by apply Hnx.
  - split; [done|]. intros Hn. destruct Hn. constructor.
Qed.

(** [syncNode_kubeNode] for a Kubernetes node that is there. *)
Lemma kubeNode_found_run nc name kubeNode s :
  ds_GetKubernetesNode (nc_ds nc) name = Ok kubeNode →
  let s1 := exec (forM_ (kn_Conditions kubeNode) (syncNode_kubeCondition (st_node s))) s in
  syncNode_kubeNode nc name s
  = match GetSettingAsBool (nc_ds nc) SettingNameDisableSchedulingOnCordonedNode with
    | Err e => (s1, Err e)
    | Ok disable =>
        let s2 :=
          exec (if disable && kn_Unschedulable kubeNode then
                  setNodeCondition NodeConditionTypeSchedulable ConditionStatusFalse
                    NodeConditionReasonKubernetesNodeCordoned
                    (Sprintf "Node %v is cordoned" [FStr (node_Name (st_node s))])
                    EventTypeNormal
                else
                  setNodeCondition NodeConditionTypeSchedulable ConditionStatusTrue "" ""
                    EventTypeNormal) s1 in
        match nc_topologyLabelsChecker nc KubernetesTopologyLabelsVersion with
        | Err e => (s2, Err e)
        | Ok isUsingTopologyLabels =>
            (exec (modify_status
                     (λ st, NodeStatus_with_RegionZone st
                              (GetRegionAndZone (kn_Labels kubeNode) isUsingTopologyLabels)))
               s2, Ok tt)
        end
    end.
Proof.
  intros Hk s1. unfold syncNode_kubeNode. rewrite bind_get_node, Hk.
  rewrite bind_total_run by (apply total_forM_; intros x _; apply total_kubeCondition).
  fold s1. destruct (GetSettingAsBool _ _) as [disable|e]; [|done].
  rewrite bind_lift_Ok.
  rewrite bind_total_run by (apply total_if; apply total_setNodeCondition).
  destruct (nc_topologyLabelsChecker nc _) as [isUsingTopologyLabels|e]; [|done].
  by rewrite bind_lift_Ok.
Qed.

Lemma kubeNode_found_ready nc name kubeNode s :
  ds_GetKubernetesNode (nc_ds nc) name = Ok kubeNode →
  let s' := exec (syncNode_kubeNode nc name) s in
  (Forall kube_condition_fine (kn_Conditions kubeNode) →
   node_ready (st_node s') = node_ready (st_node s))
  ∧ (¬ Forall kube_condition_fine (kn_Conditions kubeNode) →
     cond_Status (node_ready (st_node s')) = ConditionStatusFalse).
Proof.
  intros Hk s'.
  destruct (kubeConditions_ready (st_node s) (kn_Conditions kubeNode) s) as [Hfine Hnot].
  set (s1 := exec (forM_ (kn_Conditions kubeNode) (syncNode_kubeCondition (st_node s))) s)
    in Hfine, Hnot.
  assert (Hsame : node_ready (st_node s') = node_ready (st_node s1)).
  { unfold s', exec at 1. rewrite (kubeNode_found_run nc name kubeNode s Hk). fold s1.
    destruct (GetSettingAsBool _ _) as [disable|e]; [|done].
    assert (Hs2 : ∀ m1 m2 e1 e2,
              node_ready (st_node
                (exec (if disable && kn_Unschedulable kubeNode
                       then setNodeCondition NodeConditionTypeSchedulable
                              ConditionStatusFalse NodeConditionReasonKubernetesNodeCordoned
                              m1 e1
                       else setNodeCondition NodeConditionTypeSchedulable
                              ConditionStatusTrue "" m2 e2) s1))
              = node_ready (st_node s1)).
    { intros m1 m2 e1 e2. unfold node_ready.
      destruct (disable && kn_Unschedulable kubeNode);
        by apply GetCondition_setNodeCondition_ne. }
    destruct (nc_topologyLabelsChecker nc _) as [isUsingTopologyLabels|e]; simpl.
    - apply Hs2.
    - apply Hs2. }
  rewrite Hsame. by split.
Qed.

(** The section of the manager pod. *)
Lemma managerPod_ready managerPods s :
  let s' := exec (syncNode_managerPod managerPods) s in
  outcome (syncNode_managerPod managerPods) s = Ok tt
  ∧ match manager_pod_of managerPods (node_Name (st_node s)) with
    | Some pod =>
        match pod_ready_condition pod with
        | Some podCondition =>
            cond_Status (node_ready (st_node s'))
            = (if bool_decide (pc_Status podCondition = v1_ConditionTrue)
                  && bool_decide (pod_Phase pod = v1_PodRunning)
               then ConditionStatusTrue else ConditionStatusFalse)
            ∧ (cond_Status (node_ready (st_node s')) = ConditionStatusTrue →
               cond_Reason (node_ready (st_node s')) = "")
        | None => s' = s
        end
    | None => cond_Status (node_ready (st_node s')) = ConditionStatusFalse
    end.
Proof.
  unfold syncNode_managerPod, manager_pod_of, pod_ready_condition, exec, outcome.
  rewrite bind_get_node.
  destruct (find _ managerPods) as [pod|].
  - destruct (find _ (pod_Conditions pod)) as [podCondition|]; [|done].
    destruct (bool_decide (pc_Status podCondition = v1_ConditionTrue)
              && bool_decide (pod_Phase pod = v1_PodRunning)).
    + match goal with
      | |- context [setNodeCondition ?ty ?v ?r ?m ?e s] =>
          destruct (total_setNodeCondition ty v r m e s) as [[] Hout];
          destruct (GetCondition_setNodeCondition ty v r m e s) as (Hst & Hre & _)
      end.
      split; [exact Hout|]. split; [exact Hst | intros _; exact Hre].
    + match goal with
      | |- context [setNodeCondition ?ty ?v ?r ?m ?e s] =>
          destruct (total_setNodeCondition ty v r m e s) as [[] Hout];
          destruct (GetCondition_setNodeCondition ty v r m e s) as (Hst & Hre & _)
      end.
      split; [exact Hout|]. split; [exact Hst|].
      intros Htrue. unfold node_ready in Htrue. unfold exec in Hst.
      rewrite Hst in Htrue. done.
  - match goal with
    | |- context [setNodeCondition ?ty ?v ?r ?m ?e s] =>
        destruct (total_setNodeCondition ty v r m e s) as [[] Hout];
        destruct (GetCondition_setNodeCondition ty v r m e s) as (Hst & Hre & _)
    end.
    split; [exact Hout | exact Hst].
Qed.

Lemma managerPod_name managerPods s :
  node_Name (st_node (exec (syncNode_managerPod managerPods) s)) = node_Name (st_node s).
Proof.
  assert (Hf : shared_frame s (exec (syncNode_managerPod managerPods) s)).
  { apply stable_shared_frame_managerPod, shared_frame_refl. }
  destruct Hf as [Hm _ _ _]. by apply node_meta_Name.
Qed.

Lemma syncNode_shared_run nc name managerPods s :
  ds_ListManagerPods (nc_ds nc) = Ok managerPods →
  syncNode_shared nc name s
  = syncNode_kubeNode nc name (exec (syncNode_managerPod managerPods) s).
Proof.
  intros Hpods. unfold syncNode_shared. rewrite Hpods, bind_lift_Ok.
  destruct (managerPod_ready managerPods s) as [Hout _].
  by rewrite (bind_outcome_Ok _ _ tt).
Qed.

(** X8. When the sections of the reconcile that every controller runs
    return without error, the node is [Ready] only if the Kubernetes
    node is there with every [Ready] condition true and no pressure
    condition true, and the manager pod of the node is listed and is
    ready and running (or has no [Ready] condition, and the node was
    ready before). Conversely, a listed manager pod that is ready and
    running and a Kubernetes node without bad condition make the node
    [Ready] with an empty reason. *)
Theorem syncNode_shared_Ready nc name s :
  outcome (syncNode_shared nc name) s = Ok tt →
  let s' := exec (syncNode_shared nc name) s in
  (cond_Status (node_ready (st_node s')) = ConditionStatusTrue →
   ∃ kubeNode managerPods pod,
     ds_GetKubernetesNode (nc_ds nc) name = Ok kubeNode
     ∧ Forall kube_condition_fine (kn_Conditions kubeNode)
     ∧ ds_ListManagerPods (nc_ds nc) = Ok managerPods
     ∧ manager_pod_of managerPods (node_Name (st_node s)) = Some pod
     ∧ match pod_ready_condition pod with
       | Some podCondition =>
           pc_Status podCondition = v1_ConditionTrue ∧ pod_Phase pod = v1_PodRunning
       | None => cond_Status (node_ready (st_node s)) = ConditionStatusTrue
       end)
  ∧ (∀ kubeNode managerPods pod podCondition,
       ds_GetKubernetesNode (nc_ds nc) name = Ok kubeNode →
       Forall kube_condition_fine (kn_Conditions kubeNode) →
       ds_ListManagerPods (nc_ds nc) = Ok managerPods →
       manager_pod_of managerPods (node_Name (st_node s)) = Some pod →
       pod_ready_condition pod = Some podCondition →
       pc_Status podCondition = v1_ConditionTrue → pod_Phase pod = v1_PodRunning →
       cond_Status (node_ready (st_node s')) = ConditionStatusTrue
       ∧ cond_Reason (node_ready (st_node s')) = "").
Proof.
  intros Hok s'.
  destruct (ds_ListManagerPods (nc_ds nc)) as [managerPods|e] eqn:Hpods.
  2:{ unfold outcome, syncNode_shared in Hok. by rewrite Hpods in Hok. }
  assert (Hs' : s' = exec (syncNode_kubeNode nc name)
                       (exec (syncNode_managerPod managerPods) s)).
  { unfold s', exec at 1. by rewrite (syncNode_shared_run nc name managerPods). }
  set (s1 := exec (syncNode_managerPod managerPods) s) in Hs'.
  destruct (managerPod_ready managerPods s) as [_ Hpod]. fold s1 in Hpod.
  split.
  - intros Hready.
    destruct (ds_GetKubernetesNode (nc_ds nc) name) as [kubeNode|e] eqn:Hk.
    + destruct (kubeNode_found_ready nc name kubeNode s1 Hk) as [Hfine Hnot].
      rewrite <- Hs' in Hfine, Hnot.
      destruct (decide (Forall kube_condition_fine (kn_Conditions kubeNode)))
        as [Hall|Hbad]; [|rewrite (Hnot Hbad) in Hready; done].
      rewrite (Hfine Hall) in Hready.
      destruct (manager_pod_of managerPods (node_Name (st_node s))) as [pod|] eqn:Hfind;
        [|rewrite Hpod in Hready; done].
      exists kubeNode, managerPods, pod. repeat (split; [done|]).
      destruct (pod_ready_condition pod) as [podCondition|].
      * destruct Hpod as [Hst _]. rewrite Hst in Hready.
        destruct (bool_decide (pc_Status podCondition = v1_ConditionTrue)) eqn:H1;
          [|done].
        destruct (bool_decide (pod_Phase pod = v1_PodRunning)) eqn:H2; [|done].
        by apply bool_decide_eq_true in H1, H2.
      * by rewrite Hpod in Hready.
    + exfalso. revert Hready. rewrite Hs'. unfold exec at 1, syncNode_kubeNode.
      rewrite bind_get_node, Hk.
      unfold outcome in Hok. rewrite (syncNode_shared_run nc name managerPods) in Hok by done.
      fold s1 in Hok. unfold syncNode_kubeNode in Hok. rewrite bind_get_node, Hk in Hok.
      destruct (apierrors_IsNotFound e); [|done].
      match goal with
      | |- context [setNodeCondition ?ty ?v ?r ?m ?ev s1] =>
          destruct (GetCondition_setNodeCondition ty v r m ev s1) as (Hst & _)
      end.
      unfold node_ready. unfold exec in Hst. rewrite Hst. done.
  - intros kubeNode managerPods' pod podCondition Hk Hall [= <-] Hfind Hcond Htrue Hrun.
    destruct (kubeNode_found_ready nc name kubeNode s1 Hk) as [Hfine _].
    rewrite <- Hs' in Hfine. rewrite (Hfine Hall).
    rewrite Hfind, Hcond in Hpod. destruct Hpod as [Hst Hre].
    rewrite !bool_decide_eq_true_2 in Hst by done. simpl in Hst. split; [done|].
    by apply Hre.
Qed.

(** X9. When [syncNode_kubeNode] returns without error the Kubernetes
    node was found or is gone. If it was found, the [Schedulable]
    condition of the node is false with the reason
    [KubernetesNodeCordoned] exactly when the setting
    [DisableSchedulingOnCordonedNode] is on and the Kubernetes node is
    unschedulable, and true with an empty reason otherwise; region and
    zone are those of the labels of the Kubernetes node. If it is gone,
    the node is not ready with the reason [KubernetesNodeGone], and its
    [Schedulable] condition, region and zone stay as they were. *)
Theorem syncNode_kubeNode_cordoned nc name s :
  outcome (syncNode_kubeNode nc name) s = Ok tt →
  let n' := st_node (exec (syncNode_kubeNode nc name) s) in
  match ds_GetKubernetesNode (nc_ds nc) name with
  | Ok kubeNode =>
      ∃ disable isUsingTopologyLabels,
        GetSettingAsBool (nc_ds nc) SettingNameDisableSchedulingOnCordonedNode = Ok disable
        ∧ nc_topologyLabelsChecker nc KubernetesTopologyLabelsVersion
          = Ok isUsingTopologyLabels
        ∧ cond_Status (node_schedulable n')
          = (if disable && kn_Unschedulable kubeNode
             then ConditionStatusFalse else ConditionStatusTrue)
        ∧ cond_Reason (node_schedulable n')
          = (if disable && kn_Unschedulable kubeNode
             then NodeConditionReasonKubernetesNodeCordoned else "")
        ∧ (nstat_Region (node_Status n'), nstat_Zone (node_Status n'))
          = GetRegionAndZone (kn_Labels kubeNode) isUsingTopologyLabels
  | Err err =>
      apierrors_IsNotFound err = true
      ∧ cond_Status (node_ready n') = ConditionStatusFalse
      ∧ cond_Reason (node_ready n') = NodeConditionReasonKubernetesNodeGone
      ∧ node_schedulable n' = node_schedulable (st_node s)
      ∧ nstat_Region (node_Status n') = nstat_Region (node_Status (st_node s))
      ∧ nstat_Zone (node_Status n') = nstat_Zone (node_Status (st_node s))
  end.
Proof.
  intros Hok n'. destruct (ds_GetKubernetesNode (nc_ds nc) name) as [kubeNode|err] eqn:Hk.
  - unfold n', exec. unfold outcome in Hok.
    rewrite (kubeNode_found_run nc name kubeNode s Hk) in Hok |- *.
    destruct (GetSettingAsBool _ _) as [disable|e]; [|done].
    destruct (nc_topologyLabelsChecker nc _) as [isUsingTopologyLabels|e]; [|done].
    exists disable, isUsingTopologyLabels. split; [done|]. split; [done|].
    simpl. unfold node_schedulable. simpl.
    destruct (disable && kn_Unschedulable kubeNode).
    + match goal with
      | |- context [exec (setNodeCondition ?ty ?v ?r ?m ?ev) ?s0] =>
          destruct (GetCondition_setNodeCondition ty v r m ev s0) as (Hst & Hre & _)
      end.
      split; [exact Hst|]. split; [exact Hre|]. by destruct (GetRegionAndZone _ _).
    + match goal with
      | |- context [exec (setNodeCondition ?ty ?v ?r ?m ?ev) ?s0] =>
          destruct (GetCondition_setNodeCondition ty v r m ev s0) as (Hst & Hre & _)
      end.
      split; [exact Hst|]. split; [exact Hre|]. by destruct (GetRegionAndZone _ _).
  - unfold n', exec. unfold outcome in Hok. revert Hok.
    unfold syncNode_kubeNode. rewrite bind_get_node, Hk.
    destruct (apierrors_IsNotFound err); [|done]. intros _. split; [done|].
    match goal with
    | |- context [setNodeCondition ?ty ?v ?r ?m ?ev s] =>
        destruct (GetCondition_setNodeCondition ty v r m ev s) as (Hst & Hre & _);
        pose proof (GetCondition_setNodeCondition_ne ty NodeConditionTypeSchedulable
                      v r m ev s) as Hne;
        destruct (rest_setNodeCondition ty v r m ev s) as (_ & Hregion & Hzone)
    end.
    split; [exact Hst|]. split; [exact Hre|]. split; [by apply Hne|]. by split.
Qed.

(** ** A node whose Kubernetes node is gone *)

(** X10. After the sections that every controller runs, a node whose
    Kubernetes node was not found is down for the data store:
    [IsNodeDownOrDeleted] answers true for it in any cache that holds
    the node as the reconcile left it, whatever the manager pods say.
    It also answers true for a node that the cache does not hold, and
    with an error for an empty name. *)
Theorem IsNodeDownOrDeleted_gone nc name s err :
  ds_GetKubernetesNode (nc_ds nc) name = Err err →
  apierrors_IsNotFound err = true →
  outcome (syncNode_shared nc name) s = Ok tt →
  (∀ ds n, n ≠ "" →
     ds_nLister ds n = Ok (st_node (exec (syncNode_shared nc name) s)) →
     IsNodeDownOrDeleted ds n = Ok true)
  ∧ (∀ ds n e, n ≠ "" → ds_nLister ds n = Err e → apierrors_IsNotFound e = true →
       IsNodeDownOrDeleted ds n = Ok true)
  ∧ (∀ ds, ∃ e, IsNodeDownOrDeleted ds "" = Err e).
Proof.
  intros Hk Hnf Hok. split; [|split].
  - intros ds n Hn Hget. unfold IsNodeDownOrDeleted.
    rewrite decide_False by done. rewrite Hget.
    destruct (ds_ListManagerPods (nc_ds nc)) as [managerPods|e] eqn:Hpods.
    2:{ unfold outcome, syncNode_shared in Hok. by rewrite Hpods in Hok. }
    unfold exec. rewrite (syncNode_shared_run nc name managerPods s Hpods).
    set (s1 := exec (syncNode_managerPod managerPods) s).
    assert (Hout : outcome (syncNode_kubeNode nc name) s1 = Ok tt).
    { unfold outcome in Hok |- *.
      by rewrite (syncNode_shared_run nc name managerPods s Hpods) in Hok. }
    pose proof (syncNode_kubeNode_cordoned nc name s1 Hout) as Hgone.
    rewrite Hk in Hgone. destruct Hgone as (_ & Hst & Hre & _).
    unfold node_ready, exec in Hst, Hre. rewrite Hst, Hre.
    rewrite (bool_decide_eq_true_2 (ConditionStatusFalse = ConditionStatusFalse)) by done.
    by rewrite (bool_decide_eq_true_2 (NodeConditionReasonKubernetesNodeGone
                                       = NodeConditionReasonKubernetesNodeGone)).
  - intros ds n e Hn Hget He. unfold IsNodeDownOrDeleted.
    rewrite decide_False by done. by rewrite Hget, He.
  - intros ds. unfold IsNodeDownOrDeleted. rewrite decide_True by done. by eexists.
Qed.

(** ** The event handlers *)

Lemma forM__enqueueNode (l : list Node) s :
  forM_ l enqueueNode s = (State_with_queue s (st_queue s ++ (KeyFunc <$> l)), Ok tt).
Proof.
  revert s. induction l as [|x l IH]; intros s; simpl.
  - rewrite app_nil_r. by destruct s.
  - unfold enqueueNode at 1. rewrite bind_modify, IH. simpl.
    by rewrite <- app_assoc.
Qed.

Lemma foldl_by_name_None (l : list Node) (m0 : gmap string Node) name :
  name ∉ node_Name <$> l → m0 !! name = None →
  foldl (λ (itemMap : gmap string Node) node, <[node_Name node := node]> itemMap) m0 l
    !! name = None.
Proof.
  revert m0. induction l as [|x l IH]; intros m0 Hnot Hm0; simpl; [done|].
  apply IH.
  - intros Hin. apply Hnot. by right.
  - rewrite lookup_insert_ne; [done|]. intros Heq. apply Hnot. rewrite <- Heq. left.
Qed.

Lemma foldl_by_name_values (l : list Node) :
  NoDup (node_Name <$> l) →
  map_to_list
    (foldl (λ (itemMap : gmap string Node) node, <[node_Name node := node]> itemMap) ∅ l)
  ≡ₚ (λ node, (node_Name node, node)) <$> l.
Proof.
  induction l as [|x l IH] using rev_ind; intros Hnd.
  - simpl. by rewrite map_to_list_empty.
  - rewrite fmap_app in Hnd. apply NoDup_app in Hnd as (Hl & Hx & _).
    rewrite foldl_app, fmap_app. simpl.
    rewrite map_to_list_insert.
    + rewrite (IH Hl). by rewrite <- Permutation_cons_append.
    + apply foldl_by_name_None; [|apply lookup_empty].
      intros Hin. apply (Hx _ Hin). left.
Qed.

Lemma foldl_by_name_elem (l : list Node) (m0 : gmap string Node) name node :
  foldl (λ (itemMap : gmap string Node) node, <[node_Name node := node]> itemMap) m0 l
    !! name = Some node →
  node ∈ l ∨ m0 !! name = Some node.
Proof.
  revert m0. induction l as [|x l IH]; intros m0 Hk; simpl in *; [by right|].
  apply IH in Hk as [Hin|Hk]; [left; by right|].
  destruct (decide (node_Name x = name)) as [<-|Hne].
  - rewrite lookup_insert_eq in Hk. injection Hk as <-. left. left.
  - rewrite lookup_insert_ne in Hk by done. by right.
Qed.

Lemma range_values_map_to_list {V} (site : string) (m : gmap string V) :
  range_values site m ≡ₚ (map_to_list m).*2.
Proof.
  unfold range_values, range_keys. rewrite (range_order_perm site).
  assert (Hgen : ∀ l : list (string * V),
            (∀ kv, kv ∈ l → m !! kv.1 = Some kv.2) → omap (λ k, m !! k) l.*1 = l.*2).
  { induction l as [|[k v] l IH]; intros Hl; simpl; [done|].
    assert (Hk : m !! k = Some v) by (apply (Hl (k, v)); left).
    rewrite Hk. simpl. f_equal. apply IH.
    intros kv Hkv. apply Hl. by right. }
  rewrite Hgen; [done|]. intros [k v] Hkv. by apply elem_of_map_to_list.
Qed.

Lemma enqueue_all_run (site : string) ls s :
  ∃ keys,
    match ListNodes ls with
    | Err err => ret tt
    | Ok nodeList => forM_ (range_values site nodeList) enqueueNode
    end s = (State_with_queue s (st_queue s ++ keys), Ok tt)
    ∧ match ls_nLister_List ls with
      | Err _ => keys = []
      | Ok nodeList =>
          (∀ key, key ∈ keys → ∃ node, node ∈ nodeList ∧ key = KeyFunc node)
          ∧ (NoDup (node_Name <$> nodeList) → keys ≡ₚ KeyFunc <$> nodeList)
      end.
Proof.
  unfold ListNodes. destruct (ls_nLister_List ls) as [nodeList|err].
  - set (m := foldl (λ (itemMap : gmap string Node) node,
                       <[node_Name node := node]> itemMap) ∅ nodeList).
    exists (KeyFunc <$> range_values site m). split; [apply forM__enqueueNode|]. split.
    + intros key (node & -> & Hnode)%list_elem_of_fmap.
      apply range_values_elem in Hnode as [k Hk].
      apply foldl_by_name_elem in Hk as [Hin|Hk]; [|by rewrite lookup_empty in Hk].
      by exists node.
    + intros Hnd. rewrite range_values_map_to_list. unfold m.
      rewrite (foldl_by_name_values nodeList Hnd).
      rewrite <- !list_fmap_compose. done.
  - exists []. split; [|done]. unfold ret. rewrite app_nil_r. by destruct s.
Qed.

(** X11. [enqueueSetting] and [enqueueManagerPod] never fail and change
    nothing but the queue, to which they append keys of listed nodes
    only: none when the list of nodes cannot be read, and, for a list of
    nodes with distinct names, the key of every node of the list once. *)
Theorem enqueue_all_nodes ls s :
  (∀ setting, ∃ keys,
     enqueueSetting ls setting s = (State_with_queue s (st_queue s ++ keys), Ok tt)
     ∧ match ls_nLister_List ls with
       | Err _ => keys = []
       | Ok nodeList =>
           (∀ key, key ∈ keys → ∃ node, node ∈ nodeList ∧ key = KeyFunc node)
           ∧ (NoDup (node_Name <$> nodeList) → keys ≡ₚ KeyFunc <$> nodeList)
       end)
  ∧ (∀ pod, ∃ keys,
       enqueueManagerPod ls pod s = (State_with_queue s (st_queue s ++ keys), Ok tt)
       ∧ match ls_nLister_List ls with
         | Err _ => keys = []
         | Ok nodeList =>
             (∀ key, key ∈ keys → ∃ node, node ∈ nodeList ∧ key = KeyFunc node)
             ∧ (NoDup (node_Name <$> nodeList) → keys ≡ₚ KeyFunc <$> nodeList)
         end).
Proof.
  split.
  - intros setting. apply (enqueue_all_run "enqueueSetting.nodeList").
  - intros pod. apply (enqueue_all_run "enqueueManagerPod.nodeList").
Qed.

Lemma split_slash_Split t : split_slash t = strings_Split t "/".
Proof. induction t as [|a r IH]; simpl; [done|]. by rewrite IH. Qed.

Lemma SplitMetaNamespaceKey_KeyFunc node :
  has_byte "/" (node_Name node) = false →
  has_byte "/" (node_Namespace node) = false →
  SplitMetaNamespaceKey (KeyFunc node) = Ok (node_Namespace node, node_Name node).
Proof.
  intros Hname Hns. unfold SplitMetaNamespaceKey, KeyFunc. rewrite split_slash_Split.
  case_decide as He.
  - rewrite strings_Split_no_sep by done. by rewrite He.
  - change (node_Namespace node +:+ "/" +:+ node_Name node)
      with (node_Namespace node +:+ String "/" (node_Name node)).
    rewrite strings_Split_app, strings_Split_no_sep by done. done.
Qed.

(** X12. The key that [enqueueReplica] adds for a replica, and
    [enqueueKubernetesNode] for a Kubernetes node, is one that the
    reconciler takes up: for a node of the namespace of the controller
    that the cache holds under the name asked for, that is not being
    deleted and whose name and namespace are free of slashes, the
    handler appends one key to the queue, and [syncNode] reads that key
    as this node. A handler whose node is not in the cache leaves the
    state alone and does not fail. *)
Theorem enqueue_reconciles nc name node s :
  GetNode (nc_ds nc) name = Ok node →
  node_Name node = name →
  node_Namespace node = nc_namespace nc →
  has_byte "/" (node_Name node) = false →
  has_byte "/" (node_Namespace node) = false →
  node_DeletionTimestamp node = None →
  reconciles nc (KeyFunc node) name node
  ∧ (∀ replica, replica_NodeID replica = name →
       enqueueReplica (nc_ds nc) replica s
       = (State_with_queue s (st_queue s ++ [KeyFunc node]), Ok tt))
  ∧ (∀ n, kn_Name n = name →
       enqueueKubernetesNode (nc_ds nc) n s
       = (State_with_queue s (st_queue s ++ [KeyFunc node]), Ok tt))
  ∧ (∀ ds replica e, GetNode ds (replica_NodeID replica) = Err e →
       enqueueReplica ds replica s = (s, Ok tt))
  ∧ (∀ ds n e, GetNode ds (kn_Name n) = Err e →
       enqueueKubernetesNode ds n s = (s, Ok tt)).
Proof.
  intros Hget Hname Hns Hn1 Hn2 Hdel. split; [|split; [|split; [|split]]].
  - split; [|by split]. rewrite (SplitMetaNamespaceKey_KeyFunc node Hn1 Hn2).
    by rewrite Hns, Hname.
  - intros replica Hr. unfold enqueueReplica. by rewrite Hr, Hget.
  - intros n Hk. unfold enqueueKubernetesNode. by rewrite Hk, Hget.
  - intros ds replica e He. unfold enqueueReplica. by rewrite He.
  - intros ds n e He. unfold enqueueKubernetesNode. rewrite He.
    by destruct (apierrors_IsNotFound e).
Qed.

End MoreNodeProperties.
(** * More properties of the sync of the disks *)

Section MoreDiskProperties.
Context `{Externals} {FS : Type}.
Implicit Types s : State FS.
Implicit Types nc : @NodeController FS.

(** ** The scheduled storage *)

Lemma wrap64_add_l a b : wrap64 (wrap64 a + b) = wrap64 (a + b).
Proof.
  unfold wrap64. f_equal.
  replace ((a + 2 ^ 63) `mod` 2 ^ 64 - 2 ^ 63 + b + 2 ^ 63)
    with ((a + 2 ^ 63) `mod` 2 ^ 64 + b) by lia.
  rewrite Zplus_mod_idemp_l. f_equal. lia.
Qed.

Lemma wrap64_small z : - 2 ^ 63 ≤ z < 2 ^ 63 → wrap64 z = z.
Proof. intros Hz. unfold wrap64. rewrite Z.mod_small by lia. lia. Qed.

Lemma foldl_int64_add (l : list Replica) a :
  foldl (λ acc replica, int64_add acc (replica_VolumeSize replica)) (wrap64 a) l
  = wrap64 (a + total_size l).
Proof.
  revert a. unfold total_size. induction l as [|r l IH]; intros a; simpl.
  - by rewrite Z.add_0_r.
  - change (int64_add (wrap64 a) (replica_VolumeSize r))
      with (wrap64 (wrap64 a + replica_VolumeSize r)).
    by rewrite wrap64_add_l, IH, Z.add_assoc.
Qed.

Lemma total_size_nonneg (l : list Replica) :
  Forall (λ r, 0 ≤ replica_VolumeSize r) l → 0 ≤ total_size l.
Proof.
  unfold total_size. induction 1 as [|r rs Hr _ IH]; simpl; [done|].
  change (list_fmap Replica Z replica_VolumeSize rs) with (replica_VolumeSize <$> rs).
  lia.
Qed.

Lemma foldl_scheduledReplica (l : list Replica) name :
  foldl (λ (m : gmap string Z) replica,
           <[replica_Name replica := replica_VolumeSize replica]> m) ∅ l !! name
  = replica_VolumeSize <$> last (filter (λ r, replica_Name r = name) l).
Proof.
  induction l as [|x l IH] using rev_ind; [simpl; by rewrite lookup_empty|].
  rewrite foldl_app, filter_app. simpl.
  destruct (decide (replica_Name x = name)) as [<-|Hne].
  - by rewrite filter_cons_True, filter_nil, last_snoc, lookup_insert_eq by done.
  - rewrite filter_cons_False, filter_nil, app_nil_r by done.
    by rewrite lookup_insert_ne.
Qed.

Lemma scheduled_establishes node replicaDiskMap percentage id s :
  entry_sat id (λ _, True) s →
  entry_sat id (scheduled_as (default [] (replicaDiskMap !! id)))
    (exec (syncDiskStatus_schedulable node replicaDiskMap percentage id) s).
Proof.
  intros (d & Hd & _). unfold syncDiskStatus_schedulable, exec.
  rewrite bind_total_run by apply total_diskStatusMap_alter.
  match goal with
  | |- context [diskStatusMap_alter id ?f] => set (s1 := exec (diskStatusMap_alter id f) s)
  end.
  set (replicas := default [] (replicaDiskMap !! id)).
  assert (Hd1 : entry id s1 = Some (DiskStatus_with_Scheduled d
            (foldl (λ acc replica, int64_add acc (replica_VolumeSize replica)) 0 replicas)
            (Some (foldl (λ m replica, <[replica_Name replica := replica_VolumeSize replica]> m)
                     ∅ replicas)))).
  { unfold s1. by rewrite entry_alter, Hd. }
  rewrite bind_diskStatusMap_lookup, Hd1. unfold GetDiskSchedulingInfo.
  rewrite bind_lift_Ok.
  assert (Hset : ∀ v reason message eventtype,
            entry_sat id (scheduled_as replicas)
              (exec (setDiskCondition id DiskConditionTypeSchedulable v reason message
                       eventtype) s1)).
  { intros v reason message eventtype. unfold entry_sat.
    rewrite entry_setDiskCondition, Hd1. simpl. eexists. split; [done|].
    unfold scheduled_as. simpl. split.
    - change 0 with (wrap64 0). by rewrite foldl_int64_add.
    - eexists. split; [done|]. intros name. apply foldl_scheduledReplica. }
  destruct (negb _); apply Hset.
Qed.

(** X13. When [syncDiskStatus] returns without error, every disk of the
    spec accounts for the replicas that the lister reports on it:
    [StorageScheduled] is the sum of their sizes (in 64-bit arithmetic;
    the plain sum when the sizes are not negative and the sum stays
    below 2^63) and [ScheduledReplica] maps their names to their sizes.
    What an earlier pass recorded is replaced, so a disk that lost its
    replicas ends with nothing scheduled. *)
Theorem syncDiskStatus_scheduled nc s :
  outcome (syncDiskStatus nc) s = Ok tt →
  ∃ replicaList,
    ds_rLister (nc_ds nc) (node_Name (st_node s)) = Ok replicaList
    ∧ ∀ id disk,
        nspec_Disks (node_Spec (st_node s)) !! id = Some disk →
        entry_sat id
          (λ d, scheduled_as (replicas_on replicaList id) d
                ∧ (Forall (λ r, 0 ≤ replica_VolumeSize r) (replicas_on replicaList id) →
                   total_size (replicas_on replicaList id) < 2 ^ 63 →
                   dstat_StorageScheduled d = total_size (replicas_on replicaList id))
                ∧ (replicas_on replicaList id = [] →
                   dstat_StorageScheduled d = 0 ∧ dstat_ScheduledReplica d = Some ∅))
          (exec (syncDiskStatus nc) s).
Proof.
  unfold outcome, exec. rewrite syncDiskStatus_run.
  set (s1 := exec (modify_status (syncDiskStatus_keys (st_node s))) s).
  rewrite bind_total_run by apply total_readiness.
  set (s2 := exec (syncDiskStatus_readiness nc) s1).
  unfold syncDiskStatus_schedulability.
  destruct (ListReplicasByNode (nc_ds nc) (node_Name (st_node s))) as [replicaDiskMap|err]
    eqn:Hmap; [rewrite bind_lift_Ok | by rewrite bind_lift_Err].
  destruct (GetSettingAsInt (nc_ds nc) SettingNameStorageMinimalAvailablePercentage)
    as [percentage|err]; [rewrite bind_lift_Ok | by rewrite bind_lift_Err].
  intros _.
  assert (Hlist : ∃ replicaList,
            ds_rLister (nc_ds nc) (node_Name (st_node s)) = Ok replicaList
            ∧ ∀ id, default [] (replicaDiskMap !! id) = replicas_on replicaList id).
  { revert Hmap. unfold ListReplicasByNode.
    destruct (ds_rLister (nc_ds nc) (node_Name (st_node s))) as [replicaList|err]; [|done].
    intros [= <-]. exists replicaList. split; [done|]. intros id.
    rewrite replicas_by_disk_lookup. unfold replicas_on. by destruct (filter _ replicaList). }
  destruct Hlist as (replicaList & Hlister & Hon).
  exists replicaList. split; [done|]. intros id disk Hdisk.
  set (l := range_keys "syncDiskStatus.schedulable" (nspec_Disks (node_Spec (st_node s)))).
  assert (Hl : ∀ x, x ∈ l → entry_sat x (λ _, True) s2).
  { intros x Hx. apply range_keys_elem in Hx as [dx Hdx].
    apply stable_readiness.
    - intros y. apply ready_ops_stable_same_trivial.
    - unfold s1. exists (init_entry (default DiskStatus_zero (entry x s))).
      split; [|done]. by rewrite entry_keys, Hdx. }
  assert (Hsched : entry_sat id (scheduled_as (replicas_on replicaList id))
            (forM_ l (syncDiskStatus_schedulable (st_node s) replicaDiskMap percentage)
               s2).1).
  { rewrite <- Hon.
    refine (forM__establish (λ s0, ∀ x, x ∈ l → entry_sat x (λ _, True) s0)
              (λ x s0, entry_sat x (scheduled_as (default [] (replicaDiskMap !! x))) s0)
              l _ s2 _ _ _ _ Hl id _).
    - intros x _. apply total_schedulable.
    - intros x _ s0 Hs0 y Hy. apply stable_schedulable; [|by apply Hs0].
      apply sched_ops_stable_same; done.
    - intros x s0 Hx Hs0. apply scheduled_establishes. by apply Hs0.
    - intros x y _ _ Hne s0 [Hs0 Hy]. split.
      + intros z Hz. apply stable_schedulable; [|by apply Hs0].
        apply sched_ops_stable_same; done.
      + apply stable_schedulable; [|done]. by apply sched_ops_stable_other.
    - apply range_keys_elem. by rewrite Hdisk. }
  eapply entry_sat_impl; [|exact Hsched].
  intros d [Hsum (m & Hm & Hnames)]. split; [by split; [|exists m]|]. split.
  - intros Hpos Hlt. rewrite Hsum. apply wrap64_small.
    pose proof (total_size_nonneg _ Hpos). lia.
  - intros Hnil. rewrite Hnil in Hsum, Hnames. split; [done|].
    rewrite Hm. f_equal. apply map_eq. intros name. rewrite Hnames.
    by rewrite lookup_empty.
Qed.

(** ** A disk whose probe fails *)

(** X14. A disk of the spec whose probe fails ends [syncDiskStatus] not
    ready for the reason [NoDiskInfo], with [StorageMaximum] and
    [StorageAvailable] at zero and with the [DiskUUID] it had (none for
    a disk without status), whatever the outcome and whatever its tag
    file says. *)
Theorem syncDiskStatus_probe_failed nc s id disk err :
  nspec_Disks (node_Spec (st_node s)) !! id = Some disk →
  nc_getDiskInfoHandler nc (disk_Path disk) (st_fs s) = Err err →
  entry_sat id (probe_failed (dstat_DiskUUID (default DiskStatus_zero (entry id s))))
    (exec (syncDiskStatus nc) s).
Proof. apply probe_failed_sync. Qed.

(** ** A disk in use *)

Lemma ready_matches nc node diskInfoMap fsid disks id u info cfg s :
  u ≠ "" →
  diskInfoMap !! id = Some (Ok info) →
  nc_getDiskConfig nc (disk_Path (disk_of node id)) (st_fs s) = Ok cfg →
  dc_DiskUUID cfg = u →
  entry_sat id (λ d, dstat_DiskUUID d = u) s →
  entry_sat id (in_service u info)
    (exec (syncDiskStatus_ready nc node diskInfoMap fsid disks id) s).
Proof.
  intros Hu Hinfo Hcfg Hmatch (d & Hd & Hdu).
  assert (Hd' : dstat_DiskUUID (default DiskStatus_zero (entry id s)) = u).
  { by rewrite Hd. }
  unfold syncDiskStatus_ready, exec. rewrite bind_get, Hcfg, Hmatch.
  rewrite ready_uuid_recorded by (by rewrite Hd').
  rewrite Hd'. rewrite (decide_False (P := u = "")) by done.
  rewrite (decide_False (P := u ≠ u)) by (intros Hne; by apply Hne).
  rewrite bind_ret. unfold syncDiskStatus_ready_final.
  rewrite bind_diskStatusMap_lookup, Hd'. rewrite decide_True by done.
  rewrite Hinfo. rewrite bind_total_run by apply total_diskStatusMap_alter.
  match goal with
  | |- context [setDiskCondition id ?ty ?v ?r ?m ?e ?s0] =>
      change ((setDiskCondition id ty v r m e s0).1)
        with (exec (setDiskCondition id ty v r m e) s0)
  end.
  unfold entry_sat. rewrite entry_setDiskCondition, entry_alter, Hd. simpl.
  eexists. split; [done|]. unfold in_service, disk_ready. simpl.
  match goal with
  | |- context [SetCondition ?now ?c ?ty ?v ?r ?m] =>
      destruct (GetCondition_SetCondition now c ty v r m) as (? & ? & _)
  end.
  done.
Qed.

Lemma in_service_view u info d d' :
  disk_ready d' = disk_ready d → dstat_DiskUUID d' = dstat_DiskUUID d →
  dstat_StorageMaximum d' = dstat_StorageMaximum d →
  dstat_StorageAvailable d' = dstat_StorageAvailable d →
  in_service u info d → in_service u info d'.
Proof. intros Hr Hu Hmax Hav. unfold in_service. by rewrite Hr, Hu, Hmax, Hav. Qed.

(** X15. A disk of the spec that has a [DiskUUID] on record, whose probe
    succeeds and whose tag file, when the sync reads it, carries the
    recorded UUID ends [syncDiskStatus] ready, with an empty reason,
    with the UUID kept and with [StorageMaximum] and [StorageAvailable]
    as the probe reported them, whatever the other disks of the node
    do. The tag file is read after tag files may have been generated
    for other disks of the node. *)
Theorem syncDiskStatus_in_service nc s id disk u info :
  u ≠ "" →
  nspec_Disks (node_Spec (st_node s)) !! id = Some disk →
  entry_sat id (λ d, dstat_DiskUUID d = u) s →
  nc_getDiskInfoHandler nc (disk_Path disk) (st_fs s) = Ok info →
  (∀ fs, tags_reached nc (st_node s) id (st_fs s) fs →
         ∃ cfg, nc_getDiskConfig nc (disk_Path disk) fs = Ok cfg ∧ dc_DiskUUID cfg = u) →
  entry_sat id (in_service u info) (exec (syncDiskStatus nc) s).
Proof.
  intros Hu Hdisk (d & Hd & Hdu) Hprobe Hcfg.
  unfold exec. rewrite syncDiskStatus_run.
  set (s1 := exec (modify_status (syncDiskStatus_keys (st_node s))) s).
  assert (Hrec1 : entry_sat id (λ d, dstat_DiskUUID d = u) s1).
  { exists (init_entry d). split; [|done]. unfold s1. by rewrite entry_keys, Hdisk, Hd. }
  rewrite bind_total_run by apply total_readiness.
  apply (stable_ready_view_schedulability (in_service u info)).
  { apply in_service_view. }
  rewrite exec_readiness.
  set (node1 := st_node s1).
  set (diskInfoMap := getDiskInfoMap nc node1 (st_fs s1)).
  set (keys := range_keys "syncDiskStatus.diskInfoMap" diskInfoMap).
  set (g := foldl (group_pure diskInfoMap) ∅ keys).
  assert (Hdisk_of : ∀ x, disk_of node1 x = disk_of (st_node s) x) by done.
  assert (Hpath : disk_Path (disk_of node1 id) = disk_Path disk).
  { rewrite Hdisk_of. unfold disk_of. by rewrite Hdisk. }
  assert (Hinfo : diskInfoMap !! id = Some (Ok info)).
  { unfold diskInfoMap, getDiskInfoMap. rewrite lookup_fmap.
    change (nspec_Disks (node_Spec node1)) with (nspec_Disks (node_Spec (st_node s))).
    rewrite Hdisk. simpl. change (st_fs s1) with (st_fs s). by rewrite Hprobe. }
  assert (Hfsid : fsid_of diskInfoMap id = Some (di_Fsid info)).
  { unfold fsid_of. by rewrite Hinfo. }
  assert (Hin : id ∈ default [] (g !! di_Fsid info)) by (by apply group_elem).
  assert (Hspec : ∀ fsid x, x ∈ default [] (g !! fsid) →
            is_Some (nspec_Disks (node_Spec (st_node s)) !! x)).
  { intros fsid x Hx. by apply (group_elem_spec nc node1 (st_fs s1)) in Hx. }
  set (I := λ s0 : State FS,
              entry_sat id (λ d, dstat_DiskUUID d = u) s0
              ∧ tags_reached nc (st_node s) id (st_fs s) (st_fs s0)).
  set (s2 := exec (foldM (syncDiskStatus_group node1 diskInfoMap) keys ∅) s1).
  assert (HI2 : I s2).
  { split.
    - apply stable_foldM; [|done]. intros g0 x _. by apply stable_uuid_group.
    - assert (Hfs : st_fs s2 = st_fs s).
      { apply (stable_foldM (λ s0, st_fs s0 = st_fs s)); [|done].
        intros g0 x _. apply stable_fs_group. }
      rewrite Hfs. constructor. }
  assert (Hestablish : ∀ fsid disks s0,
            I s0 →
            entry_sat id (in_service u info)
              (exec (syncDiskStatus_ready nc node1 diskInfoMap fsid disks id) s0)).
  { intros fsid disks s0 [Hrec Hreach]. destruct (Hcfg (st_fs s0) Hreach) as (cfg & Hc & Hm).
    apply (ready_matches nc node1 diskInfoMap fsid disks id u info cfg); try done.
    by rewrite Hpath. }
  assert (HbodyI : ∀ fsid disks x,
            is_Some (nspec_Disks (node_Spec (st_node s)) !! x) →
            stable I (syncDiskStatus_ready nc node1 diskInfoMap fsid disks x)).
  { intros fsid disks x Hx. destruct (decide (x = id)) as [->|Hne].
    - by apply stable_reached_recorded.
    - by apply stable_reached_ready. }
  assert (HbodyV : ∀ (c : Prop) fsid disks x,
            is_Some (nspec_Disks (node_Spec (st_node s)) !! x) →
            stable (λ s0, I s0 ∧ (c → entry_sat id (in_service u info) s0))
              (syncDiskStatus_ready nc node1 diskInfoMap fsid disks x)).
  { intros c fsid disks x Hx s0 [HI0 Hc]. split; [by apply HbodyI|].
    intros Hcc. destruct (decide (x = id)) as [->|Hne].
    - by apply Hestablish.
    - unfold entry_sat. rewrite entry_ready_ne by done. by apply Hc. }
  refine (forM__establish I
            (λ fsid s0, fsid = di_Fsid info → entry_sat id (in_service u info) s0)
            _ _ s2 _ _ _ _ HI2 (di_Fsid info) _ eq_refl).
  - intros fsid _. apply total_forM_. intros x _. apply total_ready.
  - intros fsid _. apply stable_forM_. intros x Hx. apply HbodyI. by apply (Hspec fsid).
  - intros fsid s0 _ Hs0 ->.
    refine (forM__establish I
              (λ x s0, x = id → entry_sat id (in_service u info) s0)
              _ _ s0 _ _ _ _ Hs0 id Hin eq_refl).
    + intros x _. apply total_ready.
    + intros x Hx. apply HbodyI. by apply (Hspec (di_Fsid info)).
    + intros x s3 _ Hs3 ->. by apply Hestablish.
    + intros x y Hx _ _. apply HbodyV. by apply (Hspec (di_Fsid info)).
  - intros x y _ _ _. apply stable_forM_. intros z Hz. apply HbodyV. by apply (Hspec x).
  - apply range_keys_elem. destruct (g !! di_Fsid info); [by eexists|].
    by apply elem_of_nil in Hin.
Qed.

(** ** A disk seen for the first time *)

Lemma assign_in_service node diskInfoMap id u info d s :
  diskInfoMap !! id = Some (Ok info) →
  entry id s = Some d →
  entry_sat id (in_service u info)
    (exec (diskStatusMap_alter id (λ d, DiskStatus_with_DiskUUID d u) ;;
           syncDiskStatus_ready_final node diskInfoMap id u) s).
Proof.
  intros Hinfo Hd. unfold exec.
  rewrite bind_total_run by apply total_diskStatusMap_alter.
  set (s1 := exec (diskStatusMap_alter id (λ d, DiskStatus_with_DiskUUID d u)) s).
  assert (Hd1 : entry id s1 = Some (DiskStatus_with_DiskUUID d u)).
  { unfold s1. by rewrite entry_alter, Hd. }
  unfold syncDiskStatus_ready_final. rewrite bind_diskStatusMap_lookup, Hd1. simpl.
  rewrite decide_True by done. rewrite Hinfo.
  rewrite bind_total_run by apply total_diskStatusMap_alter.
  match goal with
  | |- context [setDiskCondition id ?ty ?v ?r ?m ?e ?s0] =>
      change ((setDiskCondition id ty v r m e s0).1)
        with (exec (setDiskCondition id ty v r m e) s0)
  end.
  unfold entry_sat. rewrite entry_setDiskCondition, entry_alter, Hd1. simpl.
  eexists. split; [done|]. unfold in_service, disk_ready. simpl.
  match goal with
  | |- context [SetCondition ?now ?c ?ty ?v ?r ?m] =>
      destruct (GetCondition_SetCondition now c ty v r m) as (? & ? & _)
  end.
  done.
Qed.

(** The loop body on a disk without UUID on record that is alone in its
    group: the disk takes the UUID of its tag file, or a fresh one when
    there is no tag file. *)
Lemma ready_first_seen nc node diskInfoMap fsid id u info s :
  diskInfoMap !! id = Some (Ok info) →
  entry_sat id (λ d, dstat_DiskUUID d = "") s →
  match nc_getDiskConfig nc (disk_Path (disk_of node id)) (st_fs s) with
  | Ok cfg => dc_DiskUUID cfg = u ∧ u ≠ ""
  | Err e =>
      types_ErrorIsNotFound e = true
      ∧ ∃ cfg, (nc_generateDiskConfig nc (disk_Path (disk_of node id)) (st_fs s)).2 = Ok cfg
               ∧ dc_DiskUUID cfg = u
  end →
  entry_sat id (in_service u info)
    (exec (syncDiskStatus_ready nc node diskInfoMap fsid [id] id) s).
Proof.
  intros Hinfo (d & Hd & Hdu) Hcfg.
  assert (Hd' : dstat_DiskUUID (default DiskStatus_zero (entry id s)) = "").
  { by rewrite Hd. }
  unfold syncDiskStatus_ready, exec. rewrite bind_get.
  destruct (nc_getDiskConfig nc _ (st_fs s)) as [cfg|e].
  - destruct Hcfg as [-> Hu]. unfold syncDiskStatus_ready_uuid.
    rewrite bind_diskStatusMap_lookup. rewrite decide_True by done.
    rewrite bind_get_node. unfold isFSIDDuplicatedWithExistingReadyDisk.
    rewrite decide_False by (simpl; lia).
    rewrite decide_False by done.
    by apply (assign_in_service node diskInfoMap id u info d).
  - destruct Hcfg as (-> & cfg & Hgen & <-). unfold negb.
    unfold syncDiskStatus_ready_uuid.
    rewrite bind_diskStatusMap_lookup. rewrite decide_True by done.
    rewrite bind_get_node. unfold isFSIDDuplicatedWithExistingReadyDisk.
    rewrite decide_False by (simpl; lia).
    rewrite decide_True by done. rewrite bind_get.
    destruct (nc_generateDiskConfig nc _ (st_fs s)) as [fs' r] eqn:Hrun.
    simpl in Hgen. subst r. rewrite bind_modify.
    by apply (assign_in_service node diskInfoMap id (dc_DiskUUID cfg) info d).
Qed.

Lemma NoDup_only (l : list string) (id : string) :
  NoDup l → id ∈ l → (∀ z, z ∈ l → z = id) → l = [id].
Proof.
  intros Hnd Hin Hall. destruct l as [|a [|b l]].
  - by apply elem_of_nil in Hin.
  - by rewrite (Hall a) by left.
  - exfalso. assert (a = id) as -> by (apply Hall; left).
    assert (b = id) as -> by (apply Hall; right; left).
    apply NoDup_cons in Hnd as [Hni _]. apply Hni. left.
Qed.

(** X16. A disk of the spec without [DiskUUID] on record whose probe
    succeeds and that is the only disk of the node on its filesystem
    ends [syncDiskStatus] in service: it takes the UUID of its tag file
    as the sync finds it, or, when the tag file is missing, the UUID of
    the tag file that is then generated for it, and it is ready with
    the storage that the probe reported. The tag file is read after tag
    files may have been generated for other disks of the node. *)
Theorem syncDiskStatus_first_seen nc s id disk info u :
  nspec_Disks (node_Spec (st_node s)) !! id = Some disk →
  dstat_DiskUUID (default DiskStatus_zero (entry id s)) = "" →
  nc_getDiskInfoHandler nc (disk_Path disk) (st_fs s) = Ok info →
  (∀ id' disk' info',
     nspec_Disks (node_Spec (st_node s)) !! id' = Some disk' →
     nc_getDiskInfoHandler nc (disk_Path disk') (st_fs s) = Ok info' →
     di_Fsid info' = di_Fsid info → id' = id) →
  (∀ fs,
     tags_reached nc (st_node s) id (st_fs s) fs →
     match nc_getDiskConfig nc (disk_Path disk) fs with
     | Ok cfg => dc_DiskUUID cfg = u ∧ u ≠ ""
     | Err e =>
         types_ErrorIsNotFound e = true
         ∧ ∃ cfg, (nc_generateDiskConfig nc (disk_Path disk) fs).2 = Ok cfg
                  ∧ dc_DiskUUID cfg = u
     end) →
  entry_sat id (in_service u info) (exec (syncDiskStatus nc) s).
Proof.
  intros Hdisk Hnew Hprobe Halone Hcfg.
  unfold exec. rewrite syncDiskStatus_run.
  set (s1 := exec (modify_status (syncDiskStatus_keys (st_node s))) s).
  assert (Hnew1 : entry_sat id (λ d, dstat_DiskUUID d = "") s1).
  { exists (init_entry (default DiskStatus_zero (entry id s))).
    split; [|done]. unfold s1. by rewrite entry_keys, Hdisk. }
  rewrite bind_total_run by apply total_readiness.
  apply (stable_ready_view_schedulability (in_service u info)).
  { apply in_service_view. }
  rewrite exec_readiness.
  set (node1 := st_node s1).
  set (diskInfoMap := getDiskInfoMap nc node1 (st_fs s1)).
  set (keys := range_keys "syncDiskStatus.diskInfoMap" diskInfoMap).
  set (g := foldl (group_pure diskInfoMap) ∅ keys).
  set (F := di_Fsid info).
  assert (Hdisk_of : ∀ x, disk_of node1 x = disk_of (st_node s) x) by done.
  assert (Hpath : disk_Path (disk_of node1 id) = disk_Path disk).
  { rewrite Hdisk_of. unfold disk_of. by rewrite Hdisk. }
  assert (Hlookup : ∀ z, diskInfoMap !! z
            = (λ dz, nc_getDiskInfoHandler nc (disk_Path dz) (st_fs s))
                <$> nspec_Disks (node_Spec (st_node s)) !! z).
  { intros z. unfold diskInfoMap, getDiskInfoMap. by rewrite lookup_fmap. }
  assert (Hinfo : diskInfoMap !! id = Some (Ok info)).
  { by rewrite Hlookup, Hdisk; simpl; rewrite Hprobe. }
  assert (Hfsid : fsid_of diskInfoMap id = Some F).
  { unfold fsid_of. by rewrite Hinfo. }
  assert (Hgroup : default [] (g !! F) = [id]).
  { apply NoDup_only.
    - apply group_NoDup.
    - by apply group_elem.
    - intros z Hz. apply group_elem in Hz. unfold fsid_of in Hz.
      rewrite Hlookup in Hz.
      destruct (nspec_Disks (node_Spec (st_node s)) !! z) as [dz|] eqn:Hdz; [|done].
      simpl in Hz.
      destruct (nc_getDiskInfoHandler nc (disk_Path dz) (st_fs s)) as [iz|] eqn:Hiz;
        [|done].
      injection Hz as Hz. by apply (Halone z dz iz). }
  assert (Hspec : ∀ fsid x, x ∈ default [] (g !! fsid) →
            is_Some (nspec_Disks (node_Spec (st_node s)) !! x)).
  { intros fsid x Hx. by apply (group_elem_spec nc node1 (st_fs s1)) in Hx. }
  set (s2 := exec (foldM (syncDiskStatus_group node1 diskInfoMap) keys ∅) s1).
  assert (Hnew2 : entry_sat id (λ d, dstat_DiskUUID d = "") s2
                  ∧ tags_reached nc (st_node s) id (st_fs s) (st_fs s2)).
  { split.
    - apply stable_foldM; [|done]. intros g0 x _. apply stable_group_ops. intros.
      apply stable_entry_sat_setDiskCondition. auto.
    - assert (Hfs : st_fs s2 = st_fs s).
      { apply (stable_foldM (λ s0, st_fs s0 = st_fs s)); [|done].
        intros g0 x _. apply stable_fs_group. }
      rewrite Hfs. constructor. }
  set (fsids := range_keys "syncDiskStatus.fsid2Disks" g).
  assert (HF : F ∈ fsids).
  { apply range_keys_elem. destruct (g !! F); [by eexists | done]. }
  assert (Hother : ∀ (Q : DiskStatus → Prop) fsid, fsid ≠ F →
            stable (λ s0, entry_sat id Q s0
                          ∧ tags_reached nc (st_node s) id (st_fs s) (st_fs s0))
              (forM_ (default [] (g !! fsid))
                 (syncDiskStatus_ready nc node1 diskInfoMap fsid (default [] (g !! fsid))))).
  { intros Q fsid Hne. apply stable_forM_. intros z Hz.
    apply stable_reached_ready; [|by apply (Hspec fsid)|done].
    apply group_elem in Hz. intros ->. congruence. }
  set (loops := forM_ fsids
                  (λ fsid, forM_ (default [] (g !! fsid))
                             (syncDiskStatus_ready nc node1 diskInfoMap fsid
                                (default [] (g !! fsid))))).
  assert (Hgoal : (F ∉ fsids →
                   entry_sat id (λ d, dstat_DiskUUID d = "") (exec loops s2)
                   ∧ tags_reached nc (st_node s) id (st_fs s) (st_fs (exec loops s2)))
                  ∧ (F ∈ fsids → entry_sat id (in_service u info) (exec loops s2))).
  { apply (forM__prefix
             (λ pre s0,
                (F ∉ pre →
                 entry_sat id (λ d, dstat_DiskUUID d = "") s0
                 ∧ tags_reached nc (st_node s) id (st_fs s) (st_fs s0))
                ∧ (F ∈ pre → entry_sat id (in_service u info) s0))).
    - intros fsid _. apply total_forM_. intros z _. apply total_ready.
    - intros pre x post s0 Hl [Hnot Hdone].
      assert (Hnd : NoDup fsids) by apply range_keys_NoDup.
      rewrite Hl in Hnd. apply NoDup_app in Hnd as (_ & Hpre & _).
      destruct (decide (x = F)) as [->|Hne].
      + split; [intros Hn; destruct Hn; apply elem_of_app; right; left|].
        intros _. rewrite Hgroup. simpl.
        rewrite exec_bind.
        destruct (total_ready nc node1 diskInfoMap F [id] id s0) as [[] ->].
        simpl.
        assert (Hs0 : entry_sat id (λ d, dstat_DiskUUID d = "") s0
                      ∧ tags_reached nc (st_node s) id (st_fs s) (st_fs s0)).
        { apply Hnot. intros Hin. apply (Hpre F Hin). left. }
        destruct Hs0 as [Hnone Hreach].
        apply (ready_first_seen nc node1 diskInfoMap F id u info); [done | done |].
        rewrite Hpath. by apply Hcfg.
      + split.
        * intros Hn. apply Hother; [done|]. apply Hnot. intros Hin. apply Hn.
          apply elem_of_app. by left.
        * intros [Hin|Hin%list_elem_of_singleton]%elem_of_app; [|congruence].
          apply (stable_forM_ (entry_sat id (in_service u info))); [|by apply Hdone].
          intros z Hz. apply stable_ready. apply ready_ops_stable_other.
          apply group_elem in Hz. intros ->. congruence.
    - split; [done|]. intros Hin. by apply elem_of_nil in Hin. }
  by apply Hgoal.
Qed.

End MoreDiskProperties.

(** * The properties at work on the fixture *)

Import Fixture.

Lemma GetSetting_defined_witness :
  GetSetting datastore0 SettingNameDefaultInstanceManagerImage
  = (Some (mkSetting SettingNameDefaultInstanceManagerImage
             "longhornio/longhorn-instance-manager:v1"), None)
  ∧ GetSettingValueExisted datastore0 SettingNameDefaultInstanceManagerImage
    = Ok "longhornio/longhorn-instance-manager:v1".
Proof.
  destruct (GetSetting_defined datastore0 SettingNameDefaultInstanceManagerImage)
    as [Hdefined _].
  destruct (Hdefined (mkSettingDefinition SettingTypeString true true
                        "longhornio/longhorn-instance-manager:v1") eq_refl)
    as (_ & _ & Habsent & _).
  destruct (Habsent (notFound SettingNameDefaultInstanceManagerImage)
              eq_refl eq_refl) as [Hget Hvalue].
  split; [exact Hget | apply Hvalue; discriminate].
Defined.

(** On the store that reads its files, generating tag files for the
    other disks of a node leaves the tag file of a mount point that
    none of them uses as it was. *)
Lemma tags_reached_files node id fs0 fs path :
  (∀ x disk, x ≠ id → nspec_Disks (node_Spec node) !! x = Some disk →
             disk_Path disk ≠ path) →
  tags_reached controller_files node id fs0 fs → fs !! path = fs0 !! path.
Proof.
  intros Hpaths Hreach. induction Hreach as [|fs x Hreach IH Hne [disk Hdisk]]; [done|].
  simpl. unfold tags_write, disk_of. rewrite Hdisk. simpl.
  rewrite lookup_insert_ne; [exact IH|]. by apply (Hpaths x disk).
Qed.

Lemma pair_other_paths u x disk :
  x ≠ "d1" →
  nspec_Disks (node_Spec (st_node (state_files_pair u))) !! x = Some disk →
  disk_Path disk ≠ "/mnt/a".
Proof.
  intros Hne Hdisk.
  change (nspec_Disks (node_Spec (st_node (state_files_pair u))))
    with (<["d1" := disk_a]> ({[ "d2" := disk_b ]} : gmap string DiskSpec)) in Hdisk.
  apply lookup_insert_Some in Hdisk as [[Heq _]|[_ Hdisk]]; [congruence|].
  apply lookup_singleton_Some in Hdisk as [_ <-]. discriminate.
Qed.

Lemma new_other_paths fs x disk :
  x ≠ "d1" →
  nspec_Disks (node_Spec (st_node (state_files_new fs))) !! x = Some disk →
  disk_Path disk ≠ "/mnt/a".
Proof.
  intros Hne Hdisk.
  change (nspec_Disks (node_Spec (st_node (state_files_new fs))))
    with (<["d1" := disk_a]> ({[ "d3" := disk_c ]} : gmap string DiskSpec)) in Hdisk.
  apply lookup_insert_Some in Hdisk as [[Heq _]|[_ Hdisk]]; [congruence|].
  apply lookup_singleton_Some in Hdisk as [_ <-]. discriminate.
Qed.

(** C2 fails as stated: a disk with a UUID on record whose tag file is
    missing and whose probe fails is not ready for want of disk
    information, not because the filesystem changed. *)
Lemma recorded_disk_probe_failed :
  let s' := exec (syncDiskStatus controller_files) state_files_unplugged in
  entry_sat "d3" (λ d, dstat_DiskUUID d = "uuid-c") state_files_unplugged
  ∧ config_differs (nc_getDiskConfig controller_files "/mnt/c"
                      (st_fs state_files_unplugged)) "uuid-c"
  ∧ entry_sat "d3" (λ d, cond_Status (disk_ready d) = ConditionStatusFalse
                         ∧ cond_Reason (disk_ready d) = DiskConditionReasonNoDiskInfo) s'
  ∧ ¬ entry_sat "d3" (filesystem_changed "uuid-c") s'.
Proof.
  intros s'. split; [|split; [|split]].
  - eexists. split; [vm_compute; reflexivity | reflexivity].
  - reflexivity.
  - eexists. split; [vm_compute; reflexivity | split; vm_compute; reflexivity].
  - intros (d & Hd & _ & _ & Hreason). vm_compute in Hd. injection Hd as <-.
    vm_compute in Hreason. discriminate Hreason.
Qed.

Lemma syncDiskStatus_DiskUUID_kept_witness :
  entry_sat "d1" (filesystem_changed "uuid-old")
    (exec (syncDiskStatus controller_files) (state_files_pair "uuid-old"))
  ∧ entry_sat "d3" (probe_failed "uuid-c")
      (exec (syncDiskStatus controller_files) state_files_unplugged).
Proof.
  split.
  - destruct (syncDiskStatus_DiskUUID_kept controller_files (state_files_pair "uuid-old")
                "d1" "uuid-old") as (_ & Hchanged & _).
    + discriminate.
    + exists disk_a. reflexivity.
    + exists (recorded "uuid-old"). split; reflexivity.
    + apply Hchanged.
      * eexists. reflexivity.
      * intros fs Hreach.
        pose proof (tags_reached_files _ _ _ _ "/mnt/a" (pair_other_paths "uuid-old") Hreach)
          as Hfile.
        assert (Htag : fs !! "/mnt/a" = Some "uuid-a").
        { rewrite Hfile. vm_compute. reflexivity. }
        change (config_differs (tags_read "/mnt/a" fs) "uuid-old").
        unfold tags_read. rewrite Htag. simpl. discriminate.
  - destruct (syncDiskStatus_DiskUUID_kept controller_files state_files_unplugged
                "d3" "uuid-c") as (_ & _ & Hfailed).
    + discriminate.
    + exists disk_c. reflexivity.
    + exists (recorded "uuid-c"). split; reflexivity.
    + apply Hfailed. eexists. reflexivity.
Defined.

(** C3 fails as stated: two disks on one filesystem whose recorded
    UUIDs match their tag files both end ready. *)
Lemma duplicate_fsid_both_ready :
  fsid_of (getDiskInfoMap controller0 (st_node state_both_recorded) tt) "d1" = Some "fsid-1"
  ∧ fsid_of (getDiskInfoMap controller0 (st_node state_both_recorded) tt) "d2"
    = Some "fsid-1"
  ∧ entry_sat "d1" ready_true (exec (syncDiskStatus controller0) state_both_recorded)
  ∧ entry_sat "d2" ready_true (exec (syncDiskStatus controller0) state_both_recorded)
  ∧ "d1" ≠ "d2".
Proof.
  split; [reflexivity|]. split; [reflexivity|].
  split; [|split; [|discriminate]].
  - eexists. split; [vm_compute; reflexivity | vm_compute; reflexivity].
  - eexists. split; [vm_compute; reflexivity | vm_compute; reflexivity].
Qed.

Lemma syncDiskStatus_collision_witness :
  let s0 := exec (syncDiskStatus controller0) state_first_seen in
  entry_sat "d1" ready_true s0
  ∧ entry_sat "d2" collided
      (exec (syncDiskStatus_ready controller0 (st_node s0)
               (getDiskInfoMap controller0 (st_node s0) tt) "fsid-1" ["d1"; "d2"] "d2") s0).
Proof.
  intros s0.
  assert (Hd1 : entry_sat "d1" ready_true s0).
  { eexists. split; [vm_compute; reflexivity | vm_compute; reflexivity]. }
  split; [exact Hd1|].
  destruct (syncDiskStatus_collision controller0 state_first_seen) as [_ Hcollides].
  apply (Hcollides (st_node s0) (getDiskInfoMap controller0 (st_node s0) tt) "fsid-1"
           ["d1"; "d2"] "d2" "d1" s0).
  - vm_compute. reflexivity.
  - eexists. split; [vm_compute; reflexivity | exact I].
  - right. left.
  - left.
  - discriminate.
  - exact Hd1.
  - intros err Herr. vm_compute in Herr. discriminate.
Defined.

Lemma syncDiskStatus_Schedulable_witness :
  ∃ percentage,
    GetSettingAsInt datastore0 SettingNameStorageMinimalAvailablePercentage = Ok percentage
    ∧ entry_sat "d1" (schedulable_verdict percentage disk_a)
        (exec (syncDiskStatus controller0) state_both_recorded).
Proof.
  destruct (syncDiskStatus_Schedulable controller0 state_both_recorded) as [Hall _].
  destruct Hall as (percentage & Hsetting & Hdisks); [vm_compute; reflexivity|].
  exists percentage. split; [exact Hsetting|]. apply Hdisks. reflexivity.
Defined.

(** C7 fails as stated: an engine manager of an old image that is
    running and has a running engine, but is being deleted, is sent a
    delete request. *)
Lemma deleting_manager_cleaned_up :
  let s' := exec (syncInstanceManagers controller0) state_old_engine in
  GetSettingValueExisted datastore0 SettingNameDefaultInstanceManagerImage = Ok image_v1
  ∧ st_ims state_old_engine !! "im-e-old" = Some im_old
  ∧ imspec_Image (im_Spec im_old) ≠ image_v1
  ∧ imstat_CurrentState (im_Status im_old) = InstanceManagerStateRunning
  ∧ imstat_Instances (im_Status im_old) !! "vol-1-e-0" = Some InstanceStateRunning
  ∧ sent (CallDeleteInstanceManager "im-e-old") state_old_engine s'.
Proof.
  intros s'. split; [vm_compute; reflexivity|]. split; [reflexivity|].
  split; [discriminate|]. split; [reflexivity|]. split; [reflexivity|].
  exists (st_calls s'). split; [symmetry; apply app_nil_r|].
  apply list_elem_of_In. vm_compute. tauto.
Qed.

Lemma syncInstanceManagers_cleanup_witness :
  let s' := exec (syncInstanceManagers controller0) state_old_engine in
  st_ims s' !! "im-e-busy" = Some im_busy
  ∧ ¬ sent (CallDeleteInstanceManager "im-e-busy") state_old_engine s'.
Proof.
  assert (Hwf : store_wf (st_ims state_old_engine)).
  { apply (bool_decide_unpack _). vm_compute. exact I. }
  assert (Himage : GetSettingValueExisted (nc_ds controller0)
                     SettingNameDefaultInstanceManagerImage = Ok image_v1).
  { vm_compute. reflexivity. }
  destruct (syncInstanceManagers_cleanup controller0 state_old_engine image_v1
              Hwf Himage) as [_ Hkept].
  apply (Hkept "im-e-busy" im_busy).
  - reflexivity.
  - intros [Hdisks _]. vm_compute in Hdisks. discriminate Hdisks.
  - right. split; [reflexivity|]. split; [reflexivity|].
    exists "vol-2-e-0", InstanceStateStarting. split; [reflexivity | right; reflexivity].
Defined.

(** C8 fails as stated: two engine managers of the default image, none
    with an instance, are both there after the sync. *)
Lemma two_default_managers_stay :
  let s' := exec (syncInstanceManagers controller0) state_no_disks in
  outcome (syncInstanceManagers controller0) state_no_disks = Ok tt
  ∧ listing "node-1" InstanceManagerTypeEngine (st_ims s')
    = {[ "im-e-1" := im_e1; "im-e-2" := im_e2 ]}
  ∧ imspec_Image (im_Spec im_e1) = image_v1
  ∧ imspec_Image (im_Spec im_e2) = image_v1
  ∧ imstat_Instances (im_Status im_e1) = ∅
  ∧ imstat_Instances (im_Status im_e2) = ∅.
Proof.
  intros s'. split; [vm_compute; reflexivity|]. split; [vm_compute; reflexivity|].
  repeat split.
Qed.

Lemma syncInstanceManagers_default_manager_witness :
  let s' := exec (syncInstanceManagers controller0) state_old_engine in
  has_default "node-1" image_v1 InstanceManagerTypeEngine s'
  ∧ ∃ imName, GetInstanceManagerName InstanceManagerTypeEngine = Ok imName
      ∧ sent (CallCreateInstanceManager
                (created_manager (st_node state_old_engine) imName image_v1
                   InstanceManagerTypeEngine)) state_old_engine s'.
Proof.
  assert (Hwf : store_wf (st_ims state_old_engine)).
  { apply (bool_decide_unpack _). vm_compute. exact I. }
  assert (Himage : GetSettingValueExisted (nc_ds controller0)
                     SettingNameDefaultInstanceManagerImage = Ok image_v1).
  { vm_compute. reflexivity. }
  destruct (syncInstanceManagers_default_manager controller0 state_old_engine image_v1
              InstanceManagerTypeEngine Hwf Himage) as [Hdefault _].
  destruct Hdefault as [Hhas Hcreate].
  - vm_compute. reflexivity.
  - left. reflexivity.
  - split; [exact Hhas|]. apply Hcreate. intros k im Hk _.
    change (st_ims state_old_engine)
      with (<["im-e-old" := im_old]> ({[ "im-e-busy" := im_busy ]}
              : gmap string InstanceManager)) in Hk.
    apply lookup_insert_Some in Hk as [[_ <-]|[_ Hk]]; [discriminate|].
    apply lookup_singleton_Some in Hk as [_ <-]. discriminate.
Defined.

(** C9 fails as stated: the replica manager of a node without disks is
    still in the store after the sync, held by its finalizer. *)
Lemma replica_manager_remains :
  let s' := exec (syncInstanceManagers controller0) state_no_disks in
  no_disks (st_node state_no_disks)
  ∧ outcome (syncInstanceManagers controller0) state_no_disks = Ok tt
  ∧ listing "node-1" InstanceManagerTypeReplica (st_ims s')
    = {[ "im-r-1" :=
           InstanceManager_with_DeletionTimestamp im_r (Some (st_now state_no_disks)) ]}.
Proof.
  intros s'. split; [vm_compute; reflexivity|].
  split; [vm_compute; reflexivity|]. vm_compute. reflexivity.
Qed.

Lemma syncInstanceManagers_no_disks_witness :
  let s' := exec (syncInstanceManagers controller0) state_no_disks in
  sent (CallDeleteInstanceManager "im-r-1") state_no_disks s'
  ∧ ∀ im, st_ims s' !! "im-r-1" = Some im → marked_deleted im.
Proof.
  assert (Hwf : store_wf (st_ims state_no_disks)).
  { apply (bool_decide_unpack _). vm_compute. exact I. }
  assert (Himage : GetSettingValueExisted (nc_ds controller0)
                     SettingNameDefaultInstanceManagerImage = Ok image_v1).
  { vm_compute. reflexivity. }
  assert (Hdisks : no_disks (st_node state_no_disks)).
  { vm_compute. reflexivity. }
  destruct (syncInstanceManagers_no_disks controller0 state_no_disks image_v1
              Hwf Himage Hdisks) as [_ Hall].
  destruct Hall as [Hsent Hleft]; [vm_compute; reflexivity|]. split.
  - apply (Hsent "im-r-1" im_r); [reflexivity | vm_compute; reflexivity].
  - intros im Him. apply (Hleft "im-r-1" im Him).
    vm_compute in Him. injection Him as <-. vm_compute. reflexivity.
Defined.

Lemma syncNode_disk_keys_witness :
  ∃ m', nstat_DiskStatus (node_Status (st_node (syncNode controller_owner key1 state_idle).1))
        = Some m'
    ∧ dom m' = dom (nspec_Disks (node_Spec node_stale)).
Proof.
  assert (Hrec : reconciles controller_owner key1 "node-1" node_stale).
  { split; [vm_compute; reflexivity|]. split; [vm_compute; reflexivity | reflexivity]. }
  destruct (syncNode_disk_keys controller_owner key1 "node-1" node_stale state_idle Hrec)
    as (_ & m' & Hstatus & Hdom & _).
  - reflexivity.
  - vm_compute. reflexivity.
  - exists m'. split; [exact Hstatus | exact Hdom].
Defined.

Lemma syncNode_writeback_conflict_witness :
  (syncNode controller_conflict key1 state_idle).2 = None
  ∧ st_queue (syncNode controller_conflict key1 state_idle).1 = st_queue state_idle ++ [key1].
Proof.
  assert (Hrec : reconciles controller_conflict key1 "node-1" node_stale).
  { split; [vm_compute; reflexivity|]. split; [vm_compute; reflexivity | reflexivity]. }
  destruct (syncNode_writeback_conflict controller_conflict key1 "node-1" node_stale
              state_idle Hrec) as [_ Hconflict].
  vm_compute in Hconflict. vm_compute. exact Hconflict.
Defined.

Lemma syncNode_not_owner_witness :
  nstat_DiskStatus (node_Status (st_node (syncNode controller_other key1 state_idle).1))
  = Some {[ "d9" := recorded "uuid-9" ]}
  ∧ st_ims (syncNode controller_other key1 state_idle).1 = {[ "im-e-old" := im_old ]}.
Proof.
  assert (Hrec : reconciles controller_other key1 "node-1" node_stale).
  { split; [vm_compute; reflexivity|]. split; [vm_compute; reflexivity | reflexivity]. }
  destruct (syncNode_not_owner controller_other key1 "node-1" node_stale state_idle Hrec)
    as (_ & Hdisks & _ & _ & Hims & _).
  - discriminate.
  - split; [exact Hdisks | exact Hims].
Defined.

(** ** More of the data store *)

Lemma ListReplicasByNode_partition_witness :
  ∃ replicaDiskMap,
    ListReplicasByNode datastore_replicas "node-1" = Ok replicaDiskMap
    ∧ replicaDiskMap !! "d1"
      = Some [mkReplica "vol-1-r-0" "node-1" "d1" (2 * GiB);
              mkReplica "vol-3-r-0" "node-1" "d1" (3 * GiB)]
    ∧ replicaDiskMap !! "d3" = None.
Proof.
  set (m := match ListReplicasByNode datastore_replicas "node-1" with
            | Ok m => m
            | Err _ => ∅
            end).
  assert (Hm : ListReplicasByNode datastore_replicas "node-1" = Ok m).
  { vm_compute. reflexivity. }
  destruct (ListReplicasByNode_partition datastore_replicas "node-1" m Hm)
    as (replicaList & Hlist & Hdisk & _).
  change (Ok replicas1 = Ok replicaList) in Hlist. injection Hlist as <-.
  exists m. split; [exact Hm|]. split.
  - rewrite (Hdisk "d1"). vm_compute. reflexivity.
  - rewrite (Hdisk "d3"). vm_compute. reflexivity.
Defined.

Lemma ListSettings_complete_witness :
  ∃ m, ListSettings listers0 = Ok m
       ∧ dom m = dom SettingDefinitions0
       ∧ m !! SettingNameStorageMinimalAvailablePercentage = Some setting_minimal
       ∧ m !! SettingNameDefaultInstanceManagerImage
         = Some (mkSetting SettingNameDefaultInstanceManagerImage image_v1)
       ∧ GetSetting datastore0 SettingNameDisableSchedulingOnCordonedNode
         = (m !! SettingNameDisableSchedulingOnCordonedNode, None).
Proof.
  set (m := match ListSettings listers0 with
            | Ok m => m
            | Err _ => ∅
            end).
  assert (Hl : ls_sLister_List listers0 = Ok [setting_minimal]) by reflexivity.
  assert (Hm : ListSettings listers0 = Ok m) by (vm_compute; reflexivity).
  destruct (ListSettings_complete listers0 [setting_minimal] m Hl Hm)
    as (Hdom & Hlookup & Hget).
  exists m. split; [exact Hm|]. split; [exact Hdom|]. split; [|split].
  - rewrite (Hlookup SettingNameStorageMinimalAvailablePercentage
               (mkSettingDefinition SettingTypeInt true false "25") eq_refl).
    vm_compute. reflexivity.
  - rewrite (Hlookup SettingNameDefaultInstanceManagerImage
               (mkSettingDefinition SettingTypeString true true image_v1) eq_refl).
    vm_compute. reflexivity.
  - apply Hget; [|eexists; reflexivity].
    intros sName. unfold cached. rewrite filter_cons, filter_nil.
    destruct (decide (setting_Name setting_minimal = sName)) as [<-|Hne]; simpl.
    + reflexivity.
    + exists (notFound sName). split; [|reflexivity].
      unfold settings0. rewrite decide_False; [reflexivity|].
      intros ->. apply Hne. reflexivity.
Defined.

Lemma ReplicaAddressToReplicaName_round_trip_witness :
  ReplicaAddressToReplicaName "tcp://10.42.1.9:10015" replica_instances = "vol-1-r-2"
  ∧ ReplicaAddressToReplicaName "tcp://10.42.1.9:10016" replica_instances
    = "tcp://10.42.1.9:10016".
Proof.
  destruct (ReplicaAddressToReplicaName_round_trip replica_instances) as [Hname _].
  split.
  - apply (Hname "10.42.1.9" 10015). reflexivity.
  - apply (Hname "10.42.1.9" 10016). reflexivity.
Defined.

Lemma GetInstanceManagerByInstance_only_witness :
  outcome (GetInstanceManagerByInstance datastore0 (ObjEngine engine1)) state_managers
  = Ok im_e1
  ∧ exec (GetInstanceManagerByInstance datastore0 (ObjEngine engine1)) state_managers
    = state_managers.
Proof.
  assert (Hwf : store_wf (st_ims state_managers)).
  { apply (bool_decide_unpack _). vm_compute. exact I. }
  destruct (GetInstanceManagerByInstance_only datastore0 (ObjEngine engine1)
              state_managers Hwf) as [Hexec Honly].
  split; [|exact Hexec]. apply Honly.
  exists "vol-1-e-0", "node-1", InstanceManagerTypeEngine, image_v1.
  split; [reflexivity|]. split; [discriminate|]. split; [vm_compute; reflexivity|].
  split; [reflexivity|]. vm_compute. reflexivity.
Defined.

(** ** More of the node controller *)

Lemma syncNode_deleting_witness :
  (syncNode controller_deleting key1 state_idle).2 = None
  ∧ node_Finalizers (st_node (syncNode controller_deleting key1 state_idle).1)
    = ["kubernetes.io/pv-protection"]
  ∧ length (st_calls (syncNode controller_deleting key1 state_idle).1) = 1%nat.
Proof.
  destruct (syncNode_deleting controller_deleting key1 "node-1" node_deleting
              "2020-01-01T00:00:00Z" state_idle)
    as (Herr & _ & Hnode & _ & Hcalls & _).
  - vm_compute. reflexivity.
  - vm_compute. reflexivity.
  - reflexivity.
  - split; [exact Herr|]. split.
    + rewrite Hnode. vm_compute. reflexivity.
    + rewrite Hcalls. vm_compute. reflexivity.
Defined.

Lemma syncNode_shared_Ready_witness :
  let s' := exec (syncNode_shared (controller_kube false) "node-1") state_idle in
  cond_Status (node_ready (st_node s')) = ConditionStatusTrue
  ∧ cond_Reason (node_ready (st_node s')) = "".
Proof.
  assert (Hok : outcome (syncNode_shared (controller_kube false) "node-1") state_idle
                = Ok tt).
  { vm_compute. reflexivity. }
  destruct (syncNode_shared_Ready (controller_kube false) "node-1" state_idle Hok)
    as [_ Hready].
  apply (Hready (kube_node1 false) [manager_pod1] manager_pod1
           (mkPodCondition v1_PodReady "True")).
  - reflexivity.
  - repeat constructor; vm_compute; try discriminate.
    + intros Hin. apply list_elem_of_In in Hin. simpl in Hin.
      repeat (destruct Hin as [Hin|Hin]; [discriminate Hin|]). destruct Hin.
  - reflexivity.
  - vm_compute. reflexivity.
  - vm_compute. reflexivity.
  - reflexivity.
  - reflexivity.
Defined.

Lemma syncNode_kubeNode_cordoned_witness :
  let n' := st_node (exec (syncNode_kubeNode (controller_kube true) "node-1") state_idle) in
  cond_Status (node_schedulable n') = ConditionStatusFalse
  ∧ cond_Reason (node_schedulable n') = NodeConditionReasonKubernetesNodeCordoned
  ∧ nstat_Region (node_Status n') = "eu".
Proof.
  assert (Hok : outcome (syncNode_kubeNode (controller_kube true) "node-1") state_idle
                = Ok tt).
  { vm_compute. reflexivity. }
  pose proof (syncNode_kubeNode_cordoned (controller_kube true) "node-1" state_idle Hok)
    as Hcordoned.
  change (ds_GetKubernetesNode (nc_ds (controller_kube true)) "node-1")
    with (Ok (kube_node1 true) : result KubeNode) in Hcordoned.
  destruct Hcordoned as (disable & isUsingTopologyLabels & Hdisable & Husing
                         & Hstatus & Hreason & Hregion).
  assert (disable = true) as -> by (vm_compute in Hdisable; congruence).
  assert (isUsingTopologyLabels = true) as -> by (vm_compute in Husing; congruence).
  split; [exact Hstatus|]. split; [exact Hreason|].
  apply (f_equal fst) in Hregion. simpl in Hregion. rewrite Hregion.
  vm_compute. reflexivity.
Defined.

Lemma IsNodeDownOrDeleted_gone_witness :
  let node' := st_node (exec (syncNode_shared controller0 "node-1") state_idle) in
  IsNodeDownOrDeleted (datastore_of node' (λ _, None)) "node-1" = Ok true.
Proof.
  intros node'.
  destruct (IsNodeDownOrDeleted_gone controller0 "node-1" state_idle (notFound "node-1"))
    as [Hdown _].
  - reflexivity.
  - reflexivity.
  - vm_compute. reflexivity.
  - apply Hdown; [discriminate|]. vm_compute. reflexivity.
Defined.

Lemma enqueue_all_nodes_witness :
  ∃ keys,
    enqueueSetting listers0 setting_minimal state_idle
    = (State_with_queue state_idle (st_queue state_idle ++ keys), Ok tt)
    ∧ keys ≡ₚ ["longhorn-system/node-1"; "longhorn-system/node-2"].
Proof.
  destruct (enqueue_all_nodes listers0 state_idle) as [Hsetting _].
  destruct (Hsetting setting_minimal) as (keys & Hrun & Hkeys).
  exists keys. split; [exact Hrun|].
  change (ls_nLister_List listers0)
    with (Ok [node_named "node-1"; node_named "node-2"] : result (list Node)) in Hkeys.
  destruct Hkeys as [_ Hall]. apply Hall.
  apply (bool_decide_unpack _). vm_compute. exact I.
Defined.

Lemma enqueue_reconciles_witness :
  reconciles controller_owner key1 "node-1" node_stale
  ∧ enqueueReplica (nc_ds controller_owner)
      (mkReplica "vol-1-r-0" "node-1" "d1" GiB) state_idle
    = (State_with_queue state_idle (st_queue state_idle ++ [key1]), Ok tt).
Proof.
  destruct (enqueue_reconciles controller_owner "node-1" node_stale state_idle)
    as (Hrec & Hreplica & _).
  - vm_compute. reflexivity.
  - reflexivity.
  - reflexivity.
  - reflexivity.
  - reflexivity.
  - reflexivity.
  - split; [exact Hrec|]. apply Hreplica. reflexivity.
Defined.

(** ** More of the sync of the disks *)

Lemma syncDiskStatus_scheduled_witness :
  entry_sat "d1" (λ d, dstat_StorageScheduled d = 5 * GiB)
    (exec (syncDiskStatus controller_replicas) state_both_recorded)
  ∧ entry_sat "d2" (λ d, dstat_ScheduledReplica d = Some {[ "vol-2-r-0" := GiB ]})
      (exec (syncDiskStatus controller_replicas) state_both_recorded).
Proof.
  assert (Hok : outcome (syncDiskStatus controller_replicas) state_both_recorded = Ok tt).
  { vm_compute. reflexivity. }
  destruct (syncDiskStatus_scheduled controller_replicas state_both_recorded Hok)
    as (replicaList & Hlist & Hall).
  change (Ok replicas1 = Ok replicaList) in Hlist. injection Hlist as <-. split.
  - eapply entry_sat_impl; [|apply (Hall "d1" disk_a); reflexivity].
    intros d (_ & Hsum & _). rewrite Hsum.
    + vm_compute. reflexivity.
    + apply (bool_decide_unpack _). vm_compute. exact I.
    + vm_compute. reflexivity.
  - eapply entry_sat_impl; [|apply (Hall "d2" disk_b); reflexivity].
    intros d ((_ & m & Hm & Hnames) & _). rewrite Hm. f_equal.
    apply map_eq. intros name. rewrite Hnames.
    destruct (decide (name = "vol-2-r-0")) as [->|Hne].
    + vm_compute. reflexivity.
    + rewrite lookup_singleton_ne by done.
      change (replicas_on replicas1 "d2") with [mkReplica "vol-2-r-0" "node-1" "d2" GiB].
      rewrite filter_cons_False by (simpl; congruence). reflexivity.
Defined.

Lemma syncDiskStatus_probe_failed_witness :
  entry_sat "d3" (probe_failed "")
    (exec (syncDiskStatus controller_files) (state_files_new ∅)).
Proof.
  apply (syncDiskStatus_probe_failed controller_files (state_files_new ∅) "d3" disk_c
           (ErrorString "no such file or directory")).
  - reflexivity.
  - reflexivity.
Defined.

Lemma syncDiskStatus_in_service_witness :
  entry_sat "d1" (in_service "uuid-a" (mkDiskInfo "fsid-1" (100 * GiB) (5 * GiB)))
    (exec (syncDiskStatus controller_files) (state_files_pair "uuid-a")).
Proof.
  apply (syncDiskStatus_in_service controller_files (state_files_pair "uuid-a") "d1" disk_a).
  - discriminate.
  - reflexivity.
  - exists (recorded "uuid-a"). split; reflexivity.
  - reflexivity.
  - intros fs Hreach.
    pose proof (tags_reached_files _ _ _ _ "/mnt/a" (pair_other_paths "uuid-a") Hreach)
      as Hfile.
    assert (Htag : fs !! "/mnt/a" = Some "uuid-a").
    { rewrite Hfile. vm_compute. reflexivity. }
    exists (mkDiskConfig "uuid-a"). split; [|reflexivity].
    change (tags_read "/mnt/a" fs = Ok (mkDiskConfig "uuid-a")).
    unfold tags_read. rewrite Htag. reflexivity.
Defined.

Lemma syncDiskStatus_first_seen_witness :
  entry_sat "d1" (in_service "uuid-a" (mkDiskInfo "fsid-1" (100 * GiB) (5 * GiB)))
    (exec (syncDiskStatus controller_files) (state_files_new {[ "/mnt/a" := "uuid-a" ]}))
  ∧ entry_sat "d1" (in_service "uuid-new-/mnt/a" (mkDiskInfo "fsid-1" (100 * GiB) (5 * GiB)))
      (exec (syncDiskStatus controller_files) (state_files_new ∅)).
Proof.
  assert (Halone : ∀ fs0 id' disk' info',
            nspec_Disks (node_Spec (st_node (state_files_new fs0))) !! id' = Some disk' →
            nc_getDiskInfoHandler controller_files (disk_Path disk')
              (st_fs (state_files_new fs0)) = Ok info' →
            id' = "d1").
  { intros fs0 id' disk' info' Hdisk Hprobe.
    change (nspec_Disks (node_Spec (st_node (state_files_new fs0))))
      with (<["d1" := disk_a]> ({[ "d3" := disk_c ]} : gmap string DiskSpec)) in Hdisk.
    apply lookup_insert_Some in Hdisk as [[Heq _]|[_ Hdisk]]; [done|].
    apply lookup_singleton_Some in Hdisk as [_ <-]. vm_compute in Hprobe.
    discriminate Hprobe. }
  split.
  - apply (syncDiskStatus_first_seen controller_files
             (state_files_new {[ "/mnt/a" := "uuid-a" ]}) "d1" disk_a).
    + reflexivity.
    + reflexivity.
    + reflexivity.
    + intros id' disk' info' Hdisk Hprobe _.
      by apply (Halone {[ "/mnt/a" := "uuid-a" ]} id' disk' info').
    + intros fs Hreach.
      pose proof (tags_reached_files _ _ _ _ "/mnt/a"
                    (new_other_paths {[ "/mnt/a" := "uuid-a" ]}) Hreach) as Hfile.
      assert (Htag : fs !! "/mnt/a" = Some "uuid-a").
      { rewrite Hfile. vm_compute. reflexivity. }
      change (nc_getDiskConfig controller_files (disk_Path disk_a) fs)
        with (tags_read "/mnt/a" fs).
      unfold tags_read. rewrite Htag. simpl. split; [reflexivity | discriminate].
  - apply (syncDiskStatus_first_seen controller_files (state_files_new ∅) "d1" disk_a).
    + reflexivity.
    + reflexivity.
    + reflexivity.
    + intros id' disk' info' Hdisk Hprobe _. by apply (Halone ∅ id' disk' info').
    + intros fs Hreach.
      pose proof (tags_reached_files _ _ _ _ "/mnt/a" (new_other_paths ∅) Hreach) as Hfile.
      assert (Htag : fs !! "/mnt/a" = None).
      { rewrite Hfile. vm_compute. reflexivity. }
      change (nc_getDiskConfig controller_files (disk_Path disk_a) fs)
        with (tags_read "/mnt/a" fs).
      unfold tags_read. rewrite Htag. simpl. split; [reflexivity|].
      exists (mkDiskConfig "uuid-new-/mnt/a"). split; reflexivity.
Defined.
